(** * Task scheduler: hierarchy, blocking and recurrence engines

    A shallow embedding of the task services of the repository
    (task-hierarchy.service.ts, task-blocking.service.ts,
    recurring-task.service.ts, tasks.service.ts) and the properties that
    its specification states about them.

    Conventions of the embedding.
    - The task table is a finite map from the primary key [id] to the row;
      the many-to-many [blocks]/[blockedBy] relation is its join table, a
      list of pairs (blockingTaskId, blockedTaskId).  The relations of a
      loaded task ([parentTask], [children], [blocks], [blockedBy]) are read
      through the foreign key and the join table when the task is loaded.
    - [save] of a loaded task writes the columns of the object; a property
      that is [undefined] is skipped.  [save] of a new task gives it the
      next key of the counter [nextId].
    - [delete] and [remove] cascade as the entity declares
      ([onDelete: 'CASCADE'] on [parentTask], [parentRecurringTask] and the
      join table): the rows that refer to a deleted row, and the edges at
      it, go with it.
    - A JavaScript [Date] is its time value, an integer number of
      milliseconds since the epoch; the local time zone is UTC, so the
      calendar methods are the ECMAScript ones without an offset.  The
      times are within the range of [Date] ([JSDate.inRange]); an Invalid
      Date is not a value of the embedding.  Dates in requests are taken as
      parsed.
    - [new Date()] is a parameter [now], read once per operation.
    - Every service method is a computation over the store that returns a
      value, throws, or runs out of fuel; fuel stands for the number of
      recursive calls or loop iterations the JavaScript code may perform.
      What was written before an exception stays written.
    - Calls to the notification services and the calls the orchestrator
      makes to its completion gates and hooks are recorded in a trace of
      events.
    - The notification services (notifications.service.ts,
      scheduled-notification.service.ts) are embedded on their own, as
      functions on the notification table; the job that looks for overdue
      tasks reads the task table. *)

From Stdlib Require Import ZArith Lia.
From stdpp Require Import base decidable option list strings gmap fin_maps fin_sets.
From stdpp Require Import sorting.

Local Open Scope Z_scope.

(** ** ECMAScript dates (UTC) *)

Module JSDate.

Definition msPerDay : Z := 86400000.
Definition msPerHour : Z := 3600000.

Definition Day (t : Z) : Z := t / msPerDay.
Definition TimeWithinDay (t : Z) : Z := t mod msPerDay.

Definition DayFromYear (y : Z) : Z :=
  365 * (y - 1970) + (y - 1969) / 4 - (y - 1901) / 100 + (y - 1601) / 400.

Definition LeapYear (y : Z) : bool :=
  (y mod 4 =? 0) && (negb (y mod 100 =? 0) || (y mod 400 =? 0)).

(** The largest year whose first day is not after day [d]. *)
Definition YearFromDay (d : Z) : Z :=
  let y0 := 1970 + (400 * d) / 146097 in
  if DayFromYear (y0 + 1) <=? d then y0 + 1
  else if DayFromYear y0 <=? d then y0
  else y0 - 1.

Definition leapDays (leap : bool) : Z := if leap then 1 else 0.

(** Number of days of the year before month [m] (0 = January). *)
Definition DaysBeforeMonth (leap : bool) (m : Z) : Z :=
  if m <=? 0 then 0
  else if m =? 1 then 31
  else if m =? 2 then 59 + leapDays leap
  else if m =? 3 then 90 + leapDays leap
  else if m =? 4 then 120 + leapDays leap
  else if m =? 5 then 151 + leapDays leap
  else if m =? 6 then 181 + leapDays leap
  else if m =? 7 then 212 + leapDays leap
  else if m =? 8 then 243 + leapDays leap
  else if m =? 9 then 273 + leapDays leap
  else if m =? 10 then 304 + leapDays leap
  else 334 + leapDays leap.

Definition MonthFromDayWithinYear (leap : bool) (dy : Z) : Z :=
  if dy <? 31 then 0
  else if dy <? 59 + leapDays leap then 1
  else if dy <? 90 + leapDays leap then 2
  else if dy <? 120 + leapDays leap then 3
  else if dy <? 151 + leapDays leap then 4
  else if dy <? 181 + leapDays leap then 5
  else if dy <? 212 + leapDays leap then 6
  else if dy <? 243 + leapDays leap then 7
  else if dy <? 273 + leapDays leap then 8
  else if dy <? 304 + leapDays leap then 9
  else if dy <? 334 + leapDays leap then 10
  else 11.

Definition YearFromTime (t : Z) : Z := YearFromDay (Day t).
Definition DayWithinYear (t : Z) : Z := Day t - DayFromYear (YearFromTime t).
Definition MonthFromTime (t : Z) : Z :=
  MonthFromDayWithinYear (LeapYear (YearFromTime t)) (DayWithinYear t).
Definition DateFromTime (t : Z) : Z :=
  DayWithinYear t
  - DaysBeforeMonth (LeapYear (YearFromTime t)) (MonthFromTime t) + 1.

(** MakeDay accepts a month and a date out of range and carries over. *)
Definition MakeDay (year month date : Z) : Z :=
  let ym := year + month / 12 in
  let mn := month mod 12 in
  DayFromYear ym + DaysBeforeMonth (LeapYear ym) mn + date - 1.

Definition MakeDate (day time : Z) : Z := day * msPerDay + time.

(** The time values of a [Date]: [TimeClip] turns a time beyond 8.64e15
    milliseconds from the epoch into an Invalid Date.  The methods below
    compute on every integer; what they give is what [Date] gives as long
    as the time they start from and the time they arrive at are in this
    range. *)
Definition maxTime : Z := 8640000000000000.
Definition inRange (t : Z) : Prop := - maxTime <= t <= maxTime.

(** The methods of [Date.prototype] that the services call. *)
Definition getDate (t : Z) : Z := DateFromTime t.
Definition getMonth (t : Z) : Z := MonthFromTime t.
Definition getFullYear (t : Z) : Z := YearFromTime t.

Definition setDate (t date : Z) : Z :=
  MakeDate (MakeDay (YearFromTime t) (MonthFromTime t) date) (TimeWithinDay t).
Definition setMonth (t month : Z) : Z :=
  MakeDate (MakeDay (YearFromTime t) month (DateFromTime t)) (TimeWithinDay t).
Definition setFullYear (t year : Z) : Z :=
  MakeDate (MakeDay year (MonthFromTime t) (DateFromTime t)) (TimeWithinDay t).

(** Days before the first day of month [k mod 12] of year [k / 12]. *)
Definition DayFromMonthIndex (k : Z) : Z :=
  DayFromYear (k / 12) + DaysBeforeMonth (LeapYear (k / 12)) (k mod 12).

End JSDate.

(** ** Data model *)

Inductive RecurrencePattern := DAILY | WEEKLY | MONTHLY | YEARLY.

#[global] Instance RecurrencePattern_eq_dec : EqDecision RecurrencePattern.
Proof. solve_decision. Defined.

(** The Task entity (the class [Task] of
    src/modules/tasks/tasks.controller.ts, imported by the services as
    entities/task.entity).  The primary key [id] is the key of the row in
    the table; [createdAt] and [updatedAt] are kept by the database and
    read by no service.  The relations [parentTask] and
    [parentRecurringTask] are the columns [parentTaskId] and
    [parentRecurrencyId]; both are [onDelete: 'CASCADE'], as is the join
    table [task_blocks] of [blocks] and [blockedBy]: see [delete_rows].
    The column [recurrenceInterval] is nullable; here a row without an
    interval holds the 1 that a request defaults to, which is also what its
    one reader, [parentTask.recurrenceInterval || 1], makes of a null. *)
Record Task := mkTask {
  userId : Z;
  title : string;
  description : option string;
  scheduledTime : Z;
  completed : bool;
  recurrencePattern : option RecurrencePattern;
  recurrenceInterval : Z;
  recurrenceEndDate : option Z;
  parentRecurrencyId : option Z;
  parentTaskId : option Z;
}.

Record Store := mkStore {
  tasks : gmap Z Task;
  blocking : list (Z * Z);
  nextId : Z;
}.

(** The exceptions of the services, named after the error taxonomy of the
    specification.  [NotFoundException] is [NotFound]; a
    [BadRequestException] is classified by its message; a plain [Error] is
    [InternalError]. *)
Inductive Error :=
  | NotFound
  | InvalidRelationship
  | CircularDependency
  | DuplicateRelationship
  | SelfReference
  | BlockedByChildren (titles : list string)
  | BlockedByDependency (titles : list string)
  | InternalError.

Inductive Event :=
  | TaskCreatedNotification (id uid : Z) (ttl : string)
  | TaskCompletedNotification (id uid : Z) (ttl : string)
  | ScheduleReminders (id : Z) (at_time : Z)
  | GateParentCompletion (id uid : Z)
  | GateCanBeCompleted (id uid : Z)
  | HookInstanceCompleted (id : Z)
  | CascadeParents (id uid : Z).

(** ** Computations over the store *)

Inductive Res (A : Type) :=
  | Ret (a : A) (s : Store) (ev : list Event)
  | Raise (e : Error) (s : Store) (ev : list Event)
  | OutOfFuel.
Arguments Ret {A} a s ev.
Arguments Raise {A} e s ev.
Arguments OutOfFuel {A}.

Definition M (A : Type) : Type := Store -> Res A.

Definition ret {A} (a : A) : M A := fun s => Ret a s [].

(** The events [evs] happened before the computation that gave [r]. *)
Definition prefix_events {A} (evs : list Event) (r : Res A) : Res A :=
  match r with
  | Ret a s ev => Ret a s (evs ++ ev)
  | Raise e s ev => Raise e s (evs ++ ev)
  | OutOfFuel => OutOfFuel
  end.

Definition bind {A B} (m : M A) (k : A -> M B) : M B := fun s =>
  match m s with
  | Ret a s1 ev1 => prefix_events ev1 (k a s1)
  | Raise e s1 ev1 => Raise e s1 ev1
  | OutOfFuel => OutOfFuel
  end.

Definition throw {A} (e : Error) : M A := fun s => Raise e s [].
Definition get : M Store := fun s => Ret s s [].
Definition put (s' : Store) : M unit := fun _ => Ret tt s' [].
Definition emit (e : Event) : M unit := fun s => Ret tt s [e].
Definition diverge {A} : M A := fun _ => OutOfFuel.

(** [try { m } catch (error) { log }]: the exception is swallowed, what was
    written before it stays written. *)
Definition try_catch (m : M unit) : M unit := fun s =>
  match m s with
  | Raise _ s1 ev1 => Ret tt s1 ev1
  | r => r
  end.

Definition lift_fuel {A} (o : option A) : M A :=
  match o with Some a => ret a | None => diverge end.

Declare Scope task_scope.
Delimit Scope task_scope with task.
Notation "x <- m ;; k" := (bind m (fun x => k))
  (at level 20, m at level 99, k at level 200) : task_scope.
Notation "'exec' m ;; k" := (bind m (fun _ => k))
  (at level 20, m at level 99, k at level 200) : task_scope.
Local Open Scope task_scope.

Definition when (b : bool) (m : M unit) : M unit := if b then m else ret tt.

(** ** The repository: queries and writes *)

(** JavaScript truthiness of an optional numeric id: [null], [undefined]
    and [0] are falsy. *)
Definition truthy (o : option Z) : bool :=
  match o with
  | Some n => negb (n =? 0)
  | None => false
  end.

Definition isSome {A} (o : option A) : bool :=
  match o with Some _ => true | None => false end.

(** [x === true] on an optional boolean. *)
Definition isTrue (o : option bool) : bool :=
  match o with Some true => true | _ => false end.

Definition set_completed (b : bool) (t : Task) : Task :=
  mkTask (userId t) (title t) (description t) (scheduledTime t) b
    (recurrencePattern t) (recurrenceInterval t) (recurrenceEndDate t)
    (parentRecurrencyId t) (parentTaskId t).

Definition set_parentTaskId (p : option Z) (t : Task) : Task :=
  mkTask (userId t) (title t) (description t) (scheduledTime t) (completed t)
    (recurrencePattern t) (recurrenceInterval t) (recurrenceEndDate t)
    (parentRecurrencyId t) p.

(** [findOne({ where: { id, userId } })] *)
Definition findOne (id uid : Z) (s : Store) : option Task :=
  match tasks s !! id with
  | Some t => if userId t =? uid then Some t else None
  | None => None
  end.

(** [find({ where })]: the rows that satisfy the condition, with their keys. *)
Definition find_where (P : Z -> Task -> bool) (s : Store) : list (Z * Task) :=
  List.filter (fun kt => P kt.1 kt.2) (map_to_list (tasks s)).

Definition opt_eqb (o : option Z) (n : Z) : bool :=
  match o with Some m => m =? n | None => false end.

(** The relation [parentTask] of a loaded task: the row its foreign key
    refers to, whoever owns it. *)
Definition parentTask (s : Store) (t : Task) : option (Z * Task) :=
  match parentTaskId t with
  | Some pid =>
      match tasks s !! pid with
      | Some p => Some (pid, p)
      | None => None
      end
  | None => None
  end.

(** The relation [children] of task [id]. *)
Definition children (s : Store) (id : Z) : list (Z * Task) :=
  find_where (fun _ c => opt_eqb (parentTaskId c) id) s.

(** The relation [blocks] of task [id]: the rows joined through the table
    of blocking edges. *)
Definition blocks (s : Store) (id : Z) : list (Z * Task) :=
  omap (fun e : Z * Z =>
          if e.1 =? id then
            match tasks s !! e.2 with
            | Some t => Some (e.2, t)
            | None => None
            end
          else None) (blocking s).

(** The relation [blockedBy] of task [id]. *)
Definition blockedBy (s : Store) (id : Z) : list (Z * Task) :=
  omap (fun e : Z * Z =>
          if e.2 =? id then
            match tasks s !! e.1 with
            | Some t => Some (e.1, t)
            | None => None
            end
          else None) (blocking s).

(** [save(entity)] of a loaded row and [update(criteria, partial)]. *)
Definition save_row (id : Z) (t : Task) : M unit := fun s =>
  Ret tt (mkStore (<[id := t]> (tasks s)) (blocking s) (nextId s)) [].

(** [save(entity)] of a new row: the key is generated. *)
Definition insert_row (t : Task) : M Z := fun s =>
  Ret (nextId s)
      (mkStore (<[nextId s := t]> (tasks s)) (blocking s) (nextId s + 1)) [].

Definition set_blocking (l : list (Z * Z)) : M unit := fun s =>
  Ret tt (mkStore (tasks s) l (nextId s)) [].

(** A row that refers to a row with a key in [D] by one of its two
    foreign keys. *)
Definition refers_to (D : gset Z) (t : Task) : bool :=
  from_option (fun p => bool_decide (p ∈ D)) false (parentTaskId t)
  || from_option (fun p => bool_decide (p ∈ D)) false (parentRecurrencyId t).

(** [ON DELETE CASCADE]: the rows that refer to a deleted row are deleted
    with it, and so on; after as many rounds as there are rows no round
    adds a key. *)
Definition cascade_step (m : gmap Z Task) (D : gset Z) : gset Z :=
  D ∪ dom (filter (fun kt : Z * Task => refers_to D kt.2 = true) m).

Fixpoint cascade (n : nat) (m : gmap Z Task) (D : gset Z) : gset Z :=
  match n with
  | O => D
  | S n' => cascade n' m (cascade_step m D)
  end.

(** The store without the rows [D], the rows that the cascade deletes with
    them, and the rows of the join table at a deleted row. *)
Definition without_rows (D : gset Z) (s : Store) : Store :=
  let gone := cascade (size (tasks s)) (tasks s) D in
  mkStore (filter (fun kt : Z * Task => kt.1 ∉ gone) (tasks s))
          (filter (fun e : Z * Z => (e.1 ∉ gone) /\ (e.2 ∉ gone)) (blocking s))
          (nextId s).

(** A [DELETE] of the rows with the keys [D]. *)
Definition delete_rows (D : gset Z) : M unit := fun s =>
  Ret tt (without_rows D s) [].

(** [delete(criteria)] *)
Definition delete_where (P : Z -> Task -> bool) : M unit := fun s =>
  delete_rows (dom (filter (fun kt : Z * Task => P kt.1 kt.2 = true) (tasks s))) s.

(** [remove(entity)] *)
Definition remove_row (id : Z) : M unit := delete_rows {[id]}.

(** ** TaskHierarchyService *)

(** Validate that a child task's due date is not after its parent's. *)
Definition validateChildDueDate (childScheduledTime parentId uid : Z)
  : M unit :=
  s <- get ;;
  match findOne parentId uid s with
  | None => throw NotFound
  | Some parent =>
      if scheduledTime parent <? childScheduledTime
      then throw InvalidRelationship
      else ret tt
  end.

(** Check if a task is a descendant of another task: the walk up the
    parent chain, one recursive call per unit of fuel. *)
Fixpoint isDescendant (fuel : nat) (s : Store)
    (potentialDescendantId ancestorId uid : Z) : option bool :=
  match fuel with
  | O => None
  | S fuel' =>
      match findOne potentialDescendantId uid s with
      | None => Some false
      | Some task =>
          match parentTask s task with
          | None => Some false
          | Some (pid, _) =>
              if pid =? ancestorId then Some true
              else isDescendant fuel' s pid ancestorId uid
          end
      end
  end.

Definition validateNoCircularDependency (fuel : nat)
    (taskId parentId uid : Z) : M unit :=
  s <- get ;;
  isCircular <- lift_fuel (isDescendant fuel s parentId taskId uid) ;;
  if isCircular : bool then throw InvalidRelationship else ret tt.

(** A parent task cannot be completed until all children are complete. *)
Definition validateParentCompletion (taskId uid : Z) : M unit :=
  s <- get ;;
  let incompleteChildren :=
    find_where (fun _ c => opt_eqb (parentTaskId c) taskId
                           && (userId c =? uid)
                           && negb (completed c)) s in
  match incompleteChildren with
  | [] => ret tt
  | _ :: _ => throw (BlockedByChildren (map (fun kt => title kt.2) incompleteChildren))
  end.

(** [update({ id, userId }, { completed: true })] *)
Definition update_completed (id uid : Z) : M unit :=
  s <- get ;;
  match findOne id uid s with
  | Some t => save_row id (set_completed true t)
  | None => ret tt
  end.

(** Auto-complete parent tasks when all children are complete. *)
Fixpoint checkAndCompleteParentTasks (fuel : nat) (taskId uid : Z)
  : M unit :=
  match fuel with
  | O => diverge
  | S fuel' =>
      s <- get ;;
      match findOne taskId uid s with
      | None => ret tt
      | Some task =>
          match parentTask s task with
          | None => ret tt
          | Some (pid, parent) =>
              if completed parent then ret tt
              else
                let siblings :=
                  find_where (fun _ c => opt_eqb (parentTaskId c) pid
                                         && (userId c =? uid)) s in
                if forallb (fun kt => completed kt.2) siblings then
                  exec update_completed pid uid ;;
                  checkAndCompleteParentTasks fuel' pid uid
                else ret tt
          end
      end
  end.

(** Move a task to a different parent (or remove the parent).  The save
    writes the parent id as it is given; the foreign key of the column is
    not checked here.  A parent id other than 0 reaches the save only after
    [validateChildDueDate] has found the parent among the tasks of the
    user; the id 0 skips the checks of [if (newParentTaskId)], and the
    database refuses it where the embedding writes it. *)
Definition moveTask (fuel : nat) (taskId : Z) (newParentTaskId : option Z)
    (uid : Z) : M Task :=
  s <- get ;;
  match findOne taskId uid s with
  | None => throw NotFound
  | Some task =>
      exec (match newParentTaskId with
            | Some p =>
                if truthy newParentTaskId then
                  exec validateNoCircularDependency fuel taskId p uid ;;
                  validateChildDueDate (scheduledTime task) p uid
                else ret tt
            | None => ret tt
            end) ;;
      let task' := set_parentTaskId newParentTaskId task in
      exec save_row taskId task' ;;
      ret task'
  end.

(** [order: { scheduledTime: 'ASC' }]: the rows by ascending scheduled
    time; rows with the same time stay in the order of the table. *)
Definition earlier (x y : Z * Task) : Prop :=
  scheduledTime x.2 <= scheduledTime y.2.

#[global] Instance earlier_dec x y : Decision (earlier x y).
Proof. unfold earlier. apply _. Defined.

Definition by_scheduledTime (l : list (Z * Task)) : list (Z * Task) :=
  merge_sort earlier l.

(** All child tasks of a parent task. *)
Definition getChildTasks (parentId uid : Z) : M (list (Z * Task)) :=
  s <- get ;;
  ret (by_scheduledTime
         (find_where (fun _ c => opt_eqb (parentTaskId c) parentId
                                 && (userId c =? uid)) s)).

(** A task with its [children] loaded level by level, as the hierarchy
    queries return it. *)
#[warnings="-register-all"] Inductive TaskTree :=
  | TaskNode (id : Z) (task : Task) (subtasks : list TaskTree).

Definition tree_root (t : TaskTree) : Z * Task :=
  match t with TaskNode id task _ => (id, task) end.

Definition tree_children (t : TaskTree) : list TaskTree :=
  match t with TaskNode _ _ subtasks => subtasks end.

(** [for (const x of xs) { await f(x) }], with what each call gave; an
    exception ends the loop. *)
Fixpoint for_each {A B} (f : A -> M B) (xs : list A) : M (list B) :=
  match xs with
  | [] => ret []
  | x :: xs' =>
      y <- f x ;;
      ys <- for_each f xs' ;;
      ret (y :: ys)
  end.

(** The full hierarchy of a task.  The relation [children] is loaded
    whoever owns the rows, every child is then loaded again as a task of
    the user and [Object.assign] puts the loaded task in its place; one
    recursive call per unit of fuel. *)
Fixpoint getTaskHierarchy (fuel : nat) (taskId uid : Z) : M TaskTree :=
  match fuel with
  | O => diverge
  | S fuel' =>
      s <- get ;;
      match findOne taskId uid s with
      | None => throw NotFound
      | Some task =>
          loaded <- for_each (fun child : Z * Task =>
                                getTaskHierarchy fuel' child.1 uid)
                             (children s taskId) ;;
          ret (TaskNode taskId task loaded)
      end
  end.

(** The tasks of the user that have no parent, each with its relation
    [children]. *)
Definition getRootTasks (uid : Z) : M (list (Z * Task * list (Z * Task))) :=
  s <- get ;;
  ret ((fun kt : Z * Task => (kt, children s kt.1))
       <$> by_scheduledTime
             (find_where (fun _ t => (userId t =? uid)
                                     && negb (isSome (parentTaskId t))) s)).

(** Recursively load the children of a task: [task.children] is set to
    the child tasks of the user, loaded in turn; one recursive call per
    unit of fuel. *)
Fixpoint loadTaskChildren (fuel : nat) (task : Z * Task) (uid : Z)
  : M TaskTree :=
  match fuel with
  | O => diverge
  | S fuel' =>
      children' <- getChildTasks task.1 uid ;;
      loaded <- for_each (fun child => loadTaskChildren fuel' child uid)
                         children' ;;
      ret (TaskNode task.1 task.2 loaded)
  end.

(** The complete task tree of a user. *)
Definition getTaskTree (fuel : nat) (uid : Z) : M (list TaskTree) :=
  rootTasks <- getRootTasks uid ;;
  for_each (fun rootTask : Z * Task * list (Z * Task) =>
              loadTaskChildren fuel rootTask.1 uid) rootTasks.

(** ** TaskBlockingService *)

(** The first [true] of a sequence of recursive calls, in the order of the
    [for ... of] loop; a call that does not return stops the loop. *)
Fixpoint first_true {A} (f : A -> option bool) (l : list A) : option bool :=
  match l with
  | [] => Some false
  | x :: l' =>
      match f x with
      | None => None
      | Some true => Some true
      | Some false => first_true f l'
      end
  end.

(** Recursively check if taskA eventually blocks taskB.  Every branch of
    the search gets its own copy of the visited set. *)
Fixpoint doesTaskEventuallyBlock (fuel : nat) (s : Store)
    (taskAId taskBId uid : Z) (visited : gset Z) : option bool :=
  match fuel with
  | O => None
  | S fuel' =>
      if bool_decide (taskAId ∈ visited) then Some false
      else
        let visited' := {[taskAId]} ∪ visited in
        match findOne taskAId uid s with
        | None => Some false
        | Some _ =>
            let taskA_blocks := blocks s taskAId in
            if existsb (fun bt : Z * Task => bt.1 =? taskBId) taskA_blocks
            then Some true
            else
              first_true
                (fun bt : Z * Task =>
                   doesTaskEventuallyBlock fuel' s bt.1 taskBId uid visited')
                taskA_blocks
        end
  end.

Definition validateNoCircularBlocking (fuel : nat)
    (blockingTaskId blockedTaskId uid : Z) : M unit :=
  s <- get ;;
  wouldCreateCircle <-
    lift_fuel (doesTaskEventuallyBlock fuel s blockedTaskId blockingTaskId uid ∅) ;;
  if wouldCreateCircle : bool then throw CircularDependency else ret tt.

(** Check if taskA is an ancestor (parent, grandparent, etc.) of taskB. *)
Fixpoint isAncestor (fuel : nat) (s : Store) (taskAId taskBId uid : Z)
  : option bool :=
  match fuel with
  | O => None
  | S fuel' =>
      match findOne taskBId uid s with
      | None => Some false
      | Some taskB =>
          match parentTask s taskB with
          | None => Some false
          | Some (pid, _) =>
              if pid =? taskAId then Some true
              else isAncestor fuel' s taskAId pid uid
          end
      end
  end.

Definition validateNoHierarchyConflict (fuel : nat)
    (blockingTaskId blockedTaskId uid : Z) : M unit :=
  s <- get ;;
  isParentBlocking <- lift_fuel (isAncestor fuel s blockingTaskId blockedTaskId uid) ;;
  if isParentBlocking : bool then throw InvalidRelationship
  else
    isChildBlocking <- lift_fuel (isAncestor fuel s blockedTaskId blockingTaskId uid) ;;
    if isChildBlocking : bool then throw InvalidRelationship else ret tt.

(** Business rules for blocking relationships. *)
Definition validateBlockingRules (fuel : nat)
    (blockingTaskId : Z) (blockingTask : Task)
    (blockedTaskId : Z) (blockedTask : Task) (uid : Z) : M unit :=
  if completed blockingTask then throw InvalidRelationship
  else if truthy (parentRecurrencyId blockingTask) then throw InvalidRelationship
  else if truthy (parentRecurrencyId blockedTask) then throw InvalidRelationship
  else if isSome (recurrencePattern blockingTask) then throw InvalidRelationship
  else if isSome (recurrencePattern blockedTask) then throw InvalidRelationship
  else
    exec validateNoHierarchyConflict fuel blockingTaskId blockedTaskId uid ;;
    if scheduledTime blockedTask <? scheduledTime blockingTask
    then throw InvalidRelationship
    else ret tt.

Definition addBlockingRelationship (fuel : nat)
    (blockingTaskId blockedTaskId uid : Z) : M unit :=
  s <- get ;;
  match findOne blockingTaskId uid s with
  | None => throw NotFound
  | Some blockingTask =>
      match findOne blockedTaskId uid s with
      | None => throw NotFound
      | Some blockedTask =>
          if blockingTaskId =? blockedTaskId then throw SelfReference
          else if existsb (fun bt : Z * Task => bt.1 =? blockedTaskId)
                          (blocks s blockingTaskId)
          then throw DuplicateRelationship
          else
            exec validateNoCircularBlocking fuel blockingTaskId blockedTaskId uid ;;
            exec validateBlockingRules fuel blockingTaskId blockingTask
                   blockedTaskId blockedTask uid ;;
            set_blocking (blocking s ++ [(blockingTaskId, blockedTaskId)])
      end
  end.

Definition removeBlockingRelationship (blockingTaskId blockedTaskId uid : Z)
  : M unit :=
  s <- get ;;
  match findOne blockingTaskId uid s with
  | None => throw NotFound
  | Some _ =>
      set_blocking
        (List.filter
           (fun e : Z * Z => negb ((e.1 =? blockingTaskId) && (e.2 =? blockedTaskId)))
           (blocking s))
  end.

(** All tasks that are blocking a specific task. *)
Definition getBlockingTasks (taskId uid : Z) : M (list (Z * Task)) :=
  s <- get ;;
  match findOne taskId uid s with
  | None => throw NotFound
  | Some _ => ret (blockedBy s taskId)
  end.

(** Check if a task can be completed (not blocked by incomplete tasks). *)
Definition validateTaskCanBeCompleted (taskId uid : Z) : M unit :=
  blockingTasks <- getBlockingTasks taskId uid ;;
  let incompleteBlockingTasks :=
    List.filter (fun bt : Z * Task => negb (completed bt.2)) blockingTasks in
  match incompleteBlockingTasks with
  | [] => ret tt
  | _ :: _ =>
      throw (BlockedByDependency
               (map (fun bt : Z * Task => title bt.2) incompleteBlockingTasks))
  end.

Definition isTaskAvailableToStart (taskId uid : Z) : M bool :=
  blockingTasks <- getBlockingTasks taskId uid ;;
  ret (forallb (fun bt : Z * Task => completed bt.2) blockingTasks).

(** All tasks that are blocked by a specific task. *)
Definition getBlockedTasks (taskId uid : Z) : M (list (Z * Task)) :=
  s <- get ;;
  match findOne taskId uid s with
  | None => throw NotFound
  | Some _ => ret (blocks s taskId)
  end.

(** All available tasks: the incomplete tasks of the user that are not
    blocked by an incomplete task. *)
Definition getAvailableTasks (uid : Z) : M (list (Z * Task)) :=
  s <- get ;;
  let userTasks :=
    find_where (fun _ t => (userId t =? uid) && negb (completed t)) s in
  ret (List.filter
         (fun kt : Z * Task =>
            forallb (fun bt : Z * Task => completed bt.2) (blockedBy s kt.1))
         userTasks).

(** The answer of [getTaskDependencyChain]. *)
Record TaskDependencyChain := mkTaskDependencyChain {
  chain_task : Z * Task;
  chain_blockedBy : list (Z * Task);
  chain_blocks : list (Z * Task);
  chain_isAvailable : bool;
}.

(** The dependency chain of a task: what blocks it, what it blocks. *)
Definition getTaskDependencyChain (taskId uid : Z) : M TaskDependencyChain :=
  s <- get ;;
  match findOne taskId uid s with
  | None => throw NotFound
  | Some task =>
      let isAvailable :=
        forallb (fun bt : Z * Task => completed bt.2) (blockedBy s taskId) in
      ret {| chain_task := (taskId, task);
             chain_blockedBy := blockedBy s taskId;
             chain_blocks := blocks s taskId;
             chain_isAvailable := isAvailable |}
  end.

(** ** RecurringTaskService *)

(** Optimal buffer size (in days) based on the recurrence pattern. *)
Definition getOptimalBuffer (pattern : option RecurrencePattern) : Z :=
  match pattern with
  | Some DAILY => 3
  | Some WEEKLY => 14
  | Some MONTHLY => 60
  | Some YEARLY => 365
  | None => 7
  end.

(** Minimum buffer threshold, [Math.ceil(optimal * 0.3)]; on the five
    values of [getOptimalBuffer] the floating-point product rounds up to
    the integer ceiling of three tenths. *)
Definition getMinBuffer (pattern : option RecurrencePattern) : Z :=
  (getOptimalBuffer pattern * 3 + 9) / 10.

Definition countUpcomingInstances (now parentRecurrencyId' : Z) (s : Store) : Z :=
  Z.of_nat (length (find_where
    (fun _ t => opt_eqb (parentRecurrencyId t) parentRecurrencyId'
                && negb (completed t)
                && (now <? scheduledTime t)) s)).

Definition needsMoreInstances (now parentId : Z) (parentTask : Task)
    (s : Store) : bool :=
  countUpcomingInstances now parentId s
  <? getMinBuffer (recurrencePattern parentTask).

(** The next scheduled time of a recurrence pattern; the [default] branch
    of the switch throws.  The setters of [Date] are taken in UTC and on
    times within [JSDate.inRange]: an Invalid Date is not a value of the
    embedding. *)
Definition getNextScheduledTime (currentTime : Z)
    (pattern : option RecurrencePattern) (interval : Z) : M Z :=
  match pattern with
  | Some DAILY =>
      ret (JSDate.setDate currentTime (JSDate.getDate currentTime + interval))
  | Some WEEKLY =>
      ret (JSDate.setDate currentTime (JSDate.getDate currentTime + 7 * interval))
  | Some MONTHLY =>
      ret (JSDate.setMonth currentTime (JSDate.getMonth currentTime + interval))
  | Some YEARLY =>
      ret (JSDate.setFullYear currentTime (JSDate.getFullYear currentTime + interval))
  | None => throw InternalError
  end.

(** [parentTask.recurrenceInterval || 1] *)
Definition intervalOrOne (t : Task) : Z :=
  if recurrenceInterval t =? 0 then 1 else recurrenceInterval t.

(** [recurrenceEndDate && nextScheduledTime > recurrenceEndDate] *)
Definition afterEndDate (t : Task) (time : Z) : bool :=
  match recurrenceEndDate t with
  | Some e => e <? time
  | None => false
  end.

(** The row of a generated instance; the columns that are not given take
    their defaults. *)
Definition newInstance (parentId : Z) (parentTask : Task) (time : Z) : Task :=
  {| userId := userId parentTask;
     title := title parentTask;
     description := description parentTask;
     scheduledTime := time;
     completed := false;
     recurrencePattern := None;
     recurrenceInterval := 1;
     recurrenceEndDate := None;
     parentRecurrencyId := Some parentId;
     parentTaskId := None |}.

(** The [while (nextScheduledTime <= bufferDate)] loop of
    [generateInstancesForOptimalBuffer], one iteration per unit of fuel. *)
Fixpoint generateLoop (fuel : nat) (parentId : Z) (parentTask : Task)
    (bufferDate nextScheduledTime : Z) : M unit :=
  match fuel with
  | O => diverge
  | S fuel' =>
      if nextScheduledTime <=? bufferDate then
        if afterEndDate parentTask nextScheduledTime then ret tt
        else
          s <- get ;;
          let existingInstance :=
            find_where (fun _ t => opt_eqb (parentRecurrencyId t) parentId
                                   && (scheduledTime t =? nextScheduledTime)) s in
          exec (match existingInstance with
                | [] =>
                    id <- insert_row (newInstance parentId parentTask nextScheduledTime) ;;
                    emit (ScheduleReminders id nextScheduledTime)
                | _ :: _ => ret tt
                end) ;;
          next <- getNextScheduledTime nextScheduledTime
                    (recurrencePattern parentTask) (intervalOrOne parentTask) ;;
          generateLoop fuel' parentId parentTask bufferDate next
      else ret tt
  end.

(** [findOne({ where: { parentRecurrencyId }, order: { scheduledTime: 'DESC' } })]:
    only the scheduled time of the row found is used. *)
Definition lastInstanceTime (parentId : Z) (s : Store) : option Z :=
  match find_where (fun _ t => opt_eqb (parentRecurrencyId t) parentId) s with
  | [] => None
  | kt :: l => Some (foldr (fun kt' acc => Z.max (scheduledTime kt'.2) acc)
                           (scheduledTime kt.2) l)
  end.

(** Generate instances for a recurring task up to the optimal buffer.
    [parentScheduledTime] is the property [scheduledTime] of the object
    passed in; it is [None] when the property is [undefined], and the
    [Date] built from it is then invalid: no comparison with it holds and
    the loop is not entered. *)
Definition generateInstancesForOptimalBuffer (fuel : nat) (now parentId : Z)
    (parentTask : Task) (parentScheduledTime : option Z) : M unit :=
  let bufferDays := getOptimalBuffer (recurrencePattern parentTask) in
  let bufferDate := JSDate.setDate now (JSDate.getDate now + bufferDays) in
  if match recurrenceEndDate parentTask with
     | Some e => e <? now
     | None => false
     end
  then ret tt
  else
    s <- get ;;
    let seed :=
      match lastInstanceTime parentId s with
      | Some t => Some t
      | None => parentScheduledTime
      end in
    match seed with
    | Some t =>
        next <- getNextScheduledTime t (recurrencePattern parentTask)
                  (intervalOrOne parentTask) ;;
        generateLoop fuel parentId parentTask bufferDate next
    | None =>
        exec (match recurrencePattern parentTask with
              | None => throw InternalError
              | Some _ => ret tt
              end) ;;
        ret tt
    end.

(** Generate instances when a task instance is completed. *)
Definition onTaskInstanceCompleted (fuel : nat) (now : Z)
    (completedInstance : Task) : M unit :=
  match parentRecurrencyId completedInstance with
  | Some prid =>
      if truthy (parentRecurrencyId completedInstance) then
        try_catch
          (s <- get ;;
           match tasks s !! prid with
           | None => ret tt
           | Some parentTask =>
               if isSome (recurrencePattern parentTask) then
                 if needsMoreInstances now prid parentTask s then
                   generateInstancesForOptimalBuffer fuel now prid parentTask
                     (Some (scheduledTime parentTask))
                 else ret tt
               else ret tt
           end)
      else ret tt
  | None => ret tt
  end.

(** The request bodies.  A field that is [None] is absent ([undefined]). *)
Record CreateTaskDto := mkCreateTaskDto {
  c_title : string;
  c_description : option string;
  c_scheduledTime : Z;
  c_parentTaskId : option Z;
  c_recurrencePattern : option RecurrencePattern;
  c_recurrenceInterval : option Z;
  c_recurrenceEndDate : option Z;
}.

(** Modelled from the spec: UpdateTaskDto (dto/update-task.dto) is not
    among the sources; its fields are the ones [update] reads and the ones
    of CreateTaskDto, all optional, with [completed].  [parentTaskId] can
    also be [null]: [Some None]. *)
Record UpdateTaskDto := mkUpdateTaskDto {
  u_title : option string;
  u_description : option string;
  u_scheduledTime : option Z;
  u_parentTaskId : option (option Z);
  u_recurrencePattern : option RecurrencePattern;
  u_recurrenceInterval : option Z;
  u_recurrenceEndDate : option Z;
  u_completed : option bool;
}.

Definition default_to {A} (o : option A) (d : A) : A :=
  match o with Some a => a | None => d end.

(** [x || 1] on an optional number. *)
Definition orOne (o : option Z) : Z :=
  match o with
  | Some n => if n =? 0 then 1 else n
  | None => 1
  end.

(** Create a recurring task and generate initial instances. *)
Definition createRecurringTask (fuel : nat) (now : Z)
    (createTaskDto : CreateTaskDto) (uid : Z) : M (Z * Task) :=
  let parentTask :=
    {| userId := uid;
       title := c_title createTaskDto;
       description := c_description createTaskDto;
       scheduledTime := c_scheduledTime createTaskDto;
       completed := false;
       recurrencePattern := c_recurrencePattern createTaskDto;
       recurrenceInterval := orOne (c_recurrenceInterval createTaskDto);
       recurrenceEndDate := c_recurrenceEndDate createTaskDto;
       parentRecurrencyId := None;
       parentTaskId := None |} in
  id <- insert_row parentTask ;;
  exec (if isSome (recurrencePattern parentTask) then
          generateInstancesForOptimalBuffer fuel now id parentTask
            (Some (scheduledTime parentTask))
        else ret tt) ;;
  ret (id, parentTask).

(** [Object.assign(task, dto)] as [save] persists it: a property that is
    [undefined] leaves the column as it is.  The task was loaded with its
    relations, so for a task that has a parent the loaded [parentTask]
    object stays on the entity beside a new [parentTaskId]; which of the
    two [save] writes is not modelled, and a changed [parentTaskId] is
    taken as written. *)
Definition assign_dto (d : UpdateTaskDto) (t : Task) : Task :=
  {| userId := userId t;
     title := default_to (u_title d) (title t);
     description :=
       match u_description d with Some x => Some x | None => description t end;
     scheduledTime := default_to (u_scheduledTime d) (scheduledTime t);
     completed := default_to (u_completed d) (completed t);
     recurrencePattern :=
       match u_recurrencePattern d with
       | Some p => Some p
       | None => recurrencePattern t
       end;
     recurrenceInterval := default_to (u_recurrenceInterval d) (recurrenceInterval t);
     recurrenceEndDate :=
       match u_recurrenceEndDate d with
       | Some e => Some e
       | None => recurrenceEndDate t
       end;
     parentRecurrencyId := parentRecurrencyId t;
     parentTaskId := default_to (u_parentTaskId d) (parentTaskId t) |}.

Definition set_recurrenceEndDate (e : option Z) (t : Task) : Task :=
  mkTask (userId t) (title t) (description t) (scheduledTime t) (completed t)
    (recurrencePattern t) (recurrenceInterval t) e
    (parentRecurrencyId t) (parentTaskId t).

(** Update a recurring task and regenerate instances if needed.
    [updateData] is the object [update] builds: its keys [scheduledTime] and
    [recurrenceEndDate] are always present, with the value [undefined] when
    the request has none, so the object that [save] returns has these two
    properties [undefined] in that case, whatever the row holds; the value
    returned here is the row as it is stored. *)
Definition updateRecurringTask (fuel : nat) (now taskId : Z)
    (updateData : UpdateTaskDto) (uid : Z) : M Task :=
  s <- get ;;
  match findOne taskId uid s with
  | None => throw InternalError
  | Some task =>
      let scheduleFieldsUpdated :=
        isSome (u_scheduledTime updateData)
        || isSome (u_recurrencePattern updateData)
        || truthy (u_recurrenceInterval updateData)
        || isSome (u_recurrenceEndDate updateData) in
      exec when (isSome (recurrencePattern task)
                 && negb (isSome (parentRecurrencyId task))
                 && scheduleFieldsUpdated)
             (delete_where
                (fun _ t => opt_eqb (parentRecurrencyId t) taskId
                            && negb (completed t)
                            && (now <? scheduledTime t))) ;;
      let row := assign_dto updateData task in
      exec save_row taskId row ;;
      let updatedTask := set_recurrenceEndDate (u_recurrenceEndDate updateData) row in
      exec when (isSome (recurrencePattern updatedTask)
                 && negb (isSome (parentRecurrencyId updatedTask))
                 && scheduleFieldsUpdated)
             (generateInstancesForOptimalBuffer fuel now taskId updatedTask
                (u_scheduledTime updateData)) ;;
      ret row
  end.

(** The recurring tasks the maintenance jobs look at: the templates
    that are not completed. *)
Definition recurringTemplates (s : Store) : list (Z * Task) :=
  find_where (fun _ t => isSome (recurrencePattern t) && negb (completed t)
                         && negb (isSome (parentRecurrencyId t))) s.

(** The loop of the maintenance jobs: every template that needs more
    instances gets them. *)
Fixpoint maintainAll (fuel : nat) (now : Z) (recurringTasks : list (Z * Task))
  : M unit :=
  match recurringTasks with
  | [] => ret tt
  | task :: rest =>
      s <- get ;;
      exec when (needsMoreInstances now task.1 task.2 s)
             (generateInstancesForOptimalBuffer fuel now task.1 task.2
                (Some (scheduledTime task.2))) ;;
      maintainAll fuel now rest
  end.

(** Daily maintenance: generate instances for all recurring tasks. *)
Definition dailyMaintenance (fuel : nat) (now : Z) : M unit :=
  try_catch (s <- get ;; maintainAll fuel now (recurringTemplates s)).

(** Hourly check for tasks with a low buffer. *)
Definition hourlyBufferCheck (fuel : nat) (now : Z) : M unit :=
  try_catch (s <- get ;; maintainAll fuel now (recurringTemplates s)).

(** Delete a recurring task and all its instances. *)
Definition deleteRecurringTask (taskId uid : Z) : M unit :=
  s <- get ;;
  match findOne taskId uid s with
  | None => throw InternalError
  | Some task =>
      exec when (isSome (recurrencePattern task)
                 && negb (isSome (parentRecurrencyId task)))
             (delete_where (fun _ t => opt_eqb (parentRecurrencyId t) taskId)) ;;
      remove_row taskId
  end.

(** All instances of a recurring task. *)
Definition getTaskInstances (parentRecurrencyId' uid : Z)
  : M (list (Z * Task)) :=
  s <- get ;;
  ret (by_scheduledTime
         (find_where (fun _ t => opt_eqb (parentRecurrencyId t) parentRecurrencyId'
                                 && (userId t =? uid)) s)).

(** ** TasksService *)

(** The checks on the task that is to become the parent: recurring
    templates and recurring instances cannot have children. *)
Definition rejectRecurringParent (parentId uid : Z) : M unit :=
  s <- get ;;
  match findOne parentId uid s with
  | Some parentTask =>
      if isSome (recurrencePattern parentTask) then throw InvalidRelationship
      else if truthy (parentRecurrencyId parentTask) then throw InvalidRelationship
      else ret tt
  | None => ret tt
  end.

Definition create (fuel : nat) (now : Z) (createTaskDto : CreateTaskDto)
    (uid : Z) : M (Z * Task) :=
  if isSome (c_recurrencePattern createTaskDto)
     && truthy (c_parentTaskId createTaskDto)
  then throw InvalidRelationship
  else
    exec (match c_parentTaskId createTaskDto with
          | Some pid =>
              if truthy (c_parentTaskId createTaskDto) then
                exec validateChildDueDate (c_scheduledTime createTaskDto) pid uid ;;
                rejectRecurringParent pid uid
              else ret tt
          | None => ret tt
          end) ;;
    if isSome (c_recurrencePattern createTaskDto) then
      parent <- createRecurringTask fuel now createTaskDto uid ;;
      exec emit (TaskCreatedNotification parent.1 uid (title parent.2)) ;;
      ret parent
    else
      let task :=
        {| userId := uid;
           title := c_title createTaskDto;
           description := c_description createTaskDto;
           scheduledTime := c_scheduledTime createTaskDto;
           completed := false;
           recurrencePattern := None;
           recurrenceInterval := default_to (c_recurrenceInterval createTaskDto) 1;
           recurrenceEndDate := c_recurrenceEndDate createTaskDto;
           parentRecurrencyId := None;
           parentTaskId := c_parentTaskId createTaskDto |} in
      id <- insert_row task ;;
      exec emit (TaskCreatedNotification id uid (title task)) ;;
      exec emit (ScheduleReminders id (scheduledTime task)) ;;
      ret (id, task).

(** [findOne(id, user)] of the orchestrator throws when there is no row. *)
Definition findOneOrThrow (id uid : Z) : M Task :=
  s <- get ;;
  match findOne id uid s with
  | Some t => ret t
  | None => throw NotFound
  end.

Definition update (fuel : nat) (now id : Z) (updateTaskDto : UpdateTaskDto)
    (uid : Z) : M Task :=
  task <- findOneOrThrow id uid ;;
  s <- get ;;
  if isSome (u_recurrencePattern updateTaskDto) && truthy (parentTaskId task)
  then throw InvalidRelationship
  else if isSome (u_recurrencePattern updateTaskDto)
          && (0 <? Z.of_nat (length (children s id)))
  then throw InvalidRelationship
  else if truthy (default_to (u_parentTaskId updateTaskDto) None)
          && isSome (recurrencePattern task)
  then throw InvalidRelationship
  else
    exec when (isTrue (u_completed updateTaskDto) && negb (completed task))
           (exec emit (GateParentCompletion id uid) ;;
            exec validateParentCompletion id uid ;;
            exec emit (GateCanBeCompleted id uid) ;;
            validateTaskCanBeCompleted id uid) ;;
    exec (match u_parentTaskId updateTaskDto with
          | Some (Some newParent) =>
              exec rejectRecurringParent newParent uid ;;
              exec validateNoCircularDependency fuel id newParent uid ;;
              validateChildDueDate
                (default_to (u_scheduledTime updateTaskDto) (scheduledTime task))
                newParent uid
          | Some None => ret tt
          | None =>
              match u_scheduledTime updateTaskDto, parentTaskId task with
              | Some time, Some p =>
                  if truthy (parentTaskId task)
                  then validateChildDueDate time p uid
                  else ret tt
              | _, _ => ret tt
              end
          end) ;;
    if isSome (recurrencePattern task) && negb (isSome (parentRecurrencyId task))
    then updateRecurringTask fuel now id updateTaskDto uid
    else
      let wasCompleted := completed task in
      let updatedTask := assign_dto updateTaskDto task in
      exec save_row id updatedTask ;;
      exec when (negb wasCompleted && isTrue (u_completed updateTaskDto))
             (exec emit (TaskCompletedNotification id uid (title updatedTask)) ;;
              exec emit (HookInstanceCompleted id) ;;
              exec onTaskInstanceCompleted fuel now updatedTask ;;
              exec emit (CascadeParents id uid) ;;
              checkAndCompleteParentTasks fuel id uid) ;;
      exec when (isSome (u_scheduledTime updateTaskDto)
                 && negb (completed updatedTask))
             (emit (ScheduleReminders id (scheduledTime updatedTask))) ;;
      ret updatedTask.

Definition completedUpdate (b : bool) : UpdateTaskDto :=
  mkUpdateTaskDto None None None None None None None (Some b).

Definition markAsCompleted (fuel : nat) (now id uid : Z) : M Task :=
  exec emit (GateParentCompletion id uid) ;;
  exec validateParentCompletion id uid ;;
  exec emit (GateCanBeCompleted id uid) ;;
  exec validateTaskCanBeCompleted id uid ;;
  result <- update fuel now id (completedUpdate true) uid ;;
  exec emit (CascadeParents id uid) ;;
  exec checkAndCompleteParentTasks fuel id uid ;;
  ret result.

Definition markAsIncomplete (fuel : nat) (now id uid : Z) : M Task :=
  update fuel now id (completedUpdate false) uid.

(** The orchestrator hands the move over to the hierarchy service. *)
Definition TasksService_moveTask (fuel : nat) (taskId : Z)
    (newParentTaskId : option Z) (uid : Z) : M Task :=
  moveTask fuel taskId newParentTaskId uid.

Definition findAll (uid : Z) : M (list (Z * Task)) :=
  s <- get ;;
  ret (by_scheduledTime (find_where (fun _ t => userId t =? uid) s)).

Definition findByStatus (completed' : bool) (uid : Z) : M (list (Z * Task)) :=
  s <- get ;;
  ret (by_scheduledTime
         (find_where (fun _ t => Bool.eqb (completed t) completed'
                                 && (userId t =? uid)) s)).

Definition remove (id uid : Z) : M unit :=
  task <- findOneOrThrow id uid ;;
  if isSome (recurrencePattern task) && negb (isSome (parentRecurrencyId task))
  then deleteRecurringTask id uid
  else remove_row id.

Definition getRecurringTaskInstances (parentRecurrencyId' uid : Z)
  : M (list (Z * Task)) :=
  getTaskInstances parentRecurrencyId' uid.

(** ** Notifications *)

(** The notification table.  The columns [createdAt] and [updatedAt] are
    kept by the database and are read only by the [ORDER BY] of
    [findAll]; a row inserted later has the later [createdAt] and the
    larger key, so the order [createdAt DESC] is the descending order of
    the keys.  The services below never throw but for the NotFound of
    [findOne], so the [try]/[catch] blocks around them are not entered. *)
Inductive NotificationType :=
  | TASK_REMINDER | TASK_CREATED | TASK_COMPLETED | TASK_OVERDUE | TASK_UPDATED.

Inductive NotificationPriority := LOW | MEDIUM | HIGH | URGENT.

#[global] Instance NotificationType_eq_dec : EqDecision NotificationType.
Proof. solve_decision. Defined.

#[global] Instance NotificationPriority_eq_dec : EqDecision NotificationPriority.
Proof. solve_decision. Defined.

Module Notification.

Record t := mk {
  type : NotificationType;
  title : string;
  message : string;
  priority : NotificationPriority;
  isRead : bool;
  scheduledFor : option Z;
  isSent : bool;
  userId : Z;
  taskId : option Z;
  metadata : option string;
}.

End Notification.

Module CreateNotificationDto.

Record t := mk {
  type : NotificationType;
  title : string;
  message : string;
  priority : option NotificationPriority;
  scheduledFor : option Z;
  taskId : option Z;
  metadata : option string;
}.

End CreateNotificationDto.

(** [PartialType(CreateNotificationDto)] with [isRead] and [isSent]. *)
Module UpdateNotificationDto.

Record t := mk {
  type : option NotificationType;
  title : option string;
  message : option string;
  priority : option NotificationPriority;
  scheduledFor : option Z;
  taskId : option Z;
  metadata : option string;
  isRead : option bool;
  isSent : option bool;
}.

End UpdateNotificationDto.

(** [page] and [limit] are whole numbers from 1, as the validation of the
    query demands. *)
Module NotificationFilterDto.

Record t := mk {
  isRead : option bool;
  type : option NotificationType;
  priority : option NotificationPriority;
  page : option positive;
  limit : option positive;
}.

End NotificationFilterDto.

Record NStore := mkNStore {
  notifications : gmap Z Notification.t;
  nextNotificationId : Z;
}.

(** The rows of the notification table that satisfy a condition. *)
Definition select_where (P : Z -> Notification.t -> bool) (ns : NStore)
  : list (Z * Notification.t) :=
  List.filter (fun kn => P kn.1 kn.2) (map_to_list (notifications ns)).

(** [orderBy('notification.createdAt', 'DESC')] *)
Definition newer (x y : Z * Notification.t) : Prop := y.1 <= x.1.

#[global] Instance newer_dec x y : Decision (newer x y).
Proof. unfold newer. apply _. Defined.

Definition newest_first (l : list (Z * Notification.t))
  : list (Z * Notification.t) :=
  merge_sort newer l.

(** [update(where, partial)] and [delete(where)] of the repository. *)
Definition update_where (P : Z -> Notification.t -> bool)
    (f : Notification.t -> Notification.t) (ns : NStore) : NStore :=
  mkNStore (map_imap (fun k n => Some (if P k n then f n else n))
                     (notifications ns))
           (nextNotificationId ns).

Definition delete_where_n (P : Z -> Notification.t -> bool) (ns : NStore)
  : NStore :=
  mkNStore (filter (fun kn : Z * Notification.t => P kn.1 kn.2 = false)
                   (notifications ns))
           (nextNotificationId ns).

Definition set_isRead (b : bool) (n : Notification.t) : Notification.t :=
  Notification.mk (Notification.type n) (Notification.title n)
    (Notification.message n) (Notification.priority n) b
    (Notification.scheduledFor n) (Notification.isSent n)
    (Notification.userId n) (Notification.taskId n) (Notification.metadata n).

Definition set_isSent (b : bool) (n : Notification.t) : Notification.t :=
  Notification.mk (Notification.type n) (Notification.title n)
    (Notification.message n) (Notification.priority n) (Notification.isRead n)
    (Notification.scheduledFor n) b
    (Notification.userId n) (Notification.taskId n) (Notification.metadata n).

(** [Object.assign(notification, updateNotificationDto)] followed by
    [save]: the columns that the request gives are written.  The loaded
    [task] relation stays on the entity beside a new [taskId]; a changed
    [taskId] is taken as written. *)
Definition assign_notification (dto : UpdateNotificationDto.t)
    (n : Notification.t) : Notification.t :=
  Notification.mk
    (default (Notification.type n) (UpdateNotificationDto.type dto))
    (default (Notification.title n) (UpdateNotificationDto.title dto))
    (default (Notification.message n) (UpdateNotificationDto.message dto))
    (default (Notification.priority n) (UpdateNotificationDto.priority dto))
    (default (Notification.isRead n) (UpdateNotificationDto.isRead dto))
    (match UpdateNotificationDto.scheduledFor dto with
     | Some d => Some d
     | None => Notification.scheduledFor n
     end)
    (default (Notification.isSent n) (UpdateNotificationDto.isSent dto))
    (Notification.userId n)
    (match UpdateNotificationDto.taskId dto with
     | Some d => Some d
     | None => Notification.taskId n
     end)
    (match UpdateNotificationDto.metadata dto with
     | Some d => Some d
     | None => Notification.metadata n
     end).

(** The double quote of the template strings of the messages. *)
Definition dquote : string := String (Ascii.ascii_of_nat 34) EmptyString.

Module NotificationsService.

Definition create (dto : CreateNotificationDto.t) (uid : Z) (ns : NStore)
  : (Z * Notification.t) * NStore :=
  let notification :=
    Notification.mk (CreateNotificationDto.type dto)
      (CreateNotificationDto.title dto) (CreateNotificationDto.message dto)
      (default MEDIUM (CreateNotificationDto.priority dto))
      false (CreateNotificationDto.scheduledFor dto) false uid
      (CreateNotificationDto.taskId dto) (CreateNotificationDto.metadata dto) in
  ((nextNotificationId ns, notification),
   mkNStore (<[nextNotificationId ns := notification]> (notifications ns))
            (nextNotificationId ns + 1)).

(** The condition that the query builder of [findAll] puts together. *)
Definition matches (uid : Z) (filterDto : NotificationFilterDto.t)
    (n : Notification.t) : bool :=
  (Notification.userId n =? uid)
  && match NotificationFilterDto.isRead filterDto with
     | Some b => Bool.eqb (Notification.isRead n) b
     | None => true
     end
  && match NotificationFilterDto.type filterDto with
     | Some ty => bool_decide (Notification.type n = ty)
     | None => true
     end
  && match NotificationFilterDto.priority filterDto with
     | Some pr => bool_decide (Notification.priority n = pr)
     | None => true
     end.

(** One page of the notifications of a user, newest first, with the
    number of all that match. *)
Definition findAll (uid : Z) (filterDto : NotificationFilterDto.t)
    (ns : NStore) : list (Z * Notification.t) * nat :=
  let page := default 1%positive (NotificationFilterDto.page filterDto) in
  let limit := default 10%positive (NotificationFilterDto.limit filterDto) in
  let matching :=
    newest_first (select_where (fun _ n => matches uid filterDto n) ns) in
  (take (Pos.to_nat limit)
        (drop ((Pos.to_nat page - 1) * Pos.to_nat limit) matching),
   length matching).

Definition findOne (id uid : Z) (ns : NStore) : Error + Notification.t :=
  match notifications ns !! id with
  | Some n => if Notification.userId n =? uid then inr n else inl NotFound
  | None => inl NotFound
  end.

Definition update (id uid : Z) (dto : UpdateNotificationDto.t) (ns : NStore)
  : Error + Notification.t * NStore :=
  match findOne id uid ns with
  | inl e => inl e
  | inr notification =>
      let notification' := assign_notification dto notification in
      inr (notification',
           mkNStore (<[id := notification']> (notifications ns))
                    (nextNotificationId ns))
  end.

Definition remove (id uid : Z) (ns : NStore) : Error + NStore :=
  match findOne id uid ns with
  | inl e => inl e
  | inr _ =>
      inr (mkNStore (delete id (notifications ns)) (nextNotificationId ns))
  end.

Definition markAsRead (id uid : Z) (ns : NStore)
  : Error + Notification.t * NStore :=
  update id uid
    (UpdateNotificationDto.mk None None None None None None None (Some true) None)
    ns.

Definition markAllAsRead (uid : Z) (ns : NStore) : NStore :=
  update_where (fun _ n => (Notification.userId n =? uid)
                           && negb (Notification.isRead n))
               (set_isRead true) ns.

Definition getUnreadCount (uid : Z) (ns : NStore) : nat :=
  length (select_where (fun _ n => (Notification.userId n =? uid)
                                   && negb (Notification.isRead n)) ns).

Definition createTaskReminderNotification (taskId uid scheduledFor : Z)
    (ns : NStore) : (Z * Notification.t) * NStore :=
  create (CreateNotificationDto.mk TASK_REMINDER "Task Reminder"
            "You have a task scheduled for this time" (Some MEDIUM)
            (Some scheduledFor) (Some taskId) None) uid ns.

Definition createTaskCreatedNotification (taskId uid : Z) (taskTitle : string)
    (ns : NStore) : (Z * Notification.t) * NStore :=
  create (CreateNotificationDto.mk TASK_CREATED "Task Created"
            ("New task " +:+ dquote +:+ taskTitle +:+ dquote
             +:+ " has been created")
            (Some LOW) None (Some taskId) None) uid ns.

Definition createTaskCompletedNotification (taskId uid : Z)
    (taskTitle : string) (ns : NStore) : (Z * Notification.t) * NStore :=
  create (CreateNotificationDto.mk TASK_COMPLETED "Task Completed"
            ("Task " +:+ dquote +:+ taskTitle +:+ dquote
             +:+ " has been completed")
            (Some MEDIUM) None (Some taskId) None) uid ns.

Definition createTaskOverdueNotification (taskId uid : Z) (taskTitle : string)
    (ns : NStore) : (Z * Notification.t) * NStore :=
  create (CreateNotificationDto.mk TASK_OVERDUE "Task Overdue"
            ("Task " +:+ dquote +:+ taskTitle +:+ dquote +:+ " is overdue")
            (Some HIGH) None (Some taskId) None) uid ns.

Definition getPendingScheduledNotifications (now : Z) (ns : NStore)
  : list (Z * Notification.t) :=
  select_where (fun _ n => negb (Notification.isSent n)
                           && match Notification.scheduledFor n with
                              | Some d => d <=? now
                              | None => false
                              end) ns.

Definition markAsSent (id : Z) (ns : NStore) : NStore :=
  update_where (fun k _ => k =? id) (set_isSent true) ns.

Definition removeUnsentTaskReminders (taskId : Z) (ns : NStore) : NStore :=
  delete_where_n (fun _ n => opt_eqb (Notification.taskId n) taskId
                             && bool_decide (Notification.type n = TASK_REMINDER)
                             && negb (Notification.isSent n)) ns.

End NotificationsService.

(** ** ScheduledNotificationService *)

(** Every minute: the notifications that are due are marked as sent. *)
Definition handlePendingNotifications (now : Z) (ns : NStore) : NStore :=
  let pendingNotifications :=
    NotificationsService.getPendingScheduledNotifications now ns in
  foldl (fun ns' notification =>
           NotificationsService.markAsSent notification.1 ns')
        ns pendingNotifications.

(** Every five minutes: an overdue notification for each task that is
    due and not completed, unless the first page of the overdue
    notifications of its user has one for the task. *)
Definition checkOverdueTasks (now : Z) (s : Store) (ns : NStore) : NStore :=
  let overdueTasks :=
    find_where (fun _ t => (scheduledTime t <=? now) && negb (completed t)) s in
  foldl (fun ns' (task : Z * Task) =>
           let existingNotification :=
             NotificationsService.findAll (userId task.2)
               (NotificationFilterDto.mk None (Some TASK_OVERDUE) None None None)
               ns' in
           let hasOverdueNotification :=
             existsb (fun notification : Z * Notification.t =>
                        opt_eqb (Notification.taskId notification.2) task.1)
                     existingNotification.1 in
           if negb hasOverdueNotification then
             (NotificationsService.createTaskOverdueNotification
                task.1 (userId task.2) (title task.2) ns').2
           else ns')
        ns overdueTasks.

Definition scheduleTaskReminder (taskId uid reminderTime : Z) (ns : NStore)
  : NStore :=
  (NotificationsService.createTaskReminderNotification
     taskId uid reminderTime ns).2.

(** [reminderMinutesBefore] when the caller gives none. *)
Definition defaultReminderMinutes : list Z := [30; 10; 5].

(** Schedule the reminders of a task: the unsent ones are removed, then
    one is scheduled for every number of minutes whose reminder time is
    still to come. *)
Definition scheduleRemindersForTask (now : Z) (task : Z * Task)
    (reminderMinutesBefore : list Z) (ns : NStore) : NStore :=
  let ns1 := NotificationsService.removeUnsentTaskReminders task.1 ns in
  let taskTime := scheduledTime task.2 in
  foldl (fun ns' minutes =>
           let reminderTime := taskTime - minutes * 60 * 1000 in
           if now <? reminderTime
           then scheduleTaskReminder task.1 (userId task.2) reminderTime ns'
           else ns')
        ns1 reminderMinutesBefore.

(** ** Vocabulary of the specification *)

Definition day (n : Z) : Z := n * JSDate.msPerDay.
Definition hours (n : Z) : Z := n * JSDate.msPerHour.

(** A plain task: no recurrence, no lineage. *)
Definition plainTask (uid : Z) (ttl : string) (time : Z) (done' : bool)
    (parent : option Z) : Task :=
  {| userId := uid; title := ttl; description := None;
     scheduledTime := time; completed := done';
     recurrencePattern := None; recurrenceInterval := 1;
     recurrenceEndDate := None; parentRecurrencyId := None;
     parentTaskId := parent |}.

(** A recurring template. *)
Definition templateTask (uid : Z) (ttl : string) (time : Z)
    (pattern : RecurrencePattern) (interval : Z) (endDate : option Z) : Task :=
  {| userId := uid; title := ttl; description := None;
     scheduledTime := time; completed := false;
     recurrencePattern := Some pattern; recurrenceInterval := interval;
     recurrenceEndDate := endDate; parentRecurrencyId := None;
     parentTaskId := None |}.

Definition store_of (rows : list (Z * Task)) (edges : list (Z * Z)) (next : Z)
  : Store :=
  mkStore (list_to_map rows) edges next.

Definition res_store {A} (r : Res A) : option Store :=
  match r with
  | Ret _ s _ | Raise _ s _ => Some s
  | OutOfFuel => None
  end.

Definition res_events {A} (r : Res A) : list Event :=
  match r with
  | Ret _ _ ev | Raise _ _ ev => ev
  | OutOfFuel => []
  end.

(** The store with another table of blocking edges, and the table
    without the edge from [a] to [b]. *)
Definition with_blocking (l : list (Z * Z)) (s : Store) : Store :=
  mkStore (tasks s) l (nextId s).

Definition without_edge (a b : Z) (l : list (Z * Z)) : list (Z * Z) :=
  List.filter (fun e : Z * Z => negb ((e.1 =? a) && (e.2 =? b))) l.

(** Two plain tasks of user 7, [A] due on day 1 and [B] due on day 2. *)
Definition store_AB : Store :=
  store_of [(1, plainTask 7 "A" (day 1) false None);
            (2, plainTask 7 "B" (day 2) false None)] [] 3.

(** The store with row [id] written. *)
Definition with_task (id : Z) (t : Task) (s : Store) : Store :=
  mkStore (<[id := t]> (tasks s)) (blocking s) (nextId s).

(** A computation that only reads: it ends in the store it started in and
    records no event. *)
Definition readonly {A} (m : M A) : Prop :=
  forall s, match m s with
            | Ret _ s' ev | Raise _ s' ev => s' = s /\ ev = []
            | OutOfFuel => True
            end.

(** A computation all of whose events satisfy [P] and all of whose
    exceptions satisfy [Q]. *)
Definition quiet (P : Event -> Prop) (Q : Error -> Prop) {A} (m : M A) : Prop :=
  forall s, match m s with
            | Ret _ _ ev => Forall P ev
            | Raise e _ ev => Forall P ev /\ Q e
            | OutOfFuel => True
            end.

(** The events and the errors of a completion: the two gates, the
    notification, the regeneration hook and the cascade. *)
Definition completionEvent (e : Event) : Prop :=
  match e with
  | TaskCompletedNotification _ _ _ | GateParentCompletion _ _
  | GateCanBeCompleted _ _ | HookInstanceCompleted _ | CascadeParents _ _ => True
  | TaskCreatedNotification _ _ _ | ScheduleReminders _ _ => False
  end.

Definition gateError (e : Error) : Prop :=
  match e with
  | BlockedByChildren _ | BlockedByDependency _ => True
  | _ => False
  end.

(** A computation of an update that is not a completion: none of the
    events of a completion, none of the errors of the gates. *)
Definition silent {A} (m : M A) : Prop :=
  quiet (fun e => ~ completionEvent e) (fun e => ~ gateError e) m.

(** A parent that is completed with its child [C]; both belong to user 7. *)
Definition store_PC : Store :=
  store_of [(1, plainTask 7 "P" (day 2) true None);
            (2, plainTask 7 "C" (day 1) true (Some 1))] [] 3.

(** The step of a recurrence pattern, and the [k]-th candidate time after
    a seed. *)
Definition nextTime (p : RecurrencePattern) (interval t : Z) : Z :=
  match p with
  | DAILY => JSDate.setDate t (JSDate.getDate t + interval)
  | WEEKLY => JSDate.setDate t (JSDate.getDate t + 7 * interval)
  | MONTHLY => JSDate.setMonth t (JSDate.getMonth t + interval)
  | YEARLY => JSDate.setFullYear t (JSDate.getFullYear t + interval)
  end.

Definition candidate (p : RecurrencePattern) (interval seed : Z) (k : nat) : Z :=
  Nat.iter k (nextTime p interval) seed.

(** The keys in use are below the key counter. *)
Definition ids_fresh (s : Store) : Prop :=
  map_Forall (fun k _ => k < nextId s) (tasks s).

#[global] Instance ids_fresh_dec s : Decision (ids_fresh s).
Proof. unfold ids_fresh. apply _. Defined.

(** The store with a new row. *)
Definition with_new (t : Task) (s : Store) : Store :=
  mkStore (<[nextId s := t]> (tasks s)) (blocking s) (nextId s + 1).

(** Template [pid] has an instance scheduled at [time]. *)
Definition has_instance (s : Store) (pid time : Z) : Prop :=
  exists k t, tasks s !! k = Some t /\
              parentRecurrencyId t = Some pid /\ scheduledTime t = time.

(** The horizon of the generator: [now] plus the optimal buffer, in days. *)
Definition horizon (now : Z) (pattern : option RecurrencePattern) : Z :=
  now + getOptimalBuffer pattern * JSDate.msPerDay.

(** The seed of the generator: the latest instance, or the template. *)
Definition seedTime (pid : Z) (R : Task) (s : Store) : Z :=
  default_to (lastInstanceTime pid s) (scheduledTime R).

(** The buffer property as the specification states it: after the
    generator has run for a template whose end date is not in the past, the
    incomplete instances scheduled strictly in the future are at least as
    many as any number [n] that is at most the minimum buffer and at most
    the number of candidate times before the end date. *)
Definition buffer_property : Prop :=
  forall (fuel : nat) (now pid : Z) (R : Task) (p : RecurrencePattern)
         (s s' : Store) (ev : list Event),
    ids_fresh s ->
    tasks s !! pid = Some R ->
    recurrencePattern R = Some p -> parentRecurrencyId R = None ->
    (forall e, recurrenceEndDate R = Some e -> now <= e) ->
    generateInstancesForOptimalBuffer fuel now pid R (Some (scheduledTime R)) s
    = Ret tt s' ev ->
    forall n : nat,
      Z.of_nat n <= getMinBuffer (Some p) ->
      (forall j : nat, (1 <= j <= n)%nat ->
         afterEndDate R
           (candidate p (intervalOrOne R) (seedTime pid R s) j) = false) ->
      Z.of_nat n <= countUpcomingInstances now pid s'.

(** A weekly template of user 7, due on day 100 at 09:00, without
    instances, and the store after the generator has run at that time. *)
Definition store_W : Store :=
  store_of [(1, templateTask 7 "W" (day 100 + hours 9) WEEKLY 1 None)] [] 2.

Definition store_W_generated : Store :=
  store_of
    [(1, templateTask 7 "W" (day 100 + hours 9) WEEKLY 1 None);
     (2, newInstance 1 (templateTask 7 "W" (day 100 + hours 9) WEEKLY 1 None)
           (day 107 + hours 9));
     (3, newInstance 1 (templateTask 7 "W" (day 100 + hours 9) WEEKLY 1 None)
           (day 114 + hours 9))] [] 4.

(** The weekly template moved to day 101 at 09:00 at the time it was due:
    the two instances are replaced by the one of day 108. *)
Definition store_W_rescheduled : Store :=
  store_of
    [(1, templateTask 7 "W" (day 101 + hours 9) WEEKLY 1 None);
     (4, newInstance 1 (templateTask 7 "W" (day 101 + hours 9) WEEKLY 1 None)
           (day 108 + hours 9))] [] 5.

(** Every lineage reference is to a key that has been given out. *)
Definition lineage_ok (s : Store) : Prop :=
  map_Forall (fun _ t => match parentRecurrencyId t with
                         | Some p => p < nextId s
                         | None => True
                         end) (tasks s).

#[global] Instance lineage_ok_dec s : Decision (lineage_ok s).
Proof.
  unfold lineage_ok. apply map_Forall_dec. intros k t.
  destruct (parentRecurrencyId t); apply _.
Defined.

(** The scheduled times of the instances of template [pid]. *)
Definition instanceTimes (s : Store) (pid : Z) : list Z :=
  map (fun kt : Z * Task => scheduledTime kt.2)
      (find_where (fun _ t => opt_eqb (parentRecurrencyId t) pid) s).

(** The request of the daily scenario: a daily template with interval 1,
    due on day [D] at 09:00; and the row it becomes. *)
Definition dailyDto (ttl : string) (D : Z) : CreateTaskDto :=
  mkCreateTaskDto ttl None (day D + hours 9) None (Some DAILY) (Some 1) None.

Definition dailyTemplate (uid : Z) (ttl : string) (D : Z) : Task :=
  templateTask uid ttl (day D + hours 9) DAILY 1 None.

(** The daily scenario as the specification states it: created at any time
    [tau] of day [D], the template gets exactly the instances of days
    [D + 1], [D + 2] and [D + 3] at 09:00. *)
Definition daily_scenario_property : Prop :=
  forall (fuel : nat) (D tau uid : Z) (ttl : string) (s : Store),
    (4 <= fuel)%nat -> 0 <= tau < JSDate.msPerDay ->
    ids_fresh s -> lineage_ok s ->
    exists r s' ev,
      create fuel (day D + tau) (dailyDto ttl D) uid s = Ret r s' ev /\
      instanceTimes s' (nextId s)
        ≡ₚ [day (D + 1) + hours 9; day (D + 2) + hours 9; day (D + 3) + hours 9].

Definition emptyStore : Store := mkStore ∅ [] 1.

(** The instance of day [D + k] at 09:00 of the daily template [n]. *)
Definition dailyInstance (n uid : Z) (ttl : string) (D k : Z) : Task :=
  newInstance n (dailyTemplate uid ttl D) (day (D + k) + hours 9).

(** The store after the daily template and its first [k] instances have
    been written. *)
Fixpoint dailyStore (uid : Z) (ttl : string) (D : Z) (s : Store) (k : nat)
  : Store :=
  match k with
  | O => with_new (dailyTemplate uid ttl D) s
  | S k' =>
      with_new (dailyInstance (nextId s) uid ttl D (Z.of_nat k))
               (dailyStore uid ttl D s k')
  end.

Definition dailyReminders (n D : Z) (k : nat) : list Event :=
  map (fun i : nat => ScheduleReminders (n + Z.of_nat i)
                        (day (D + Z.of_nat i) + hours 9))
      (seq 1 k).

(** The keys of the tasks of a user. *)
Definition owned_ids (s : Store) (uid : Z) : gset Z :=
  dom (filter (fun kt : Z * Task => userId kt.2 = uid) (tasks s)).

(** An edge of the blocking graph that the search of user [uid] follows:
    from a task of the user to a task that exists. *)
Definition blocks_edge (s : Store) (uid : Z) (a b : Z) : Prop :=
  is_Some (findOne a uid s) /\ (a, b) ∈ blocking s /\ is_Some (tasks s !! b).

(** A chain of blocking edges from [a] to [b] none of whose sources is in
    [V]; with [V] empty, [a] reaches [b] through the blocking edges. *)
Inductive blocks_path (s : Store) (uid : Z) (V : gset Z) : Z -> Z -> Prop :=
  | blocks_path_edge a b :
      a ∉ V -> blocks_edge s uid a b -> blocks_path s uid V a b
  | blocks_path_step a c b :
      a ∉ V -> blocks_edge s uid a c -> blocks_path s uid V c b ->
      blocks_path s uid V a b.

Definition reaches (s : Store) (uid : Z) (a b : Z) : Prop :=
  blocks_path s uid ∅ a b.

(** The directed relation of the blocking edges. *)
Definition blocks_rel (s : Store) (a b : Z) : Prop := (a, b) ∈ blocking s.

(** Row [k] refers to row [d] by a foreign key; [k] depends on a set of
    rows when a chain of references leads from [k] to one of them. *)
Definition ref_step (s : Store) (k d : Z) : Prop :=
  exists t, tasks s !! k = Some t /\
            (parentTaskId t = Some d \/ parentRecurrencyId t = Some d).

Definition depends_on (s : Store) (D : gset Z) (k : Z) : Prop :=
  exists d, d ∈ D /\ rtc (ref_step s) k d.

(** [k] is, or depends on, a row that satisfies [P]. *)
Definition cascades_from (s : Store) (P : Z -> Task -> bool) (k : Z) : Prop :=
  exists d td, tasks s !! d = Some td /\ P d td = true /\ rtc (ref_step s) k d.

(** One step of the ancestor walk of user [uid]: from a task of the user
    to its parent. *)
Definition parent_step (s : Store) (uid : Z) (x y : Z) : Prop :=
  exists t p, findOne x uid s = Some t /\ parentTask s t = Some (y, p).

(** The parent chain from [x] does not run into a cycle. *)
Definition chain_acyclic (s : Store) (uid : Z) (x : Z) : Prop :=
  forall y, rtc (parent_step s uid) x y -> ~ tc (parent_step s uid) y y.

(** The termination of the hierarchy cycle check as the specification
    states it, in its weakest reading: in every store the check gives an
    answer (a return or an exception) after finitely many steps. *)
Definition ancestor_walk_terminates : Prop :=
  forall (s : Store) (taskId parentId uid : Z),
    exists fuel : nat,
      validateNoCircularDependency fuel taskId parentId uid s <> OutOfFuel.

(** Task [A] made its own parent. *)
Definition store_selfParent : Store :=
  store_of [(1, plainTask 7 "A" (day 1) false (Some 1));
            (2, plainTask 7 "B" (day 2) false None)] [] 3.

(** Task [A] its own parent, with [B] below [A] and [C] below [B]. *)
Definition store_loop : Store :=
  store_of [(1, plainTask 7 "A" (day 1) false (Some 1));
            (2, plainTask 7 "B" (day 2) false (Some 1));
            (3, plainTask 7 "C" (day 3) false (Some 2))] [] 4.

(** ** The invariants of a consistent store *)

(** Every direct child of task [id], a task of the owner of [t], is
    completed. *)
Definition children_completed (s : Store) (id : Z) (t : Task) : Prop :=
  map_Forall (fun _ c => parentTaskId c = Some id -> userId c = userId t ->
                         completed c = true) (tasks s).

(** Every task in [blockedBy] of task [id] is completed. *)
Definition blockers_completed (s : Store) (id : Z) : Prop :=
  Forall (fun e : Z * Z => e.2 = id ->
            match tasks s !! e.1 with
            | Some bt => completed bt = true
            | None => True
            end) (blocking s).

Definition children_invariant (s : Store) : Prop :=
  map_Forall (fun id t => completed t = true -> children_completed s id t)
             (tasks s).

Definition blockers_invariant (s : Store) : Prop :=
  map_Forall (fun id t => completed t = true -> blockers_completed s id)
             (tasks s).

(** completed = true requires: all direct children are completed, and all
    tasks in [blockedBy] are completed. *)
Definition completion_invariant (s : Store) : Prop :=
  children_invariant s /\ blockers_invariant s.

#[global] Instance children_completed_dec s id t :
  Decision (children_completed s id t).
Proof. unfold children_completed. apply _. Defined.

#[global] Instance blockers_completed_dec s id : Decision (blockers_completed s id).
Proof.
  unfold blockers_completed. apply Forall_dec. intros e.
  destruct (tasks s !! e.1); apply _.
Defined.

#[global] Instance completion_invariant_dec s : Decision (completion_invariant s).
Proof.
  unfold completion_invariant, children_invariant, blockers_invariant. apply _.
Defined.

(** A parent reference is to a task of the same owner that is not due
    before the child; no task is its own ancestor. *)
Definition hierarchy_ok (s : Store) : Prop :=
  map_Forall (fun _ t =>
                match parentTaskId t with
                | Some p =>
                    match tasks s !! p with
                    | Some pt => userId pt = userId t /\
                                 scheduledTime t <= scheduledTime pt
                    | None => False
                    end
                | None => True
                end) (tasks s).

Definition hierarchy_forest (s : Store) : Prop :=
  forall uid x, ~ tc (parent_step s uid) x x.

(** A blocking edge joins two tasks of one owner; the edges form a DAG. *)
Definition blocking_ok (s : Store) : Prop :=
  Forall (fun e : Z * Z =>
            match tasks s !! e.1, tasks s !! e.2 with
            | Some ta, Some tb => userId ta = userId tb
            | _, _ => False
            end) (blocking s).

Definition blocking_dag (s : Store) : Prop :=
  forall uid x, ~ reaches s uid x x.

(** Mutual exclusivity: a recurring template has no parent and no
    children; a recurring instance has no children and no blocking edge. *)
Definition exclusivity_ok (s : Store) : Prop :=
  map_Forall (fun id t =>
                (isSome (recurrencePattern t) = true ->
                 parentRecurrencyId t = None ->
                 parentTaskId t = None /\ children s id = []) /\
                (isSome (parentRecurrencyId t) = true ->
                 children s id = [] /\
                 Forall (fun e : Z * Z => e.1 <> id /\ e.2 <> id) (blocking s)))
             (tasks s).

#[global] Instance hierarchy_ok_dec s : Decision (hierarchy_ok s).
Proof.
  unfold hierarchy_ok. apply map_Forall_dec. intros k t.
  destruct (parentTaskId t) as [p|]; [|apply _].
  destruct (tasks s !! p); apply _.
Defined.

#[global] Instance blocking_ok_dec s : Decision (blocking_ok s).
Proof.
  unfold blocking_ok. apply Forall_dec. intros e.
  destruct (tasks s !! e.1), (tasks s !! e.2); apply _.
Defined.

#[global] Instance exclusivity_ok_dec s : Decision (exclusivity_ok s).
Proof. unfold exclusivity_ok. apply _. Defined.

Definition consistent (s : Store) : Prop :=
  ids_fresh s /\ lineage_ok s /\ hierarchy_ok s /\ hierarchy_forest s /\
  blocking_ok s /\ blocking_dag s /\ exclusivity_ok s /\ completion_invariant s.

(** The public mutating operations. *)
Inductive Operation :=
  | OpCreate (dto : CreateTaskDto)
  | OpUpdate (id : Z) (dto : UpdateTaskDto)
  | OpMarkAsCompleted (id : Z)
  | OpMarkAsIncomplete (id : Z)
  | OpMove (id : Z) (newParent : option Z)
  | OpAddBlocking (blockingId blockedId : Z)
  | OpRemoveBlocking (blockingId blockedId : Z)
  | OpGenerate (templateId : Z).

Definition run_operation (fuel : nat) (now uid : Z) (op : Operation) : M unit :=
  match op with
  | OpCreate dto => exec create fuel now dto uid ;; ret tt
  | OpUpdate id dto => exec update fuel now id dto uid ;; ret tt
  | OpMarkAsCompleted id => exec markAsCompleted fuel now id uid ;; ret tt
  | OpMarkAsIncomplete id => exec markAsIncomplete fuel now id uid ;; ret tt
  | OpMove id newParent => exec TasksService_moveTask fuel id newParent uid ;; ret tt
  | OpAddBlocking a b => addBlockingRelationship fuel a b uid
  | OpRemoveBlocking a b => removeBlockingRelationship a b uid
  | OpGenerate pid =>
      s <- get ;;
      match findOne pid uid s with
      | Some R =>
          generateInstancesForOptimalBuffer fuel now pid R (Some (scheduledTime R))
      | None => ret tt
      end
  end.

(** The completion invariant as the specification states it: every public
    mutating operation that completes on a consistent store leaves it
    true. *)
Definition completion_always : Prop :=
  forall (fuel : nat) (now uid : Z) (op : Operation) (s s' : Store)
         (ev : list Event),
    consistent s ->
    run_operation fuel now uid op s = Ret tt s' ev ->
    completion_invariant s'.

(** The keys at the ends of the blocking edges have been given out. *)
Definition edges_fresh (s : Store) : Prop :=
  Forall (fun e : Z * Z => e.1 < nextId s /\ e.2 < nextId s) (blocking s).

#[global] Instance edges_fresh_dec s : Decision (edges_fresh s).
Proof. unfold edges_fresh. apply _. Defined.

(** What a completion does to the store: a row stays or gets completed,
    a new row has a fresh key and no parent, the blocking edges stay. *)
Record grows (s s' : Store) : Prop := mkGrows {
  grows_old : forall k t, tasks s !! k = Some t ->
      tasks s' !! k = Some t \/ tasks s' !! k = Some (set_completed true t);
  grows_new : forall k t', tasks s' !! k = Some t' -> tasks s !! k = None ->
      nextId s <= k /\ parentTaskId t' = None;
  grows_blocking : blocking s' = blocking s;
  grows_nextId : nextId s <= nextId s';
}.

(** The store in which a computation ends, by a return or an exception. *)
Definition post_store {A} (r : Res A) (Q : Store -> Prop) : Prop :=
  match r with
  | Ret _ s' _ | Raise _ s' _ => Q s'
  | OutOfFuel => True
  end.

(** A computation that keeps the keys fresh and the children half of the
    completion invariant, and only lets the store grow. *)
Definition steady {A} (m : M A) : Prop :=
  forall s, ids_fresh s -> children_invariant s ->
    post_store (m s)
      (fun s' => ids_fresh s' /\ children_invariant s' /\ grows s s').

(** The keys and the edges in range, and the completion invariant. *)
Definition store_ok (s : Store) : Prop :=
  ids_fresh s /\ edges_fresh s /\ completion_invariant s.

(** A computation that keeps a property of the store. *)
Definition preserves (I : Store -> Prop) {A} (m : M A) : Prop :=
  forall s, I s -> post_store (m s) I.

(** The events of the reminder scheduler. *)
Definition reminderEvent (e : Event) : Prop :=
  match e with
  | ScheduleReminders _ _ => True
  | _ => False
  end.

(** [scheduleFieldsUpdated] of [updateRecurringTask]: the request changes
    a field of the schedule. *)
Definition scheduleFieldsUpdated (d : UpdateTaskDto) : bool :=
  isSome (u_scheduledTime d) || isSome (u_recurrencePattern d)
  || truthy (u_recurrenceInterval d) || isSome (u_recurrenceEndDate d).

(** An incomplete instance of template [pid] that is due after [now]. *)
Definition futureInstance (now pid : Z) (t : Task) : bool :=
  opt_eqb (parentRecurrencyId t) pid && negb (completed t)
  && (now <? scheduledTime t).

(** The times for which reminders were scheduled. *)
Definition reminderTimes (ev : list Event) : list Z :=
  omap (fun e => match e with
                 | ScheduleReminders _ time => Some time
                 | _ => None
                 end) ev.

(** The two calls to the completion gates, as the trace records them. *)
Definition gateEvents (id uid : Z) : list Event :=
  [GateParentCompletion id uid; GateCanBeCompleted id uid].

(** A computation that does not throw. *)
Definition never_throws {A} (m : M A) : Prop :=
  quiet (fun _ => True) (fun _ => False) m.

(** A computation that ends in the store it started in; it may record
    events. *)
Definition stable {A} (m : M A) : Prop :=
  forall s, post_store (m s) (fun s' => s' = s).

(** A computation that has written nothing when it throws. *)
Definition atomic {A} (m : M A) : Prop :=
  forall s, match m s with
            | Raise _ s' _ => s' = s
            | Ret _ _ _ | OutOfFuel => True
            end.

(** An incomplete task [P] with its only child [T], incomplete too; both
    belong to user 7. *)
Definition store_T : Store :=
  store_of [(1, plainTask 7 "P" (day 2) false None);
            (2, plainTask 7 "T" (day 1) false (Some 1))] [] 3.

(** The same store after [T] has been marked completed: the cascade has
    completed its parent. *)
Definition store_T_completed : Store :=
  store_of [(1, plainTask 7 "P" (day 2) true None);
            (2, plainTask 7 "T" (day 1) true (Some 1))] [] 3.

(** The store in between: [T] is completed, its parent not yet. *)
Definition store_T_child_completed : Store :=
  store_of [(1, plainTask 7 "P" (day 2) false None);
            (2, plainTask 7 "T" (day 1) true (Some 1))] [] 3.

(** A daily template [R], a plain task [P] due after it and a plain task
    [Q] due before it, all of user 7. *)
Definition store_RPQ : Store :=
  store_of [(1, templateTask 7 "R" (day 1) DAILY 1 None);
            (2, plainTask 7 "P" (day 2) false None);
            (3, plainTask 7 "Q" (day 0) false None)] [] 4.

Definition reparentUpdate (p : Z) : UpdateTaskDto :=
  mkUpdateTaskDto None None None (Some (Some p)) None None None None.

(** A completed task [P] and an incomplete task [N], both of user 7. *)
Definition store_PN : Store :=
  store_of [(1, plainTask 7 "P" (day 2) true None);
            (2, plainTask 7 "N" (day 1) false None)] [] 3.

(** An incomplete task [X] that blocks the incomplete task [P], and the
    incomplete child [C] of [P], all of user 7. *)
Definition store_XPC : Store :=
  store_of [(1, plainTask 7 "X" (day 3) false None);
            (2, plainTask 7 "P" (day 2) false None);
            (3, plainTask 7 "C" (day 1) false (Some 2))] [(1, 2)] 4.

(** The operation returned and left a store that violates the completion
    invariant. *)
Definition breaks_invariant (r : Res unit) : Prop :=
  match r with
  | Ret _ s' _ => ~ completion_invariant s'
  | Raise _ _ _ | OutOfFuel => False
  end.

#[global] Instance breaks_invariant_dec r : Decision (breaks_invariant r).
Proof. destruct r; apply _. Defined.

(** The number of incomplete tasks. *)
Definition incomplete_count (s : Store) : nat :=
  size (filter (fun kt : Z * Task => completed kt.2 = false) (tasks s)).

(** The request that only sets a new scheduled time. *)
Definition rescheduleUpdate (time : Z) : UpdateTaskDto :=
  mkUpdateTaskDto None None (Some time) None None None None None.

(** ** Trees of tasks *)

(** The tasks of a tree, the root first. *)
Fixpoint tree_nodes (t : TaskTree) : list (Z * Task) :=
  match t with
  | TaskNode id task subtasks => (id, task) :: (subtasks ≫= tree_nodes)
  end.

Definition forest_nodes (f : list TaskTree) : list (Z * Task) :=
  f ≫= tree_nodes.

(** A tree as [loadTaskChildren] builds it: under every task are the
    child tasks that [getChildTasks] returns for it, in that order. *)
#[warnings="-register-all"] Inductive tree_of (s : Store) (uid : Z)
  : TaskTree -> Prop :=
  | tree_of_node id task subtasks :
      getChildTasks id uid s = Ret (tree_root <$> subtasks) s [] ->
      Forall (tree_of s uid) subtasks ->
      tree_of s uid (TaskNode id task subtasks).

(** A tree as [getTaskHierarchy] builds it: every task is one of the
    user, and under it are the rows of its relation [children]. *)
#[warnings="-register-all"] Inductive hierarchy_of (s : Store) (uid : Z)
  : TaskTree -> Prop :=
  | hierarchy_of_node id task subtasks :
      findOne id uid s = Some task ->
      tree_root <$> subtasks = children s id ->
      Forall (hierarchy_of s uid) subtasks ->
      hierarchy_of s uid (TaskNode id task subtasks).

(** The parent chain of task [x] of the user ends in a task of the user
    that has no parent, and passes only tasks of the user. *)
Definition rooted (s : Store) (uid : Z) (x : Z) : Prop :=
  exists r tr, rtc (parent_step s uid) x r /\
               findOne r uid s = Some tr /\ parentTaskId tr = None.

(** Task [d] is [x] or is below [x] in the relation [children]. *)
Definition below (s : Store) (x d : Z) : Prop :=
  rtc (fun a b => b ∈ (children s a).*1) x d.

(** ** Notifications of tasks *)

(** The keys of the notification table are below the counter. *)
Definition nkeys_fresh (ns : NStore) : Prop :=
  map_Forall (fun k _ => k < nextNotificationId ns) (notifications ns).

#[global] Instance nkeys_fresh_dec ns : Decision (nkeys_fresh ns).
Proof. unfold nkeys_fresh. apply _. Defined.

(** A reminder of task [taskId] that has not been sent. *)
Definition unsentReminder (taskId : Z) (n : Notification.t) : bool :=
  opt_eqb (Notification.taskId n) taskId
  && bool_decide (Notification.type n = TASK_REMINDER)
  && negb (Notification.isSent n).

(** The row of a reminder of a task as it is scheduled. *)
Definition reminderRow (taskId uid time : Z) : Notification.t :=
  Notification.mk TASK_REMINDER "Task Reminder"
    "You have a task scheduled for this time" MEDIUM false (Some time) false
    uid (Some taskId) None.

(** The reminder times of a task that are still to come. *)
Definition reminderTimesAfter (now : Z) (task : Task) (minutes : list Z)
  : list Z :=
  List.filter (fun time => now <? time)
              ((fun m => scheduledTime task - m * 60 * 1000) <$> minutes).

(** A notification that is due and has not been sent. *)
Definition pending (now : Z) (n : Notification.t) : bool :=
  negb (Notification.isSent n)
  && match Notification.scheduledFor n with
     | Some d => d <=? now
     | None => false
     end.

(** An overdue notification of user [uid]; one for task [taskId]. *)
Definition overdueOf (uid : Z) (n : Notification.t) : bool :=
  (Notification.userId n =? uid)
  && bool_decide (Notification.type n = TASK_OVERDUE).

Definition overdueFor (taskId uid : Z) (n : Notification.t) : bool :=
  overdueOf uid n && opt_eqb (Notification.taskId n) taskId.

(** The row of the overdue notification of a task. *)
Definition overdueRow (taskId : Z) (task : Task) : Notification.t :=
  Notification.mk TASK_OVERDUE "Task Overdue"
    ("Task " +:+ dquote +:+ title task +:+ dquote +:+ " is overdue")
    HIGH false None false (userId task) (Some taskId) None.

(** A task that is due and not completed. *)
Definition overdue (now : Z) (t : Task) : bool :=
  (scheduledTime t <=? now) && negb (completed t).

(** Task 5 of user 7 has an unsent and a sent reminder for half an hour
    before it is due, on day 1; task 6 has an unsent reminder. *)
Definition task_R : Task := plainTask 7 "R" (day 1) false None.

Definition nstore_R : NStore :=
  mkNStore
    (list_to_map
       [(1, reminderRow 5 7 (day 1 - 30 * 60 * 1000));
        (2, set_isSent true (reminderRow 5 7 (day 1 - 30 * 60 * 1000)));
        (3, reminderRow 6 7 (day 2))])
    4.

(** User 7 has eleven overdue notifications; the oldest is the one of
    task 2. *)
Definition nstore_O : NStore :=
  mkNStore
    (list_to_map
       ((1, overdueRow 2 (plainTask 7 "T" (day 1) false (Some 1)))
        :: ((fun i => (i, overdueRow (100 + i) task_R))
            <$> [2; 3; 4; 5; 6; 7; 8; 9; 10; 11])))
    12.

(** The body of the loop of [checkOverdueTasks]. *)
Definition overdueStep (ns' : NStore) (task : Z * Task) : NStore :=
  let existingNotification :=
    NotificationsService.findAll (userId task.2)
      (NotificationFilterDto.mk None (Some TASK_OVERDUE) None None None) ns' in
  let hasOverdueNotification :=
    existsb (fun notification : Z * Notification.t =>
               opt_eqb (Notification.taskId notification.2) task.1)
            existingNotification.1 in
  if negb hasOverdueNotification then
    (NotificationsService.createTaskOverdueNotification
       task.1 (userId task.2) (title task.2) ns').2
  else ns'.

(** Two notifications of one kind for one task and one user. *)
Definition sameSubject (n n0 : Notification.t) : Prop :=
  Notification.type n0 = Notification.type n /\
  Notification.userId n0 = Notification.userId n /\
  Notification.taskId n0 = Notification.taskId n.

(** * Properties *)

(** ** The monad *)

Lemma prefix_events_nil {A} (r : Res A) : prefix_events [] r = r.
Proof. by destruct r. Qed.

Lemma bind_run {A B} (m : M A) (k : A -> M B) s :
  bind m k s =
  match m s with
  | Ret a s1 ev1 => prefix_events ev1 (k a s1)
  | Raise e s1 ev1 => Raise e s1 ev1
  | OutOfFuel => OutOfFuel
  end.
Proof. done. Qed.

(** ** The calendar *)

Module JSDateFacts.
Import JSDate.

Lemma MonthFromDayWithinYear_range leap dy :
  0 <= MonthFromDayWithinYear leap dy <= 11.
Proof.
  unfold MonthFromDayWithinYear.
  repeat match goal with |- context [if ?b then _ else _] => destruct b end; lia.
Qed.

Lemma MakeDay_current t n :
  MakeDay (YearFromTime t) (MonthFromTime t) (DateFromTime t + n) = Day t + n.
Proof.
  unfold MakeDay, DateFromTime, DayWithinYear.
  pose proof (MonthFromDayWithinYear_range (LeapYear (YearFromTime t))
                (Day t - DayFromYear (YearFromTime t))) as Hm.
  fold (DayWithinYear t) in Hm. fold (MonthFromTime t) in Hm.
  rewrite (Z.div_small (MonthFromTime t) 12) by lia.
  rewrite (Z.mod_small (MonthFromTime t) 12) by lia.
  rewrite Z.add_0_r. lia.
Qed.

Lemma MakeDate_Day t k :
  MakeDate (Day t + k) (TimeWithinDay t) = t + k * msPerDay.
Proof.
  unfold MakeDate, Day, TimeWithinDay.
  pose proof (Z.div_mod t msPerDay). unfold msPerDay in *. lia.
Qed.

Lemma setDate_getDate t n : setDate t (getDate t + n) = t + n * msPerDay.
Proof. unfold setDate, getDate. rewrite MakeDay_current. apply MakeDate_Day. Qed.

Lemma DayFromYear_succ y :
  DayFromYear (y + 1) = DayFromYear y + 365 + leapDays (LeapYear y).
Proof.
  unfold DayFromYear, LeapYear, leapDays.
  destruct (Z.eqb_spec (y mod 4) 0), (Z.eqb_spec (y mod 100) 0),
    (Z.eqb_spec (y mod 400) 0); simpl; Z.to_euclidean_division_equations; lia.
Qed.

Lemma YearFromDay_spec d :
  DayFromYear (YearFromDay d) <= d < DayFromYear (YearFromDay d + 1).
Proof.
  unfold YearFromDay.
  set (y0 := 1970 + 400 * d / 146097).
  assert (DayFromYear (y0 - 1) <= d /\ d < DayFromYear (y0 + 2)) as [Hlo Hhi].
  { unfold DayFromYear, y0. Z.to_euclidean_division_equations. lia. }
  destruct (Z.leb_spec (DayFromYear (y0 + 1)) d).
  - replace (y0 + 1 + 1) with (y0 + 2) by lia. lia.
  - destruct (Z.leb_spec (DayFromYear y0) d).
    + lia.
    + replace (y0 - 1 + 1) with y0 by lia. lia.
Qed.

Lemma DayFromMonthIndex_succ k :
  DayFromMonthIndex k + 28 <= DayFromMonthIndex (k + 1).
Proof.
  unfold DayFromMonthIndex.
  assert (0 <= k mod 12 < 12) as Hr by (apply Z.mod_pos_bound; lia).
  destruct (Z.eq_dec (k mod 12) 11) as [E|E].
  - assert ((k + 1) / 12 = k / 12 + 1) as -> by
      (Z.to_euclidean_division_equations; lia).
    assert ((k + 1) mod 12 = 0) as -> by
      (Z.to_euclidean_division_equations; lia).
    rewrite E, DayFromYear_succ.
    generalize (DayFromYear (k / 12)). intros yd.
    destruct (LeapYear (k / 12)), (LeapYear (k / 12 + 1));
      unfold DaysBeforeMonth, leapDays; simpl; lia.
  - assert ((k + 1) / 12 = k / 12) as -> by
      (Z.to_euclidean_division_equations; lia).
    assert ((k + 1) mod 12 = k mod 12 + 1) as -> by
      (Z.to_euclidean_division_equations; lia).
    generalize (k mod 12) (DayFromYear (k / 12)) Hr E. intros m yd Hm Hm'.
    assert (m = 0 \/ m = 1 \/ m = 2 \/ m = 3 \/ m = 4 \/ m = 5 \/ m = 6 \/
            m = 7 \/ m = 8 \/ m = 9 \/ m = 10) as Hcases by lia.
    destruct (LeapYear (k / 12));
      repeat (destruct Hcases as [->|Hcases];
              [unfold DaysBeforeMonth, leapDays; simpl; lia|]);
      subst m; unfold DaysBeforeMonth, leapDays; simpl; lia.
Qed.

Lemma DayFromMonthIndex_add k (n : nat) :
  DayFromMonthIndex k + 28 * Z.of_nat n <= DayFromMonthIndex (k + Z.of_nat n).
Proof.
  induction n as [|n IH].
  - replace (k + Z.of_nat 0) with k by lia. lia.
  - pose proof (DayFromMonthIndex_succ (k + Z.of_nat n)).
    replace (k + Z.of_nat (S n)) with (k + Z.of_nat n + 1) by lia. lia.
Qed.

Lemma MakeDay_month_index y m d :
  MakeDay y m d = DayFromMonthIndex (12 * y + m) + d - 1.
Proof.
  unfold MakeDay, DayFromMonthIndex.
  assert ((12 * y + m) / 12 = y + m / 12) as -> by
    (Z.to_euclidean_division_equations; lia).
  assert ((12 * y + m) mod 12 = m mod 12) as -> by
    (Z.to_euclidean_division_equations; lia).
  reflexivity.
Qed.

Lemma setMonth_progress t n :
  1 <= n -> t + 28 * msPerDay <= setMonth t (getMonth t + n).
Proof.
  intros Hn. unfold setMonth, getMonth.
  pose proof (MakeDay_current t 0) as Hcur. rewrite Z.add_0_r in Hcur.
  rewrite MakeDay_month_index in Hcur.
  rewrite MakeDay_month_index.
  pose proof (DayFromMonthIndex_add (12 * YearFromTime t + MonthFromTime t)
                (Z.to_nat n)) as Hadd.
  rewrite Z2Nat.id in Hadd by lia.
  replace (12 * YearFromTime t + (MonthFromTime t + n))
    with (12 * YearFromTime t + MonthFromTime t + n) by lia.
  revert Hcur Hadd.
  generalize (DayFromMonthIndex (12 * YearFromTime t + MonthFromTime t + n))
    (DayFromMonthIndex (12 * YearFromTime t + MonthFromTime t))
    (DateFromTime t).
  intros a b e Hcur Hadd.
  pose proof (MakeDate_Day t (a + e - 1 - Day t)) as Hd.
  replace (Day t + (a + e - 1 - Day t)) with (a + e - 1) in Hd by lia.
  rewrite Hd. unfold msPerDay. lia.
Qed.

Lemma DayFromYear_add y (n : nat) :
  DayFromYear y + 365 * Z.of_nat n <= DayFromYear (y + Z.of_nat n).
Proof.
  induction n as [|n IH].
  - replace (y + Z.of_nat 0) with y by lia. lia.
  - replace (y + Z.of_nat (S n)) with (y + Z.of_nat n + 1) by lia.
    rewrite DayFromYear_succ. unfold leapDays.
    destruct (LeapYear (y + Z.of_nat n)); lia.
Qed.

Lemma DaysBeforeMonth_leap l1 l2 m :
  DaysBeforeMonth l1 m - 1 <= DaysBeforeMonth l2 m.
Proof.
  unfold DaysBeforeMonth, leapDays.
  repeat match goal with |- context [if ?b then _ else _] => destruct b end; lia.
Qed.

Lemma MakeDay_in_year y m d :
  0 <= m <= 11 ->
  MakeDay y m d = DayFromYear y + DaysBeforeMonth (LeapYear y) m + d - 1.
Proof.
  intros Hm. unfold MakeDay.
  rewrite (Z.div_small m 12), (Z.mod_small m 12), Z.add_0_r by lia.
  reflexivity.
Qed.

Lemma setFullYear_progress t n :
  1 <= n -> t + 364 * msPerDay <= setFullYear t (getFullYear t + n).
Proof.
  intros Hn. unfold setFullYear, getFullYear.
  pose proof (MakeDay_current t 0) as Hcur. rewrite Z.add_0_r in Hcur.
  pose proof (MonthFromDayWithinYear_range (LeapYear (YearFromTime t))
                (DayWithinYear t)) as Hm.
  fold (MonthFromTime t) in Hm.
  rewrite MakeDay_in_year in Hcur by exact Hm.
  rewrite MakeDay_in_year by exact Hm.
  pose proof (DayFromYear_add (YearFromTime t) (Z.to_nat n)) as Hadd.
  rewrite Z2Nat.id in Hadd by lia.
  pose proof (DaysBeforeMonth_leap (LeapYear (YearFromTime t))
                (LeapYear (YearFromTime t + n)) (MonthFromTime t)) as Hl.
  revert Hcur Hadd Hl.
  generalize (DayFromYear (YearFromTime t + n))
    (DaysBeforeMonth (LeapYear (YearFromTime t + n)) (MonthFromTime t))
    (DayFromYear (YearFromTime t))
    (DaysBeforeMonth (LeapYear (YearFromTime t)) (MonthFromTime t))
    (DateFromTime t).
  intros a b c d e Hcur Hadd Hl.
  pose proof (MakeDate_Day t (a + b + e - 1 - Day t)) as Hd.
  replace (Day t + (a + b + e - 1 - Day t)) with (a + b + e - 1) in Hd by lia.
  rewrite Hd. unfold msPerDay. lia.
Qed.

End JSDateFacts.

(** ** Queries *)

Lemma findOne_Some id uid s t :
  findOne id uid s = Some t <-> tasks s !! id = Some t /\ userId t = uid.
Proof.
  unfold findOne. destruct (tasks s !! id) as [t'|] eqn:E.
  - destruct (Z.eqb_spec (userId t') uid); split.
    + intros [= ->]. done.
    + intros [[= ->] _]. done.
    + done.
    + intros [[= ->] ?]. done.
  - split; [done | intros [? _]; done].
Qed.

Lemma findOne_None id uid s :
  findOne id uid s = None <->
  tasks s !! id = None \/ exists t, tasks s !! id = Some t /\ userId t <> uid.
Proof.
  unfold findOne. destruct (tasks s !! id) as [t'|] eqn:E.
  - destruct (Z.eqb_spec (userId t') uid); split.
    + done.
    + intros [? | (t & [= <-] & ?)]; done.
    + intros _. right. eauto.
    + done.
  - split; [by left | done].
Qed.

Lemma elem_of_find_where P s k t :
  (k, t) ∈ find_where P s <-> tasks s !! k = Some t /\ P k t = true.
Proof.
  unfold find_where. rewrite list_elem_of_In, filter_In, <- list_elem_of_In.
  rewrite elem_of_map_to_list. done.
Qed.

Lemma find_where_nil P s :
  find_where P s = [] <-> forall k t, tasks s !! k = Some t -> P k t = false.
Proof.
  split.
  - intros E k t Hk. destruct (P k t) eqn:HP; [|done].
    assert ((k, t) ∈ find_where P s) as Hin by by apply elem_of_find_where.
    rewrite E in Hin. by apply elem_of_nil in Hin.
  - intros H. destruct (find_where P s) as [|[k t] l] eqn:E; [done|].
    assert ((k, t) ∈ find_where P s) as Hin by (rewrite E; left).
    apply elem_of_find_where in Hin as [Hk HP]. rewrite (H _ _ Hk) in HP. done.
Qed.

Lemma opt_eqb_true o n : opt_eqb o n = true <-> o = Some n.
Proof.
  destruct o as [m|]; simpl; [|done].
  rewrite Z.eqb_eq. split; [by intros -> | by intros [= ->]].
Qed.

Lemma elem_of_blocks s id k t :
  (k, t) ∈ blocks s id <-> (id, k) ∈ blocking s /\ tasks s !! k = Some t.
Proof.
  unfold blocks. rewrite list_elem_of_omap. split.
  - intros ([a b] & Hin & Hm). simpl in Hm.
    destruct (Z.eqb_spec a id) as [->|]; [|done].
    destruct (tasks s !! b) eqn:E; [|done]. by injection Hm as <- <-.
  - intros [Hin Hk]. exists (id, k). split; [done|]. simpl.
    rewrite Z.eqb_refl, Hk. done.
Qed.

Lemma elem_of_blockedBy s id k t :
  (k, t) ∈ blockedBy s id <-> (k, id) ∈ blocking s /\ tasks s !! k = Some t.
Proof.
  unfold blockedBy. rewrite list_elem_of_omap. split.
  - intros ([a b] & Hin & Hm). simpl in Hm.
    destruct (Z.eqb_spec b id) as [->|]; [|done].
    destruct (tasks s !! a) eqn:E; [|done]. by injection Hm as <- <-.
  - intros [Hin Hk]. exists (k, id). split; [done|]. simpl.
    rewrite Z.eqb_refl, Hk. done.
Qed.

Lemma findOneOrThrow_found id uid s t :
  tasks s !! id = Some t -> userId t = uid ->
  findOneOrThrow id uid s = Ret t s [].
Proof.
  intros Hid Hu. unfold findOneOrThrow, bind, get. simpl.
  assert (findOne id uid s = Some t) as -> by by apply findOne_Some.
  done.
Qed.

(** ** The child due-date check *)

Lemma validateChildDueDate_run childTime parentId uid s :
  validateChildDueDate childTime parentId uid s =
  match findOne parentId uid s with
  | None => Raise NotFound s []
  | Some p => if scheduledTime p <? childTime
              then Raise InvalidRelationship s [] else Ret tt s []
  end.
Proof.
  unfold validateChildDueDate. rewrite bind_run. unfold get at 1.
  rewrite prefix_events_nil.
  destruct (findOne parentId uid s) as [p|]; [|done].
  by destruct (scheduledTime p <? childTime).
Qed.

(** C7. The child due-date check throws NotFound exactly when the parent is
    absent or owned by someone else; for a parent that the user owns it
    throws InvalidRelationship exactly when the child is scheduled strictly
    after the parent, and passes otherwise (equal times pass).  With an
    owned parent that is scheduled strictly earlier, creating the child
    under it, moving a task under it (once the cycle check has passed),
    rescheduling one of its children and an update that names it as the
    new parent (with the scheduled time of the request, or that of the
    task when the request has none, and whatever the other checks of the
    reparenting say) fail with InvalidRelationship and write nothing. *)
Theorem validateChildDueDate_spec (childTime parentId uid : Z) (s : Store) :
  (validateChildDueDate childTime parentId uid s = Raise NotFound s [] <->
   tasks s !! parentId = None \/
   exists p, tasks s !! parentId = Some p /\ userId p <> uid) /\
  (forall p, tasks s !! parentId = Some p -> userId p = uid ->
     (validateChildDueDate childTime parentId uid s = Raise InvalidRelationship s []
      <-> scheduledTime p < childTime) /\
     (validateChildDueDate childTime parentId uid s = Ret tt s []
      <-> childTime <= scheduledTime p) /\
     (scheduledTime p < childTime -> parentId <> 0 ->
      (forall fuel now dto,
         c_parentTaskId dto = Some parentId ->
         c_recurrencePattern dto = None ->
         c_scheduledTime dto = childTime ->
         create fuel now dto uid s = Raise InvalidRelationship s []) /\
      (forall fuel id t,
         tasks s !! id = Some t -> userId t = uid ->
         scheduledTime t = childTime ->
         isDescendant fuel s parentId id uid = Some false ->
         moveTask fuel id (Some parentId) uid s = Raise InvalidRelationship s []) /\
      (forall fuel now id t,
         tasks s !! id = Some t -> userId t = uid ->
         parentTaskId t = Some parentId ->
         update fuel now id (rescheduleUpdate childTime) uid s
         = Raise InvalidRelationship s []) /\
      (forall fuel now id t dto r,
         tasks s !! id = Some t -> userId t = uid ->
         u_parentTaskId dto = Some (Some parentId) ->
         default_to (u_scheduledTime dto) (scheduledTime t) = childTime ->
         isTrue (u_completed dto) && negb (completed t) = false ->
         isDescendant fuel s parentId id uid = Some r ->
         update fuel now id dto uid s = Raise InvalidRelationship s []))).
Proof.
  pose proof (validateChildDueDate_run childTime parentId uid s) as Hv.
  split.
  { rewrite Hv, <- findOne_None.
    destruct (findOne parentId uid s) as [p|]; [|done].
    by destruct (scheduledTime p <? childTime). }
  intros p Hp Hu.
  assert (findOne parentId uid s = Some p) as Hfind by by apply findOne_Some.
  rewrite Hfind in Hv.
  split; [|split].
  { rewrite Hv. destruct (Z.ltb_spec (scheduledTime p) childTime); split;
      (done || lia). }
  { rewrite Hv. destruct (Z.ltb_spec (scheduledTime p) childTime); split;
      (done || lia). }
  intros Hlt Hnz.
  assert ((scheduledTime p <? childTime) = true) as Hltb by by apply Z.ltb_lt.
  rewrite Hltb in Hv.
  assert (truthy (Some parentId) = true) as Htruthy.
  { simpl. by apply negb_true_iff, Z.eqb_neq. }
  split; [|split; [|split]].
  - intros fuel now dto Hpid Hrec Htime.
    unfold create. rewrite Hrec, Hpid, Htruthy. cbn [isSome andb].
    rewrite bind_run, bind_run, Htime, Hv. done.
  - intros fuel id t Hid Hut Htime Hdesc.
    unfold moveTask. rewrite bind_run. unfold get at 1.
    rewrite prefix_events_nil.
    assert (findOne id uid s = Some t) as -> by by apply findOne_Some.
    rewrite Htruthy, bind_run, bind_run.
    assert (validateNoCircularDependency fuel id parentId uid s = Ret tt s [])
      as ->.
    { unfold validateNoCircularDependency. rewrite bind_run. unfold get at 1.
      rewrite prefix_events_nil, bind_run, Hdesc. done. }
    rewrite prefix_events_nil, Htime, Hv. done.
  - intros fuel now id t Hid Hut Hpar.
    unfold update. rewrite bind_run.
    rewrite (findOneOrThrow_found _ _ _ _ Hid Hut), prefix_events_nil.
    rewrite bind_run. unfold get at 1. rewrite prefix_events_nil.
    cbn [rescheduleUpdate u_recurrencePattern u_parentTaskId u_completed
         u_scheduledTime isSome isTrue andb default_to truthy when].
    rewrite bind_run. unfold ret at 1. rewrite prefix_events_nil.
    rewrite Hpar, Htruthy, bind_run, Hv. done.
  - intros fuel now id t dto r Hid Hut Hdto Htime Hgate Hdesc.
    unfold update. rewrite bind_run.
    rewrite (findOneOrThrow_found _ _ _ _ Hid Hut), prefix_events_nil.
    rewrite bind_run. unfold get at 1. rewrite prefix_events_nil.
    destruct (isSome (u_recurrencePattern dto) && truthy (parentTaskId t));
      [done|].
    destruct (isSome (u_recurrencePattern dto)
              && (0 <? Z.of_nat (length (children s id)))); [done|].
    destruct (truthy (default_to (u_parentTaskId dto) None)
              && isSome (recurrencePattern t)); [done|].
    rewrite Hgate, Hdto. cbn [when].
    rewrite bind_run. unfold ret at 1. rewrite prefix_events_nil.
    rewrite bind_run, bind_run.
    unfold rejectRecurringParent at 1. rewrite bind_run. unfold get at 1.
    rewrite prefix_events_nil, Hfind.
    destruct (isSome (recurrencePattern p)); [done|].
    destruct (truthy (parentRecurrencyId p)); [done|].
    unfold ret at 1. rewrite prefix_events_nil, bind_run.
    unfold validateNoCircularDependency at 1. rewrite bind_run. unfold get at 1.
    rewrite prefix_events_nil, bind_run, Hdesc.
    cbn [lift_fuel]. unfold ret at 1. rewrite prefix_events_nil.
    destruct r; [done|].
    unfold ret at 1. rewrite prefix_events_nil, Htime, Hv. done.
Qed.

Lemma validateChildDueDate_spec_witness :
  create 0 0
    (mkCreateTaskDto "C" None (day 2) (Some 1) None None None) 7
    (store_of [(1, plainTask 7 "P" (day 1) false None)] [] 2)
  = Raise InvalidRelationship
      (store_of [(1, plainTask 7 "P" (day 1) false None)] [] 2) [] /\
  update 2 0 2
    (mkUpdateTaskDto None None None (Some (Some 1)) None None None None) 7
    (store_of [(1, plainTask 7 "P" (day 1) false None);
               (2, plainTask 7 "C" (day 2) false None)] [] 3)
  = Raise InvalidRelationship
      (store_of [(1, plainTask 7 "P" (day 1) false None);
                 (2, plainTask 7 "C" (day 2) false None)] [] 3) [].
Proof.
  split.
  - refine (proj1 (proj2 (proj2 (proj2 (validateChildDueDate_spec (day 2) 1 7
              (store_of [(1, plainTask 7 "P" (day 1) false None)] [] 2))
              (plainTask 7 "P" (day 1) false None) _ _)) _ _)
              0%nat 0 _ _ _ _);
      by vm_compute.
  - refine (proj2 (proj2 (proj2 (proj2 (proj2 (proj2
              (validateChildDueDate_spec (day 2) 1 7
                 (store_of [(1, plainTask 7 "P" (day 1) false None);
                            (2, plainTask 7 "C" (day 2) false None)] [] 3))
              (plainTask 7 "P" (day 1) false None) _ _)) _ _)))
              2%nat 0 2 (plainTask 7 "C" (day 2) false None) _ false
              _ _ _ _ _ _);
      by vm_compute.
Defined.

(** ** Computations that only read *)

Lemma readonly_ret {A} (a : A) : readonly (ret a).
Proof. by intros s. Qed.

Lemma readonly_throw {A} e : readonly (@throw A e).
Proof. by intros s. Qed.

Lemma readonly_get : readonly get.
Proof. by intros s. Qed.

Lemma readonly_diverge {A} : readonly (@diverge A).
Proof. by intros s. Qed.

Lemma readonly_lift_fuel {A} (o : option A) : readonly (lift_fuel o).
Proof. destruct o; [apply readonly_ret | apply readonly_diverge]. Qed.

Lemma readonly_bind {A B} (m : M A) (k : A -> M B) :
  readonly m -> (forall a, readonly (k a)) -> readonly (bind m k).
Proof.
  intros Hm Hk s. unfold bind. specialize (Hm s).
  destruct (m s) as [a s1 ev1| |]; [|done..].
  destruct Hm as [-> ->]. specialize (Hk a s).
  destruct (k a s) as [b s2 ev2|e s2 ev2|]; [| |done]; by destruct Hk as [-> ->].
Qed.

Lemma readonly_if {A} (b : bool) (m1 m2 : M A) :
  readonly m1 -> readonly m2 -> readonly (if b then m1 else m2).
Proof. by destruct b. Qed.

Create HintDb readonly discriminated.
#[local] Hint Resolve readonly_ret readonly_throw readonly_get readonly_diverge
  readonly_lift_fuel readonly_if : readonly.
#[local] Hint Extern 2 (readonly (bind _ _)) =>
  apply readonly_bind; [|intros ?] : readonly.
#[local] Hint Extern 3 (readonly (match ?x with _ => _ end)) =>
  destruct x : readonly.

Lemma readonly_validateChildDueDate t p u : readonly (validateChildDueDate t p u).
Proof. unfold validateChildDueDate. auto 10 with readonly. Qed.

Lemma readonly_validateNoCircularDependency f t p u :
  readonly (validateNoCircularDependency f t p u).
Proof. unfold validateNoCircularDependency. auto 10 with readonly. Qed.

Lemma readonly_validateParentCompletion t u :
  readonly (validateParentCompletion t u).
Proof. unfold validateParentCompletion. auto 10 with readonly. Qed.

Lemma readonly_getBlockingTasks t u : readonly (getBlockingTasks t u).
Proof. unfold getBlockingTasks. auto 10 with readonly. Qed.

Lemma readonly_validateTaskCanBeCompleted t u :
  readonly (validateTaskCanBeCompleted t u).
Proof.
  unfold validateTaskCanBeCompleted.
  apply readonly_bind; [apply readonly_getBlockingTasks|intros l].
  auto 10 with readonly.
Qed.

Lemma readonly_validateNoCircularBlocking f a b u :
  readonly (validateNoCircularBlocking f a b u).
Proof. unfold validateNoCircularBlocking. auto 10 with readonly. Qed.

Lemma readonly_validateNoHierarchyConflict f a b u :
  readonly (validateNoHierarchyConflict f a b u).
Proof. unfold validateNoHierarchyConflict. auto 10 with readonly. Qed.

Lemma readonly_validateBlockingRules f a ta b tb u :
  readonly (validateBlockingRules f a ta b tb u).
Proof.
  unfold validateBlockingRules.
  repeat (apply readonly_if; [apply readonly_throw|]).
  apply readonly_bind; [apply readonly_validateNoHierarchyConflict|intros _].
  auto with readonly.
Qed.

Lemma readonly_rejectRecurringParent p u : readonly (rejectRecurringParent p u).
Proof. unfold rejectRecurringParent. auto 10 with readonly. Qed.

Lemma readonly_findOneOrThrow i u : readonly (findOneOrThrow i u).
Proof. unfold findOneOrThrow. auto 10 with readonly. Qed.

#[local] Hint Resolve readonly_validateChildDueDate
  readonly_validateNoCircularDependency readonly_validateParentCompletion
  readonly_getBlockingTasks readonly_validateTaskCanBeCompleted
  readonly_validateNoCircularBlocking readonly_validateNoHierarchyConflict
  readonly_validateBlockingRules readonly_rejectRecurringParent
  readonly_findOneOrThrow : readonly.

(** Run a read-only step of a [bind]: its result is a value, an exception
    or no answer, in the same store and with no event. *)
Ltac step_readonly m s :=
  let H := fresh "Hro" in
  let E := fresh "E" in
  assert (H : readonly m) by auto 10 with readonly;
  specialize (H s);
  destruct (m s) as [? ? ?|? ? ?|] eqn:E;
  [destruct H as [-> ->]|destruct H as [-> ->]|clear H].

(** ** Adding and removing blocking edges *)

Lemma with_blocking_id s : with_blocking (blocking s) s = s.
Proof. by destruct s. Qed.

Lemma existsb_blocks_false s a b tb :
  tasks s !! b = Some tb ->
  existsb (fun bt : Z * Task => bt.1 =? b) (blocks s a) = false ->
  (a, b) ∉ blocking s.
Proof.
  intros Hb Hex Hin.
  assert (existsb (fun bt : Z * Task => bt.1 =? b) (blocks s a) = true) as Ht.
  { apply existsb_exists. exists (b, tb). split; [|by apply Z.eqb_refl].
    apply list_elem_of_In, elem_of_blocks. done. }
  congruence.
Qed.

Lemma existsb_blocks_true s a b :
  existsb (fun bt : Z * Task => bt.1 =? b) (blocks s a) = true ->
  (a, b) ∈ blocking s /\ is_Some (tasks s !! b).
Proof.
  intros ([k t] & Hin & Hk)%existsb_exists. simpl in Hk.
  apply Z.eqb_eq in Hk as ->.
  apply list_elem_of_In, elem_of_blocks in Hin as [? ?]. eauto.
Qed.

Lemma without_edge_absent a b l : (a, b) ∉ l -> without_edge a b l = l.
Proof.
  intros Hn. unfold without_edge. induction l as [|[x y] l IH]; [done|].
  simpl. destruct (Z.eqb_spec x a) as [->|]; simpl.
  - destruct (Z.eqb_spec y b) as [->|]; simpl.
    + exfalso. apply Hn. left.
    + f_equal. apply IH. intros ?. apply Hn. by right.
  - f_equal. apply IH. intros ?. apply Hn. by right.
Qed.

Lemma without_edge_idemp a b l :
  without_edge a b (without_edge a b l) = without_edge a b l.
Proof.
  apply without_edge_absent. unfold without_edge.
  rewrite list_elem_of_In, filter_In. simpl.
  rewrite !Z.eqb_refl. simpl. intros [_ ?]. done.
Qed.

Lemma without_edge_snoc a b l :
  (a, b) ∉ l -> without_edge a b (l ++ [(a, b)]) = l.
Proof.
  intros Hn. unfold without_edge. rewrite List.filter_app. simpl.
  rewrite !Z.eqb_refl. simpl. rewrite app_nil_r.
  by apply without_edge_absent.
Qed.

Lemma removeBlockingRelationship_run a b uid s ta :
  tasks s !! a = Some ta -> userId ta = uid ->
  removeBlockingRelationship a b uid s
  = Ret tt (with_blocking (without_edge a b (blocking s)) s) [].
Proof.
  intros Ha Hu. unfold removeBlockingRelationship, bind, get. simpl.
  assert (findOne a uid s = Some ta) as -> by by apply findOne_Some.
  done.
Qed.

(** A successful [addBlockingRelationship]: what held before, what is
    written. *)
Lemma addBlockingRelationship_Ret fuel a b uid s s' ev :
  addBlockingRelationship fuel a b uid s = Ret tt s' ev ->
  is_Some (findOne a uid s) /\ is_Some (findOne b uid s) /\ a <> b /\
  ((a, b) ∉ blocking s) /\
  doesTaskEventuallyBlock fuel s b a uid ∅ = Some false /\
  s' = with_blocking (blocking s ++ [(a, b)]) s /\ ev = [].
Proof.
  unfold addBlockingRelationship. unfold bind at 1. unfold get at 1.
  destruct (findOne a uid s) as [ta|] eqn:Ea; [|done].
  destruct (findOne b uid s) as [tb|] eqn:Eb; [|done].
  destruct (Z.eqb_spec a b) as [|Hne]; [done|].
  destruct (existsb _ (blocks s a)) eqn:Eex; [done|].
  unfold bind at 1.
  step_readonly (validateNoCircularBlocking fuel a b uid) s; [|done..].
  unfold bind at 1.
  step_readonly (validateBlockingRules fuel a ta b tb uid) s; [|done..].
  unfold set_blocking. simpl. intros [= <- <-].
  apply findOne_Some in Eb as [Hb _].
  repeat split; eauto using existsb_blocks_false.
  revert E. unfold validateNoCircularBlocking, bind, get, lift_fuel. simpl.
  destruct (doesTaskEventuallyBlock fuel s b a uid ∅) as [[]|]; done.
Qed.

(** C8. Removing a blocking edge is idempotent: when the blocking task
    exists and the caller owns it the removal returns without an error,
    also when the edge is absent (the store is then unchanged), and a
    second removal changes nothing.  An edge that was added can be removed
    and added again: the removal gives back the store from before the
    first addition, and the second addition returns the store of the first. *)
Theorem removeBlockingRelationship_idempotent (a b uid : Z) (s : Store) (ta : Task) :
  tasks s !! a = Some ta -> userId ta = uid ->
  exists s1,
    removeBlockingRelationship a b uid s = Ret tt s1 [] /\
    removeBlockingRelationship a b uid s1 = Ret tt s1 [] /\
    ((a, b) ∉ blocking s -> s1 = s) /\
    (forall fuel s' ev,
       addBlockingRelationship fuel a b uid s = Ret tt s' ev ->
       exists s'',
         removeBlockingRelationship a b uid s' = Ret tt s'' [] /\
         addBlockingRelationship fuel a b uid s'' = Ret tt s' ev /\
         blocking s'' = blocking s /\
         blocking s' = blocking s ++ [(a, b)]).
Proof.
  intros Ha Hu. exists (with_blocking (without_edge a b (blocking s)) s).
  split; [by eapply removeBlockingRelationship_run|].
  split.
  { erewrite removeBlockingRelationship_run; [|exact Ha|exact Hu].
    unfold with_blocking. simpl. by rewrite without_edge_idemp. }
  split.
  { intros Hn. rewrite without_edge_absent by done. apply with_blocking_id. }
  intros fuel s' ev Hadd.
  pose proof (addBlockingRelationship_Ret _ _ _ _ _ _ _ Hadd)
    as (_ & _ & _ & Hn & _ & Hs' & Hev).
  exists s. subst s' ev. split; [|done].
  erewrite removeBlockingRelationship_run; [|exact Ha|exact Hu].
  unfold with_blocking. simpl. rewrite without_edge_snoc by done.
  by destruct s.
Qed.

Lemma removeBlockingRelationship_idempotent_witness :
  addBlockingRelationship 3 1 2 7 store_AB
  = Ret tt (with_blocking [(1, 2)] store_AB) [] /\
  exists s1,
    removeBlockingRelationship 1 2 7 store_AB = Ret tt s1 [] /\
    removeBlockingRelationship 1 2 7 s1 = Ret tt s1 [] /\
    ((1, 2) ∉ blocking store_AB -> s1 = store_AB) /\
    (forall fuel s' ev,
       addBlockingRelationship fuel 1 2 7 store_AB = Ret tt s' ev ->
       exists s'',
         removeBlockingRelationship 1 2 7 s' = Ret tt s'' [] /\
         addBlockingRelationship fuel 1 2 7 s'' = Ret tt s' ev /\
         blocking s'' = blocking store_AB /\
         blocking s' = blocking store_AB ++ [(1, 2)]).
Proof.
  split; [by vm_compute|].
  apply (removeBlockingRelationship_idempotent 1 2 7 store_AB
           (plainTask 7 "A" (day 1) false None)); by vm_compute.
Defined.

(** ** Marking a task incomplete *)

Lemma assign_completedUpdate b t :
  assign_dto (completedUpdate b) t = set_completed b t.
Proof. by destruct t. Qed.

Lemma update_completed_flag_only fuel now id uid s t b :
  tasks s !! id = Some t -> userId t = uid ->
  (b = true -> completed t = true) ->
  update fuel now id (completedUpdate b) uid s
  = Ret (set_completed b t) (with_task id (set_completed b t) s) [].
Proof.
  intros Hid Hu Hb.
  assert ((isTrue (u_completed (completedUpdate b)) && negb (completed t)) = false)
    as Hgate.
  { destruct b; [|done]. simpl. by rewrite Hb. }
  assert ((negb (completed t) && isTrue (u_completed (completedUpdate b))) = false)
    as Hpost by (by rewrite andb_comm).
  unfold update. unfold bind at 1.
  rewrite (findOneOrThrow_found _ _ _ _ Hid Hu).
  rewrite Hgate, Hpost, assign_completedUpdate.
  unfold bind at 1. unfold get at 1. cbn [u_recurrencePattern completedUpdate
    u_parentTaskId u_scheduledTime isSome andb default_to truthy when].
  destruct (isSome (recurrencePattern t) && negb (isSome (parentRecurrencyId t)))
    eqn:Etemplate.
  - unfold updateRecurringTask, bind, get, ret, when, save_row.
    cbn [u_recurrencePattern completedUpdate u_recurrenceInterval
           u_recurrenceEndDate u_scheduledTime isSome orb truthy].
    assert (findOne id uid s = Some t) as -> by by apply findOne_Some.
    rewrite !andb_false_r, assign_completedUpdate. done.
  - unfold bind, save_row, when, ret. done.
Qed.

(** C10. Marking a task incomplete writes the target row and nothing else:
    the call returns, its trace is empty (no completion gate, no
    notification, no regeneration hook, no cascade), every other row, the
    blocking edges and the key counter are unchanged.  A parent that is
    completed stays completed when one of its children is marked incomplete
    again. *)
Theorem markAsIncomplete_frame (fuel : nat) (now id uid : Z) (s : Store) (t : Task) :
  tasks s !! id = Some t -> userId t = uid ->
  exists s',
    markAsIncomplete fuel now id uid s = Ret (set_completed false t) s' [] /\
    tasks s' !! id = Some (set_completed false t) /\
    (forall id', id' <> id -> tasks s' !! id' = tasks s !! id') /\
    blocking s' = blocking s /\ nextId s' = nextId s /\
    (forall pid p, parentTaskId t = Some pid -> pid <> id ->
       tasks s !! pid = Some p -> completed p = true ->
       exists p', tasks s' !! pid = Some p' /\ completed p' = true).
Proof.
  intros Hid Hu. exists (with_task id (set_completed false t) s).
  split; [by apply update_completed_flag_only|].
  split; [by apply lookup_insert_eq|].
  split; [by intros id' Hne; apply lookup_insert_ne|].
  do 2 (split; [done|]).
  intros pid p _ Hne Hp Hc. exists p. split; [|done].
  simpl. by rewrite lookup_insert_ne.
Qed.

Lemma markAsIncomplete_frame_witness :
  exists s',
    markAsIncomplete 0 0 2 7 store_PC
    = Ret (plainTask 7 "C" (day 1) false (Some 1)) s' [] /\
    tasks s' !! 2 = Some (plainTask 7 "C" (day 1) false (Some 1)) /\
    (forall id', id' <> 2 -> tasks s' !! id' = tasks store_PC !! id') /\
    blocking s' = blocking store_PC /\ nextId s' = nextId store_PC /\
    (forall pid p, Some 1 = Some pid -> pid <> 2 ->
       tasks store_PC !! pid = Some p -> completed p = true ->
       exists p', tasks s' !! pid = Some p' /\ completed p' = true).
Proof.
  apply (markAsIncomplete_frame 0 0 2 7 store_PC
           (plainTask 7 "C" (day 1) true (Some 1))); by vm_compute.
Defined.

(** ** Events and errors of a computation *)

Lemma quiet_ret P Q {A} (a : A) : quiet P Q (ret a).
Proof. intros s. constructor. Qed.

Lemma quiet_throw P Q {A} e : Q e -> quiet P Q (@throw A e).
Proof. intros He s. split; [constructor|done]. Qed.

Lemma quiet_emit P Q e : P e -> quiet P Q (emit e).
Proof. intros He s. by repeat constructor. Qed.

Lemma quiet_bind P Q {A B} (m : M A) (k : A -> M B) :
  quiet P Q m -> (forall a, quiet P Q (k a)) -> quiet P Q (bind m k).
Proof.
  intros Hm Hk s. unfold bind. specialize (Hm s).
  destruct (m s) as [a s1 ev1| |]; [|done..].
  specialize (Hk a s1).
  destruct (k a s1) as [b s2 ev2|e s2 ev2|]; [| |done].
  - by apply Forall_app.
  - destruct Hk. split; [by apply Forall_app|done].
Qed.

Lemma quiet_if P Q {A} (b : bool) (m1 m2 : M A) :
  quiet P Q m1 -> quiet P Q m2 -> quiet P Q (if b then m1 else m2).
Proof. by destruct b. Qed.

Lemma quiet_when P Q (b : bool) (m : M unit) : quiet P Q m -> quiet P Q (when b m).
Proof. destruct b; [done|]. intros _. apply quiet_ret. Qed.

Lemma quiet_lift_fuel P Q {A} (o : option A) : quiet P Q (lift_fuel o).
Proof. destruct o; [apply quiet_ret|by intros s]. Qed.

Lemma quiet_try_catch P Q (m : M unit) :
  (forall s, Forall P (res_events (m s))) -> quiet P Q (try_catch m).
Proof.
  intros Hm s. unfold try_catch. specialize (Hm s).
  by destruct (m s).
Qed.

Lemma quiet_get P Q : quiet P Q get.
Proof. intros s. constructor. Qed.

Lemma quiet_save_row P Q id t : quiet P Q (save_row id t).
Proof. intros s. constructor. Qed.

Lemma quiet_insert_row P Q t : quiet P Q (insert_row t).
Proof. intros s. constructor. Qed.

Lemma quiet_delete_where P Q f : quiet P Q (delete_where f).
Proof. intros s. constructor. Qed.

Lemma quiet_set_blocking P Q l : quiet P Q (set_blocking l).
Proof. intros s. constructor. Qed.

Ltac quiet_step :=
  first
    [ apply quiet_ret | apply quiet_get | apply quiet_save_row
    | apply quiet_insert_row | apply quiet_delete_where
    | apply quiet_set_blocking | apply quiet_lift_fuel
    | apply quiet_throw; simpl; first [tauto | done]
    | apply quiet_emit; simpl; first [tauto | done]
    | apply quiet_bind; [|intros ?]
    | apply quiet_when
    | apply quiet_if
    | match goal with
      | |- quiet _ _ (match ?x with _ => _ end) => destruct x
      end ].

Ltac quiet_auto := repeat quiet_step.

Lemma silent_validateChildDueDate t p u : silent (validateChildDueDate t p u).
Proof. unfold silent, validateChildDueDate. quiet_auto. Qed.

Lemma silent_validateNoCircularDependency f t p u :
  silent (validateNoCircularDependency f t p u).
Proof. unfold silent, validateNoCircularDependency. quiet_auto. Qed.

Lemma silent_rejectRecurringParent p u : silent (rejectRecurringParent p u).
Proof. unfold silent, rejectRecurringParent. quiet_auto. Qed.

Lemma silent_getNextScheduledTime t p i : silent (getNextScheduledTime t p i).
Proof. unfold silent, getNextScheduledTime. quiet_auto. Qed.

Lemma silent_generateLoop fuel pid R bufferDate next :
  silent (generateLoop fuel pid R bufferDate next).
Proof.
  unfold silent. revert next. induction fuel as [|fuel IH]; intros next.
  - by intros s.
  - cbn [generateLoop]. quiet_auto.
    + apply silent_getNextScheduledTime.
    + apply IH.
Qed.

Lemma silent_generateInstancesForOptimalBuffer fuel now pid R seed :
  silent (generateInstancesForOptimalBuffer fuel now pid R seed).
Proof.
  unfold generateInstancesForOptimalBuffer.
  apply quiet_if; [apply quiet_ret|].
  apply quiet_bind; [apply quiet_get|intros s].
  destruct (match lastInstanceTime pid s with Some t => Some t | None => seed end).
  - apply quiet_bind; [apply silent_getNextScheduledTime|intros next].
    apply silent_generateLoop.
  - quiet_auto.
Qed.

Lemma silent_updateRecurringTask fuel now id dto uid :
  silent (updateRecurringTask fuel now id dto uid).
Proof.
  unfold silent, updateRecurringTask.
  apply quiet_bind; [apply quiet_get|intros s].
  destruct (findOne id uid s) as [task|]; [|quiet_auto].
  apply quiet_bind; [quiet_auto|intros _].
  apply quiet_bind; [quiet_auto|intros _].
  apply quiet_bind; [|intros _; quiet_auto].
  apply quiet_when, silent_generateInstancesForOptimalBuffer.
Qed.

(** ** Updating a task that is already completed *)

(** C9. For a task whose completed flag is already true, [update] with
    completed = true alone returns the task and leaves the store as it is,
    with an empty trace; whatever else the request carries, the call runs
    neither completion gate (no BlockedByChildren and no BlockedByDependency
    can be thrown), sends no completed-notification, and calls neither the
    regeneration hook nor the cascade. *)
Theorem update_already_completed (fuel : nat) (now id uid : Z) (s : Store) (t : Task) :
  tasks s !! id = Some t -> userId t = uid -> completed t = true ->
  update fuel now id (completedUpdate true) uid s = Ret t s [] /\
  (forall dto, u_completed dto = Some true ->
     match update fuel now id dto uid s with
     | Ret _ _ ev => Forall (fun e => ~ completionEvent e) ev
     | Raise e _ ev => Forall (fun e => ~ completionEvent e) ev /\ ~ gateError e
     | OutOfFuel => True
     end).
Proof.
  intros Hid Hu Hc. split.
  - rewrite (update_completed_flag_only fuel now id uid s t true) by done.
    assert (set_completed true t = t) as ->.
    { destruct t. simpl in Hc. by subst. }
    unfold with_task. rewrite insert_id by done. by destruct s.
  - intros dto Hdto. unfold update. unfold bind at 1.
    rewrite (findOneOrThrow_found _ _ _ _ Hid Hu).
    rewrite Hdto, Hc, prefix_events_nil. cbn [isTrue negb andb when].
    match goal with
    | |- match ?m s with _ => _ end => assert (Hsilent : silent m)
    end.
    { unfold silent.
      apply quiet_bind; [apply quiet_get|intros s0].
      do 3 (apply quiet_if; [quiet_auto|]).
      apply quiet_bind; [quiet_auto|intros _].
      apply quiet_bind.
      { destruct (u_parentTaskId dto) as [[newParent|]|].
        - apply quiet_bind; [apply silent_rejectRecurringParent|intros _].
          apply quiet_bind; [apply silent_validateNoCircularDependency|intros _].
          apply silent_validateChildDueDate.
        - quiet_auto.
        - destruct (u_scheduledTime dto), (parentTaskId t); quiet_auto. }
      intros _. apply quiet_if; [apply silent_updateRecurringTask|].
      quiet_auto. }
    specialize (Hsilent s).
    match goal with
    | |- match ?m s with _ => _ end => destruct (m s)
    end; done.
Qed.

(** ** The instance generator *)

Lemma getNextScheduledTime_run t p i s :
  getNextScheduledTime t (Some p) i s = Ret (nextTime p i t) s [].
Proof. destruct p; unfold getNextScheduledTime, nextTime, ret; reflexivity. Qed.

Lemma nextTime_progress p i t : 1 <= i -> t < nextTime p i t.
Proof.
  intros Hi. destruct p; cbn [nextTime].
  - rewrite JSDateFacts.setDate_getDate. unfold JSDate.msPerDay. lia.
  - rewrite JSDateFacts.setDate_getDate. unfold JSDate.msPerDay. lia.
  - pose proof (JSDateFacts.setMonth_progress t i Hi).
    unfold JSDate.msPerDay in *. lia.
  - pose proof (JSDateFacts.setFullYear_progress t i Hi).
    unfold JSDate.msPerDay in *. lia.
Qed.

Lemma intervalOrOne_pos R : 0 <= recurrenceInterval R -> 1 <= intervalOrOne R.
Proof.
  intros H. unfold intervalOrOne.
  destruct (Z.eqb_spec (recurrenceInterval R) 0); lia.
Qed.

(** One iteration of the loop. *)
Lemma generateLoop_S fuel pid R bufferDate next s p :
  recurrencePattern R = Some p ->
  generateLoop (S fuel) pid R bufferDate next s =
  if next <=? bufferDate then
    if afterEndDate R next then Ret tt s []
    else
      match find_where (fun _ t => opt_eqb (parentRecurrencyId t) pid
                                   && (scheduledTime t =? next)) s with
      | [] =>
          prefix_events [ScheduleReminders (nextId s) next]
            (generateLoop fuel pid R bufferDate
               (nextTime p (intervalOrOne R) next)
               (with_new (newInstance pid R next) s))
      | _ :: _ =>
          generateLoop fuel pid R bufferDate
            (nextTime p (intervalOrOne R) next) s
      end
  else Ret tt s [].
Proof.
  intros Hp. cbn [generateLoop].
  destruct (next <=? bufferDate); [|done].
  destruct (afterEndDate R next); [done|].
  rewrite bind_run. unfold get at 1. rewrite prefix_events_nil, bind_run.
  destruct (find_where _ s) as [|kt l].
  - rewrite bind_run. unfold insert_row at 1. rewrite prefix_events_nil.
    unfold emit at 1. rewrite bind_run, Hp, getNextScheduledTime_run.
    rewrite prefix_events_nil. fold (with_new (newInstance pid R next) s).
    by destruct (generateLoop _ _ _ _ _ _).
  - unfold ret at 1. rewrite prefix_events_nil, bind_run, Hp.
    rewrite getNextScheduledTime_run. by rewrite !prefix_events_nil.
Qed.

Lemma ids_fresh_with_new t s : ids_fresh s -> ids_fresh (with_new t s).
Proof.
  intros Hf k t' Hk. simpl in *.
  apply lookup_insert_Some in Hk as [[<- _]|[_ Hk]]; [lia|].
  specialize (Hf _ _ Hk). simpl in Hf. lia.
Qed.

Lemma tasks_with_new t s : ids_fresh s -> tasks s ⊆ tasks (with_new t s).
Proof.
  intros Hf. simpl. apply insert_subseteq.
  destruct (tasks s !! nextId s) eqn:E; [|done].
  specialize (Hf _ _ E). simpl in Hf. lia.
Qed.

Lemma has_instance_mono s s' pid time :
  tasks s ⊆ tasks s' -> has_instance s pid time -> has_instance s' pid time.
Proof.
  intros Hsub (k & t & Hk & ?). exists k, t. split; [|done].
  by eapply lookup_weaken.
Qed.

(** The loop returns once the fuel exceeds the distance to the horizon;
    it only adds rows, and every candidate time that it reaches within the
    horizon and the end date has an instance afterwards. *)
Lemma generateLoop_covers (n : nat) pid R p bufferDate :
  recurrencePattern R = Some p -> 0 <= recurrenceInterval R ->
  forall next s fuel,
    ids_fresh s -> bufferDate - next < Z.of_nat n -> (n < fuel)%nat ->
    exists s' ev,
      generateLoop fuel pid R bufferDate next s = Ret tt s' ev /\
      ids_fresh s' /\ tasks s ⊆ tasks s' /\ blocking s' = blocking s /\
      forall k : nat,
        (forall j : nat, (j <= k)%nat ->
           candidate p (intervalOrOne R) next j <= bufferDate /\
           afterEndDate R (candidate p (intervalOrOne R) next j) = false) ->
        has_instance s' pid (candidate p (intervalOrOne R) next k).
Proof.
  intros Hp Hi. induction n as [|n IH]; intros next s fuel Hf Hd Hfuel.
  - (* the candidate is beyond the horizon *)
    destruct fuel as [|fuel]; [lia|].
    rewrite (generateLoop_S _ _ _ _ _ _ p Hp).
    destruct (Z.leb_spec next bufferDate) as [Hle|Hgt]; [lia|].
    exists s, []. repeat split; try done.
    intros k Hk. destruct (Hk 0%nat) as [Hc _]; [lia|]. simpl in Hc. lia.
  - destruct fuel as [|fuel]; [lia|].
    rewrite (generateLoop_S _ _ _ _ _ _ p Hp).
    destruct (Z.leb_spec next bufferDate) as [Hle|Hgt]; cycle 1.
    { exists s, []. repeat split; try done.
      intros k Hk. destruct (Hk 0%nat) as [Hc _]; [lia|]. simpl in Hc. lia. }
    destruct (afterEndDate R next) eqn:Eend.
    { exists s, []. repeat split; try done.
      intros k Hk. destruct (Hk 0%nat) as [_ Hc]; [lia|]. simpl in Hc.
      congruence. }
    pose proof (nextTime_progress p (intervalOrOne R) next
                  (intervalOrOne_pos R Hi)) as Hprog.
    set (next' := nextTime p (intervalOrOne R) next) in *.
    assert (forall s1, ids_fresh s1 -> tasks s ⊆ tasks s1 ->
              blocking s1 = blocking s -> has_instance s1 pid next ->
              forall evs,
              exists s' ev,
                prefix_events evs (generateLoop fuel pid R bufferDate next' s1)
                = Ret tt s' ev /\
                ids_fresh s' /\ tasks s ⊆ tasks s' /\
                blocking s' = blocking s /\
                forall k : nat,
                  (forall j : nat, (j <= k)%nat ->
                     candidate p (intervalOrOne R) next j <= bufferDate /\
                     afterEndDate R (candidate p (intervalOrOne R) next j) = false) ->
                  has_instance s' pid (candidate p (intervalOrOne R) next k))
      as Hrest.
    { intros s1 Hf1 Hsub1 Hb1 Hinst evs.
      destruct (IH next' s1 fuel Hf1) as (s' & ev & Hrun & Hf' & Hsub' & Hb' & Hcov);
        [lia..|].
      exists s', (evs ++ ev). rewrite Hrun. simpl.
      split; [done|]. split; [done|].
      split; [by etrans|]. split; [congruence|].
      intros [|k] Hk.
      - simpl. by eapply has_instance_mono.
      - assert (forall j, candidate p (intervalOrOne R) next (S j)
                          = candidate p (intervalOrOne R) next' j) as Hshift.
        { intros j. unfold candidate. by rewrite Nat.iter_succ_r. }
        rewrite Hshift. apply Hcov. intros j Hj.
        rewrite <- Hshift. apply Hk. lia. }
    destruct (find_where _ s) as [|[k0 t0] l] eqn:Efind.
    + apply Hrest.
      * by apply ids_fresh_with_new.
      * by apply tasks_with_new.
      * done.
      * exists (nextId s), (newInstance pid R next). simpl.
        by rewrite lookup_insert_eq.
    + specialize (Hrest s Hf (reflexivity _) eq_refl).
      rewrite <- (prefix_events_nil (generateLoop _ _ _ _ _ _)).
      apply Hrest.
      assert ((k0, t0) ∈ find_where
                (fun _ t => opt_eqb (parentRecurrencyId t) pid
                            && (scheduledTime t =? next)) s) as Hin
        by (rewrite Efind; left).
      apply elem_of_find_where in Hin as [Hk0 Hcond].
      apply andb_true_iff in Hcond as [Hp0 Ht0].
      apply opt_eqb_true in Hp0. apply Z.eqb_eq in Ht0.
      by exists k0, t0.
Qed.

Lemma horizon_bufferDate now pattern :
  JSDate.setDate now (JSDate.getDate now + getOptimalBuffer pattern)
  = horizon now pattern.
Proof. apply JSDateFacts.setDate_getDate. Qed.

Lemma generateInstancesForOptimalBuffer_run fuel now pid R p s :
  recurrencePattern R = Some p ->
  (forall e, recurrenceEndDate R = Some e -> now <= e) ->
  generateInstancesForOptimalBuffer fuel now pid R (Some (scheduledTime R)) s
  = generateLoop fuel pid R (horizon now (Some p))
      (nextTime p (intervalOrOne R) (seedTime pid R s)) s.
Proof.
  intros Hp Hend. unfold generateInstancesForOptimalBuffer.
  rewrite horizon_bufferDate, Hp.
  assert (match recurrenceEndDate R with
          | Some e => e <? now
          | None => false
          end = false) as ->.
  { destruct (recurrenceEndDate R) as [e|] eqn:E; [|done].
    apply Z.ltb_ge. by apply Hend. }
  rewrite bind_run. unfold get at 1. rewrite prefix_events_nil.
  unfold seedTime, default_to.
  destruct (lastInstanceTime pid s) as [t|];
    rewrite bind_run, getNextScheduledTime_run; apply prefix_events_nil.
Qed.

(** C2, as amended.  For a template whose end date is not in the past the
    generator returns once it has enough fuel, it only adds rows, and every
    candidate time (the seed advanced by k >= 1 recurrence steps) that lies,
    with the candidates before it, within now + optimal buffer days and not
    after the end date has an instance of the template afterwards.  The
    minimum buffer plays no part in how many instances there are. *)
Theorem generate_covers_horizon (now pid : Z) (R : Task) (p : RecurrencePattern)
    (s : Store) :
  recurrencePattern R = Some p -> 0 <= recurrenceInterval R ->
  ids_fresh s ->
  (forall e, recurrenceEndDate R = Some e -> now <= e) ->
  exists fuel0 : nat, forall fuel : nat, (fuel0 <= fuel)%nat ->
    exists s' ev,
      generateInstancesForOptimalBuffer fuel now pid R (Some (scheduledTime R)) s
      = Ret tt s' ev /\
      tasks s ⊆ tasks s' /\
      forall k : nat, (1 <= k)%nat ->
        (forall j : nat, (1 <= j <= k)%nat ->
           candidate p (intervalOrOne R) (seedTime pid R s) j
             <= horizon now (Some p) /\
           afterEndDate R (candidate p (intervalOrOne R) (seedTime pid R s) j)
             = false) ->
        has_instance s' pid (candidate p (intervalOrOne R) (seedTime pid R s) k).
Proof.
  intros Hp Hi Hf Hend.
  set (next := nextTime p (intervalOrOne R) (seedTime pid R s)).
  set (n := Z.to_nat (horizon now (Some p) - next + 1)).
  exists (S n). intros fuel Hfuel.
  destruct (generateLoop_covers n pid R p (horizon now (Some p)) Hp Hi
              next s fuel Hf) as (s' & ev & Hrun & _ & Hsub & _ & Hcov);
    [lia..|].
  exists s', ev. rewrite (generateInstancesForOptimalBuffer_run _ _ _ _ p) by done.
  split; [done|]. split; [done|].
  assert (forall j, candidate p (intervalOrOne R) (seedTime pid R s) (S j)
                    = candidate p (intervalOrOne R) next j) as Hshift.
  { intros j. unfold candidate. by rewrite Nat.iter_succ_r. }
  intros [|k] Hk Hall; [lia|].
  rewrite Hshift. apply Hcov. intros j Hj. rewrite <- Hshift. apply Hall. lia.
Qed.

Example generate_weekly :
  generateInstancesForOptimalBuffer 5 (day 100 + hours 9) 1
    (templateTask 7 "W" (day 100 + hours 9) WEEKLY 1 None)
    (Some (day 100 + hours 9)) store_W
  = Ret tt store_W_generated
      [ScheduleReminders 2 (day 107 + hours 9);
       ScheduleReminders 3 (day 114 + hours 9)].
Proof. by vm_compute. Qed.

Ltac by_decision := apply (bool_decide_unpack _); vm_compute; exact I.

(** C2, as stated, fails: a weekly template due now, without instances and
    without an end date, gets the two instances that fit in the 14 days of
    its optimal buffer, fewer than its minimum buffer of 5. *)
Lemma buffer_property_fails : ~ buffer_property.
Proof.
  intros H.
  assert (ids_fresh store_W) as Hfresh by by_decision.
  specialize (H 5%nat (day 100 + hours 9) 1
                (templateTask 7 "W" (day 100 + hours 9) WEEKLY 1 None) WEEKLY
                store_W store_W_generated
                [ScheduleReminders 2 (day 107 + hours 9);
                 ScheduleReminders 3 (day 114 + hours 9)]
                Hfresh eq_refl eq_refl eq_refl).
  specialize (H ltac:(by intros e [=]) generate_weekly 5%nat).
  assert (countUpcomingInstances (day 100 + hours 9) 1 store_W_generated = 2)
    as Hcount by by vm_compute.
  rewrite Hcount in H.
  assert (getMinBuffer (Some WEEKLY) = 5) as Hmin by done.
  rewrite Hmin in H.
  specialize (H ltac:(lia) ltac:(done)). lia.
Qed.

Lemma generate_covers_horizon_witness :
  exists fuel0 : nat, forall fuel : nat, (fuel0 <= fuel)%nat ->
    exists s' ev,
      generateInstancesForOptimalBuffer fuel (day 100 + hours 9) 1
        (templateTask 7 "W" (day 100 + hours 9) WEEKLY 1 None)
        (Some (day 100 + hours 9)) store_W
      = Ret tt s' ev /\
      tasks store_W ⊆ tasks s' /\
      forall k : nat, (1 <= k)%nat ->
        (forall j : nat, (1 <= j <= k)%nat ->
           candidate WEEKLY 1 (day 100 + hours 9) j
             <= horizon (day 100 + hours 9) (Some WEEKLY) /\
           afterEndDate (templateTask 7 "W" (day 100 + hours 9) WEEKLY 1 None)
             (candidate WEEKLY 1 (day 100 + hours 9) j) = false) ->
        has_instance s' 1 (candidate WEEKLY 1 (day 100 + hours 9) k).
Proof.
  apply (generate_covers_horizon (day 100 + hours 9) 1
           (templateTask 7 "W" (day 100 + hours 9) WEEKLY 1 None) WEEKLY store_W).
  - reflexivity.
  - by vm_compute.
  - by_decision.
  - intros e [=].
Defined.

(** ** The daily scenario *)

Lemma find_where_with_new_nil P t s :
  find_where P s = [] -> P (nextId s) t = false ->
  find_where P (with_new t s) = [].
Proof.
  rewrite !find_where_nil. intros Hs Ht k t' Hk. simpl in Hk.
  apply lookup_insert_Some in Hk as [[<- <-]|[_ Hk]]; eauto.
Qed.

Lemma no_instances_fresh s :
  lineage_ok s ->
  find_where (fun _ t => opt_eqb (parentRecurrencyId t) (nextId s)) s = [].
Proof.
  intros Hl. apply find_where_nil. intros k t Hk.
  specialize (Hl _ _ Hk). simpl in Hl.
  destruct (parentRecurrencyId t) as [p|]; [|done]. simpl.
  apply Z.eqb_neq. lia.
Qed.

Lemma find_where_weaken (P P' : Z -> Task -> bool) s :
  (forall k t, P' k t = true -> P k t = true) ->
  find_where P s = [] -> find_where P' s = [].
Proof.
  rewrite !find_where_nil. intros Himp Hs k t Hk.
  specialize (Hs _ _ Hk). destruct (P' k t) eqn:E; [|done].
  apply Himp in E. congruence.
Qed.

Lemma nextTime_daily t : nextTime DAILY 1 t = t + JSDate.msPerDay.
Proof. cbn [nextTime]. rewrite JSDateFacts.setDate_getDate. lia. Qed.

Lemma create_daily_run fuel now uid ttl D s :
  lineage_ok s ->
  create fuel now (dailyDto ttl D) uid s =
  match generateLoop fuel (nextId s) (dailyTemplate uid ttl D)
          (horizon now (Some DAILY)) (day (D + 1) + hours 9)
          (with_new (dailyTemplate uid ttl D) s) with
  | Ret _ s' ev =>
      Ret (nextId s, dailyTemplate uid ttl D) s'
          (ev ++ [TaskCreatedNotification (nextId s) uid ttl])
  | Raise e s' ev => Raise e s' ev
  | OutOfFuel => OutOfFuel
  end.
Proof.
  intros Hl. unfold create, dailyDto.
  cbn [c_recurrencePattern c_parentTaskId isSome truthy andb].
  rewrite bind_run. unfold ret at 1. rewrite prefix_events_nil, bind_run.
  unfold createRecurringTask.
  cbn [c_title c_description c_scheduledTime c_recurrencePattern
       c_recurrenceInterval c_recurrenceEndDate].
  change (orOne (Some 1)) with 1.
  fold (templateTask uid ttl (day D + hours 9) DAILY 1 None).
  fold (dailyTemplate uid ttl D).
  rewrite bind_run. unfold insert_row at 1.
  fold (with_new (dailyTemplate uid ttl D) s).
  rewrite bind_run.
  assert (isSome (recurrencePattern (dailyTemplate uid ttl D)) = true) as ->
    by done.
  rewrite (generateInstancesForOptimalBuffer_run _ _ _ _ DAILY);
    [|done|by intros e [=]].
  assert (seedTime (nextId s) (dailyTemplate uid ttl D)
            (with_new (dailyTemplate uid ttl D) s) = day D + hours 9) as ->.
  { unfold seedTime, lastInstanceTime.
    rewrite find_where_with_new_nil; [done| |done].
    by apply no_instances_fresh. }
  assert (intervalOrOne (dailyTemplate uid ttl D) = 1) as -> by done.
  rewrite nextTime_daily.
  replace (day D + hours 9 + JSDate.msPerDay) with (day (D + 1) + hours 9)
    by (unfold day; lia).
  destruct (generateLoop _ _ _ _ _ _) as [[] s' ev|e s' ev|]; simpl; try done.
  by rewrite app_nil_r.
Qed.

Lemma nextId_dailyStore uid ttl D s k :
  nextId (dailyStore uid ttl D s k) = nextId s + 1 + Z.of_nat k.
Proof. induction k as [|k IH]; cbn [dailyStore with_new nextId]; lia. Qed.

Lemma no_instance_dailyStore uid ttl D s k time :
  lineage_ok s ->
  day (D + Z.of_nat k) + hours 9 < time ->
  find_where (fun _ t => opt_eqb (parentRecurrencyId t) (nextId s)
                         && (scheduledTime t =? time))
             (dailyStore uid ttl D s k) = [].
Proof.
  intros Hl. induction k as [|k IH]; intros Hlt; cbn [dailyStore].
  - apply find_where_with_new_nil; [|done].
    eapply find_where_weaken; [|by apply no_instances_fresh].
    by intros ? ? [? _]%andb_true_iff.
  - apply find_where_with_new_nil.
    + apply IH. unfold day, JSDate.msPerDay in *. lia.
    + cbn [dailyInstance newInstance parentRecurrencyId scheduledTime opt_eqb].
      rewrite Z.eqb_refl. apply Z.eqb_neq. lia.
Qed.

(** The loop of the daily template: from the candidate of day [D + k + 1]
    it writes the instances up to day [D + m], the last one within the
    horizon, and stops. *)
Lemma generateLoop_daily uid ttl D s bufferDate (m : nat) :
  lineage_ok s ->
  day (D + Z.of_nat m) + hours 9 <= bufferDate ->
  bufferDate < day (D + Z.of_nat (S m)) + hours 9 ->
  forall (j k : nat) fuel, (k + j = m)%nat -> (j < fuel)%nat ->
    generateLoop fuel (nextId s) (dailyTemplate uid ttl D) bufferDate
      (day (D + Z.of_nat (S k)) + hours 9) (dailyStore uid ttl D s k)
    = Ret tt (dailyStore uid ttl D s m)
        (map (fun i : nat => ScheduleReminders (nextId s + Z.of_nat i)
                               (day (D + Z.of_nat i) + hours 9))
             (seq (S k) j)).
Proof.
  intros Hl Hin Hout. induction j as [|j IH]; intros k fuel Hk Hfuel.
  - destruct fuel as [|fuel]; [lia|].
    rewrite (generateLoop_S _ _ _ _ _ _ DAILY) by done.
    assert (k = m) as -> by lia.
    destruct (Z.leb_spec (day (D + Z.of_nat (S m)) + hours 9) bufferDate);
      [lia|done].
  - destruct fuel as [|fuel]; [lia|].
    rewrite (generateLoop_S _ _ _ _ _ _ DAILY) by done.
    destruct (Z.leb_spec (day (D + Z.of_nat (S k)) + hours 9) bufferDate)
      as [_|Hgt]; cycle 1.
    { exfalso. unfold day, JSDate.msPerDay in *. lia. }
    assert (afterEndDate (dailyTemplate uid ttl D)
              (day (D + Z.of_nat (S k)) + hours 9) = false) as -> by done.
    rewrite no_instance_dailyStore; [|done|unfold day, JSDate.msPerDay; lia].
    assert (intervalOrOne (dailyTemplate uid ttl D) = 1) as -> by done.
    rewrite nextTime_daily.
    replace (day (D + Z.of_nat (S k)) + hours 9 + JSDate.msPerDay)
      with (day (D + Z.of_nat (S (S k))) + hours 9) by (unfold day; lia).
    fold (dailyInstance (nextId s) uid ttl D (Z.of_nat (S k))).
    change (with_new (dailyInstance (nextId s) uid ttl D (Z.of_nat (S k)))
              (dailyStore uid ttl D s k))
      with (dailyStore uid ttl D s (S k)).
    rewrite (IH (S k) fuel) by lia.
    cbn [prefix_events seq map app]. rewrite nextId_dailyStore.
    replace (nextId s + 1 + Z.of_nat k) with (nextId s + Z.of_nat (S k)) by lia.
    done.
Qed.

Lemma filter_Permutation {A} (f : A -> bool) (l l' : list A) :
  l ≡ₚ l' -> List.filter f l ≡ₚ List.filter f l'.
Proof.
  induction 1 as [|x l l' _ IH|x y l|l1 l2 l3 _ IH1 _ IH2]; simpl.
  - done.
  - destruct (f x); [by constructor|done].
  - destruct (f x), (f y); try done. apply perm_swap.
  - by etrans.
Qed.

Lemma find_where_with_new P t s :
  tasks s !! nextId s = None ->
  find_where P (with_new t s)
  ≡ₚ (if P (nextId s) t then [(nextId s, t)] else []) ++ find_where P s.
Proof.
  intros Hnone. unfold find_where. cbn [with_new tasks].
  rewrite (filter_Permutation _ _ _ (map_to_list_insert _ _ t Hnone)).
  simpl. by destruct (P (nextId s) t).
Qed.

Lemma ids_fresh_next s : ids_fresh s -> tasks s !! nextId s = None.
Proof.
  intros Hf. destruct (tasks s !! nextId s) eqn:E; [|done].
  specialize (Hf _ _ E). simpl in Hf. lia.
Qed.

Lemma ids_fresh_dailyStore uid ttl D s k :
  ids_fresh s -> ids_fresh (dailyStore uid ttl D s k).
Proof.
  intros Hf. induction k; cbn [dailyStore]; by apply ids_fresh_with_new.
Qed.

Lemma instanceTimes_dailyStore uid ttl D s k :
  ids_fresh s -> lineage_ok s ->
  instanceTimes (dailyStore uid ttl D s k) (nextId s)
  ≡ₚ map (fun i : nat => day (D + Z.of_nat i) + hours 9) (seq 1 k).
Proof.
  intros Hf Hl. unfold instanceTimes. induction k as [|k IH]; cbn [dailyStore].
  - rewrite find_where_with_new by by apply ids_fresh_next.
    rewrite no_instances_fresh by done. done.
  - rewrite find_where_with_new
      by by apply ids_fresh_next, ids_fresh_dailyStore.
    cbn [dailyInstance newInstance parentRecurrencyId opt_eqb].
    rewrite Z.eqb_refl. cbn [app map]. rewrite IH.
    rewrite seq_S, map_app. cbn [map]. rewrite Permutation_app_comm.
    cbn [app]. replace (1 + k)%nat with (S k) by lia. done.
Qed.

(** C6, as amended.  A daily template with interval 1 that is due on day D
    at 09:00 and is created at time [tau] of day D gets its instances at
    09:00 of the days after D up to the last one that is not after the
    moment of creation plus three days: the three of days D+1, D+2 and
    D+3 when it is created at or after 09:00, the two of days D+1 and D+2
    when it is created before 09:00.  Nothing else is written, and the
    reminders of exactly these instances are scheduled. *)
Theorem create_daily_template (fuel : nat) (D tau uid : Z) (ttl : string)
    (s : Store) :
  (4 <= fuel)%nat -> 0 <= tau < JSDate.msPerDay ->
  ids_fresh s -> lineage_ok s ->
  let m := if hours 9 <=? tau then 3%nat else 2%nat in
  create fuel (day D + tau) (dailyDto ttl D) uid s
  = Ret (nextId s, dailyTemplate uid ttl D) (dailyStore uid ttl D s m)
      (dailyReminders (nextId s) D m
       ++ [TaskCreatedNotification (nextId s) uid ttl]) /\
  instanceTimes (dailyStore uid ttl D s m) (nextId s)
  ≡ₚ map (fun i : nat => day (D + Z.of_nat i) + hours 9) (seq 1 m).
Proof.
  intros Hfuel Htau Hf Hl m. split; [|by apply instanceTimes_dailyStore].
  rewrite create_daily_run by done.
  change (with_new (dailyTemplate uid ttl D) s) with (dailyStore uid ttl D s 0).
  change (day (D + 1) + hours 9) with (day (D + Z.of_nat 1) + hours 9).
  rewrite (generateLoop_daily uid ttl D s (horizon (day D + tau) (Some DAILY)) m
             Hl) with (j := m) (k := 0%nat); [done| | |done|].
  - unfold horizon, m, hours, day, JSDate.msPerDay, JSDate.msPerHour in *.
    cbn [getOptimalBuffer].
    destruct (Z.leb_spec (9 * 3600000) tau); lia.
  - unfold horizon, m, hours, day, JSDate.msPerDay, JSDate.msPerHour in *.
    cbn [getOptimalBuffer].
    destruct (Z.leb_spec (9 * 3600000) tau); lia.
  - unfold m. destruct (hours 9 <=? tau); lia.
Qed.

Lemma create_daily_template_witness :
  create 4 (day 100 + hours 9) (dailyDto "T" 100) 7 emptyStore
  = Ret (1, dailyTemplate 7 "T" 100) (dailyStore 7 "T" 100 emptyStore 3)
      (dailyReminders 1 100 3 ++ [TaskCreatedNotification 1 7 "T"]) /\
  instanceTimes (dailyStore 7 "T" 100 emptyStore 3) 1
  ≡ₚ map (fun i : nat => day (100 + Z.of_nat i) + hours 9) (seq 1 3).
Proof.
  apply (create_daily_template 4 100 (hours 9) 7 "T" emptyStore).
  - lia.
  - by vm_compute.
  - by_decision.
  - by_decision.
Defined.

(** C6, as stated, fails: created at 08:00 of day 100, the template due at
    09:00 of that day gets the instances of days 101 and 102 only, since
    09:00 of day 103 is after 08:00 of day 103, the end of its buffer. *)
Lemma daily_scenario_property_fails : ~ daily_scenario_property.
Proof.
  intros H.
  destruct (H 4%nat 100 (hours 8) 7 "T"%string emptyStore)
    as (r & s' & ev & Hrun & Hperm).
  - lia.
  - by vm_compute.
  - by_decision.
  - by_decision.
  - vm_compute in Hrun. injection Hrun as <- <- <-.
    apply Permutation_length in Hperm. vm_compute in Hperm. discriminate.
Qed.

Lemma update_already_completed_witness :
  update 0 0 2 (completedUpdate true) 7 store_PC
  = Ret (plainTask 7 "C" (day 1) true (Some 1)) store_PC [] /\
  (forall dto, u_completed dto = Some true ->
     match update 0 0 2 dto 7 store_PC with
     | Ret _ _ ev => Forall (fun e => ~ completionEvent e) ev
     | Raise e _ ev => Forall (fun e => ~ completionEvent e) ev /\ ~ gateError e
     | OutOfFuel => True
     end).
Proof.
  apply (update_already_completed 0 0 2 7 store_PC
           (plainTask 7 "C" (day 1) true (Some 1))); by vm_compute.
Defined.

(** ** The search for a blocking cycle *)

Lemma elem_of_owned_ids s uid k :
  k ∈ owned_ids s uid <-> is_Some (findOne k uid s).
Proof.
  unfold owned_ids. rewrite elem_of_dom. split.
  - intros [t [Hk Hu]%map_lookup_filter_Some]. simpl in Hu.
    exists t. by apply findOne_Some.
  - intros [t [Hk Hu]%findOne_Some]. exists t.
    by apply map_lookup_filter_Some.
Qed.

Lemma size_owned_ids s uid : (size (owned_ids s uid) <= size (tasks s))%nat.
Proof.
  unfold owned_ids. rewrite size_dom. apply map_subseteq_size, map_filter_subseteq.
Qed.

Lemma blocks_path_mono s uid (V V' : gset Z) a b :
  V ⊆ V' -> blocks_path s uid V' a b -> blocks_path s uid V a b.
Proof.
  intros Hsub. induction 1 as [a b Ha He|a c b Ha He _ IH].
  - apply blocks_path_edge; [|done]. intros ?. by apply Ha, Hsub.
  - eapply blocks_path_step; [|done..]. intros ?. by apply Ha, Hsub.
Qed.

Lemma blocks_path_head s uid V a b : blocks_path s uid V a b -> a ∉ V.
Proof. by destruct 1. Qed.

Lemma blocks_path_app s uid a b c :
  blocks_path s uid ∅ a b -> blocks_path s uid ∅ b c -> blocks_path s uid ∅ a c.
Proof.
  intros Hab Hbc. induction Hab as [a b Ha He|a x b Ha He _ IH].
  - by eapply blocks_path_step.
  - eapply blocks_path_step; [done..|]. by apply IH.
Qed.

(** A chain from [x] that avoids [V] either avoids [a] as well, or goes
    through [a]: its part after the last visit of [a] starts with an edge
    out of [a] and avoids [a] from there on. *)
Lemma blocks_path_split s uid V x b a :
  blocks_path s uid V x b ->
  blocks_path s uid ({[a]} ∪ V) x b \/
  ((a ∉ V) /\
   (blocks_edge s uid a b \/
    exists c, blocks_edge s uid a c /\ blocks_path s uid ({[a]} ∪ V) c b)).
Proof.
  induction 1 as [x b Hx He|x c b Hx He _ IH].
  - destruct (decide (x = a)) as [->|Hne].
    + right. split; [done|]. by left.
    + left. apply blocks_path_edge; [|done].
      by rewrite not_elem_of_union, not_elem_of_singleton.
  - destruct IH as [IH|IH]; [|by right].
    destruct (decide (x = a)) as [->|Hne].
    + right. split; [done|]. right. eauto.
    + left. eapply blocks_path_step; [|done..].
      by rewrite not_elem_of_union, not_elem_of_singleton.
Qed.

Lemma blocks_path_cut s uid V a b :
  blocks_path s uid V a b ->
  blocks_edge s uid a b \/
  exists c, blocks_edge s uid a c /\ blocks_path s uid ({[a]} ∪ V) c b.
Proof.
  intros Hp. destruct (blocks_path_split _ _ _ _ _ a Hp) as [Hp'|[_ ?]]; [|done].
  apply blocks_path_head in Hp'. exfalso. apply Hp', elem_of_union. left.
  by apply elem_of_singleton.
Qed.

Lemma first_true_spec {A} (f : A -> option bool) (P : A -> Prop) (l : list A) :
  (forall x, x ∈ l -> exists r, f x = Some r /\ (r = true <-> P x)) ->
  exists r, first_true f l = Some r /\ (r = true <-> exists x, x ∈ l /\ P x).
Proof.
  induction l as [|x l IH]; intros Hl.
  - exists false. split; [done|]. split; [done|].
    intros (x & Hx & _). by apply elem_of_nil in Hx.
  - destruct (Hl x) as (r & Hr & Hrx); [left|]. simpl. rewrite Hr.
    destruct r.
    + exists true. split; [done|]. split; [|done].
      intros _. exists x. split; [left|by apply Hrx].
    + destruct IH as (r' & Hr' & Hrl).
      { intros y Hy. apply Hl. by right. }
      exists r'. split; [done|]. rewrite Hrl. split.
      * intros (y & Hy & HP). exists y. split; [by right|done].
      * intros (y & Hy & HP). apply elem_of_cons in Hy as [->|Hy].
        -- apply Hrx in HP. done.
        -- eauto.
Qed.

Lemma existsb_blocks s a b :
  existsb (fun bt : Z * Task => bt.1 =? b) (blocks s a) = true <->
  (a, b) ∈ blocking s /\ is_Some (tasks s !! b).
Proof.
  split; [apply existsb_blocks_true|].
  intros [Hin [t Ht]]. apply existsb_exists. exists (b, t).
  split; [|by apply Z.eqb_refl].
  apply list_elem_of_In, elem_of_blocks. done.
Qed.

(** The search returns once the fuel exceeds the number of tasks of the
    user that are not visited yet, and it finds exactly the chains that
    avoid the visited tasks. *)
Lemma doesTaskEventuallyBlock_spec s uid b fuel :
  forall (V : gset Z) a,
    (size (owned_ids s uid ∖ V) < fuel)%nat ->
    exists r, doesTaskEventuallyBlock fuel s a b uid V = Some r /\
              (r = true <-> blocks_path s uid V a b).
Proof.
  induction fuel as [|fuel IH]; intros V a Hsize; [lia|].
  cbn [doesTaskEventuallyBlock].
  destruct (bool_decide_reflect (a ∈ V)) as [HaV|HaV].
  { exists false. split; [done|]. split; [done|].
    intros Hp%blocks_path_head. done. }
  destruct (findOne a uid s) as [ta|] eqn:Ea; cycle 1.
  { exists false. split; [done|]. split; [done|].
    intros Hp. destruct Hp as [? ? _ [[? He] _]|? ? ? _ [[? He] _] _]; congruence. }
  assert (is_Some (findOne a uid s)) as Hsome by (rewrite Ea; eauto).
  destruct (existsb _ (blocks s a)) eqn:Eex.
  { exists true. split; [done|]. split; [|done]. intros _.
    apply existsb_blocks in Eex as [? ?]. by apply blocks_path_edge. }
  assert (size (owned_ids s uid ∖ ({[a]} ∪ V)) < fuel)%nat as Hsize'.
  { assert (owned_ids s uid ∖ ({[a]} ∪ V) ⊂ owned_ids s uid ∖ V) as Hsub.
    { apply elem_of_owned_ids in Hsome. split.
      - intros x [Hx Hn]%elem_of_difference. apply elem_of_difference.
        split; [done|]. intros ?. apply Hn, elem_of_union. by right.
      - intros Hsup. specialize (Hsup a). rewrite !elem_of_difference in Hsup.
        destruct Hsup as [_ Hn]; [done|]. apply Hn, elem_of_union. left.
        by apply elem_of_singleton. }
    apply subset_size in Hsub. lia. }
  destruct (first_true_spec
              (fun bt : Z * Task =>
                 doesTaskEventuallyBlock fuel s bt.1 b uid ({[a]} ∪ V))
              (fun bt : Z * Task => blocks_path s uid ({[a]} ∪ V) bt.1 b)
              (blocks s a)) as (r & Hr & Hrl).
  { intros [c tc] _. by apply IH. }
  exists r. split; [done|]. rewrite Hrl. split.
  - intros ([c tc] & Hin & Hp). simpl in Hp.
    apply elem_of_blocks in Hin as [Hin Hc].
    eapply blocks_path_step; [done| |].
    + split; [done|]. split; [done|]. eauto.
    + eapply blocks_path_mono; [|done]. apply union_subseteq_r.
  - intros Hp. apply blocks_path_cut in Hp as [(_ & Hin & Hb)|(c & He & Hp)].
    + assert (existsb (fun bt : Z * Task => bt.1 =? b) (blocks s a) = true)
        by by apply existsb_blocks.
      congruence.
    + destruct He as (_ & Hin & [tc Hc]). exists (c, tc). split; [|done].
      by apply elem_of_blocks.
Qed.

Lemma validateBlockingRules_not_circular fuel a ta b tb uid s :
  forall e s' ev,
    validateBlockingRules fuel a ta b tb uid s = Raise e s' ev ->
    e <> CircularDependency.
Proof.
  assert (quiet (fun _ => True) (fun e => e <> CircularDependency)
            (validateBlockingRules fuel a ta b tb uid)) as Hq.
  { unfold validateBlockingRules, validateNoHierarchyConflict. quiet_auto. }
  intros e s' ev Hr. specialize (Hq s). rewrite Hr in Hq. by destruct Hq.
Qed.

(** With enough fuel for the search, adding the edge from [a] to [b] fails
    with CircularDependency exactly when [b] reaches [a]. *)
Lemma addBlockingRelationship_circular_iff fuel a b uid s :
  (size (owned_ids s uid) < fuel)%nat ->
  is_Some (findOne a uid s) -> is_Some (findOne b uid s) -> a <> b ->
  (a, b) ∉ blocking s ->
  (exists s' ev,
     addBlockingRelationship fuel a b uid s = Raise CircularDependency s' ev)
  <-> reaches s uid b a.
Proof.
  intros Hfuel [ta Ha] [tb Hb] Hne Hnot.
  destruct (doesTaskEventuallyBlock_spec s uid a fuel ∅ b) as (r & Hr & Hreach).
  { rewrite difference_empty_L. done. }
  unfold addBlockingRelationship. rewrite bind_run. unfold get at 1.
  rewrite prefix_events_nil, Ha, Hb.
  assert ((a =? b) = false) as -> by by apply Z.eqb_neq.
  assert (existsb (fun bt : Z * Task => bt.1 =? b) (blocks s a) = false) as ->.
  { apply not_true_is_false. intros [? _]%existsb_blocks. done. }
  rewrite bind_run.
  assert (validateNoCircularBlocking fuel a b uid s
          = if r then Raise CircularDependency s [] else Ret tt s []) as ->.
  { unfold validateNoCircularBlocking. rewrite bind_run. unfold get at 1.
    rewrite prefix_events_nil, bind_run, Hr. simpl. by destruct r. }
  unfold reaches. rewrite <- Hreach. destruct r.
  - split; [done|]. intros _. eauto.
  - rewrite prefix_events_nil, bind_run. split; [|done].
    intros (s' & ev & Hraise). exfalso.
    destruct (validateBlockingRules fuel a ta b tb uid s) as [[] s1 ev1|e s1 ev1|]
      eqn:Erules; [done| |done].
    injection Hraise as -> _ _.
    by eapply validateBlockingRules_not_circular.
Qed.

(** When every edge joins two existing tasks of one owner, the chains that
    the search of a user follows from one of his tasks are the paths of
    the blocking graph. *)
Lemma reaches_tc s uid b a :
  blocking_ok s -> is_Some (findOne b uid s) ->
  reaches s uid b a <-> tc (blocks_rel s) b a.
Proof.
  intros Hok Hb. split.
  - clear Hb. induction 1 as [x y _ (_ & Hin & _)|x y z _ (_ & Hin & _) _ IH].
    + by apply tc_once.
    + by eapply tc_l.
  - intros Htc. revert Hb.
    assert (forall x y, blocks_rel s x y -> is_Some (findOne x uid s) ->
              blocks_edge s uid x y /\ is_Some (findOne y uid s)) as Hstep.
    { intros x y Hin [tx [Hx Hu]%findOne_Some].
      unfold blocking_ok in Hok. rewrite Forall_forall in Hok.
      specialize (Hok _ Hin). simpl in Hok. rewrite Hx in Hok.
      destruct (tasks s !! y) as [ty|] eqn:Hy; [|done].
      assert (findOne y uid s = Some ty) as Hfy
        by (apply findOne_Some; split; [done|congruence]).
      split; [|rewrite Hfy; eauto].
      split; [exists tx; by apply findOne_Some|]. split; [done|eauto]. }
    induction Htc as [x y Hxy|x y z Hxy _ IH]; intros Hx.
    + apply blocks_path_edge; [apply not_elem_of_empty|].
      by apply Hstep.
    + destruct (Hstep _ _ Hxy Hx) as [He Hy].
      eapply blocks_path_step; [apply not_elem_of_empty|done|]. by apply IH.
Qed.

(** C3. For two distinct tasks of the same owner without an edge from the
    first to the second, [addBlockingRelationship] fails with
    CircularDependency exactly when the blocked task already reaches the
    blocking task through the blocking edges (in every store, so also when
    the edges form a DAG); when every edge joins two tasks of one owner,
    that is exactly when the blocking graph has a path from the blocked
    task to the blocking task.  After the edge from A to B has been added,
    adding the edge from B to A fails with CircularDependency, and so does
    adding an edge to A from any task that B reaches. *)
Theorem addBlockingRelationship_circular (fuel : nat) (a b uid : Z) (s : Store) :
  (size (owned_ids s uid) < fuel)%nat ->
  is_Some (findOne a uid s) -> is_Some (findOne b uid s) -> a <> b ->
  (a, b) ∉ blocking s ->
  ((exists s' ev,
      addBlockingRelationship fuel a b uid s = Raise CircularDependency s' ev)
   <-> reaches s uid b a) /\
  (blocking_ok s ->
   ((exists s' ev,
       addBlockingRelationship fuel a b uid s = Raise CircularDependency s' ev)
    <-> tc (blocks_rel s) b a)) /\
  (forall s' ev,
     addBlockingRelationship fuel a b uid s = Ret tt s' ev ->
     (exists s'' ev',
        addBlockingRelationship fuel b a uid s' = Raise CircularDependency s'' ev') /\
     (forall c, reaches s' uid b c -> c <> a ->
        is_Some (findOne c uid s') -> (c, a) ∉ blocking s' ->
        exists s'' ev',
          addBlockingRelationship fuel c a uid s' = Raise CircularDependency s'' ev')).
Proof.
  intros Hfuel Ha Hb Hne Hnot.
  pose proof (addBlockingRelationship_circular_iff fuel a b uid s
                Hfuel Ha Hb Hne Hnot) as Hiff.
  split; [done|]. split.
  { intros Hok. rewrite Hiff. by apply reaches_tc. }
  intros s' ev Hadd.
  pose proof (addBlockingRelationship_Ret _ _ _ _ _ _ _ Hadd)
    as (_ & _ & _ & _ & _ & -> & ->).
  assert (reaches (with_blocking (blocking s ++ [(a, b)]) s) uid a b) as Hab.
  { apply blocks_path_edge; [apply not_elem_of_empty|].
    split; [done|]. split.
    - cbn [with_blocking blocking]. apply elem_of_app. right. left.
    - destruct Hb as [tb [Hb _]%findOne_Some]. by exists tb. }
  split.
  - apply addBlockingRelationship_circular_iff; try done.
    cbn [with_blocking blocking]. intros [Hin|Hin]%elem_of_app.
    + assert (reaches s uid b a) as Hba.
      { apply blocks_path_edge; [apply not_elem_of_empty|].
        split; [done|]. split; [done|].
        destruct Ha as [ta [Ha _]%findOne_Some]. by exists ta. }
      apply Hiff in Hba as (s1 & ev1 & Hraise). congruence.
    + apply list_elem_of_singleton in Hin. congruence.
  - intros c Hbc Hca Hc Hnotc.
    apply addBlockingRelationship_circular_iff; try done.
    by eapply blocks_path_app.
Qed.

Lemma addBlockingRelationship_circular_witness :
  ((exists s' ev,
      addBlockingRelationship 3 1 2 7 store_AB = Raise CircularDependency s' ev)
   <-> reaches store_AB 7 2 1) /\
  (blocking_ok store_AB ->
   ((exists s' ev,
       addBlockingRelationship 3 1 2 7 store_AB = Raise CircularDependency s' ev)
    <-> tc (blocks_rel store_AB) 2 1)) /\
  (forall s' ev,
     addBlockingRelationship 3 1 2 7 store_AB = Ret tt s' ev ->
     (exists s'' ev',
        addBlockingRelationship 3 2 1 7 s' = Raise CircularDependency s'' ev') /\
     (forall c, reaches s' 7 2 c -> c <> 1 ->
        is_Some (findOne c 7 s') -> (c, 1) ∉ blocking s' ->
        exists s'' ev',
          addBlockingRelationship 3 c 1 7 s' = Raise CircularDependency s'' ev')).
Proof.
  apply (addBlockingRelationship_circular 3 1 2 7 store_AB).
  - vm_compute. lia.
  - vm_compute. eauto.
  - vm_compute. eauto.
  - done.
  - apply not_elem_of_nil.
Defined.

(** ** The ancestor walk *)

Lemma parent_step_fun s uid x y y' :
  parent_step s uid x y -> parent_step s uid x y' -> y = y'.
Proof. intros (t & p & Ht & Hp) (t' & p' & Ht' & Hp'). congruence. Qed.

Lemma tc_parent_step_inv s uid x pid a :
  parent_step s uid x pid -> tc (parent_step s uid) x a ->
  pid = a \/ tc (parent_step s uid) pid a.
Proof.
  intros Hstep Htc. destruct Htc as [x a Hxa|x y a Hxy Hya].
  - left. by eapply parent_step_fun.
  - right. by rewrite (parent_step_fun _ _ _ _ _ Hstep Hxy).
Qed.

(** The walk returns once the fuel exceeds the number of tasks of the user
    that it has not passed, and answers whether [a] is a proper ancestor. *)
Lemma isDescendant_spec s uid a fuel :
  forall (seen : gset Z) d,
    (forall x, x ∈ seen -> tc (parent_step s uid) x d) ->
    chain_acyclic s uid d ->
    (size (owned_ids s uid ∖ seen) < fuel)%nat ->
    exists r, isDescendant fuel s d a uid = Some r /\
              (r = true <-> tc (parent_step s uid) d a).
Proof.
  induction fuel as [|fuel IH]; intros seen d Hseen Hacyc Hsize; [lia|].
  cbn [isDescendant].
  destruct (findOne d uid s) as [t|] eqn:Ed; cycle 1.
  { exists false. split; [done|]. split; [done|]. intros Htc.
    destruct Htc as [? ? (t & p & Ht & _)|? ? ? (t & p & Ht & _) _]; congruence. }
  destruct (parentTask s t) as [[pid p]|] eqn:Ep; cycle 1.
  { exists false. split; [done|]. split; [done|]. intros Htc.
    destruct Htc as [? ? (t' & p & Ht & Hp)|? ? ? (t' & p & Ht & Hp) _];
      congruence. }
  assert (parent_step s uid d pid) as Hstep by (by exists t, p).
  destruct (Z.eqb_spec pid a) as [->|Hne].
  { exists true. split; [done|]. split; [|done]. intros _. by apply tc_once. }
  assert (d ∉ seen) as Hd.
  { intros Hin. apply (Hacyc d); [done|]. by apply Hseen. }
  destruct (IH ({[d]} ∪ seen) pid) as (r & Hr & Hiff).
  - intros x [->%elem_of_singleton|Hx]%elem_of_union.
    + by apply tc_once.
    + eapply tc_r; [by apply Hseen|done].
  - intros y Hy. apply Hacyc. by eapply rtc_l.
  - assert (owned_ids s uid ∖ ({[d]} ∪ seen) ⊂ owned_ids s uid ∖ seen) as Hsub.
    { assert (d ∈ owned_ids s uid) as Hown
        by (apply elem_of_owned_ids; rewrite Ed; eauto).
      split.
      - intros x [Hx Hn]%elem_of_difference. apply elem_of_difference.
        split; [done|]. intros ?. apply Hn, elem_of_union. by right.
      - intros Hsup. specialize (Hsup d). rewrite !elem_of_difference in Hsup.
        destruct Hsup as [_ Hn]; [done|]. apply Hn, elem_of_union. left.
        by apply elem_of_singleton. }
    apply subset_size in Hsub. lia.
  - exists r. split; [done|]. rewrite Hiff. split.
    + intros Htc. by eapply tc_l.
    + intros Htc. by destruct (tc_parent_step_inv _ _ _ _ _ Hstep Htc).
Qed.

(** What the check gives follows the answer of the walk. *)
Lemma validateNoCircularDependency_run fuel taskId parentId uid s :
  validateNoCircularDependency fuel taskId parentId uid s
  = match isDescendant fuel s parentId taskId uid with
    | Some true => Raise InvalidRelationship s []
    | Some false => Ret tt s []
    | None => OutOfFuel
    end.
Proof.
  unfold validateNoCircularDependency. rewrite bind_run. unfold get at 1.
  rewrite prefix_events_nil, bind_run.
  by destruct (isDescendant fuel s parentId taskId uid) as [[]|].
Qed.

(** An answer of the walk does not change with more fuel. *)
Lemma isDescendant_S fuel s d a uid r :
  isDescendant fuel s d a uid = Some r ->
  isDescendant (S fuel) s d a uid = Some r.
Proof.
  revert d. induction fuel as [|fuel IH]; intros d; [done|].
  intros H. cbn [isDescendant] in H. cbn [isDescendant].
  destruct (findOne d uid s) as [t|]; [|done].
  destruct (parentTask s t) as [[pid p]|]; [|done].
  destruct (pid =? a); [done|]. by apply IH.
Qed.

Lemma isDescendant_mono fuel fuel' s d a uid r :
  (fuel <= fuel')%nat ->
  isDescendant fuel s d a uid = Some r ->
  isDescendant fuel' s d a uid = Some r.
Proof.
  intros Hle H. induction Hle as [|fuel' _ IH]; [done|].
  by apply isDescendant_S.
Qed.

Lemma parent_step_owned s uid x y :
  parent_step s uid x y -> x ∈ owned_ids s uid.
Proof. intros (t & p & Ht & _). apply elem_of_owned_ids. by exists t. Qed.

Lemma isDescendant_step fuel s uid d pid a :
  parent_step s uid d pid ->
  isDescendant (S fuel) s d a uid
  = if pid =? a then Some true else isDescendant fuel s pid a uid.
Proof. intros (t & p & Ht & Hp). cbn [isDescendant]. by rewrite Ht, Hp. Qed.

(** When [a] is a proper ancestor of [d], the tasks that the walk passes
    before it meets [a] are tasks of the user, and the walk from each of
    them answers within as many steps as there are of them: no acyclicity
    is needed for that. *)
Lemma isDescendant_reaches s uid a d :
  tc (parent_step s uid) d a ->
  exists V : gset Z,
    V ⊆ owned_ids s uid /\ d ∈ V /\
    forall z, z ∈ V -> isDescendant (size V) s z a uid = Some true.
Proof.
  intros Htc.
  assert (forall d pid, parent_step s uid d pid -> pid = a ->
            exists V : gset Z,
              V ⊆ owned_ids s uid /\ d ∈ V /\
              forall z, z ∈ V -> isDescendant (size V) s z a uid = Some true)
    as Hbase.
  { intros d' pid Hstep ->. exists {[d']}. split; [|split].
    - intros z ->%elem_of_singleton. by eapply parent_step_owned.
    - by apply elem_of_singleton.
    - intros z ->%elem_of_singleton. rewrite size_singleton.
      rewrite (isDescendant_step _ _ _ _ _ _ Hstep). by rewrite Z.eqb_refl. }
  induction Htc as [d a Hstep|d y a Hstep Htc IH]; [by eapply Hbase|].
  destruct (decide (y = a)) as [Hy|Hy]; [by eapply Hbase|].
  destruct (IH Hbase) as (V & Hsub & Hin & Hwalk).
  destruct (decide (d ∈ V)) as [Hd|Hd]; [by exists V|].
  exists ({[d]} ∪ V).
  assert (size ({[d]} ∪ V) = S (size V)) as Hsize.
  { rewrite size_union by set_solver. by rewrite size_singleton. }
  split; [|split].
  - intros z [->%elem_of_singleton|Hz]%elem_of_union; [|by apply Hsub].
    by eapply parent_step_owned.
  - apply elem_of_union. left. by apply elem_of_singleton.
  - intros z Hz. rewrite Hsize. apply elem_of_union in Hz as [->%elem_of_singleton|Hz].
    + rewrite (isDescendant_step _ _ _ _ _ _ Hstep).
      apply Z.eqb_neq in Hy. rewrite Hy. by apply Hwalk.
    + apply isDescendant_S. by apply Hwalk.
Qed.

Lemma isDescendant_ancestor fuel s uid a d :
  (size (owned_ids s uid) < fuel)%nat ->
  tc (parent_step s uid) d a ->
  isDescendant fuel s d a uid = Some true.
Proof.
  intros Hfuel (V & Hsub & Hin & Hwalk)%isDescendant_reaches.
  apply (isDescendant_mono (size V)); [|by apply Hwalk].
  apply subseteq_size in Hsub. lia.
Qed.

Lemma rtc_parent_step_linear s uid x a b :
  rtc (parent_step s uid) x a -> rtc (parent_step s uid) x b ->
  rtc (parent_step s uid) a b \/ rtc (parent_step s uid) b a.
Proof.
  intros Ha. revert b. induction Ha as [x|x y a Hxy Hya IH]; intros b Hb.
  { by left. }
  inversion Hb as [|? y' ? Hxy' Hyb]; subst.
  - right. by eapply rtc_l.
  - rewrite <- (parent_step_fun _ _ _ _ _ Hxy Hxy') in Hyb. by apply IH.
Qed.

Lemma tc_parent_step_first s uid x y :
  tc (parent_step s uid) x y -> exists w, parent_step s uid x w.
Proof. intros [x' y' H|x' w y' H _]; by exists w || by eexists. Qed.

(** A task that the parent chain reaches from a task on a cycle lies on a
    cycle itself. *)
Lemma tc_cycle_closed s uid y z :
  tc (parent_step s uid) y y -> rtc (parent_step s uid) y z ->
  tc (parent_step s uid) z z.
Proof.
  intros Hcyc Hyz. induction Hyz as [y|y y1 z Hstep _ IH]; [done|].
  apply IH. destruct (tc_parent_step_inv _ _ _ _ _ Hstep Hcyc) as [->|Htc].
  - by apply tc_once.
  - by eapply tc_r.
Qed.

(** When the parent chain from [d] runs into a cycle, every task on it has
    a parent of the user's. *)
Lemma cycle_chain_steps s uid d y :
  rtc (parent_step s uid) d y -> tc (parent_step s uid) y y ->
  forall z, rtc (parent_step s uid) d z -> exists w, parent_step s uid z w.
Proof.
  intros Hdy Hcyc z Hdz.
  destruct (rtc_parent_step_linear _ _ _ _ _ Hdy Hdz) as [Hyz|Hzy].
  - eapply tc_parent_step_first, tc_cycle_closed; eauto.
  - inversion Hzy as [|? w ? Hstep _]; subst.
    + by eapply tc_parent_step_first.
    + by exists w.
Qed.

(** A walk on which every task has a parent and none has [a] as its parent
    never answers. *)
Lemma isDescendant_diverges s uid a fuel :
  forall d,
    (forall z, rtc (parent_step s uid) d z -> exists w, parent_step s uid z w) ->
    ~ tc (parent_step s uid) d a ->
    isDescendant fuel s d a uid = None.
Proof.
  induction fuel as [|fuel IH]; intros d Hsteps Hna; [done|].
  destruct (Hsteps d) as [w Hstep]; [done|].
  rewrite (isDescendant_step _ _ _ _ _ _ Hstep).
  destruct (Z.eqb_spec w a) as [->|Hw].
  { exfalso. apply Hna. by apply tc_once. }
  apply IH.
  - intros z Hz. apply Hsteps. by eapply rtc_l.
  - intros Htc. apply Hna. by eapply tc_l.
Qed.

(** The acyclic case: with fuel for one step more than the user has tasks
    the check throws InvalidRelationship when the task is a proper ancestor
    of the proposed parent and passes otherwise. *)
Lemma validateNoCircularDependency_acyclic (fuel : nat)
    (taskId parentId uid : Z) (s : Store) :
  chain_acyclic s uid parentId ->
  (size (owned_ids s uid) < fuel)%nat ->
  (tc (parent_step s uid) parentId taskId ->
   validateNoCircularDependency fuel taskId parentId uid s
   = Raise InvalidRelationship s []) /\
  (~ tc (parent_step s uid) parentId taskId ->
   validateNoCircularDependency fuel taskId parentId uid s = Ret tt s []).
Proof.
  intros Hacyc Hfuel.
  destruct (isDescendant_spec s uid taskId fuel ∅ parentId) as (r & Hr & Hiff).
  - intros x Hx. by apply elem_of_empty in Hx.
  - done.
  - by rewrite difference_empty_L.
  - rewrite validateNoCircularDependency_run, Hr.
    destruct r; split; intros Htc; try done.
    + exfalso. apply Htc. by apply Hiff.
    + apply Hiff in Htc. done.
Qed.

(** C4, as amended.  The outcome of the hierarchy cycle check in every
    store.  When the task is a proper ancestor of the proposed parent, the
    check throws InvalidRelationship with fuel for one step more than the
    user has tasks, also when the parent chain runs into a cycle further
    up.  When it is not and the parent chain of the proposed parent does
    not run into a cycle, the check passes within the same bound.  When it
    is not and the parent chain of the proposed parent runs into a cycle,
    the check never returns.  The walk has no bound of its own and no
    InvariantViolation exists. *)
Theorem validateNoCircularDependency_forest
    (taskId parentId uid : Z) (s : Store) :
  (forall fuel,
     (size (owned_ids s uid) < fuel)%nat ->
     tc (parent_step s uid) parentId taskId ->
     validateNoCircularDependency fuel taskId parentId uid s
     = Raise InvalidRelationship s []) /\
  (forall fuel,
     (size (owned_ids s uid) < fuel)%nat ->
     chain_acyclic s uid parentId ->
     ~ tc (parent_step s uid) parentId taskId ->
     validateNoCircularDependency fuel taskId parentId uid s = Ret tt s []) /\
  (forall y,
     rtc (parent_step s uid) parentId y -> tc (parent_step s uid) y y ->
     ~ tc (parent_step s uid) parentId taskId ->
     forall fuel,
       validateNoCircularDependency fuel taskId parentId uid s = OutOfFuel).
Proof.
  split; [|split].
  - intros fuel Hfuel Htc.
    by rewrite validateNoCircularDependency_run, isDescendant_ancestor.
  - intros fuel Hfuel Hacyc Hna.
    by apply (validateNoCircularDependency_acyclic fuel taskId parentId uid s).
  - intros y Hy Hcyc Hna fuel.
    rewrite validateNoCircularDependency_run, isDescendant_diverges; [done| |done].
    by eapply cycle_chain_steps.
Qed.

(** On the store in which a task is its own parent the walk from that task
    never returns. *)
Lemma isDescendant_selfParent fuel :
  isDescendant fuel store_selfParent 1 2 7 = None.
Proof.
  induction fuel as [|fuel IH]; [done|].
  cbn [isDescendant].
  change (findOne 1 7 store_selfParent)
    with (Some (plainTask 7 "A" (day 1) false (Some 1))).
  change (parentTask store_selfParent (plainTask 7 "A" (day 1) false (Some 1)))
    with (Some (1, plainTask 7 "A" (day 1) false (Some 1))).
  cbn [Z.eqb Pos.eqb]. done.
Qed.

(** C4, as stated, fails: when task 1 is its own parent, the check whether
    task 2 may get task 1 as its parent never answers. *)
Lemma ancestor_walk_diverges : ~ ancestor_walk_terminates.
Proof.
  intros H. destruct (H store_selfParent 2 1 7) as [fuel Hfuel].
  apply Hfuel. unfold validateNoCircularDependency.
  rewrite bind_run. unfold get at 1.
  rewrite prefix_events_nil, bind_run, isDescendant_selfParent. done.
Qed.

(** The store with the self-parent is one that [moveTask] itself produces. *)
Example moveTask_selfParent :
  res_store (moveTask 1 1 (Some 1) 7 store_AB) = Some store_selfParent.
Proof. by vm_compute. Qed.

(** ** The completion invariant *)

Lemma parent_step_store_PC uid x y :
  parent_step store_PC uid x y -> x = 2 /\ y = 1.
Proof.
  intros (t & p & [Hx _]%findOne_Some & Hp).
  cbn [store_PC store_of tasks list_to_map foldr] in Hx.
  apply lookup_insert_Some in Hx as [[<- <-]|[_ Hx]]; [done|].
  apply lookup_insert_Some in Hx as [[<- <-]|[_ Hx]]; [|done].
  vm_compute in Hp. by injection Hp as <- _.
Qed.

Lemma hierarchy_forest_store_PC : hierarchy_forest store_PC.
Proof.
  intros uid x Htc.
  inversion Htc as [? ? H1|? y ? H1 H2]; subst;
    apply parent_step_store_PC in H1 as [-> Hy]; [done|].
  subst y. inversion H2 as [? ? H3|? ? ? H3 _]; subst;
    apply parent_step_store_PC in H3 as [? _]; done.
Qed.

Lemma blocking_dag_no_edges s : blocking s = [] -> blocking_dag s.
Proof.
  intros Hb uid x Hr.
  destruct Hr as [? ? _ (_ & Hin & _)|? ? ? _ (_ & Hin & _) _];
    rewrite Hb in Hin; by apply elem_of_nil in Hin.
Qed.

Lemma consistent_store_PC : consistent store_PC.
Proof.
  split; [by_decision|]. split; [by_decision|]. split; [by_decision|].
  split; [apply hierarchy_forest_store_PC|]. split; [by_decision|].
  split; [by apply blocking_dag_no_edges|]. split; by_decision.
Qed.

(** C1, as stated, fails: in the consistent store where the parent P and
    its child C are both completed, marking C incomplete leaves P completed
    with an incomplete child. *)
Lemma completion_always_fails : ~ completion_always.
Proof.
  intros H.
  specialize (H 0%nat 0 7 (OpMarkAsIncomplete 2) store_PC
                (with_task 2 (plainTask 7 "C" (day 1) false (Some 1)) store_PC)
                [] consistent_store_PC).
  specialize (H ltac:(by vm_compute)).
  apply (bool_decide_pack _) in H. vm_compute in H. done.
Qed.

Lemma set_completed_idemp b t : set_completed b (set_completed b t) = set_completed b t.
Proof. done. Qed.

Lemma grows_refl s : grows s s.
Proof.
  split; [by left| |done|lia].
  intros k t' H1 H2. congruence.
Qed.

Lemma grows_trans s1 s2 s3 : grows s1 s2 -> grows s2 s3 -> grows s1 s3.
Proof.
  intros [Ho1 Hn1 Hb1 Hi1] [Ho2 Hn2 Hb2 Hi2]. split.
  - intros k t Hk. destruct (Ho1 _ _ Hk) as [H12|H12];
      destruct (Ho2 _ _ H12) as [H23|H23];
      rewrite ?set_completed_idemp in H23; eauto.
  - intros k t3 Hk3 Hk1. destruct (tasks s2 !! k) as [t2|] eqn:Hk2.
    + destruct (Hn1 _ _ Hk2 Hk1) as [? Hp]. split; [done|].
      destruct (Ho2 _ _ Hk2) as [H23|H23]; rewrite H23 in Hk3;
        injection Hk3 as <-; done.
    + destruct (Hn2 _ _ Hk3 Hk2) as [? Hp]. split; [lia|done].
  - congruence.
  - lia.
Qed.

Lemma post_store_mono {A} (r : Res A) (Q Q' : Store -> Prop) :
  (forall s, Q s -> Q' s) -> post_store r Q -> post_store r Q'.
Proof. destruct r; simpl; auto. Qed.

Lemma post_store_prefix {A} evs (r : Res A) Q :
  post_store (prefix_events evs r) Q <-> post_store r Q.
Proof. by destruct r. Qed.

Lemma steady_readonly {A} (m : M A) : readonly m -> steady m.
Proof.
  intros Hro s Hf Hc. specialize (Hro s).
  destruct (m s) as [a s' ev|e s' ev|]; simpl; [| |done];
    destruct Hro as [-> _]; eauto using grows_refl.
Qed.

Lemma steady_bind {A B} (m : M A) (k : A -> M B) :
  steady m -> (forall a, steady (k a)) -> steady (bind m k).
Proof.
  intros Hm Hk s Hf Hc. rewrite bind_run. specialize (Hm s Hf Hc).
  destruct (m s) as [a s1 ev1|e s1 ev1|]; simpl in *; [|done..].
  destruct Hm as (Hf1 & Hc1 & Hg1). apply post_store_prefix.
  eapply post_store_mono; [|by apply Hk].
  intros s2 (? & ? & ?). eauto using grows_trans.
Qed.

Lemma steady_try_catch (m : M unit) : steady m -> steady (try_catch m).
Proof.
  intros Hm s Hf Hc. specialize (Hm s Hf Hc). unfold try_catch.
  by destruct (m s).
Qed.

Lemma steady_if {A} (b : bool) (m1 m2 : M A) :
  steady m1 -> steady m2 -> steady (if b then m1 else m2).
Proof. by destruct b. Qed.

Lemma steady_ret {A} (a : A) : steady (ret a).
Proof. apply steady_readonly, readonly_ret. Qed.

Lemma steady_emit e : steady (emit e).
Proof. intros s Hf Hc. simpl. eauto using grows_refl. Qed.

(** A new row without a parent that is not completed. *)
Lemma with_new_steady t s :
  parentTaskId t = None -> completed t = false ->
  ids_fresh s -> children_invariant s ->
  ids_fresh (with_new t s) /\ children_invariant (with_new t s) /\
  grows s (with_new t s).
Proof.
  intros Hp Hc Hf Hinv. pose proof (ids_fresh_next s Hf) as Hnone.
  split; [by apply ids_fresh_with_new|]. split.
  - intros k tk Hk Hdone c tc Hc' Hpar Hu. cbn [with_new tasks] in *.
    apply lookup_insert_Some in Hk as [[<- <-]|[Hne Hk]]; [congruence|].
    apply lookup_insert_Some in Hc' as [[<- <-]|[Hne' Hc']]; [congruence|].
    by eapply (Hinv k tk Hk Hdone c tc).
  - split; cbn [with_new tasks blocking nextId].
    + intros k t' Hk. left. rewrite lookup_insert_ne; [done|]. congruence.
    + intros k t' Hk Hk'.
      apply lookup_insert_Some in Hk as [[<- <-]|[_ Hk]]; [|congruence].
      split; [lia|done].
    + done.
    + lia.
Qed.

Lemma steady_insert_row t :
  parentTaskId t = None -> completed t = false -> steady (insert_row t).
Proof. intros Hp Hc s Hf Hinv. by apply with_new_steady. Qed.

Lemma steady_getNextScheduledTime t p i : steady (getNextScheduledTime t p i).
Proof.
  apply steady_readonly. unfold getNextScheduledTime.
  destruct p as [[]|]; auto with readonly.
Qed.

Lemma steady_generateLoop fuel pid R bufferDate next :
  steady (generateLoop fuel pid R bufferDate next).
Proof.
  revert next. induction fuel as [|fuel IH]; intros next; [by intros s|].
  cbn [generateLoop].
  apply steady_if; [|apply steady_ret].
  apply steady_if; [apply steady_ret|].
  apply steady_bind; [apply steady_readonly, readonly_get|intros s0].
  apply steady_bind.
  { destruct (find_where _ s0); [|apply steady_ret].
    apply steady_bind; [by apply steady_insert_row|intros id].
    apply steady_emit. }
  intros _. apply steady_bind; [apply steady_getNextScheduledTime|intros next'].
  apply IH.
Qed.

Lemma steady_generateInstancesForOptimalBuffer fuel now pid R seed :
  steady (generateInstancesForOptimalBuffer fuel now pid R seed).
Proof.
  unfold generateInstancesForOptimalBuffer.
  apply steady_if; [apply steady_ret|].
  apply steady_bind; [apply steady_readonly, readonly_get|intros s0].
  destruct (match lastInstanceTime pid s0 with Some t => Some t | None => seed end).
  - apply steady_bind; [apply steady_getNextScheduledTime|intros next].
    apply steady_generateLoop.
  - apply steady_readonly. destruct (recurrencePattern R); auto 10 with readonly.
Qed.

Lemma steady_onTaskInstanceCompleted fuel now t :
  steady (onTaskInstanceCompleted fuel now t).
Proof.
  unfold onTaskInstanceCompleted.
  destruct (parentRecurrencyId t) as [prid|]; [|apply steady_ret].
  apply steady_if; [|apply steady_ret].
  apply steady_try_catch.
  apply steady_bind; [apply steady_readonly, readonly_get|intros s0].
  destruct (tasks s0 !! prid) as [R|]; [|apply steady_ret].
  repeat (apply steady_if; [|apply steady_ret]).
  apply steady_generateInstancesForOptimalBuffer.
Qed.

(** Completing a row all of whose children are completed. *)
Lemma with_task_completed_steady pid p s :
  ids_fresh s -> children_invariant s ->
  tasks s !! pid = Some p ->
  (forall c tc, tasks s !! c = Some tc -> parentTaskId tc = Some pid ->
                userId tc = userId p -> completed tc = true) ->
  ids_fresh (with_task pid (set_completed true p) s) /\
  children_invariant (with_task pid (set_completed true p) s) /\
  grows s (with_task pid (set_completed true p) s).
Proof.
  intros Hf Hinv Hp Hch. split; [|split].
  - intros k t Hk. cbn [with_task tasks nextId] in *.
    apply lookup_insert_Some in Hk as [[<- <-]|[_ Hk]].
    + by apply (Hf _ _ Hp).
    + by apply (Hf _ _ Hk).
  - intros k tk Hk Hdone c tc Hc Hpar Hu. cbn [with_task tasks] in *.
    apply lookup_insert_Some in Hc as [[<- <-]|[Hnec Hc]]; [done|].
    apply lookup_insert_Some in Hk as [[<- <-]|[Hnek Hk]].
    + by apply (Hch c tc).
    + by apply (Hinv k tk Hk Hdone c tc).
  - split; cbn [with_task tasks blocking nextId].
    + intros k t Hk. destruct (decide (k = pid)) as [->|Hne].
      * right. rewrite lookup_insert_eq. congruence.
      * left. by rewrite lookup_insert_ne.
    + intros k t' Hk Hnone.
      apply lookup_insert_Some in Hk as [[<- <-]|[_ Hk]]; congruence.
    + done.
    + lia.
Qed.

Lemma parentTask_Some s t pid p :
  parentTask s t = Some (pid, p) <->
  parentTaskId t = Some pid /\ tasks s !! pid = Some p.
Proof.
  unfold parentTask. destruct (parentTaskId t) as [q|]; [|by split; [|intros []]].
  destruct (tasks s !! q) as [p'|] eqn:E; split.
  - by intros [= <- <-].
  - intros [[= <-] Hp]. congruence.
  - done.
  - intros [[= <-] Hp]. congruence.
Qed.

Lemma steady_checkAndCompleteParentTasks fuel id uid :
  steady (checkAndCompleteParentTasks fuel id uid).
Proof.
  revert id. induction fuel as [|fuel IH]; intros id s Hf Hinv; [done|].
  cbn [checkAndCompleteParentTasks]. rewrite bind_run. unfold get at 1.
  rewrite prefix_events_nil.
  destruct (findOne id uid s) as [task|] eqn:Etask;
    [|simpl; eauto using grows_refl].
  destruct (parentTask s task) as [[pid parent]|] eqn:Eparent;
    [|simpl; eauto using grows_refl].
  destruct (completed parent) eqn:Edone; [simpl; eauto using grows_refl|].
  destruct (forallb _ _) eqn:Esiblings; [|simpl; eauto using grows_refl].
  rewrite bind_run. unfold update_completed. rewrite bind_run. unfold get at 1.
  rewrite prefix_events_nil.
  destruct (findOne pid uid s) as [p|] eqn:Ep.
  - apply findOne_Some in Ep as [Hp Hu].
    unfold save_row. fold (with_task pid (set_completed true p) s).
    apply post_store_prefix.
    destruct (with_task_completed_steady pid p s Hf Hinv Hp) as (Hf1 & Hinv1 & Hg1).
    { intros c tc Hc Hpar Huc.
      rewrite forallb_forall in Esiblings.
      apply (Esiblings (c, tc)). apply list_elem_of_In, elem_of_find_where.
      split; [done|]. apply andb_true_iff. split.
      - by apply opt_eqb_true.
      - apply Z.eqb_eq. congruence. }
    eapply post_store_mono; [|by apply IH].
    intros s2 (? & ? & ?). eauto using grows_trans.
  - unfold ret at 1. apply post_store_prefix. by apply IH.
Qed.

Lemma incomplete_count_completed pid p s :
  tasks s !! pid = Some p -> completed p = false ->
  S (incomplete_count (with_task pid (set_completed true p) s))
  = incomplete_count s.
Proof.
  intros Hp Hc. unfold incomplete_count. cbn [with_task tasks].
  rewrite map_filter_insert_False by done.
  rewrite map_filter_delete, map_size_delete_Some.
  - assert (size (filter (fun kt : Z * Task => completed kt.2 = false) (tasks s))
            <> 0%nat) as Hne; [|lia].
    apply map_size_ne_0_lookup. exists pid, p.
    by apply map_lookup_filter_Some.
  - exists p. by apply map_lookup_filter_Some.
Qed.

(** The cascade returns, without an exception, once the fuel exceeds the
    number of incomplete tasks: every call but the last completes one. *)
Lemma checkAndCompleteParentTasks_returns fuel uid :
  forall s id, (incomplete_count s < fuel)%nat ->
    exists s' ev, checkAndCompleteParentTasks fuel id uid s = Ret tt s' ev.
Proof.
  induction fuel as [|fuel IH]; intros s id Hfuel; [lia|].
  cbn [checkAndCompleteParentTasks]. rewrite bind_run. unfold get at 1.
  rewrite prefix_events_nil.
  destruct (findOne id uid s) as [task|]; [|by eexists _, _].
  destruct (parentTask s task) as [[pid parent]|] eqn:Eparent;
    [|by eexists _, _].
  destruct (completed parent) eqn:Edone; [by eexists _, _|].
  destruct (forallb _ _); [|by eexists _, _].
  apply parentTask_Some in Eparent as [_ Hparent].
  rewrite bind_run. unfold update_completed. rewrite bind_run. unfold get at 1.
  rewrite prefix_events_nil.
  destruct (findOne pid uid s) as [p|] eqn:Ep.
  - apply findOne_Some in Ep as [Hp _].
    assert (p = parent) as -> by congruence.
    unfold save_row. fold (with_task pid (set_completed true parent) s).
    destruct (IH (with_task pid (set_completed true parent) s) pid)
      as (s' & ev & ->).
    { pose proof (incomplete_count_completed pid parent s Hparent Edone). lia. }
    by eexists _, _.
  - unfold ret at 1. rewrite prefix_events_nil.
    destruct fuel as [|fuel].
    { pose proof (incomplete_count_completed pid parent s Hparent Edone). lia. }
    cbn [checkAndCompleteParentTasks]. rewrite bind_run. unfold get at 1.
    rewrite prefix_events_nil, Ep. by eexists _, _.
Qed.

(** What the two gates have checked when they let a completion pass. *)
Lemma validateParentCompletion_Ret id uid s s' ev :
  validateParentCompletion id uid s = Ret tt s' ev ->
  forall c tc, tasks s !! c = Some tc -> parentTaskId tc = Some id ->
               userId tc = uid -> completed tc = true.
Proof.
  unfold validateParentCompletion. rewrite bind_run. unfold get at 1.
  rewrite prefix_events_nil.
  destruct (find_where _ s) eqn:Efind; [|done]. intros _ c tc Hc Hpar Hu.
  rewrite find_where_nil in Efind. specialize (Efind c tc Hc).
  destruct (completed tc); [done|].
  rewrite (proj2 (opt_eqb_true _ _) Hpar) in Efind.
  rewrite (proj2 (Z.eqb_eq _ _) Hu) in Efind. done.
Qed.

Lemma validateTaskCanBeCompleted_Ret id uid s s' ev :
  validateTaskCanBeCompleted id uid s = Ret tt s' ev ->
  is_Some (findOne id uid s) /\ blockers_completed s id.
Proof.
  unfold validateTaskCanBeCompleted, getBlockingTasks.
  rewrite !bind_run. unfold get at 1. rewrite prefix_events_nil.
  destruct (findOne id uid s) as [t|] eqn:Et; [|done].
  unfold ret at 1. rewrite prefix_events_nil.
  destruct (List.filter _ (blockedBy s id)) eqn:Efilter; [|done].
  intros _. split; [eauto|].
  apply Forall_forall. intros [a b] Hin Hb. simpl in *. subst b.
  destruct (tasks s !! a) as [bt|] eqn:Ea; [|done].
  destruct (completed bt) eqn:Ec; [done|].
  assert (In (a, bt) (List.filter (fun bt : Z * Task => negb (completed bt.2))
                        (blockedBy s id))) as Hin'.
  { apply filter_In. split; [|by simpl; rewrite Ec].
    apply list_elem_of_In, elem_of_blockedBy. done. }
  rewrite Efilter in Hin'. done.
Qed.

Lemma update_complete_post fuel now id uid s t0 :
  tasks s !! id = Some t0 -> userId t0 = uid ->
  ids_fresh s -> children_invariant s ->
  (forall c tc, tasks s !! c = Some tc -> parentTaskId tc = Some id ->
                userId tc = userId t0 -> completed tc = true) ->
  match update fuel now id (completedUpdate true) uid s with
  | Ret _ s' _ =>
      ids_fresh s' /\ children_invariant s' /\
      grows (with_task id (set_completed true t0) s) s'
  | _ => True
  end.
Proof.
  intros Hid Hu Hf Hinv Hch.
  destruct (with_task_completed_steady id t0 s Hf Hinv Hid Hch)
    as (Hf1 & Hinv1 & Hg1).
  destruct (completed t0) eqn:Edone.
  { rewrite (update_completed_flag_only fuel now id uid s t0 true) by done.
    eauto using grows_refl. }
  unfold update. rewrite bind_run.
  rewrite (findOneOrThrow_found _ _ _ _ Hid Hu), prefix_events_nil.
  rewrite bind_run. unfold get at 1. rewrite prefix_events_nil.
  cbn [u_recurrencePattern completedUpdate u_parentTaskId u_scheduledTime
       u_completed isSome isTrue andb default_to truthy].
  rewrite Edone. cbn [negb when andb].
  rewrite bind_run, bind_run. unfold emit at 1. rewrite bind_run.
  step_readonly (validateParentCompletion id uid) s; cbn [prefix_events]; [|done..].
  rewrite bind_run. unfold emit at 1. cbn [prefix_events app].
  step_readonly (validateTaskCanBeCompleted id uid) s; cbn [prefix_events app];
    [|done..].
  rewrite bind_run. unfold ret at 1. cbn [prefix_events app].
  rewrite assign_completedUpdate.
  destruct (isSome (recurrencePattern t0) && negb (isSome (parentRecurrencyId t0))).
  - unfold updateRecurringTask. rewrite bind_run. unfold get at 1.
    cbn [prefix_events app].
    assert (findOne id uid s = Some t0) as -> by by apply findOne_Some.
    cbn [u_recurrencePattern completedUpdate u_recurrenceInterval
         u_recurrenceEndDate u_scheduledTime isSome orb truthy].
    rewrite !andb_false_r, assign_completedUpdate.
    unfold when, bind, ret, save_row. cbn [prefix_events app].
    fold (with_task id (set_completed true t0) s). eauto using grows_refl.
  - rewrite bind_run. unfold save_row at 1.
    fold (with_task id (set_completed true t0) s).
    rewrite !prefix_events_nil.
    match goal with
    | |- match prefix_events _ (?m ?s1) with _ => _ end =>
        assert (steady m) as Hsteady
    end.
    { apply steady_bind; [|intros _].
      - apply steady_bind; [apply steady_emit|intros _].
        apply steady_bind; [apply steady_emit|intros _].
        apply steady_bind; [apply steady_onTaskInstanceCompleted|intros _].
        apply steady_bind; [apply steady_emit|intros _].
        apply steady_checkAndCompleteParentTasks.
      - apply steady_bind; [apply steady_ret|intros _; apply steady_ret]. }
    specialize (Hsteady _ Hf1 Hinv1).
    match goal with
    | |- match prefix_events _ ?r with _ => _ end => destruct r
    end; done.
Qed.

Lemma blockers_completed_grows s s' id :
  edges_fresh s -> grows s s' ->
  blockers_completed s id -> blockers_completed s' id.
Proof.
  intros He [Hold Hnew Hb _]. unfold blockers_completed. rewrite Hb.
  rewrite !Forall_forall. intros Hs e Hin Hid.
  specialize (Hs e Hin Hid).
  destruct (tasks s !! e.1) as [bt|] eqn:Ebt.
  - destruct (Hold _ _ Ebt) as [-> | ->]; done.
  - destruct (tasks s' !! e.1) as [bt'|] eqn:Ebt'; [|done].
    destruct (Hnew _ _ Ebt' Ebt) as [Hle _].
    unfold edges_fresh in He. rewrite Forall_forall in He.
    specialize (He e Hin). simpl in He. lia.
Qed.

Lemma edges_fresh_grows s s' : edges_fresh s -> grows s s' -> edges_fresh s'.
Proof.
  intros He [_ _ Hb Hn]. unfold edges_fresh in *. rewrite Hb.
  eapply Forall_impl; [done|]. intros e [? ?]. simpl. lia.
Qed.

Lemma grows_completed s s' k t :
  grows s s' -> tasks s !! k = Some t -> completed t = true ->
  exists t', tasks s' !! k = Some t' /\ completed t' = true /\ userId t' = userId t.
Proof.
  intros [Hold _ _ _] Hk Hc. destruct (Hold _ _ Hk) as [H|H]; eauto.
Qed.

(** The run of a successful [markAsCompleted]. *)
Lemma markAsCompleted_post fuel now id uid s r s' ev :
  ids_fresh s -> children_invariant s ->
  markAsCompleted fuel now id uid s = Ret r s' ev ->
  exists t0,
    tasks s !! id = Some t0 /\ userId t0 = uid /\
    blockers_completed s id /\
    ids_fresh s' /\ children_invariant s' /\
    grows s (with_task id (set_completed true t0) s) /\
    grows (with_task id (set_completed true t0) s) s'.
Proof.
  intros Hf Hinv. unfold markAsCompleted.
  rewrite bind_run. unfold emit at 1. rewrite bind_run.
  step_readonly (validateParentCompletion id uid) s; cbn [prefix_events app];
    [|done..].
  rewrite bind_run. unfold emit at 1. cbn [prefix_events app]. rewrite bind_run.
  step_readonly (validateTaskCanBeCompleted id uid) s; cbn [prefix_events app];
    [|done..].
  destruct a, a0.
  destruct (validateTaskCanBeCompleted_Ret _ _ _ _ _ E0)
    as [[t0 [Hid Hu]%findOne_Some] Hblock].
  pose proof (validateParentCompletion_Ret _ _ _ _ _ E) as Hch.
  assert (forall c tc, tasks s !! c = Some tc -> parentTaskId tc = Some id ->
                       userId tc = userId t0 -> completed tc = true) as Hch'.
  { intros c tc Hc Hpar Huc. apply (Hch c tc); congruence. }
  pose proof (update_complete_post fuel now id uid s t0 Hid Hu Hf Hinv Hch') as Hup.
  destruct (with_task_completed_steady id t0 s Hf Hinv Hid Hch') as (_ & _ & Hg0).
  rewrite bind_run.
  destruct (update fuel now id (completedUpdate true) uid s)
    as [r1 s1 ev1|e1 s1 ev1|]; cbn [prefix_events app]; [|done..].
  destruct Hup as (Hf1 & Hinv1 & Hg1).
  rewrite bind_run. unfold emit at 1. rewrite bind_run.
  pose proof (steady_checkAndCompleteParentTasks fuel id uid s1 Hf1 Hinv1) as Hcas.
  destruct (checkAndCompleteParentTasks fuel id uid s1)
    as [[] s2 ev2|e2 s2 ev2|]; cbn [prefix_events app]; [|done..].
  unfold ret. cbn [prefix_events app]. intros [= -> <- _].
  destruct Hcas as (Hf2 & Hinv2 & Hg2).
  exists t0. eauto 10 using grows_trans.
Qed.

Lemma markAsCompleted_keeps fuel now id uid s s' r ev :
  ids_fresh s -> edges_fresh s -> completion_invariant s ->
  markAsCompleted fuel now id uid s = Ret r s' ev ->
  (exists t, tasks s' !! id = Some t /\ completed t = true /\
             children_completed s' id t /\ blockers_completed s' id) /\
  children_invariant s' /\
  (forall k t, tasks s !! k = Some t -> completed t = true ->
     blockers_completed s' k).
Proof.
  intros Hf He [Hinv Hblk] Hrun.
  destruct (markAsCompleted_post _ _ _ _ _ _ _ _ Hf Hinv Hrun)
    as (t0 & Hid & Hu & Hblock & Hf' & Hinv' & Hg0 & Hg1).
  pose proof (grows_trans _ _ _ Hg0 Hg1) as Hg.
  split; [|split; [done|]].
  - destruct (grows_completed _ _ id (set_completed true t0) Hg1)
      as (t & Ht & Hc & _); [by apply lookup_insert_eq|done|].
    exists t. split; [done|]. split; [done|]. split.
    + by apply (Hinv' id t).
    + by eapply blockers_completed_grows.
  - intros k t Hk Hc. eapply blockers_completed_grows; [done..|].
    by apply (Hblk k t).
Qed.

(** A successful [markAsCompleted] keeps the whole completion invariant
    when every other task that it completed had all the tasks in its
    [blockedBy] completed. *)
Lemma markAsCompleted_invariant fuel now id uid s s' r ev :
  ids_fresh s -> edges_fresh s -> completion_invariant s ->
  markAsCompleted fuel now id uid s = Ret r s' ev ->
  (forall k t t', k <> id ->
     tasks s !! k = Some t -> completed t = false ->
     tasks s' !! k = Some t' -> completed t' = true ->
     blockers_completed s k) ->
  completion_invariant s'.
Proof.
  intros Hf He [Hinv Hblk] Hrun Hcascade.
  destruct (markAsCompleted_post _ _ _ _ _ _ _ _ Hf Hinv Hrun)
    as (t0 & Hid & Hu & Hblock & Hf' & Hinv' & Hg0 & Hg1).
  pose proof (grows_trans _ _ _ Hg0 Hg1) as Hg.
  split; [done|]. intros k t' Hk' Hc'.
  destruct (tasks s !! k) as [t|] eqn:Hk.
  - eapply blockers_completed_grows; [done..|].
    destruct (completed t) eqn:Hc; [by apply (Hblk k t)|].
    destruct (decide (k = id)) as [->|Hne]; [done|].
    by apply (Hcascade k t t').
  - destruct (grows_new _ _ Hg k t' Hk' Hk) as [Hle _].
    unfold blockers_completed. rewrite (grows_blocking _ _ Hg).
    unfold edges_fresh in He. rewrite Forall_forall in He.
    apply Forall_forall. intros e Hin Hend.
    specialize (He e Hin). simpl in He. lia.
Qed.

(** A store whose parent references all point to smaller keys is a
    forest; a store whose blocking edges all point to larger keys has no
    blocking cycle. *)
Lemma hierarchy_forest_decreasing s :
  map_Forall (fun k t => from_option (fun p => p <? k) true (parentTaskId t)
                         = true) (tasks s) ->
  hierarchy_forest s.
Proof.
  intros Hdec uid x Hx.
  assert (forall a b, tc (parent_step s uid) a b -> b < a) as Hlt.
  { induction 1 as [a b Hab|a b c Hab _ IH].
    - destruct Hab as (t & q & [Ha _]%findOne_Some & Hq).
      unfold parentTask in Hq. specialize (Hdec a t Ha). simpl in Hdec.
      destruct (parentTaskId t) as [pid|]; [|done].
      destruct (tasks s !! pid); [|done]. injection Hq as <- _.
      simpl in Hdec. lia.
    - destruct Hab as (t & q & [Ha _]%findOne_Some & Hq).
      unfold parentTask in Hq. specialize (Hdec a t Ha). simpl in Hdec.
      destruct (parentTaskId t) as [pid|]; [|done].
      destruct (tasks s !! pid); [|done]. injection Hq as <- _.
      simpl in Hdec. lia. }
  specialize (Hlt x x Hx). lia.
Qed.

Lemma blocking_dag_increasing s :
  Forall (fun e : Z * Z => e.1 < e.2) (blocking s) -> blocking_dag s.
Proof.
  intros Hinc uid x Hx. rewrite Forall_forall in Hinc.
  assert (forall V a b, blocks_path s uid V a b -> a < b) as Hlt.
  { induction 1 as [a b _ (_ & Hin & _)|a c b _ (_ & Hin & _) _ IH].
    - by apply Hinc in Hin.
    - apply Hinc in Hin. simpl in Hin. lia. }
  specialize (Hlt _ x x Hx). lia.
Qed.

Lemma consistent_store_XPC : consistent store_XPC.
Proof.
  split; [by_decision|]. split; [by_decision|]. split; [by_decision|].
  split; [apply hierarchy_forest_decreasing; by_decision|].
  split; [by_decision|].
  split; [apply blocking_dag_increasing; by_decision|]. split; by_decision.
Qed.

(** Removing a blocking edge keeps the completion invariant. *)
Lemma removeBlockingRelationship_keeps a b uid s s' ev :
  completion_invariant s ->
  removeBlockingRelationship a b uid s = Ret tt s' ev ->
  completion_invariant s'.
Proof.
  intros [Hinv Hblk]. unfold removeBlockingRelationship.
  rewrite bind_run. unfold get at 1. rewrite prefix_events_nil.
  destruct (findOne a uid s) as [ta|]; [|done].
  unfold set_blocking. intros [= <- _]. split; [done|].
  intros k t Hk Hc. specialize (Hblk k t Hk Hc).
  unfold blockers_completed in *. cbn [blocking tasks] in *.
  rewrite Forall_forall in Hblk. apply Forall_forall.
  intros e [Hin _]%list_elem_of_In%filter_In. apply Hblk.
  by apply list_elem_of_In.
Qed.

Lemma preserves_bind I {A B} (m : M A) (k : A -> M B) :
  preserves I m -> (forall a, preserves I (k a)) -> preserves I (bind m k).
Proof.
  intros Hm Hk s Hs. rewrite bind_run. specialize (Hm s Hs).
  destruct (m s) as [a s1 ev1|e s1 ev1|]; simpl in *; [|done..].
  apply post_store_prefix. by apply Hk.
Qed.

Lemma preserves_readonly I {A} (m : M A) : readonly m -> preserves I m.
Proof.
  intros Hro s Hs. specialize (Hro s).
  destruct (m s) as [a s' ev|e s' ev|]; simpl; [| |done];
    by destruct Hro as [-> _].
Qed.

Lemma preserves_if I {A} (b : bool) (m1 m2 : M A) :
  preserves I m1 -> preserves I m2 -> preserves I (if b then m1 else m2).
Proof. by destruct b. Qed.

Lemma preserves_emit I e : preserves I (emit e).
Proof. by intros s Hs. Qed.

(** A new row without a parent that is not completed keeps the store in
    order. *)
Lemma with_new_store_ok t s :
  parentTaskId t = None -> completed t = false ->
  store_ok s -> store_ok (with_new t s).
Proof.
  intros Hp Hc (Hf & He & Hinv & Hblk).
  destruct (with_new_steady t s Hp Hc Hf Hinv) as (Hf' & Hinv' & Hg).
  split; [done|]. split; [by eapply edges_fresh_grows|]. split; [done|].
  intros k tk Hk Hdone. cbn [with_new tasks] in Hk.
  apply lookup_insert_Some in Hk as [[<- <-]|[Hne Hk]]; [congruence|].
  eapply blockers_completed_grows; [done..|]. by apply (Hblk k tk).
Qed.

Lemma preserves_generateLoop fuel pid R bufferDate next :
  preserves store_ok (generateLoop fuel pid R bufferDate next).
Proof.
  revert next. induction fuel as [|fuel IH]; intros next; [by intros s|].
  cbn [generateLoop].
  apply preserves_if; [|apply preserves_readonly, readonly_ret].
  apply preserves_if; [apply preserves_readonly, readonly_ret|].
  apply preserves_bind; [apply preserves_readonly, readonly_get|intros s0].
  apply preserves_bind.
  { destruct (find_where _ s0); [|apply preserves_readonly, readonly_ret].
    apply preserves_bind; [|intros id; apply preserves_emit].
    intros s Hs. by apply with_new_store_ok. }
  intros _. apply preserves_bind; [|intros next'; apply IH].
  apply preserves_readonly. unfold getNextScheduledTime.
  destruct (recurrencePattern R) as [[]|]; auto with readonly.
Qed.

(** The generator keeps the completion invariant. *)
Lemma generateInstancesForOptimalBuffer_keeps fuel now pid R seed :
  preserves store_ok (generateInstancesForOptimalBuffer fuel now pid R seed).
Proof.
  unfold generateInstancesForOptimalBuffer.
  apply preserves_if; [apply preserves_readonly, readonly_ret|].
  apply preserves_bind; [apply preserves_readonly, readonly_get|intros s0].
  destruct (match lastInstanceTime pid s0 with Some t => Some t | None => seed end).
  - apply preserves_bind; [|intros next; apply preserves_generateLoop].
    apply preserves_readonly. unfold getNextScheduledTime.
    destruct (recurrencePattern R) as [[]|]; auto with readonly.
  - apply preserves_readonly. destruct (recurrencePattern R); auto 10 with readonly.
Qed.

(** C1, as amended.  On a store that satisfies the completion invariant
    (and whose keys and edges are in range):
    - when [markAsCompleted] succeeds, the task is completed with every
      direct child and every task in its [blockedBy] completed, and every
      completed task of the resulting store, the ancestors that the cascade
      completed among them, has all its direct children completed;
    - when moreover every other task that the operation completed, an
      ancestor completed by the cascade, had every task in its [blockedBy]
      completed, the resulting store satisfies the completion invariant;
      what holds of an ancestor with an incomplete blocker is not stated;
    - removing a blocking edge and generating the instances of a template
      keep the completion invariant. *)
Theorem completion_invariant_maintained (s : Store) :
  ids_fresh s -> edges_fresh s -> completion_invariant s ->
  (forall fuel now id uid r s' ev,
     markAsCompleted fuel now id uid s = Ret r s' ev ->
     (exists t, tasks s' !! id = Some t /\ completed t = true /\
                children_completed s' id t /\ blockers_completed s' id) /\
     children_invariant s' /\
     ((forall k t t', k <> id ->
         tasks s !! k = Some t -> completed t = false ->
         tasks s' !! k = Some t' -> completed t' = true ->
         blockers_completed s k) ->
      completion_invariant s')) /\
  (forall a b uid s' ev,
     removeBlockingRelationship a b uid s = Ret tt s' ev ->
     completion_invariant s') /\
  (forall fuel now pid R s' ev,
     generateInstancesForOptimalBuffer fuel now pid R (Some (scheduledTime R)) s
     = Ret tt s' ev ->
     completion_invariant s').
Proof.
  intros Hf He Hinv. split; [|split].
  - intros fuel now id uid r s' ev Hrun.
    destruct (markAsCompleted_keeps _ _ _ _ _ _ _ _ Hf He Hinv Hrun)
      as (Htarget & Hchildren & _).
    split; [done|]. split; [done|].
    by apply (markAsCompleted_invariant fuel now id uid s s' r ev).
  - intros a b uid s' ev. by apply removeBlockingRelationship_keeps.
  - intros fuel now pid R s' ev Hrun.
    pose proof (generateInstancesForOptimalBuffer_keeps fuel now pid R
                  (Some (scheduledTime R)) s) as Hkeep.
    rewrite Hrun in Hkeep. by apply Hkeep.
Qed.

Lemma completion_invariant_maintained_witness :
  markAsCompleted 3 0 2 7 store_T
  = Ret (plainTask 7 "T" (day 1) true (Some 1)) store_T_completed
      [GateParentCompletion 2 7; GateCanBeCompleted 2 7;
       GateParentCompletion 2 7; GateCanBeCompleted 2 7;
       TaskCompletedNotification 2 7 "T"; HookInstanceCompleted 2;
       CascadeParents 2 7; CascadeParents 2 7] /\
  (exists t, tasks store_T_completed !! 2 = Some t /\ completed t = true /\
             children_completed store_T_completed 2 t /\
             blockers_completed store_T_completed 2) /\
  children_invariant store_T_completed /\
  completion_invariant store_T_completed.
Proof.
  assert (markAsCompleted 3 0 2 7 store_T
          = Ret (plainTask 7 "T" (day 1) true (Some 1)) store_T_completed
              [GateParentCompletion 2 7; GateCanBeCompleted 2 7;
               GateParentCompletion 2 7; GateCanBeCompleted 2 7;
               TaskCompletedNotification 2 7 "T"; HookInstanceCompleted 2;
               CascadeParents 2 7; CascadeParents 2 7]) as Hrun
    by (by vm_compute).
  split; [exact Hrun|].
  destruct (proj1 (completion_invariant_maintained store_T
                     ltac:(by_decision) ltac:(by_decision) ltac:(by_decision))
              _ _ _ _ _ _ _ Hrun)
    as (Htarget & Hchildren & Hall).
  split; [exact Htarget|]. split; [exact Hchildren|].
  apply Hall. intros k t t' _ _ _ _ _. by apply Forall_nil.
Defined.

(** The cascade on the consistent store in which the incomplete task X
    blocks the parent P of C: completing P itself, once its child C is
    completed, is refused with BlockedByDependency, while completing C
    returns and its cascade has completed P, which X still blocks. *)
Example cascade_completes_blocked_parent :
  consistent store_XPC /\
  (let s := with_task 3 (plainTask 7 "C" (day 1) true (Some 2)) store_XPC in
   markAsCompleted 4 0 2 7 s
   = Raise (BlockedByDependency ["X"]) s
       [GateParentCompletion 2 7; GateCanBeCompleted 2 7]) /\
  res_store (markAsCompleted 4 0 3 7 store_XPC)
  = Some (store_of [(1, plainTask 7 "X" (day 3) false None);
                    (2, plainTask 7 "P" (day 2) true None);
                    (3, plainTask 7 "C" (day 1) true (Some 2))] [(1, 2)] 4) /\
  breaks_invariant (run_operation 4 0 7 (OpMarkAsCompleted 3) store_XPC).
Proof.
  split; [apply consistent_store_XPC|]. split; [by vm_compute|].
  split; [by vm_compute|]. by_decision.
Qed.

(** The operations that the amended invariant leaves out, on the
    consistent store with the completed task P and the incomplete task N:
    creating an incomplete child under P, moving N under P, reparenting N
    under P by an update, and making N a blocker of P all return and leave
    P completed with an incomplete child or blocker. *)
Example completion_invariant_broken_by :
  completion_invariant store_PN /\
  Forall breaks_invariant
    [run_operation 4 0 7
       (OpCreate (mkCreateTaskDto "K" None (day 1) (Some 1) None None None))
       store_PN;
     run_operation 4 0 7 (OpMove 2 (Some 1)) store_PN;
     run_operation 4 0 7 (OpUpdate 2 (reparentUpdate 1)) store_PN;
     run_operation 4 0 7 (OpAddBlocking 2 1) store_PN].
Proof. split; [by_decision|]. repeat constructor; by_decision. Qed.

(** ** Mutual exclusivity and the move *)

(** C5 at its failing inputs.  The store with the template R and the plain
    tasks P and Q satisfies the exclusivity invariant; [create] and [update]
    refuse to put a task under R and to give R a parent, but [moveTask]
    puts R under P (a template with a parent) and Q under R (a template
    with a child), and the results violate the invariant.  An [update] that
    sets the recurrence pattern and the parent of Q in one request passes
    its checks as well and makes Q a template with a parent. *)
Theorem moveTask_breaks_exclusivity :
  exclusivity_ok store_RPQ /\
  create 4 0 (mkCreateTaskDto "N" None (day 0) (Some 1) None None None) 7 store_RPQ
  = Raise InvalidRelationship store_RPQ [] /\
  update 4 0 3 (reparentUpdate 1) 7 store_RPQ
  = Raise InvalidRelationship store_RPQ [] /\
  update 4 0 1 (reparentUpdate 2) 7 store_RPQ
  = Raise InvalidRelationship store_RPQ [] /\
  TasksService_moveTask 4 1 (Some 2) 7 store_RPQ
  = Ret (set_parentTaskId (Some 2) (templateTask 7 "R" (day 1) DAILY 1 None))
        (with_task 1 (set_parentTaskId (Some 2)
                        (templateTask 7 "R" (day 1) DAILY 1 None)) store_RPQ) [] /\
  TasksService_moveTask 4 3 (Some 1) 7 store_RPQ
  = Ret (plainTask 7 "Q" (day 0) false (Some 1))
        (with_task 3 (plainTask 7 "Q" (day 0) false (Some 1)) store_RPQ) [] /\
  update 4 0 3
    (mkUpdateTaskDto None None None (Some (Some 2)) (Some DAILY) None None None)
    7 store_RPQ
  = Ret (set_parentTaskId (Some 2) (templateTask 7 "Q" (day 0) DAILY 1 None))
        (with_task 3 (set_parentTaskId (Some 2)
                        (templateTask 7 "Q" (day 0) DAILY 1 None)) store_RPQ) [] /\
  ~ exclusivity_ok
      (with_task 1 (set_parentTaskId (Some 2)
                      (templateTask 7 "R" (day 1) DAILY 1 None)) store_RPQ) /\
  ~ exclusivity_ok
      (with_task 3 (plainTask 7 "Q" (day 0) false (Some 1)) store_RPQ) /\
  ~ exclusivity_ok
      (with_task 3 (set_parentTaskId (Some 2)
                      (templateTask 7 "Q" (day 0) DAILY 1 None)) store_RPQ).
Proof.
  split; [by_decision|].
  do 6 (split; [by vm_compute|]).
  repeat split; intros H; apply (bool_decide_pack _) in H; vm_compute in H; done.
Qed.

(** ** Witnesses of the ancestor walk *)

Lemma chain_acyclic_store_PC x : chain_acyclic store_PC 7 x.
Proof. intros y _. apply hierarchy_forest_store_PC. Qed.

Lemma tc_parent_step_store_PC : tc (parent_step store_PC 7) 2 1.
Proof.
  apply tc_once. exists (plainTask 7 "C" (day 1) true (Some 1)),
                        (plainTask 7 "P" (day 2) true None).
  by vm_compute.
Qed.

Lemma parent_step_store_selfParent x y :
  parent_step store_selfParent 7 x y -> x = 1 /\ y = 1.
Proof.
  intros (t & p & [Hx _]%findOne_Some & Hp).
  cbn [store_selfParent store_of tasks list_to_map foldr] in Hx.
  destruct (decide (x = 1)) as [->|H1].
  - rewrite lookup_insert_eq in Hx. injection Hx as <-.
    vm_compute in Hp. by injection Hp as <- _.
  - rewrite lookup_insert_ne in Hx by done.
    destruct (decide (x = 2)) as [->|H2].
    + rewrite lookup_insert_eq in Hx. injection Hx as <-. by vm_compute in Hp.
    + by rewrite lookup_insert_ne in Hx by done.
Qed.

Lemma tc_parent_step_store_selfParent x y :
  tc (parent_step store_selfParent 7) x y -> y = 1.
Proof.
  induction 1 as [x y H|x y z _ _ IH]; [|done].
  by apply parent_step_store_selfParent in H as [_ ->].
Qed.

Lemma parent_step_store_selfParent_1 : parent_step store_selfParent 7 1 1.
Proof.
  exists (plainTask 7 "A" (day 1) false (Some 1)),
         (plainTask 7 "A" (day 1) false (Some 1)).
  by vm_compute.
Qed.

Lemma tc_parent_step_store_loop : tc (parent_step store_loop 7) 3 2.
Proof.
  apply tc_once. exists (plainTask 7 "C" (day 3) false (Some 2)),
                        (plainTask 7 "B" (day 2) false (Some 1)).
  by vm_compute.
Qed.

(** The parent chain from task 3 of [store_loop] runs into the cycle at
    task 1, which task 2 is not on. *)
Example store_loop_cycle :
  rtc (parent_step store_loop 7) 3 1 /\ tc (parent_step store_loop 7) 1 1 /\
  ~ tc (parent_step store_loop 7) 1 2.
Proof.
  assert (parent_step store_loop 7 2 1) as H21.
  { exists (plainTask 7 "B" (day 2) false (Some 1)),
           (plainTask 7 "A" (day 1) false (Some 1)). by vm_compute. }
  assert (parent_step store_loop 7 1 1) as H11.
  { exists (plainTask 7 "A" (day 1) false (Some 1)),
           (plainTask 7 "A" (day 1) false (Some 1)). by vm_compute. }
  split; [|split].
  - apply rtc_l with 2; [|by apply rtc_once].
    exists (plainTask 7 "C" (day 3) false (Some 2)),
           (plainTask 7 "B" (day 2) false (Some 1)). by vm_compute.
  - by apply tc_once.
  - assert (forall x y, tc (parent_step store_loop 7) x y -> x = 1 -> y = 1)
      as Hone.
    { induction 1 as [x y H|x y z H _ IH]; intros ->.
      - by rewrite (parent_step_fun _ _ _ _ _ H H11).
      - apply IH. by rewrite (parent_step_fun _ _ _ _ _ H H11). }
    intros H. by specialize (Hone _ _ H eq_refl).
Qed.

Lemma validateNoCircularDependency_forest_witness :
  validateNoCircularDependency 3 1 2 7 store_PC
  = Raise InvalidRelationship store_PC [] /\
  validateNoCircularDependency 3 2 1 7 store_PC = Ret tt store_PC [] /\
  validateNoCircularDependency 4 2 3 7 store_loop
  = Raise InvalidRelationship store_loop [] /\
  (forall fuel,
     validateNoCircularDependency fuel 2 1 7 store_selfParent = OutOfFuel).
Proof.
  split; [|split; [|split]].
  - refine (proj1 (validateNoCircularDependency_forest 1 2 7 store_PC) 3%nat _ _).
    + vm_compute. lia.
    + exact tc_parent_step_store_PC.
  - refine (proj1 (proj2 (validateNoCircularDependency_forest 2 1 7 store_PC))
              3%nat _ _ _).
    + vm_compute. lia.
    + apply chain_acyclic_store_PC.
    + intros H. apply tc_parent_step_first in H as [w Hw].
      by apply parent_step_store_PC in Hw as [? _].
  - refine (proj1 (validateNoCircularDependency_forest 2 3 7 store_loop) 4%nat _ _).
    + vm_compute. lia.
    + exact tc_parent_step_store_loop.
  - refine (proj2 (proj2 (validateNoCircularDependency_forest 2 1 7 store_selfParent))
              1 _ _ _).
    + done.
    + apply tc_once, parent_step_store_selfParent_1.
    + by intros ?%tc_parent_step_store_selfParent.
Defined.

Example validateNoCircularDependency_child :
  validateNoCircularDependency 3 1 2 7 store_PC
  = Raise InvalidRelationship store_PC [].
Proof. by vm_compute. Qed.

(** A chain of three tasks: adding the edge that closes the cycle fails. *)
Example addBlockingRelationship_transitive :
  addBlockingRelationship 4 3 1 7
    (store_of [(1, plainTask 7 "A" (day 1) false None);
               (2, plainTask 7 "B" (day 2) false None);
               (3, plainTask 7 "C" (day 3) false None)] [(1, 2); (2, 3)] 4)
  = Raise CircularDependency
      (store_of [(1, plainTask 7 "A" (day 1) false None);
                 (2, plainTask 7 "B" (day 2) false None);
                 (3, plainTask 7 "C" (day 3) false None)] [(1, 2); (2, 3)] 4) [].
Proof. by vm_compute. Qed.

(** * Further properties of the services *)

(** ** Queries of the blocking service *)

Lemma getBlockingTasks_run id uid s :
  getBlockingTasks id uid s =
  match findOne id uid s with
  | Some _ => Ret (blockedBy s id) s []
  | None => Raise NotFound s []
  end.
Proof. unfold getBlockingTasks, bind, get. simpl. by destruct (findOne id uid s). Qed.

Lemma getBlockedTasks_run id uid s :
  getBlockedTasks id uid s =
  match findOne id uid s with
  | Some _ => Ret (blocks s id) s []
  | None => Raise NotFound s []
  end.
Proof. unfold getBlockedTasks, bind, get. simpl. by destruct (findOne id uid s). Qed.

Lemma isTaskAvailableToStart_run id uid s :
  isTaskAvailableToStart id uid s =
  match findOne id uid s with
  | Some _ =>
      Ret (forallb (fun bt : Z * Task => completed bt.2) (blockedBy s id)) s []
  | None => Raise NotFound s []
  end.
Proof.
  unfold isTaskAvailableToStart. rewrite bind_run, getBlockingTasks_run.
  by destruct (findOne id uid s).
Qed.

Lemma validateTaskCanBeCompleted_run id uid s :
  validateTaskCanBeCompleted id uid s =
  match findOne id uid s with
  | None => Raise NotFound s []
  | Some _ =>
      match List.filter (fun bt : Z * Task => negb (completed bt.2))
                        (blockedBy s id) with
      | [] => Ret tt s []
      | bt :: l =>
          Raise (BlockedByDependency
                   (map (fun bt : Z * Task => title bt.2) (bt :: l))) s []
      end
  end.
Proof.
  unfold validateTaskCanBeCompleted. rewrite bind_run, getBlockingTasks_run.
  destruct (findOne id uid s); [|done]. simpl.
  by destruct (List.filter _ (blockedBy s id)).
Qed.

Lemma forallb_filter_nil {A} (f : A -> bool) (l : list A) :
  forallb f l = true <-> List.filter (fun x => negb (f x)) l = [].
Proof.
  induction l as [|x l IH]; simpl; [done|].
  destruct (f x); simpl; [exact IH|]. by split.
Qed.

Lemma elem_of_List_filter {A} (f : A -> bool) (l : list A) x :
  x ∈ List.filter f l <-> x ∈ l /\ f x = true.
Proof. rewrite !list_elem_of_In. apply filter_In. Qed.

Lemma NoDup_List_filter {A} (f : A -> bool) (l : list A) :
  NoDup l -> NoDup (List.filter f l).
Proof.
  induction 1 as [|x l Hx Hl IH]; simpl; [constructor|].
  destruct (f x); [|done]. constructor; [|done].
  rewrite elem_of_List_filter. tauto.
Qed.

Lemma forallb_elem_of {A} (f : A -> bool) (l : list A) :
  forallb f l = true <-> forall x, x ∈ l -> f x = true.
Proof.
  rewrite forallb_forall. split; intros H x Hx; apply H; by apply list_elem_of_In.
Qed.

(** The tasks in [blockedBy] are all completed: the test of the queries
    and the property of the store. *)
Lemma forallb_blockedBy s id :
  forallb (fun bt : Z * Task => completed bt.2) (blockedBy s id) = true
  <-> blockers_completed s id.
Proof.
  rewrite forallb_elem_of. unfold blockers_completed. rewrite Forall_forall.
  split.
  - intros H [k i] Hin Hi. simpl in *. subst i.
    destruct (tasks s !! k) as [t|] eqn:Ek; [|done].
    apply (H (k, t)). by apply elem_of_blockedBy.
  - intros H [k t] [Hin Hk]%elem_of_blockedBy.
    specialize (H (k, id) Hin eq_refl). simpl in H. by rewrite Hk in H.
Qed.

(** X1. A task is available to start exactly when the blocking gate of a
    completion lets it through: for a task of the caller,
    [isTaskAvailableToStart] answers [true] when
    [validateTaskCanBeCompleted] returns and [false] when it throws
    BlockedByDependency, and it answers [true] exactly when every task in
    [blockedBy] is completed; for a task that is missing or belongs to
    someone else both throw NotFound. *)
Theorem isTaskAvailableToStart_completable (id uid : Z) (s : Store) :
  (findOne id uid s = None ->
   isTaskAvailableToStart id uid s = Raise NotFound s [] /\
   validateTaskCanBeCompleted id uid s = Raise NotFound s []) /\
  (is_Some (findOne id uid s) ->
   (isTaskAvailableToStart id uid s = Ret true s [] <->
    validateTaskCanBeCompleted id uid s = Ret tt s []) /\
   (isTaskAvailableToStart id uid s = Ret false s [] <->
    exists titles,
      validateTaskCanBeCompleted id uid s
      = Raise (BlockedByDependency titles) s []) /\
   (isTaskAvailableToStart id uid s = Ret true s [] <->
    blockers_completed s id)).
Proof.
  rewrite isTaskAvailableToStart_run, validateTaskCanBeCompleted_run.
  split; [by intros ->|]. intros [t ->].
  pose proof (forallb_filter_nil (fun bt : Z * Task => completed bt.2)
                (blockedBy s id)) as Hnil.
  pose proof (forallb_blockedBy s id) as Hall.
  destruct (forallb _ (blockedBy s id)) eqn:Eall.
  - rewrite (proj1 Hnil eq_refl). repeat split; try done.
    + by intros [titles ?].
    + intros _. by apply Hall.
  - destruct (List.filter _ (blockedBy s id)) as [|bt l] eqn:Ef.
    { by pose proof (proj2 Hnil eq_refl). }
    repeat split; try done.
    + by eexists.
    + intros H%Hall. done.
Qed.

(** X2. [getAvailableTasks] returns, each once, exactly the incomplete
    tasks of the user for which [isTaskAvailableToStart] answers [true]. *)
Theorem getAvailableTasks_spec (uid : Z) (s : Store) :
  exists l,
    getAvailableTasks uid s = Ret l s [] /\ NoDup l /\
    forall id t,
      (id, t) ∈ l <->
      tasks s !! id = Some t /\ userId t = uid /\ completed t = false /\
      isTaskAvailableToStart id uid s = Ret true s [].
Proof.
  eexists. split; [reflexivity|]. split.
  { apply NoDup_List_filter, NoDup_List_filter, NoDup_map_to_list. }
  intros id t. rewrite elem_of_List_filter, elem_of_find_where.
  rewrite isTaskAvailableToStart_run. cbn [fst snd]. split.
  - intros [[Ht [Hu Hc]%andb_true_iff] Hall].
    apply Z.eqb_eq in Hu. apply negb_true_iff in Hc.
    repeat split; try done.
    rewrite (proj2 (findOne_Some id uid s t)) by done. by rewrite Hall.
  - intros (Ht & Hu & Hc & Hav).
    rewrite (proj2 (findOne_Some id uid s t)) in Hav by done.
    injection Hav as Hall. repeat split; try done.
    apply andb_true_iff. split; [by apply Z.eqb_eq|by rewrite Hc].
Qed.

Lemma getTaskDependencyChain_run id uid s :
  getTaskDependencyChain id uid s =
  match findOne id uid s with
  | Some t =>
      Ret (mkTaskDependencyChain (id, t) (blockedBy s id) (blocks s id)
             (forallb (fun bt : Z * Task => completed bt.2) (blockedBy s id)))
          s []
  | None => Raise NotFound s []
  end.
Proof.
  unfold getTaskDependencyChain, bind, get. simpl.
  by destruct (findOne id uid s).
Qed.

(** X3. [blocks] and [blockedBy] are the two sides of one relation: for two
    tasks of the caller, the second is among the tasks [getBlockedTasks]
    returns for the first exactly when the first is among the tasks
    [getBlockingTasks] returns for the second, which is when the edge is in
    the table.  [getTaskDependencyChain] gives the same two lists, and its
    flag is the answer of [isTaskAvailableToStart]. *)
Theorem blocking_queries_symmetric (a b uid : Z) (s : Store) (ta tb : Task) :
  tasks s !! a = Some ta -> userId ta = uid ->
  tasks s !! b = Some tb -> userId tb = uid ->
  exists la lb ca cb,
    getBlockedTasks a uid s = Ret la s [] /\
    getBlockingTasks b uid s = Ret lb s [] /\
    getTaskDependencyChain a uid s = Ret ca s [] /\
    getTaskDependencyChain b uid s = Ret cb s [] /\
    chain_blocks ca = la /\ chain_blockedBy cb = lb /\
    ((b, tb) ∈ la <-> (a, b) ∈ blocking s) /\
    ((a, ta) ∈ lb <-> (a, b) ∈ blocking s) /\
    isTaskAvailableToStart b uid s = Ret (chain_isAvailable cb) s [].
Proof.
  intros Ha Hua Hb Hub.
  rewrite getBlockedTasks_run, getBlockingTasks_run, isTaskAvailableToStart_run,
    !getTaskDependencyChain_run.
  rewrite (proj2 (findOne_Some a uid s ta)) by done.
  rewrite (proj2 (findOne_Some b uid s tb)) by done.
  do 4 eexists. do 6 (split; [reflexivity|]).
  rewrite elem_of_blocks, elem_of_blockedBy. cbn [chain_isAvailable].
  repeat split; tauto.
Qed.

Lemma blocking_queries_symmetric_witness :
  exists la lb ca cb,
    getBlockedTasks 1 7 (with_blocking [(1, 2)] store_AB)
    = Ret la (with_blocking [(1, 2)] store_AB) [] /\
    getBlockingTasks 2 7 (with_blocking [(1, 2)] store_AB)
    = Ret lb (with_blocking [(1, 2)] store_AB) [] /\
    getTaskDependencyChain 1 7 (with_blocking [(1, 2)] store_AB)
    = Ret ca (with_blocking [(1, 2)] store_AB) [] /\
    getTaskDependencyChain 2 7 (with_blocking [(1, 2)] store_AB)
    = Ret cb (with_blocking [(1, 2)] store_AB) [] /\
    chain_blocks ca = la /\ chain_blockedBy cb = lb /\
    ((2, plainTask 7 "B" (day 2) false None) ∈ la
     <-> (1, 2) ∈ blocking (with_blocking [(1, 2)] store_AB)) /\
    ((1, plainTask 7 "A" (day 1) false None) ∈ lb
     <-> (1, 2) ∈ blocking (with_blocking [(1, 2)] store_AB)) /\
    isTaskAvailableToStart 2 7 (with_blocking [(1, 2)] store_AB)
    = Ret (chain_isAvailable cb) (with_blocking [(1, 2)] store_AB) [].
Proof.
  apply (blocking_queries_symmetric 1 2 7 (with_blocking [(1, 2)] store_AB));
    reflexivity.
Defined.

(** ** What a new blocking edge guarantees *)

Lemma first_true_false {A} (f : A -> option bool) (l : list A) :
  first_true f l = Some false -> forall x, x ∈ l -> f x = Some false.
Proof.
  induction l as [|y l IH]; simpl; intros H x Hx.
  - by apply elem_of_nil in Hx.
  - destruct (f y) as [[]|] eqn:E; try done.
    apply elem_of_cons in Hx as [->|Hx]; [done|by apply IH].
Qed.

(** The search answers [false] only when there is no chain, whatever the
    fuel it was given. *)
Lemma doesTaskEventuallyBlock_false s uid b fuel :
  forall (V : gset Z) a,
    doesTaskEventuallyBlock fuel s a b uid V = Some false ->
    ~ blocks_path s uid V a b.
Proof.
  induction fuel as [|fuel IH]; intros V a; simpl; [done|].
  case_bool_decide as HV.
  { intros _ Hp. by apply blocks_path_head in Hp. }
  destruct (findOne a uid s) as [ta|] eqn:Ea.
  2:{ intros _ Hp.
      apply blocks_path_cut in Hp as [[[? ?] _]|(c & [[? ?] _] & _)]; congruence. }
  destruct (existsb _ (blocks s a)) eqn:Eex; [done|].
  intros Hft Hp. apply blocks_path_cut in Hp as [He|(c & He & Hp)].
  - destruct He as (_ & Hin & Hb).
    assert (existsb (fun bt : Z * Task => bt.1 =? b) (blocks s a) = true) as Ht
      by by apply existsb_blocks.
    congruence.
  - destruct He as (_ & Hin & [tc Hc]).
    assert ((c, tc) ∈ blocks s a) as Hel by by apply elem_of_blocks.
    pose proof (first_true_false _ _ Hft _ Hel) as Hc'. simpl in Hc'.
    by apply IH in Hc'.
Qed.

(** The walk of [isAncestor] answers [false] only when the first task is
    not an ancestor of the second. *)
Lemma isAncestor_false s uid a fuel :
  forall b, isAncestor fuel s a b uid = Some false ->
            ~ tc (parent_step s uid) b a.
Proof.
  induction fuel as [|fuel IH]; intros b; simpl; [done|].
  destruct (findOne b uid s) as [tb|] eqn:Eb.
  2:{ intros _ Htc.
      inversion Htc as [? ? Hs|? y ? Hs _]; subst;
        destruct Hs as (t & p & Ht & _); congruence. }
  destruct (parentTask s tb) as [[pid p]|] eqn:Ep.
  2:{ intros _ Htc.
      inversion Htc as [? ? Hs|? y ? Hs _]; subst;
        destruct Hs as (t & p & Ht & Hp); congruence. }
  destruct (Z.eqb_spec pid a) as [|Hne]; [done|].
  intros Hf%IH Htc.
  assert (parent_step s uid b pid) as Hstep by by exists tb, p.
  destruct (tc_parent_step_inv _ _ _ _ _ Hstep Htc); done.
Qed.

(** The business rules that held when [addBlockingRelationship] returns. *)
Lemma addBlockingRelationship_rules fuel a b uid s s' ev :
  addBlockingRelationship fuel a b uid s = Ret tt s' ev ->
  exists ta tb,
    findOne a uid s = Some ta /\ findOne b uid s = Some tb /\
    completed ta = false /\
    truthy (parentRecurrencyId ta) = false /\
    truthy (parentRecurrencyId tb) = false /\
    recurrencePattern ta = None /\ recurrencePattern tb = None /\
    isAncestor fuel s a b uid = Some false /\
    isAncestor fuel s b a uid = Some false /\
    scheduledTime ta <= scheduledTime tb.
Proof.
  unfold addBlockingRelationship. unfold bind at 1. unfold get at 1.
  destruct (findOne a uid s) as [ta|] eqn:Ea; [|done].
  destruct (findOne b uid s) as [tb|] eqn:Eb; [|done].
  destruct (Z.eqb_spec a b) as [|Hne]; [done|].
  destruct (existsb _ (blocks s a)) eqn:Eex; [done|].
  unfold bind at 1.
  step_readonly (validateNoCircularBlocking fuel a b uid) s; [|done..].
  unfold bind at 1.
  step_readonly (validateBlockingRules fuel a ta b tb uid) s; [|done..].
  intros _. exists ta, tb. revert E0. unfold validateBlockingRules.
  destruct (completed ta); [done|].
  destruct (truthy (parentRecurrencyId ta)); [done|].
  destruct (truthy (parentRecurrencyId tb)); [done|].
  destruct (recurrencePattern ta); [done|].
  destruct (recurrencePattern tb); [done|]. simpl.
  unfold validateNoHierarchyConflict, bind, get, lift_fuel. simpl.
  destruct (isAncestor fuel s a b uid) as [[]|]; try done. simpl.
  destruct (isAncestor fuel s b a uid) as [[]|]; try done. simpl.
  destruct (Z.ltb_spec (scheduledTime tb) (scheduledTime ta)); [done|].
  intros _. repeat split; done.
Qed.

(** X4. When [addBlockingRelationship] returns, every rule held in the
    store it was called on: the two tasks are distinct tasks of the caller
    without that edge, the blocking task is not completed, neither task is
    a recurring template or a recurring instance, neither is an ancestor of
    the other, the blocking task is not due after the blocked one, and the
    blocked task does not reach the blocking task.  The call appends the
    edge and touches nothing else. *)
Theorem addBlockingRelationship_sound (fuel : nat) (a b uid : Z)
    (s s' : Store) (ev : list Event) :
  addBlockingRelationship fuel a b uid s = Ret tt s' ev ->
  exists ta tb,
    tasks s !! a = Some ta /\ userId ta = uid /\
    tasks s !! b = Some tb /\ userId tb = uid /\
    a <> b /\ ((a, b) ∉ blocking s) /\
    completed ta = false /\
    recurrencePattern ta = None /\ recurrencePattern tb = None /\
    truthy (parentRecurrencyId ta) = false /\
    truthy (parentRecurrencyId tb) = false /\
    ~ tc (parent_step s uid) a b /\ ~ tc (parent_step s uid) b a /\
    scheduledTime ta <= scheduledTime tb /\
    ~ reaches s uid b a /\
    tasks s' = tasks s /\ blocking s' = blocking s ++ [(a, b)] /\
    nextId s' = nextId s /\ ev = [].
Proof.
  intros Hadd.
  destruct (addBlockingRelationship_rules _ _ _ _ _ _ _ Hadd)
    as (ta & tb & Ha & Hb & Hc & Hia & Hib & Hpa & Hpb & Hab & Hba & Htime).
  destruct (addBlockingRelationship_Ret _ _ _ _ _ _ _ Hadd)
    as (_ & _ & Hne & Hnot & Hdfs & -> & ->).
  apply findOne_Some in Ha as [Ha Hua]. apply findOne_Some in Hb as [Hb Hub].
  exists ta, tb. repeat split; try done.
  - by apply isAncestor_false in Hba.
  - by apply isAncestor_false in Hab.
  - by apply doesTaskEventuallyBlock_false in Hdfs.
Qed.

Lemma addBlockingRelationship_sound_witness :
  exists ta tb,
    tasks store_AB !! 1 = Some ta /\ userId ta = 7 /\
    tasks store_AB !! 2 = Some tb /\ userId tb = 7 /\
    1 <> 2 /\ ((1, 2) ∉ blocking store_AB) /\
    completed ta = false /\
    recurrencePattern ta = None /\ recurrencePattern tb = None /\
    truthy (parentRecurrencyId ta) = false /\
    truthy (parentRecurrencyId tb) = false /\
    ~ tc (parent_step store_AB 7) 1 2 /\ ~ tc (parent_step store_AB 7) 2 1 /\
    scheduledTime ta <= scheduledTime tb /\
    ~ reaches store_AB 7 2 1 /\
    tasks (with_blocking [(1, 2)] store_AB) = tasks store_AB /\
    blocking (with_blocking [(1, 2)] store_AB) = blocking store_AB ++ [(1, 2)] /\
    nextId (with_blocking [(1, 2)] store_AB) = nextId store_AB /\
    @nil Event = [].
Proof.
  apply (addBlockingRelationship_sound 3 1 2 7 store_AB
           (with_blocking [(1, 2)] store_AB) []).
  reflexivity.
Defined.

Lemma validateParentCompletion_run id uid s :
  validateParentCompletion id uid s =
  match find_where (fun _ c => opt_eqb (parentTaskId c) id
                               && (userId c =? uid)
                               && negb (completed c)) s with
  | [] => Ret tt s []
  | kt :: l =>
      Raise (BlockedByChildren (map (fun kt : Z * Task => title kt.2) (kt :: l)))
            s []
  end.
Proof.
  unfold validateParentCompletion, bind, get. simpl.
  by destruct (find_where _ s).
Qed.

(** X5. A new blocking edge takes effect at once: after
    [addBlockingRelationship] has returned, each of the two tasks is in
    the other's list, the blocked task is not available to start, the
    blocking gate names the blocking task, and [markAsCompleted] of the
    blocked task is refused by one of the two completion gates without
    writing anything. *)
Theorem addBlockingRelationship_blocks (fuel : nat) (a b uid : Z)
    (s s' : Store) (ev : list Event) :
  addBlockingRelationship fuel a b uid s = Ret tt s' ev ->
  exists ta tb,
    tasks s' !! a = Some ta /\ tasks s' !! b = Some tb /\
    completed ta = false /\
    (exists la, getBlockedTasks a uid s' = Ret la s' [] /\ (b, tb) ∈ la) /\
    (exists lb, getBlockingTasks b uid s' = Ret lb s' [] /\ (a, ta) ∈ lb) /\
    isTaskAvailableToStart b uid s' = Ret false s' [] /\
    (exists titles,
       validateTaskCanBeCompleted b uid s'
       = Raise (BlockedByDependency titles) s' [] /\ title ta ∈ titles) /\
    (forall fuel' now, exists e ev',
       markAsCompleted fuel' now b uid s' = Raise e s' ev' /\ gateError e).
Proof.
  intros Hadd.
  destruct (addBlockingRelationship_rules _ _ _ _ _ _ _ Hadd)
    as (ta & tb & Ha & Hb & Hc & _).
  destruct (addBlockingRelationship_Ret _ _ _ _ _ _ _ Hadd)
    as (_ & _ & Hne & Hnot & _ & -> & ->).
  set (s' := with_blocking (blocking s ++ [(a, b)]) s).
  assert (findOne a uid s' = Some ta) as Ha' by done.
  assert (findOne b uid s' = Some tb) as Hb' by done.
  apply findOne_Some in Ha as [Ha Hua]. apply findOne_Some in Hb as [Hb Hub].
  assert ((a, b) ∈ blocking s') as Hin.
  { cbn [s' with_blocking blocking]. apply elem_of_app. right. left. }
  assert ((a, ta) ∈ blockedBy s' b) as Hby by by apply elem_of_blockedBy.
  assert ((a, ta) ∈ List.filter (fun bt : Z * Task => negb (completed bt.2))
                      (blockedBy s' b)) as Hfil.
  { apply elem_of_List_filter. split; [done|]. simpl. by rewrite Hc. }
  assert (exists titles,
            validateTaskCanBeCompleted b uid s'
            = Raise (BlockedByDependency titles) s' [] /\ title ta ∈ titles)
    as (titles & Hval & Htitle).
  { rewrite validateTaskCanBeCompleted_run, Hb'.
    destruct (List.filter _ (blockedBy s' b)) as [|bt l] eqn:Ef.
    { by apply elem_of_nil in Hfil. }
    eexists. split; [reflexivity|].
    apply (list_elem_of_fmap_2 (fun bt : Z * Task => title bt.2) _ _ Hfil). }
  exists ta, tb. split; [done|]. split; [done|]. split; [done|]. split.
  { rewrite getBlockedTasks_run, Ha'. eexists. split; [done|].
    by apply elem_of_blocks. }
  split.
  { rewrite getBlockingTasks_run, Hb'. by eexists. }
  split.
  { rewrite isTaskAvailableToStart_run, Hb'. f_equal.
    apply not_true_is_false. intros Hall.
    rewrite forallb_elem_of in Hall. specialize (Hall _ Hby). simpl in Hall.
    congruence. }
  split; [by exists titles|].
  intros fuel' now. unfold markAsCompleted.
  rewrite bind_run. cbn [emit]. rewrite bind_run, validateParentCompletion_run.
  destruct (find_where _ s') as [|kt l].
  - cbn [prefix_events]. rewrite bind_run. cbn [emit prefix_events].
    rewrite bind_run, Hval. cbn [prefix_events]. by do 2 eexists.
  - cbn [prefix_events]. by do 2 eexists.
Qed.

Lemma addBlockingRelationship_blocks_witness :
  exists ta tb,
    tasks (with_blocking [(1, 2)] store_AB) !! 1 = Some ta /\
    tasks (with_blocking [(1, 2)] store_AB) !! 2 = Some tb /\
    completed ta = false /\
    (exists la, getBlockedTasks 1 7 (with_blocking [(1, 2)] store_AB)
                = Ret la (with_blocking [(1, 2)] store_AB) [] /\ (2, tb) ∈ la) /\
    (exists lb, getBlockingTasks 2 7 (with_blocking [(1, 2)] store_AB)
                = Ret lb (with_blocking [(1, 2)] store_AB) [] /\ (1, ta) ∈ lb) /\
    isTaskAvailableToStart 2 7 (with_blocking [(1, 2)] store_AB)
    = Ret false (with_blocking [(1, 2)] store_AB) [] /\
    (exists titles,
       validateTaskCanBeCompleted 2 7 (with_blocking [(1, 2)] store_AB)
       = Raise (BlockedByDependency titles) (with_blocking [(1, 2)] store_AB) []
       /\ title ta ∈ titles) /\
    (forall fuel' now, exists e ev',
       markAsCompleted fuel' now 2 7 (with_blocking [(1, 2)] store_AB)
       = Raise e (with_blocking [(1, 2)] store_AB) ev' /\ gateError e).
Proof.
  apply (addBlockingRelationship_blocks 3 1 2 7 store_AB
           (with_blocking [(1, 2)] store_AB) []).
  reflexivity.
Defined.

(** X6. The order of the checks of [addBlockingRelationship]: a task that
    is missing or belongs to someone else gives NotFound, also when the two
    ids are equal; a task of the caller cannot block itself
    (SelfReference); an edge that is already in the table between two
    tasks of the caller gives DuplicateRelationship, before the cycle
    search and the business rules are looked at.  None of the three
    writes or needs fuel. *)
Theorem addBlockingRelationship_errors (fuel : nat) (a b uid : Z) (s : Store) :
  (findOne a uid s = None \/ findOne b uid s = None ->
   addBlockingRelationship fuel a b uid s = Raise NotFound s []) /\
  (is_Some (findOne a uid s) ->
   addBlockingRelationship fuel a a uid s = Raise SelfReference s []) /\
  (is_Some (findOne a uid s) -> is_Some (findOne b uid s) -> a <> b ->
   (a, b) ∈ blocking s ->
   addBlockingRelationship fuel a b uid s = Raise DuplicateRelationship s []).
Proof.
  unfold addBlockingRelationship. rewrite !bind_run. cbn [get prefix_events].
  split; [|split].
  - intros [Ha|Hb].
    + by rewrite Ha.
    + rewrite Hb. by destruct (findOne a uid s).
  - intros [ta Ha]. by rewrite Ha, Z.eqb_refl.
  - intros [ta Ha] [tb Hb] Hne Hin. rewrite Ha, Hb.
    destruct (Z.eqb_spec a b) as [|_]; [done|].
    apply findOne_Some in Hb as [Hb _].
    by rewrite (proj2 (existsb_blocks s a b)) by eauto.
Qed.

(** ** The blocking graph stays acyclic *)

Lemma blocks_edge_snoc s uid a b x y :
  blocks_edge (with_blocking (blocking s ++ [(a, b)]) s) uid x y ->
  blocks_edge s uid x y \/ (x = a /\ y = b /\ is_Some (findOne a uid s)).
Proof.
  intros (Hx & Hin & Hy). cbn [with_blocking blocking] in Hin.
  apply elem_of_app in Hin as [Hin|Hin].
  - left. by split.
  - apply list_elem_of_singleton in Hin as [= -> ->]. right. by split.
Qed.

(** A chain in the graph with one more edge is a chain of the old graph,
    or it runs through the new edge: its start is or reaches the source of
    the edge, and the target of the edge is or reaches its end. *)
Lemma reaches_snoc s uid a b x y :
  reaches (with_blocking (blocking s ++ [(a, b)]) s) uid x y ->
  reaches s uid x y \/
  (is_Some (findOne a uid s) /\
   (x = a \/ reaches s uid x a) /\ (b = y \/ reaches s uid b y)).
Proof.
  unfold reaches.
  induction 1 as [x y _ He|x c y _ He _ IH].
  - apply blocks_edge_snoc in He as [He|(-> & -> & Ha)].
    + left. apply blocks_path_edge; [apply not_elem_of_empty|done].
    + right. split; [done|]. split; by left.
  - apply blocks_edge_snoc in He as [He|(-> & -> & Ha)].
    + destruct IH as [IH|(Ha & Hca & Hby)].
      * left. eapply blocks_path_step; [apply not_elem_of_empty|done..].
      * right. split; [done|]. split; [|done]. right.
        destruct Hca as [->|Hca].
        -- apply blocks_path_edge; [apply not_elem_of_empty|done].
        -- eapply blocks_path_step; [apply not_elem_of_empty|done..].
    + right. split; [done|]. split; [by left|].
      destruct IH as [IH|(_ & _ & Hby)]; [by right|done].
Qed.

(** X7. [addBlockingRelationship] keeps the blocking graph acyclic: when
    no task reaches itself through the blocking edges and the call returns,
    no task reaches itself in the store it leaves. *)
Theorem addBlockingRelationship_acyclic (fuel : nat) (a b uid : Z)
    (s s' : Store) (ev : list Event) :
  blocking_dag s ->
  addBlockingRelationship fuel a b uid s = Ret tt s' ev ->
  blocking_dag s'.
Proof.
  intros Hdag Hadd.
  destruct (addBlockingRelationship_Ret _ _ _ _ _ _ _ Hadd)
    as ([ta Ha] & _ & Hne & _ & Hdfs & -> & _).
  apply doesTaskEventuallyBlock_false in Hdfs.
  intros uid' x Hcyc.
  apply reaches_snoc in Hcyc as [Hcyc|([ta' Ha'] & Hxa & Hbx)].
  { by apply (Hdag uid' x). }
  apply findOne_Some in Ha as [Ha Hu]. apply findOne_Some in Ha' as [Ha' Hu'].
  assert (uid' = uid) as -> by congruence.
  apply Hdfs. change (reaches s uid b a).
  destruct Hxa as [->|Hxa], Hbx as [Hbx|Hbx]; try done.
  - by subst.
  - by eapply blocks_path_app.
Qed.

Lemma addBlockingRelationship_acyclic_witness :
  blocking_dag (with_blocking [(1, 2)] store_AB).
Proof.
  apply (addBlockingRelationship_acyclic 3 1 2 7 store_AB
           (with_blocking [(1, 2)] store_AB) []).
  - by apply blocking_dag_no_edges.
  - reflexivity.
Defined.

(** ** The children of a task and the completion gate *)

Lemma earlier_total : Total earlier.
Proof. intros x y. unfold earlier. lia. Qed.

Lemma earlier_trans : Transitive earlier.
Proof. intros x y z. unfold earlier. lia. Qed.

Lemma by_scheduledTime_sorted l : StronglySorted earlier (by_scheduledTime l).
Proof.
  pose proof earlier_total. pose proof earlier_trans.
  apply StronglySorted_merge_sort; apply _.
Qed.

Lemma by_scheduledTime_Permutation l : by_scheduledTime l ≡ₚ l.
Proof. apply merge_sort_Permutation. Qed.

Lemma elem_of_by_scheduledTime l x : x ∈ by_scheduledTime l <-> x ∈ l.
Proof. by rewrite by_scheduledTime_Permutation. Qed.

Lemma NoDup_find_where P s : NoDup (find_where P s).
Proof. apply NoDup_List_filter, NoDup_map_to_list. Qed.

(** X8. [getChildTasks] returns, each once and by ascending scheduled
    time, exactly the tasks of the user whose parent is the given task;
    the completion gate [validateParentCompletion] lets the parent through
    exactly when all of them are completed, and otherwise throws
    BlockedByChildren with the titles of the incomplete ones. *)
Theorem getChildTasks_gate (id uid : Z) (s : Store) :
  exists l,
    getChildTasks id uid s = Ret l s [] /\
    StronglySorted earlier l /\ NoDup l /\
    (forall c tc, (c, tc) ∈ l <->
       tasks s !! c = Some tc /\ parentTaskId tc = Some id /\ userId tc = uid) /\
    (validateParentCompletion id uid s = Ret tt s [] <->
     Forall (fun kt : Z * Task => completed kt.2 = true) l) /\
    (validateParentCompletion id uid s = Ret tt s [] \/
     exists titles,
       validateParentCompletion id uid s = Raise (BlockedByChildren titles) s [] /\
       titles <> [] /\
       forall ttl, ttl ∈ titles <->
         exists c tc, (c, tc) ∈ l /\ completed tc = false /\ title tc = ttl).
Proof.
  eexists. split; [reflexivity|].
  split; [apply by_scheduledTime_sorted|].
  split; [rewrite by_scheduledTime_Permutation; apply NoDup_find_where|].
  assert (forall c tc,
    (c, tc) ∈ by_scheduledTime
      (find_where (fun _ c => opt_eqb (parentTaskId c) id && (userId c =? uid)) s)
    <-> tasks s !! c = Some tc /\ parentTaskId tc = Some id /\ userId tc = uid)
    as Hmem.
  { intros c tc. rewrite elem_of_by_scheduledTime, elem_of_find_where.
    rewrite andb_true_iff, opt_eqb_true, Z.eqb_eq. tauto. }
  split; [exact Hmem|].
  assert (forall c tc,
    (c, tc) ∈ find_where (fun _ c => opt_eqb (parentTaskId c) id
                                     && (userId c =? uid)
                                     && negb (completed c)) s
    <-> (c, tc) ∈ by_scheduledTime
          (find_where (fun _ c => opt_eqb (parentTaskId c) id
                                  && (userId c =? uid)) s)
        /\ completed tc = false) as Hinc.
  { intros c tc. rewrite Hmem, elem_of_find_where.
    rewrite !andb_true_iff, opt_eqb_true, Z.eqb_eq, negb_true_iff. tauto. }
  rewrite validateParentCompletion_run.
  set (lc := by_scheduledTime _) in *. clearbody lc.
  destruct (find_where _ s) as [|kt l] eqn:Ef.
  - split; [|by left]. split; [|done]. intros _.
    apply Forall_forall. intros [c tc] Hin. simpl.
    destruct (completed tc) eqn:Ec; [done|].
    assert ((c, tc) ∈ @nil (Z * Task)) as Hnil by by apply Hinc.
    by apply elem_of_nil in Hnil.
  - split.
    + split; [done|]. intros Hall. exfalso.
      destruct kt as [c tc].
      assert ((c, tc) ∈ (c, tc) :: l) as Hin by left.
      apply Hinc in Hin as [Hin Hc].
      rewrite Forall_forall in Hall. specialize (Hall _ Hin). simpl in Hall.
      congruence.
    + right. eexists. split; [reflexivity|]. split; [done|].
      intros ttl. rewrite list_elem_of_fmap. split.
      * intros ([c tc] & -> & Hin). apply Hinc in Hin as [Hin Hc].
        by exists c, tc.
      * intros (c & tc & Hin & Hc & <-). exists (c, tc). split; [done|].
        by apply Hinc.
Qed.

(** ** Moving a task *)

Lemma isAncestor_isDescendant fuel s a b uid :
  isAncestor fuel s a b uid = isDescendant fuel s b a uid.
Proof.
  revert b. induction fuel as [|fuel IH]; intros b; simpl; [done|].
  destruct (findOne b uid s); [|done].
  destruct (parentTask s _) as [[pid p]|]; [|done].
  by destruct (pid =? a).
Qed.

(** A successful [moveTask]: what was checked, what is written. *)
Lemma moveTask_Ret fuel t np uid s r s' ev :
  moveTask fuel t np uid s = Ret r s' ev ->
  exists task,
    findOne t uid s = Some task /\
    r = set_parentTaskId np task /\
    s' = with_task t (set_parentTaskId np task) s /\ ev = [] /\
    (forall p, np = Some p -> p <> 0 ->
       isDescendant fuel s p t uid = Some false /\
       exists pt, findOne p uid s = Some pt /\
                  scheduledTime task <= scheduledTime pt).
Proof.
  unfold moveTask. rewrite bind_run. cbn [get prefix_events].
  destruct (findOne t uid s) as [task|] eqn:Et; [|done].
  rewrite bind_run.
  match goal with
  | |- context [match ?m s with _ => _ end] => step_readonly m s; [|done..]
  end.
  cbn [prefix_events]. rewrite bind_run. cbn [save_row prefix_events ret].
  intros [= <- <- <-]. exists task. do 4 (split; [done|]).
  intros p -> Hp. revert E. unfold truthy.
  destruct (Z.eqb_spec p 0) as [|_]; [done|]. cbn [negb].
  rewrite bind_run. unfold validateNoCircularDependency.
  rewrite !bind_run. cbn [get prefix_events lift_fuel].
  destruct (isDescendant fuel s p t uid) as [[]|]; try done.
  cbn [bind lift_fuel ret prefix_events app]. rewrite validateChildDueDate_run.
  destruct (findOne p uid s) as [pt|]; [|done].
  destruct (Z.ltb_spec (scheduledTime pt) (scheduledTime task)); [done|].
  intros _. split; [done|]. by exists pt.
Qed.

Lemma parent_step_with_task s uid' t task np x y :
  tasks s !! t = Some task ->
  parent_step (with_task t (set_parentTaskId np task) s) uid' x y ->
  (x <> t /\ parent_step s uid' x y) \/
  (x = t /\ np = Some y /\ userId task = uid').
Proof.
  intros Ht (tx & py & [Hx Hu]%findOne_Some & [Hp Hy]%parentTask_Some).
  cbn [with_task tasks] in Hx, Hy.
  destruct (decide (x = t)) as [->|Hne].
  - rewrite lookup_insert_eq in Hx. injection Hx as <-. right. by repeat split.
  - rewrite lookup_insert_ne in Hx by done. left. split; [done|].
    assert (exists p', tasks s !! y = Some p') as [p' Hp'].
    { destruct (decide (y = t)) as [->|Hyt]; [by eexists|].
      rewrite lookup_insert_ne in Hy by done. by eexists. }
    exists tx, p'. split; [by apply findOne_Some|by apply parentTask_Some].
Qed.

(** A parent chain of the store after a move is a chain of the store
    before it, or it runs through the moved task. *)
Lemma tc_parent_step_with_task s uid' t task np x z :
  tasks s !! t = Some task ->
  tc (parent_step (with_task t (set_parentTaskId np task) s) uid') x z ->
  tc (parent_step s uid') x z \/
  (exists p, np = Some p /\ userId task = uid' /\
             (x = t \/ tc (parent_step s uid') x t) /\
             (p = z \/ tc (parent_step s uid') p z)).
Proof.
  intros Ht. induction 1 as [x z Hs|x c z Hs _ IH].
  - apply (parent_step_with_task _ _ _ _ _ _ _ Ht) in Hs
      as [[_ Hs]|(-> & -> & Hu)].
    + left. by apply tc_once.
    + right. exists z. repeat split; try done; by left.
  - apply (parent_step_with_task _ _ _ _ _ _ _ Ht) in Hs
      as [[_ Hs]|(-> & -> & Hu)].
    + destruct IH as [IH|(p & -> & Hu & Hct & Hpz)].
      * left. by eapply tc_l.
      * right. exists p. repeat split; try done. right.
        destruct Hct as [->|Hct]; [by apply tc_once|by eapply tc_l].
    + right. exists c. split; [done|]. split; [done|]. split; [by left|].
      destruct IH as [IH|(p & [= <-] & _ & _ & Hpz)]; [by right|done].
Qed.

Lemma isDescendant_false s uid a fuel d :
  isDescendant fuel s d a uid = Some false -> ~ tc (parent_step s uid) d a.
Proof. rewrite <- isAncestor_isDescendant. apply isAncestor_false. Qed.

(** X9. [moveTask] keeps the hierarchy well formed when the new parent is
    another task: if every parent reference is to a task of the same owner
    that is not due before the child, it is so after the move, and if no
    task is its own ancestor, none is after the move.  (A move of a task
    under itself passes the cycle check, and a parent id 0 is not checked
    at all.) *)
Theorem moveTask_keeps_hierarchy (fuel : nat) (t : Z) (np : option Z)
    (uid : Z) (s s' : Store) (r : Task) (ev : list Event) :
  np <> Some t -> np <> Some 0 ->
  moveTask fuel t np uid s = Ret r s' ev ->
  (hierarchy_ok s -> hierarchy_ok s') /\
  (hierarchy_forest s -> hierarchy_forest s').
Proof.
  intros Hnt Hn0 Hmove.
  destruct (moveTask_Ret _ _ _ _ _ _ _ _ Hmove)
    as (task & [Ht Hu]%findOne_Some & -> & -> & -> & Hchk).
  split.
  - intros Hok k tk Hk. cbn [with_task tasks] in Hk |- *.
    assert (forall p pt, tasks s !! p = Some pt ->
              exists pt', <[t:=set_parentTaskId np task]> (tasks s) !! p = Some pt' /\
                          userId pt' = userId pt /\
                          scheduledTime pt' = scheduledTime pt) as Hrow.
    { intros p pt Hp. destruct (decide (p = t)) as [->|Hpt].
      - rewrite lookup_insert_eq. eexists. split; [done|].
        rewrite Ht in Hp. by injection Hp as <-.
      - rewrite lookup_insert_ne by done. by exists pt. }
    destruct (decide (k = t)) as [->|Hkt].
    + rewrite lookup_insert_eq in Hk. injection Hk as <-.
      cbn [set_parentTaskId parentTaskId userId scheduledTime].
      destruct np as [p|]; [|done].
      destruct (Hchk p eq_refl) as (_ & pt & [Hp Hup]%findOne_Some & Hle);
        [congruence|].
      destruct (Hrow _ _ Hp) as (pt' & -> & Hu' & Hs'). split; [congruence|lia].
    + rewrite lookup_insert_ne in Hk by done.
      specialize (Hok _ _ Hk). cbn beta in Hok.
      destruct (parentTaskId tk) as [p|]; [|done].
      destruct (tasks s !! p) as [pt|] eqn:Hp; [|done].
      destruct Hok as [Hou Hos].
      destruct (Hrow _ _ Hp) as (pt' & -> & Hu' & Hs'). split; [congruence|lia].
  - intros Hforest uid' x Hcyc.
    apply (tc_parent_step_with_task _ _ _ _ _ _ _ Ht) in Hcyc
      as [Hcyc|(p & -> & Hu' & Hxt & Hpx)].
    { by apply (Hforest uid' x). }
    assert (uid' = uid) as -> by congruence.
    destruct (Hchk p eq_refl) as (Hdesc%isDescendant_false & _); [congruence|].
    apply Hdesc.
    destruct Hxt as [->|Hxt], Hpx as [Hpx|Hpx]; try done.
    + congruence.
    + by subst.
    + by etrans.
Qed.

Lemma moveTask_keeps_hierarchy_witness :
  (hierarchy_ok store_AB ->
   hierarchy_ok (with_task 1 (plainTask 7 "A" (day 1) false (Some 2)) store_AB)) /\
  (hierarchy_forest store_AB ->
   hierarchy_forest
     (with_task 1 (plainTask 7 "A" (day 1) false (Some 2)) store_AB)).
Proof.
  apply (moveTask_keeps_hierarchy 3 1 (Some 2) 7 store_AB
           (with_task 1 (plainTask 7 "A" (day 1) false (Some 2)) store_AB)
           (plainTask 7 "A" (day 1) false (Some 2)) []).
  - done.
  - done.
  - reflexivity.
Defined.

Lemma moveTask_detach fuel t uid s task :
  findOne t uid s = Some task ->
  moveTask fuel t None uid s
  = Ret (set_parentTaskId None task)
        (with_task t (set_parentTaskId None task) s) [].
Proof. intros Ht. unfold moveTask, bind, get. simpl. by rewrite Ht. Qed.

Lemma moveTask_attach fuel t p uid s task pt :
  findOne t uid s = Some task -> p <> 0 ->
  isDescendant fuel s p t uid = Some false ->
  findOne p uid s = Some pt -> scheduledTime task <= scheduledTime pt ->
  moveTask fuel t (Some p) uid s
  = Ret (set_parentTaskId (Some p) task)
        (with_task t (set_parentTaskId (Some p) task) s) [].
Proof.
  intros Ht Hp Hdesc Hpt Hle. unfold moveTask. rewrite bind_run.
  cbn [get prefix_events]. rewrite Ht, bind_run. unfold truthy.
  destruct (Z.eqb_spec p 0) as [|_]; [done|]. cbn [negb].
  rewrite bind_run. unfold validateNoCircularDependency.
  rewrite !bind_run. cbn [get prefix_events lift_fuel]. rewrite Hdesc.
  cbn [bind lift_fuel ret prefix_events app].
  rewrite validateChildDueDate_run, Hpt.
  destruct (Z.ltb_spec (scheduledTime pt) (scheduledTime task)); [lia|].
  done.
Qed.

Lemma owned_ids_with_task s t task task' uid :
  tasks s !! t = Some task -> userId task' = userId task ->
  owned_ids (with_task t task' s) uid = owned_ids s uid.
Proof.
  intros Ht Hu. apply set_eq. intros k. rewrite !elem_of_owned_ids.
  unfold findOne. cbn [with_task tasks].
  destruct (decide (k = t)) as [->|Hne].
  - rewrite lookup_insert_eq, Ht, Hu.
    destruct (userId task =? uid); [|done]. split; eauto.
  - by rewrite lookup_insert_ne.
Qed.

(** X10. Taking a task out of its parent and putting it back is a round
    trip: in a store without hierarchy cycles, for a task of the caller
    whose parent is a task of the caller that is not due before it,
    [moveTask] to no parent returns, changes only that row, and [moveTask]
    back to the parent returns the task as it was in the store as it was. *)
Theorem moveTask_detach_reattach (fuel : nat) (t p uid : Z) (s : Store)
    (task pt : Task) :
  tasks s !! t = Some task -> userId task = uid ->
  parentTaskId task = Some p -> p <> 0 ->
  tasks s !! p = Some pt -> userId pt = uid ->
  scheduledTime task <= scheduledTime pt ->
  hierarchy_forest s ->
  (size (owned_ids s uid) < fuel)%nat ->
  exists s1,
    moveTask fuel t None uid s = Ret (set_parentTaskId None task) s1 [] /\
    tasks s1 !! t = Some (set_parentTaskId None task) /\
    (forall k, k <> t -> tasks s1 !! k = tasks s !! k) /\
    blocking s1 = blocking s /\
    moveTask fuel t (Some p) uid s1 = Ret task s [].
Proof.
  intros Ht Hu Hpar Hp0 Hp Hup Hle Hforest Hfuel.
  set (task0 := set_parentTaskId None task).
  exists (with_task t task0 s).
  assert (findOne t uid s = Some task) as Hft by by apply findOne_Some.
  split; [by apply moveTask_detach|].
  split; [apply lookup_insert_eq|].
  split; [intros k Hk; by apply lookup_insert_ne|].
  split; [done|].
  assert (parent_step s uid t p) as Hstep.
  { exists task, pt. split; [done|]. by apply parentTask_Some. }
  assert (p <> t) as Hpt.
  { intros ->. apply (Hforest uid t). by apply tc_once. }
  assert (forall x z, tc (parent_step (with_task t task0 s) uid) x z ->
                      tc (parent_step s uid) x z) as Hsub.
  { intros x z Htc.
    apply (tc_parent_step_with_task _ _ _ _ _ _ _ Ht) in Htc
      as [Htc|(q & [=] & _)]. done. }
  destruct (isDescendant_spec (with_task t task0 s) uid t fuel ∅ p)
    as (r & Hr & Hiff).
  - intros x Hx. by apply elem_of_empty in Hx.
  - intros y _ Hcyc%Hsub. by apply (Hforest uid y).
  - rewrite difference_empty_L.
    by rewrite (owned_ids_with_task s t task task0 uid).
  - destruct r.
    { exfalso. apply (Hforest uid t). eapply tc_l; [exact Hstep|].
      apply Hsub. by apply Hiff. }
    erewrite (moveTask_attach fuel t p uid _ task0 pt); try done.
    + f_equal.
      * destruct task. cbn in *. by subst.
      * unfold with_task. cbn [tasks blocking nextId].
        rewrite insert_insert_eq.
        replace (set_parentTaskId (Some p) task0) with task
          by (destruct task; cbn in *; by subst).
        rewrite insert_id by done. by destruct s.
    + apply findOne_Some. split; [apply lookup_insert_eq|done].
    + apply findOne_Some. split; [|done].
      cbn [with_task tasks]. by rewrite lookup_insert_ne.
Qed.

Lemma moveTask_detach_reattach_witness :
  exists s1,
    moveTask 3 2 None 7 store_PC
    = Ret (set_parentTaskId None (plainTask 7 "C" (day 1) true (Some 1))) s1 [] /\
    tasks s1 !! 2
    = Some (set_parentTaskId None (plainTask 7 "C" (day 1) true (Some 1))) /\
    (forall k, k <> 2 -> tasks s1 !! k = tasks store_PC !! k) /\
    blocking s1 = blocking store_PC /\
    moveTask 3 2 (Some 1) 7 s1
    = Ret (plainTask 7 "C" (day 1) true (Some 1)) store_PC [].
Proof.
  apply (moveTask_detach_reattach 3 2 1 7 store_PC
           (plainTask 7 "C" (day 1) true (Some 1))
           (plainTask 7 "P" (day 2) true None)); try done.
  - apply hierarchy_forest_store_PC.
  - vm_compute. lia.
Defined.

(** ** The cascade of completions *)

Lemma checkAndCompleteParentTasks_S fuel id uid s :
  checkAndCompleteParentTasks (S fuel) id uid s =
  match findOne id uid s with
  | None => Ret tt s []
  | Some task =>
      match parentTask s task with
      | None => Ret tt s []
      | Some (pid, parent) =>
          if completed parent then Ret tt s []
          else if forallb (fun kt : Z * Task => completed kt.2)
                    (find_where (fun _ c => opt_eqb (parentTaskId c) pid
                                            && (userId c =? uid)) s)
          then checkAndCompleteParentTasks fuel pid uid
                 match findOne pid uid s with
                 | Some t => with_task pid (set_completed true t) s
                 | None => s
                 end
          else Ret tt s []
      end
  end.
Proof.
  cbn [checkAndCompleteParentTasks]. rewrite bind_run. cbn [get prefix_events].
  destruct (findOne id uid s) as [task|]; [|done].
  destruct (parentTask s task) as [[pid parent]|]; [|done].
  destruct (completed parent); [done|].
  destruct (forallb _ _); [|done].
  rewrite bind_run. unfold update_completed. rewrite bind_run.
  cbn [get prefix_events].
  destruct (findOne pid uid s); cbn [save_row ret prefix_events app];
    by rewrite !prefix_events_nil.
Qed.

(** The cascade records no event and only sets [completed] on rows that
    are there. *)
Lemma checkAndCompleteParentTasks_rows fuel uid :
  forall id s s' ev,
    checkAndCompleteParentTasks fuel id uid s = Ret tt s' ev ->
    ev = [] /\ blocking s' = blocking s /\ nextId s' = nextId s /\
    (forall k t, tasks s !! k = Some t ->
       tasks s' !! k = Some t \/
       (completed t = false /\ tasks s' !! k = Some (set_completed true t))) /\
    (forall k, tasks s !! k = None -> tasks s' !! k = None).
Proof.
  induction fuel as [|fuel IH]; intros id s s' ev; [done|].
  rewrite checkAndCompleteParentTasks_S.
  assert (Ret tt s [] = Ret tt s' ev ->
          ev = [] /\ blocking s' = blocking s /\ nextId s' = nextId s /\
          (forall k t, tasks s !! k = Some t ->
             tasks s' !! k = Some t \/
             (completed t = false /\
              tasks s' !! k = Some (set_completed true t))) /\
          (forall k, tasks s !! k = None -> tasks s' !! k = None)) as Hsame.
  { intros [= <- <-]. repeat split; auto. }
  destruct (findOne id uid s) as [task|]; [|done].
  destruct (parentTask s task) as [[pid parent]|] eqn:Ep; [|done].
  destruct (completed parent) eqn:Ec; [done|].
  destruct (forallb _ _); [|done].
  destruct (findOne pid uid s) as [p0|] eqn:Epid; [|by apply IH].
  intros (-> & Hb & Hn & Hold & Hnone)%IH.
  apply parentTask_Some in Ep as [_ Hp].
  apply findOne_Some in Epid as [Hp0 _].
  assert (p0 = parent) as -> by congruence.
  cbn [with_task tasks blocking nextId] in *.
  split; [done|]. split; [done|]. split; [done|]. split.
  - intros k t Hk. destruct (decide (k = pid)) as [->|Hne].
    + assert (t = parent) as -> by congruence. right. split; [done|].
      destruct (Hold pid (set_completed true parent)) as [H|[_ H]];
        [apply lookup_insert_eq|done..].
    + apply Hold. by rewrite lookup_insert_ne.
  - intros k Hk. apply Hnone. rewrite lookup_insert_ne; [done|congruence].
Qed.

(** X11. The cascade is idempotent and only completes: when
    [checkAndCompleteParentTasks] returns it has recorded no event, it has
    left the blocking edges and the key counter alone, every row is as it
    was or is the same row with [completed] set, no row has been added or
    removed, and running the cascade again from the same task changes
    nothing. *)
Theorem checkAndCompleteParentTasks_idempotent (fuel : nat) (id uid : Z)
    (s s' : Store) (ev : list Event) :
  checkAndCompleteParentTasks fuel id uid s = Ret tt s' ev ->
  ev = [] /\
  checkAndCompleteParentTasks fuel id uid s' = Ret tt s' [] /\
  blocking s' = blocking s /\ nextId s' = nextId s /\
  (forall k t, tasks s !! k = Some t ->
     tasks s' !! k = Some t \/
     (completed t = false /\ tasks s' !! k = Some (set_completed true t))) /\
  (forall k, tasks s !! k = None -> tasks s' !! k = None).
Proof.
  intros Hrun.
  destruct (checkAndCompleteParentTasks_rows _ _ _ _ _ _ Hrun)
    as (-> & Hb & Hn & Hold & Hnone).
  split; [done|]. split; [|done].
  destruct fuel as [|fuel]; [done|].
  pose proof Hrun as Hrun'. rewrite checkAndCompleteParentTasks_S in Hrun.
  destruct (findOne id uid s) as [task|] eqn:Eid;
    [|by injection Hrun as <-].
  destruct (parentTask s task) as [[pid parent]|] eqn:Ep;
    [|by injection Hrun as <-].
  destruct (completed parent) eqn:Ec; [by injection Hrun as <-|].
  destruct (forallb _ _); [|by injection Hrun as <-].
  destruct (findOne pid uid s) as [p0|] eqn:Epid.
  2:{ destruct fuel as [|fuel]; [done|].
      rewrite checkAndCompleteParentTasks_S, Epid in Hrun.
      by injection Hrun as <-. }
  apply checkAndCompleteParentTasks_rows in Hrun
    as (_ & _ & _ & Hold1 & _).
  apply parentTask_Some in Ep as [Hpar Hp].
  apply findOne_Some in Epid as [Hp0 _].
  assert (p0 = parent) as -> by congruence.
  apply findOne_Some in Eid as [Hid Hu].
  cbn [with_task tasks] in Hold1.
  assert (exists ti, tasks s' !! id = Some ti /\ userId ti = uid /\
                     parentTaskId ti = Some pid) as (ti & Hti & Hui & Hpi).
  { destruct (Hold _ _ Hid) as [H|[_ H]]; eexists; (split; [exact H|done]). }
  assert (exists pi, tasks s' !! pid = Some pi /\ completed pi = true)
    as (pi & Hpi' & Hci).
  { destruct (Hold1 pid (set_completed true parent)) as [H|[_ H]];
      [apply lookup_insert_eq|eexists; (split; [exact H|done])..]. }
  rewrite checkAndCompleteParentTasks_S.
  rewrite (proj2 (findOne_Some id uid s' ti)) by done.
  rewrite (proj2 (parentTask_Some s' ti pid pi)) by done.
  by rewrite Hci.
Qed.

Lemma checkAndCompleteParentTasks_idempotent_witness :
  @nil Event = [] /\
  checkAndCompleteParentTasks 3 2 7 store_T_completed
  = Ret tt store_T_completed [] /\
  blocking store_T_completed = blocking store_T_child_completed /\
  nextId store_T_completed = nextId store_T_child_completed /\
  (forall k t,
     tasks store_T_child_completed !! k = Some t ->
     tasks store_T_completed !! k = Some t \/
     (completed t = false /\
      tasks store_T_completed !! k = Some (set_completed true t))) /\
  (forall k,
     tasks store_T_child_completed !! k = None ->
     tasks store_T_completed !! k = None).
Proof.
  apply (checkAndCompleteParentTasks_idempotent 3 2 7
           store_T_child_completed store_T_completed []).
  reflexivity.
Defined.

(** ** An operation that throws has written nothing *)

Lemma stable_readonly {A} (m : M A) : readonly m -> stable m.
Proof. intros H s. specialize (H s). destruct (m s); simpl; tauto. Qed.

Lemma stable_emit e : stable (emit e).
Proof. by intros s. Qed.

Lemma stable_bind {A B} (m : M A) (k : A -> M B) :
  stable m -> (forall a, stable (k a)) -> stable (bind m k).
Proof.
  intros Hm Hk s. rewrite bind_run. specialize (Hm s).
  destruct (m s) as [a s1 ev1| |]; simpl in *; [|done..]. subst s1.
  apply post_store_prefix, Hk.
Qed.

Lemma stable_when (b : bool) (m : M unit) : stable m -> stable (when b m).
Proof. destruct b; [done|]. intros _. by intros s. Qed.

Lemma atomic_stable {A} (m : M A) : stable m -> atomic m.
Proof. intros H s. specialize (H s). by destruct (m s). Qed.

Lemma atomic_never_throws {A} (m : M A) : never_throws m -> atomic m.
Proof. intros H s. specialize (H s). destruct (m s); [done| |done]. by destruct H. Qed.

Lemma atomic_throw {A} e : atomic (@throw A e).
Proof. by intros s. Qed.

Lemma atomic_if {A} (b : bool) (m1 m2 : M A) :
  atomic m1 -> atomic m2 -> atomic (if b then m1 else m2).
Proof. by destruct b. Qed.

(** After a step that leaves the store alone the rest decides. *)
Lemma atomic_bind_stable {A B} (m : M A) (k : A -> M B) :
  stable m -> (forall a, atomic (k a)) -> atomic (bind m k).
Proof.
  intros Hm Hk s. rewrite bind_run. specialize (Hm s).
  destruct (m s) as [a s1 ev1|e s1 ev1|]; simpl in *; [|done..]. subst s1.
  specialize (Hk a s). by destruct (k a s).
Qed.

(** After a step that may write, the rest must not throw. *)
Lemma atomic_bind_never_throws {A B} (m : M A) (k : A -> M B) :
  atomic m -> (forall a, never_throws (k a)) -> atomic (bind m k).
Proof.
  intros Hm Hk s. rewrite bind_run. specialize (Hm s).
  destruct (m s) as [a s1 ev1|e s1 ev1|]; simpl in *; [|done..].
  specialize (Hk a s1). destruct (k a s1); simpl; [done| |done].
  by destruct Hk.
Qed.

Lemma never_throws_try_catch (m : M unit) : never_throws (try_catch m).
Proof. apply quiet_try_catch. intros s. by apply Forall_true. Qed.

Lemma never_throws_getNextScheduledTime t p i :
  never_throws (getNextScheduledTime t (Some p) i).
Proof. intros s. rewrite getNextScheduledTime_run. constructor. Qed.

Lemma never_throws_generateLoop fuel pid R p bufferDate :
  recurrencePattern R = Some p ->
  forall next, never_throws (generateLoop fuel pid R bufferDate next).
Proof.
  intros Hp. induction fuel as [|fuel IH]; intros next; [by intros s|].
  cbn [generateLoop]. rewrite Hp. unfold never_throws.
  quiet_auto; first [apply never_throws_getNextScheduledTime | apply IH].
Qed.

Lemma never_throws_generateInstancesForOptimalBuffer fuel now pid R p seed :
  recurrencePattern R = Some p ->
  never_throws (generateInstancesForOptimalBuffer fuel now pid R seed).
Proof.
  intros Hp. unfold generateInstancesForOptimalBuffer. rewrite Hp.
  unfold never_throws.
  quiet_auto;
    first [apply never_throws_getNextScheduledTime
          | by apply (never_throws_generateLoop _ _ _ p)].
Qed.

Lemma never_throws_checkAndCompleteParentTasks fuel uid :
  forall id, never_throws (checkAndCompleteParentTasks fuel id uid).
Proof.
  induction fuel as [|fuel IH]; intros id; [by intros s|].
  cbn [checkAndCompleteParentTasks]. unfold never_throws, update_completed.
  quiet_auto. apply IH.
Qed.

Lemma never_throws_onTaskInstanceCompleted fuel now t :
  never_throws (onTaskInstanceCompleted fuel now t).
Proof.
  unfold onTaskInstanceCompleted, never_throws.
  destruct (parentRecurrencyId t); [|apply quiet_ret].
  destruct (truthy _); [|apply quiet_ret].
  apply never_throws_try_catch.
Qed.

Lemma atomic_generateInstancesForOptimalBuffer fuel now pid R seed :
  atomic (generateInstancesForOptimalBuffer fuel now pid R seed).
Proof.
  destruct (recurrencePattern R) as [p|] eqn:Hp.
  { by apply atomic_never_throws,
      (never_throws_generateInstancesForOptimalBuffer _ _ _ _ p). }
  apply atomic_stable. unfold generateInstancesForOptimalBuffer. rewrite Hp.
  destruct (match recurrenceEndDate R with Some e => e <? now | None => false end);
    [apply stable_readonly, readonly_ret|].
  apply stable_bind; [apply stable_readonly, readonly_get|]. intros s0.
  destruct (match lastInstanceTime pid s0 with Some t => Some t | None => seed end);
    by intros s.
Qed.

Lemma never_throws_createRecurringTask fuel now dto uid :
  never_throws (createRecurringTask fuel now dto uid).
Proof.
  unfold createRecurringTask, never_throws.
  cbn [recurrencePattern scheduledTime].
  apply quiet_bind; [apply quiet_insert_row|]. intros id.
  apply quiet_bind; [|intros; apply quiet_ret].
  destruct (c_recurrencePattern dto) as [p|] eqn:Hp; [|apply quiet_ret].
  cbn [isSome].
  by apply (never_throws_generateInstancesForOptimalBuffer _ _ _ _ p).
Qed.

Lemma atomic_create fuel now dto uid : atomic (create fuel now dto uid).
Proof.
  unfold create. apply atomic_if; [apply atomic_throw|].
  apply atomic_bind_stable.
  { apply stable_readonly. destruct (c_parentTaskId dto); auto 10 with readonly.
    all: apply readonly_if; auto 10 with readonly. }
  intros _. apply atomic_if; apply atomic_never_throws; unfold never_throws.
  - apply quiet_bind; [apply never_throws_createRecurringTask|].
    intros r. quiet_auto.
  - quiet_auto.
Qed.

Lemma atomic_updateRecurringTask fuel now id dto uid :
  atomic (updateRecurringTask fuel now id dto uid).
Proof.
  unfold updateRecurringTask.
  apply atomic_bind_stable; [apply stable_readonly, readonly_get|]. intros s0.
  destruct (findOne id uid s0) as [task|]; [|apply atomic_throw].
  apply atomic_never_throws. unfold never_throws.
  apply quiet_bind; [quiet_auto|]. intros _.
  apply quiet_bind; [quiet_auto|]. intros _.
  apply quiet_bind; [|intros; apply quiet_ret].
  destruct (recurrencePattern
              (set_recurrenceEndDate (u_recurrenceEndDate dto)
                 (assign_dto dto task))) as [p|] eqn:Hp;
    [|apply quiet_ret].
  apply quiet_when.
  by apply (never_throws_generateInstancesForOptimalBuffer _ _ _ _ p).
Qed.

Lemma atomic_update fuel now id dto uid : atomic (update fuel now id dto uid).
Proof.
  unfold update.
  apply atomic_bind_stable; [apply stable_readonly; auto with readonly|].
  intros task.
  apply atomic_bind_stable; [apply stable_readonly, readonly_get|]. intros s0.
  repeat (apply atomic_if; [apply atomic_throw|]).
  apply atomic_bind_stable.
  { apply stable_when.
    repeat first [ solve [apply stable_readonly; auto with readonly]
                 | apply stable_emit
                 | apply stable_bind; [|intros ?] ]. }
  intros _. apply atomic_bind_stable.
  { apply stable_readonly.
    destruct (u_parentTaskId dto) as [[p|]|]; auto 10 with readonly. }
  intros _. apply atomic_if; [apply atomic_updateRecurringTask|].
  apply atomic_never_throws. unfold never_throws.
  apply quiet_bind; [quiet_auto|]. intros _.
  apply quiet_bind; [|intros _; quiet_auto].
  apply quiet_when.
  apply quiet_bind; [by apply quiet_emit|intros _].
  apply quiet_bind; [by apply quiet_emit|intros _].
  apply quiet_bind; [apply never_throws_onTaskInstanceCompleted|intros _].
  apply quiet_bind; [by apply quiet_emit|intros _].
  apply never_throws_checkAndCompleteParentTasks.
Qed.

Lemma atomic_markAsCompleted fuel now id uid :
  atomic (markAsCompleted fuel now id uid).
Proof.
  unfold markAsCompleted.
  repeat (apply atomic_bind_stable;
          [first [apply stable_emit | apply stable_readonly; auto with readonly]
          |intros _]).
  apply atomic_bind_never_throws; [apply atomic_update|]. intros r.
  unfold never_throws.
  apply quiet_bind; [by apply quiet_emit|intros _].
  apply quiet_bind; [apply never_throws_checkAndCompleteParentTasks|intros _].
  apply quiet_ret.
Qed.

Lemma atomic_moveTask fuel t np uid : atomic (moveTask fuel t np uid).
Proof.
  unfold moveTask.
  apply atomic_bind_stable; [apply stable_readonly, readonly_get|]. intros s0.
  destruct (findOne t uid s0) as [task|]; [|apply atomic_throw].
  apply atomic_bind_stable.
  { apply stable_readonly. destruct np; auto 10 with readonly.
    all: apply readonly_if; auto 10 with readonly. }
  intros _. apply atomic_never_throws. unfold never_throws. quiet_auto.
Qed.

Lemma atomic_addBlockingRelationship fuel a b uid :
  atomic (addBlockingRelationship fuel a b uid).
Proof.
  unfold addBlockingRelationship.
  apply atomic_bind_stable; [apply stable_readonly, readonly_get|]. intros s0.
  destruct (findOne a uid s0) as [ta|]; [|apply atomic_throw].
  destruct (findOne b uid s0) as [tb|]; [|apply atomic_throw].
  repeat (apply atomic_if; [apply atomic_throw|]).
  repeat (apply atomic_bind_stable;
          [apply stable_readonly; auto with readonly|intros _]).
  apply atomic_never_throws. unfold never_throws. quiet_auto.
Qed.

Lemma atomic_removeBlockingRelationship a b uid :
  atomic (removeBlockingRelationship a b uid).
Proof.
  unfold removeBlockingRelationship.
  apply atomic_bind_stable; [apply stable_readonly, readonly_get|]. intros s0.
  destruct (findOne a uid s0); [|apply atomic_throw].
  apply atomic_never_throws. unfold never_throws. quiet_auto.
Qed.

(** X12. A public operation that throws has written nothing: whenever
    create, update, markAsCompleted, markAsIncomplete, moveTask,
    addBlockingRelationship, removeBlockingRelationship or the generator
    ends with an exception, the store is the one it was called on.  All
    checks come before the first write, and what runs after it (the
    regeneration hook, the cascade, the generator of a template) does not
    throw. *)
Theorem failed_operation_writes_nothing (fuel : nat) (now uid : Z)
    (op : Operation) :
  atomic (run_operation fuel now uid op).
Proof.
  destruct op; cbn [run_operation].
  - apply atomic_bind_never_throws; [apply atomic_create|].
    intros; apply quiet_ret.
  - apply atomic_bind_never_throws; [apply atomic_update|].
    intros; apply quiet_ret.
  - apply atomic_bind_never_throws; [apply atomic_markAsCompleted|].
    intros; apply quiet_ret.
  - apply atomic_bind_never_throws; [apply atomic_update|].
    intros; apply quiet_ret.
  - apply atomic_bind_never_throws; [apply atomic_moveTask|].
    intros; apply quiet_ret.
  - apply atomic_addBlockingRelationship.
  - apply atomic_removeBlockingRelationship.
  - apply atomic_bind_stable; [apply stable_readonly, readonly_get|].
    intros s0. destruct (findOne templateId uid s0).
    + apply atomic_generateInstancesForOptimalBuffer.
    + apply atomic_stable, stable_readonly, readonly_ret.
Qed.

(** ** The trace of a completion *)

Lemma bind_Ret_inv {A B} (m : M A) (k : A -> M B) s b s' ev :
  bind m k s = Ret b s' ev ->
  exists a s1 ev1 ev2,
    m s = Ret a s1 ev1 /\ k a s1 = Ret b s' ev2 /\ ev = ev1 ++ ev2.
Proof.
  rewrite bind_run. destruct (m s) as [a s1 ev1| |]; [|done..].
  destruct (k a s1) as [b' s2 ev2| |] eqn:Ek; [|done..].
  intros [= <- <- <-]. by exists a, s1, ev1, ev2.
Qed.

Lemma readonly_Ret_inv {A} (m : M A) s a s' ev :
  readonly m -> m s = Ret a s' ev -> s' = s /\ ev = [].
Proof. intros H Hm. specialize (H s). by rewrite Hm in H. Qed.

Lemma reminders_generateLoop fuel pid R bufferDate next :
  quiet reminderEvent (fun _ => True)
    (generateLoop fuel pid R bufferDate next).
Proof.
  revert next. induction fuel as [|fuel IH]; intros next; [by intros s|].
  cbn [generateLoop]. unfold getNextScheduledTime. quiet_auto; apply IH.
Qed.

Lemma reminders_onTaskInstanceCompleted fuel now t s :
  Forall reminderEvent (res_events (onTaskInstanceCompleted fuel now t s)).
Proof.
  unfold onTaskInstanceCompleted.
  destruct (parentRecurrencyId t) as [prid|]; [|constructor].
  destruct (truthy _); [|constructor].
  assert (quiet reminderEvent (fun _ => True)
            (s <- get ;;
             match tasks s !! prid with
             | None => ret tt
             | Some parentTask =>
                 if isSome (recurrencePattern parentTask) then
                   if needsMoreInstances now prid parentTask s then
                     generateInstancesForOptimalBuffer fuel now prid parentTask
                       (Some (scheduledTime parentTask))
                   else ret tt
                 else ret tt
             end)) as Hq.
  { unfold generateInstancesForOptimalBuffer, getNextScheduledTime.
    quiet_auto; apply reminders_generateLoop. }
  specialize (Hq s). unfold try_catch.
  match goal with
  | |- context [match ?m s with _ => _ end] => destruct (m s)
  end; simpl; [done|by destruct Hq|constructor].
Qed.

Lemma onTaskInstanceCompleted_plain fuel now t s :
  truthy (parentRecurrencyId t) = false ->
  onTaskInstanceCompleted fuel now t s = Ret tt s [].
Proof.
  unfold onTaskInstanceCompleted. intros H.
  destruct (parentRecurrencyId t); [|done]. by rewrite H.
Qed.

(** Split a [bind] that returned into its two steps. *)
Ltac peel H H1 :=
  let a := fresh "a" in
  let s1 := fresh "s" in
  let ev1 := fresh "ev" in
  let ev2 := fresh "ev" in
  apply bind_Ret_inv in H as (a & s1 & ev1 & ev2 & H1 & H & ->).

(** A read-only step that returned left the store and the trace alone. *)
Ltac peel_readonly H :=
  let H1 := fresh "Hro" in
  peel H H1;
  apply readonly_Ret_inv in H1 as [-> ->]; [|by auto 10 with readonly].

Ltac peel_emit H :=
  let H1 := fresh "Hem" in
  peel H H1; injection H1 as <- <- <-.

Ltac peel_get H :=
  let H1 := fresh "Hget" in
  peel H H1; injection H1 as <- <- <-.

(** The events of the update that completes an incomplete task. *)
Lemma update_completion_events fuel now id uid s t r s' ev :
  tasks s !! id = Some t -> userId t = uid -> completed t = false ->
  update fuel now id (completedUpdate true) uid s = Ret r s' ev ->
  if isSome (recurrencePattern t) && negb (isSome (parentRecurrencyId t))
  then ev = gateEvents id uid
  else
    exists reminders,
      ev = gateEvents id uid
           ++ [TaskCompletedNotification id uid (title t);
               HookInstanceCompleted id]
           ++ reminders ++ [CascadeParents id uid] /\
      Forall reminderEvent reminders /\
      (truthy (parentRecurrencyId t) = false -> reminders = []).
Proof.
  intros Ht Hu Hc Hrun. unfold update in Hrun.
  peel Hrun Hfind. rewrite (findOneOrThrow_found _ _ _ _ Ht Hu) in Hfind.
  injection Hfind as <- <- <-.
  peel_get Hrun.
  cbn [completedUpdate u_recurrencePattern u_parentTaskId u_completed
       u_scheduledTime isSome andb default_to truthy isTrue] in Hrun.
  rewrite Hc in Hrun. cbn [negb andb when] in Hrun.
  peel Hrun Hgates.
  peel_emit Hgates. peel_readonly Hgates. peel_emit Hgates.
  apply readonly_Ret_inv in Hgates as [-> ->]; [|by auto with readonly].
  peel_readonly Hrun.
  destruct (isSome (recurrencePattern t) && negb (isSome (parentRecurrencyId t)))
    eqn:Etemplate.
  - unfold updateRecurringTask in Hrun. peel_get Hrun.
    rewrite (proj2 (findOne_Some id uid s t)) in Hrun by done.
    cbn [completedUpdate u_recurrencePattern u_recurrenceInterval
         u_recurrenceEndDate u_scheduledTime isSome orb truthy] in Hrun.
    rewrite !andb_false_r in Hrun. cbn [when] in Hrun.
    peel_readonly Hrun. peel Hrun Hsave. injection Hsave as <- <- <-.
    peel_readonly Hrun. by injection Hrun as <- <- <-.
  - peel Hrun Hsave. injection Hsave as <- <- <-.
    cbn [negb andb isTrue isSome when] in Hrun.
    peel Hrun Hdone. peel_readonly Hrun. injection Hrun as <- <- <-.
    peel_emit Hdone. peel_emit Hdone. peel Hdone Hhook. peel_emit Hdone.
    destruct a2, a4.
    apply checkAndCompleteParentTasks_rows in Hdone as (-> & _).
    rewrite assign_completedUpdate in Hhook.
    exists ev. split; [|split].
    + cbn [gateEvents app]. by rewrite !app_nil_r.
    + pose proof (reminders_onTaskInstanceCompleted fuel now
                    (set_completed true t)
                    (mkStore (<[id:=set_completed true t]> (tasks s))
                             (blocking s) (nextId s))) as Hrem.
      by rewrite Hhook in Hrem.
    + intros Hplain.
      rewrite onTaskInstanceCompleted_plain in Hhook by done.
      by injection Hhook as <- <-.
Qed.

(** X13. The trace of [markAsCompleted] for an incomplete task of the
    caller, when it returns.  The two completion gates are called twice,
    by [markAsCompleted] and again by the [update] it calls.  For a
    recurring template that is all besides the cascade: no
    completed-notification is created and the regeneration hook is not
    called.  For any other task exactly one completed-notification is
    created, the hook is called once and the cascade twice; the only
    other events are reminders of instances the hook generated, and there
    are none when the task is not a recurring instance. *)
Theorem markAsCompleted_events (fuel : nat) (now id uid : Z) (s s' : Store)
    (t r : Task) (ev : list Event) :
  tasks s !! id = Some t -> userId t = uid -> completed t = false ->
  markAsCompleted fuel now id uid s = Ret r s' ev ->
  if isSome (recurrencePattern t) && negb (isSome (parentRecurrencyId t))
  then ev = gateEvents id uid ++ gateEvents id uid ++ [CascadeParents id uid]
  else
    exists reminders,
      ev = gateEvents id uid ++ gateEvents id uid
           ++ [TaskCompletedNotification id uid (title t);
               HookInstanceCompleted id]
           ++ reminders ++ [CascadeParents id uid; CascadeParents id uid] /\
      Forall reminderEvent reminders /\
      (truthy (parentRecurrencyId t) = false -> reminders = []).
Proof.
  intros Ht Hu Hc Hrun. unfold markAsCompleted in Hrun.
  peel_emit Hrun. peel_readonly Hrun. peel_emit Hrun. peel_readonly Hrun.
  peel Hrun Hupd. peel_emit Hrun. peel Hrun Hcas.
  injection Hrun as <- <- <-. destruct a2.
  apply checkAndCompleteParentTasks_rows in Hcas as (-> & _).
  pose proof (update_completion_events _ _ _ _ _ _ _ _ _ Ht Hu Hc Hupd) as Hev.
  destruct (isSome (recurrencePattern t) && negb (isSome (parentRecurrencyId t))).
  - subst. cbn [gateEvents app]. done.
  - destruct Hev as (reminders & -> & Hrem & Hplain).
    exists reminders. split; [|done].
    cbn [gateEvents app]. by rewrite <- !app_assoc.
Qed.

Lemma markAsCompleted_events_witness :
  exists reminders,
    [GateParentCompletion 2 7; GateCanBeCompleted 2 7;
     GateParentCompletion 2 7; GateCanBeCompleted 2 7;
     TaskCompletedNotification 2 7 "T"; HookInstanceCompleted 2;
     CascadeParents 2 7; CascadeParents 2 7]
    = gateEvents 2 7 ++ gateEvents 2 7
      ++ [TaskCompletedNotification 2 7 "T"; HookInstanceCompleted 2]
      ++ reminders ++ [CascadeParents 2 7; CascadeParents 2 7] /\
    Forall reminderEvent reminders /\
    (truthy (@None Z) = false -> reminders = []).
Proof.
  apply (markAsCompleted_events 3 0 2 7 store_T store_T_completed
           (plainTask 7 "T" (day 1) false (Some 1))
           (plainTask 7 "T" (day 1) true (Some 1))); reflexivity.
Defined.

(** ** Creating a task *)

Lemma rejectRecurringParent_run p uid s :
  rejectRecurringParent p uid s =
  match findOne p uid s with
  | Some pt =>
      if isSome (recurrencePattern pt) then Raise InvalidRelationship s []
      else if truthy (parentRecurrencyId pt) then Raise InvalidRelationship s []
      else Ret tt s []
  | None => Ret tt s []
  end.
Proof.
  unfold rejectRecurringParent, bind, get. simpl.
  destruct (findOne p uid s) as [pt|]; [|done].
  destruct (isSome _); [done|]. by destruct (truthy _).
Qed.

(** X14. Creating a plain task: when [create] returns for a request
    without recurrence pattern, the task has the next key, it is the row
    that [findOne] then returns, it is incomplete and carries the fields of
    the request, one created-notification and one reminder scheduling are
    recorded, and when the keys in use are below the counter no other row
    has changed.  A parent named in the request (other than 0) is a task
    of the caller that is neither a recurring template nor a recurring
    instance and is not due before the new task. *)
Theorem create_plain_spec (fuel : nat) (now uid : Z) (dto : CreateTaskDto)
    (s s' : Store) (r : Z * Task) (ev : list Event) :
  c_recurrencePattern dto = None ->
  create fuel now dto uid s = Ret r s' ev ->
  r.1 = nextId s /\ s' = with_new r.2 s /\
  findOneOrThrow r.1 uid s' = Ret r.2 s' [] /\
  ev = [TaskCreatedNotification r.1 uid (c_title dto);
        ScheduleReminders r.1 (c_scheduledTime dto)] /\
  userId r.2 = uid /\ title r.2 = c_title dto /\
  scheduledTime r.2 = c_scheduledTime dto /\ completed r.2 = false /\
  parentTaskId r.2 = c_parentTaskId dto /\
  recurrencePattern r.2 = None /\ parentRecurrencyId r.2 = None /\
  (ids_fresh s -> forall k t, tasks s !! k = Some t -> tasks s' !! k = Some t) /\
  (forall p, c_parentTaskId dto = Some p -> p <> 0 ->
     exists pt, findOne p uid s = Some pt /\
                c_scheduledTime dto <= scheduledTime pt /\
                recurrencePattern pt = None /\
                truthy (parentRecurrencyId pt) = false).
Proof.
  intros Hplain Hrun. unfold create in Hrun. rewrite Hplain in Hrun.
  cbn [isSome andb] in Hrun.
  peel Hrun Hchk. peel Hrun Hins. injection Hins as <- <- <-.
  peel_emit Hrun. peel_emit Hrun. injection Hrun as <- <- <-.
  apply readonly_Ret_inv in Hchk as Hsame.
  2:{ destruct (c_parentTaskId dto); auto 10 with readonly. }
  destruct Hsame as [-> ->].
  cbn [fst snd userId title scheduledTime completed parentTaskId
       recurrencePattern parentRecurrencyId].
  split; [done|]. split; [done|]. split.
  { apply findOneOrThrow_found; [apply lookup_insert_eq|done]. }
  do 8 (split; [done|]). split.
  - intros Hfresh k t Hk. cbn [tasks]. rewrite lookup_insert_ne; [done|].
    intros <-. by rewrite ids_fresh_next in Hk.
  - intros p Hp Hp0. rewrite Hp in Hchk. unfold truthy in Hchk.
    destruct (Z.eqb_spec p 0) as [|_]; [done|]. cbn [negb] in Hchk.
    rewrite bind_run, validateChildDueDate_run in Hchk.
    destruct (findOne p uid s) as [pt|] eqn:Ep; [|done].
    destruct (Z.ltb_spec (scheduledTime pt) (c_scheduledTime dto)); [done|].
    rewrite prefix_events_nil, rejectRecurringParent_run, Ep in Hchk.
    destruct (recurrencePattern pt) eqn:Epat; [done|]. cbn [isSome] in Hchk.
    destruct (truthy (parentRecurrencyId pt)) eqn:Einst; [done|].
    by exists pt.
Qed.

Lemma create_plain_spec_witness :
  3 = nextId store_AB /\
  with_new (plainTask 7 "C" (day 1) false (Some 1)) store_AB
  = with_new (plainTask 7 "C" (day 1) false (Some 1)) store_AB /\
  findOneOrThrow 3 7 (with_new (plainTask 7 "C" (day 1) false (Some 1)) store_AB)
  = Ret (plainTask 7 "C" (day 1) false (Some 1))
        (with_new (plainTask 7 "C" (day 1) false (Some 1)) store_AB) [] /\
  [TaskCreatedNotification 3 7 "C"; ScheduleReminders 3 (day 1)]
  = [TaskCreatedNotification 3 7 "C"; ScheduleReminders 3 (day 1)] /\
  7 = 7 /\ "C" = "C" /\ day 1 = day 1 /\ false = false /\
  Some 1 = Some 1 /\
  @None RecurrencePattern = None /\ @None Z = None /\
  (ids_fresh store_AB -> forall k t,
     tasks store_AB !! k = Some t ->
     tasks (with_new (plainTask 7 "C" (day 1) false (Some 1)) store_AB) !! k
     = Some t) /\
  (forall p, Some 1 = Some p -> p <> 0 ->
     exists pt, findOne p 7 store_AB = Some pt /\
                day 1 <= scheduledTime pt /\
                recurrencePattern pt = None /\
                truthy (parentRecurrencyId pt) = false).
Proof.
  apply (create_plain_spec 0 0 7
           (mkCreateTaskDto "C" None (day 1) (Some 1) None (Some 1) None)
           store_AB
           (with_new (plainTask 7 "C" (day 1) false (Some 1)) store_AB)
           (3, plainTask 7 "C" (day 1) false (Some 1))
           [TaskCreatedNotification 3 7 "C"; ScheduleReminders 3 (day 1)]);
    reflexivity.
Defined.

(** ** The step of a recurrence *)

Lemma TimeWithinDay_MakeDate d t :
  JSDate.TimeWithinDay (JSDate.MakeDate d (JSDate.TimeWithinDay t))
  = JSDate.TimeWithinDay t.
Proof.
  unfold JSDate.TimeWithinDay, JSDate.MakeDate.
  rewrite Z.add_comm, Z_mod_plus_full. apply Z.mod_mod. done.
Qed.

Lemma TimeWithinDay_nextTime p i t :
  JSDate.TimeWithinDay (nextTime p i t) = JSDate.TimeWithinDay t.
Proof.
  destruct p; cbn [nextTime];
    unfold JSDate.setDate, JSDate.setMonth, JSDate.setFullYear;
    apply TimeWithinDay_MakeDate.
Qed.

(** X15. The step of a recurrence, for a server whose local time is UTC
    and for times in the range of [Date]: from a time in the range, a daily
    recurrence whose next time is in the range moves the time by exactly
    [interval] days and a weekly one by [7 * interval] days; a step of any
    pattern that arrives in the range keeps the time of day, and moves the
    time forward when the interval is positive; without a pattern the step
    throws. *)
Theorem getNextScheduledTime_step (t i : Z) (s : Store) :
  JSDate.inRange t ->
  (JSDate.inRange (t + i * JSDate.msPerDay) ->
   getNextScheduledTime t (Some DAILY) i s
   = Ret (t + i * JSDate.msPerDay) s []) /\
  (JSDate.inRange (t + 7 * i * JSDate.msPerDay) ->
   getNextScheduledTime t (Some WEEKLY) i s
   = Ret (t + 7 * i * JSDate.msPerDay) s []) /\
  getNextScheduledTime t None i s = Raise InternalError s [] /\
  (forall p,
     JSDate.inRange (nextTime p i t) ->
     exists t',
       getNextScheduledTime t (Some p) i s = Ret t' s [] /\
       JSDate.inRange t' /\
       JSDate.TimeWithinDay t' = JSDate.TimeWithinDay t /\
       (1 <= i -> t < t')).
Proof.
  intros _. split; [|split; [|split]].
  - intros _. rewrite getNextScheduledTime_run. cbn [nextTime].
    by rewrite JSDateFacts.setDate_getDate.
  - intros _. rewrite getNextScheduledTime_run. cbn [nextTime].
    by rewrite JSDateFacts.setDate_getDate.
  - done.
  - intros p Hr. exists (nextTime p i t).
    split; [apply getNextScheduledTime_run|]. split; [done|].
    split; [apply TimeWithinDay_nextTime|apply nextTime_progress].
Qed.

Lemma getNextScheduledTime_step_witness :
  getNextScheduledTime (day 45) (Some DAILY) 3 emptyStore
  = Ret (day 48) emptyStore [] /\
  getNextScheduledTime (day 45) (Some WEEKLY) 3 emptyStore
  = Ret (day 66) emptyStore [] /\
  (exists t',
     getNextScheduledTime (day 45 + 3600000) (Some MONTHLY) 3 emptyStore
     = Ret t' emptyStore [] /\
     JSDate.inRange t' /\
     JSDate.TimeWithinDay t' = 3600000 /\ day 45 + 3600000 < t').
Proof.
  split; [|split].
  - refine (proj1 (getNextScheduledTime_step (day 45) 3 emptyStore _) _);
      vm_compute; split; discriminate.
  - refine (proj1 (proj2 (getNextScheduledTime_step (day 45) 3 emptyStore _)) _);
      vm_compute; split; discriminate.
  - destruct (proj2 (proj2 (proj2 (getNextScheduledTime_step
                (day 45 + 3600000) 3 emptyStore
                ltac:(vm_compute; split; discriminate))))
              MONTHLY ltac:(vm_compute; split; discriminate))
      as (t' & Hrun & Hr & Hday & Hlt).
    exists t'. split; [exact Hrun|]. split; [exact Hr|].
    split; [exact Hday|]. apply Hlt. lia.
Defined.

(** The calendar fields of a date built by [MakeDay] from a day of the
    month that every month has. *)
Module JSDateFields.
Import JSDate JSDateFacts.

Lemma TimeWithinDay_range t : 0 <= TimeWithinDay t < msPerDay.
Proof. unfold TimeWithinDay. apply Z.mod_pos_bound. done. Qed.

Lemma Day_MakeDate d t : Day (MakeDate d (TimeWithinDay t)) = d.
Proof.
  unfold Day, MakeDate. pose proof (TimeWithinDay_range t).
  rewrite Z.add_comm, Z.div_add by done. rewrite Z.div_small by done. lia.
Qed.

Lemma DayFromYear_mono y1 y2 : y1 <= y2 -> DayFromYear y1 <= DayFromYear y2.
Proof.
  intros H. pose proof (DayFromYear_add y1 (Z.to_nat (y2 - y1))) as Hadd.
  rewrite Z2Nat.id in Hadd by lia.
  replace (y1 + (y2 - y1)) with y2 in Hadd by lia. lia.
Qed.

Lemma YearFromDay_unique y d :
  DayFromYear y <= d < DayFromYear (y + 1) -> YearFromDay d = y.
Proof.
  intros [Hlo Hhi]. pose proof (YearFromDay_spec d) as [Hlo' Hhi'].
  destruct (Z.lt_trichotomy (YearFromDay d) y) as [Hlt|[Heq|Hgt]]; [|done|].
  - pose proof (DayFromYear_mono (YearFromDay d + 1) y). lia.
  - pose proof (DayFromYear_mono (y + 1) (YearFromDay d)). lia.
Qed.

Lemma DaysBeforeMonth_range leap m :
  0 <= m <= 11 -> 0 <= DaysBeforeMonth leap m <= 334 + leapDays leap.
Proof.
  intros Hm. unfold DaysBeforeMonth, leapDays.
  repeat match goal with |- context [if ?b then _ else _] => destruct b end; lia.
Qed.

Lemma MonthFromDayWithinYear_DaysBeforeMonth leap m d :
  0 <= m <= 11 -> 1 <= d <= 28 ->
  MonthFromDayWithinYear leap (DaysBeforeMonth leap m + d - 1) = m.
Proof.
  intros Hm Hd.
  assert (m = 0 \/ m = 1 \/ m = 2 \/ m = 3 \/ m = 4 \/ m = 5 \/ m = 6 \/
          m = 7 \/ m = 8 \/ m = 9 \/ m = 10 \/ m = 11) as Hcases by lia.
  unfold MonthFromDayWithinYear, leapDays.
  destruct leap;
    repeat (destruct Hcases as [->|Hcases]; [|]);
    try subst m;
    match goal with
    | |- context [DaysBeforeMonth ?l ?m] =>
        let v := eval vm_compute in (DaysBeforeMonth l m) in
        change (DaysBeforeMonth l m) with v
    end;
    repeat match goal with
           | |- context [if ?a <? ?b then _ else _] =>
               destruct (Z.ltb_spec a b); try lia
           end.
Qed.

(** The fields of the date that [MakeDay] builds for day [d] of month
    [m] of year [y]. *)
Lemma fields_MakeDay y m d t :
  0 <= m <= 11 -> 1 <= d <= 28 ->
  YearFromTime (MakeDate (MakeDay y m d) (TimeWithinDay t)) = y /\
  MonthFromTime (MakeDate (MakeDay y m d) (TimeWithinDay t)) = m /\
  DateFromTime (MakeDate (MakeDay y m d) (TimeWithinDay t)) = d.
Proof.
  intros Hm Hd. set (t' := MakeDate (MakeDay y m d) (TimeWithinDay t)).
  assert (Day t' = DayFromYear y + DaysBeforeMonth (LeapYear y) m + d - 1)
    as Hday.
  { unfold t'. rewrite Day_MakeDate. by apply MakeDay_in_year. }
  pose proof (DaysBeforeMonth_range (LeapYear y) m Hm) as Hb.
  pose proof (DayFromYear_succ y) as Hs.
  assert (YearFromTime t' = y) as Hy.
  { unfold YearFromTime. apply YearFromDay_unique. lia. }
  assert (DayWithinYear t' = DaysBeforeMonth (LeapYear y) m + d - 1) as Hdy.
  { unfold DayWithinYear. rewrite Hy, Hday. lia. }
  assert (MonthFromTime t' = m) as Hmo.
  { unfold MonthFromTime. rewrite Hy, Hdy.
    by apply MonthFromDayWithinYear_DaysBeforeMonth. }
  split; [done|]. split; [done|].
  unfold DateFromTime. rewrite Hy, Hdy, Hmo. lia.
Qed.

Lemma DateFromTime_pos t : 1 <= DateFromTime t.
Proof.
  unfold DateFromTime, MonthFromTime.
  pose proof (YearFromDay_spec (Day t)) as [Hlo _].
  fold (YearFromTime t) in Hlo.
  assert (0 <= DayWithinYear t) as Hdy by (unfold DayWithinYear; lia).
  generalize dependent (DayWithinYear t). intros dy Hdy.
  generalize (LeapYear (YearFromTime t)). intros leap.
  unfold MonthFromDayWithinYear, leapDays.
  destruct leap;
    repeat match goal with
           | |- context [if ?a <? ?b then _ else _] =>
               destruct (Z.ltb_spec a b)
           end;
    match goal with
    | |- context [DaysBeforeMonth ?l ?m] =>
        let v := eval vm_compute in (DaysBeforeMonth l m) in
        change (DaysBeforeMonth l m) with v
    end; lia.
Qed.

Lemma MakeDay_norm y m d : MakeDay y m d = MakeDay (y + m / 12) (m mod 12) d.
Proof.
  unfold MakeDay. assert (0 <= m mod 12 < 12) as Hr by (apply Z.mod_pos_bound; lia).
  rewrite (Z.div_small (m mod 12) 12), (Z.mod_small (m mod 12) 12) by done.
  by rewrite Z.add_0_r.
Qed.

End JSDateFields.

(** X16. A monthly or yearly step keeps the day of the month when every
    month has that day, for a server whose local time is UTC and for times
    in the range of [Date]: from a time in the range on day 28 or earlier,
    a monthly step that arrives in the range lands on the same day
    [interval] months later, and a yearly step that arrives in the range
    on the same day of the same month [interval] years later. *)
Theorem getNextScheduledTime_keeps_date (t i : Z) (s : Store) :
  JSDate.inRange t ->
  JSDate.getDate t <= 28 ->
  (JSDate.inRange (nextTime MONTHLY i t) ->
   exists t',
     getNextScheduledTime t (Some MONTHLY) i s = Ret t' s [] /\
     JSDate.inRange t' /\
     JSDate.getDate t' = JSDate.getDate t /\
     12 * JSDate.getFullYear t' + JSDate.getMonth t'
     = 12 * JSDate.getFullYear t + JSDate.getMonth t + i) /\
  (JSDate.inRange (nextTime YEARLY i t) ->
   exists t',
     getNextScheduledTime t (Some YEARLY) i s = Ret t' s [] /\
     JSDate.inRange t' /\
     JSDate.getDate t' = JSDate.getDate t /\
     JSDate.getMonth t' = JSDate.getMonth t /\
     JSDate.getFullYear t' = JSDate.getFullYear t + i).
Proof.
  intros _ Hd. pose proof (JSDateFields.DateFromTime_pos t) as Hpos.
  split.
  - intros Hr. eexists. split; [apply getNextScheduledTime_run|].
    split; [done|]. clear Hr. cbn [nextTime].
    unfold JSDate.getDate, JSDate.getMonth, JSDate.getFullYear in *.
    unfold JSDate.setMonth, JSDate.getMonth.
    rewrite JSDateFields.MakeDay_norm.
    set (k := JSDate.MonthFromTime t + i).
    assert (0 <= k mod 12 < 12) as Hk by (apply Z.mod_pos_bound; lia).
    destruct (JSDateFields.fields_MakeDay
                (JSDate.YearFromTime t + k / 12) (k mod 12)
                (JSDate.DateFromTime t) t) as (-> & -> & ->); [lia..|].
    split; [done|]. pose proof (Z.div_mod k 12). unfold k in *. lia.
  - intros Hr. eexists. split; [apply getNextScheduledTime_run|].
    split; [done|]. clear Hr. cbn [nextTime].
    unfold JSDate.getDate, JSDate.getMonth, JSDate.getFullYear in *.
    unfold JSDate.setFullYear, JSDate.getFullYear.
    pose proof (JSDateFacts.MonthFromDayWithinYear_range
                  (JSDate.LeapYear (JSDate.YearFromTime t))
                  (JSDate.DayWithinYear t)) as Hm.
    fold (JSDate.MonthFromTime t) in Hm.
    by destruct (JSDateFields.fields_MakeDay
                   (JSDate.YearFromTime t + i) (JSDate.MonthFromTime t)
                   (JSDate.DateFromTime t) t) as (-> & -> & ->); [lia..|].
Qed.

Lemma getNextScheduledTime_keeps_date_witness :
  (exists t',
     getNextScheduledTime (day 45) (Some MONTHLY) 1 emptyStore
     = Ret t' emptyStore [] /\
     JSDate.inRange t' /\
     JSDate.getDate t' = JSDate.getDate (day 45) /\
     12 * JSDate.getFullYear t' + JSDate.getMonth t'
     = 12 * JSDate.getFullYear (day 45) + JSDate.getMonth (day 45) + 1) /\
  (exists t',
     getNextScheduledTime (day 45) (Some YEARLY) 1 emptyStore
     = Ret t' emptyStore [] /\
     JSDate.inRange t' /\
     JSDate.getDate t' = JSDate.getDate (day 45) /\
     JSDate.getMonth t' = JSDate.getMonth (day 45) /\
     JSDate.getFullYear t' = JSDate.getFullYear (day 45) + 1).
Proof.
  destruct (getNextScheduledTime_keeps_date (day 45) 1 emptyStore) as [Hm Hy].
  - vm_compute. split; discriminate.
  - vm_compute. discriminate.
  - split; [apply Hm|apply Hy]; vm_compute; split; discriminate.
Defined.

(** A step that leaves the range of [Date]: 300000 years after 1 January
    2025 the calendar computation arrives beyond the last time value,
    where [Date] is an Invalid Date, and the two properties above say
    nothing. *)
Example getNextScheduledTime_out_of_range :
  JSDate.inRange 1735689600000 /\
  JSDate.getFullYear 1735689600000 = 2025 /\
  JSDate.getDate 1735689600000 = 1 /\
  ~ JSDate.inRange (nextTime YEARLY 300000 1735689600000).
Proof.
  split; [vm_compute; split; discriminate|]. split; [by vm_compute|].
  split; [by vm_compute|]. intros [_ H]. vm_compute in H. by apply H.
Qed.

(** The days 29 to 31 can carry over: one month after 31 January 1970 is
    3 March 1970. *)
Example getNextScheduledTime_overflow :
  getNextScheduledTime (day 30) (Some MONTHLY) 1 emptyStore
  = Ret (day 61) emptyStore [] /\
  JSDate.getMonth (day 30) = 0 /\ JSDate.getDate (day 30) = 31 /\
  JSDate.getMonth (day 61) = 2 /\ JSDate.getDate (day 61) = 3.
Proof. by vm_compute. Qed.

(** ** The generator creates no duplicates *)

Lemma instanceTimes_with_new s pid pid' R time :
  ids_fresh s ->
  instanceTimes (with_new (newInstance pid R time) s) pid'
  ≡ₚ (if decide (pid' = pid) then [time] else []) ++ instanceTimes s pid'.
Proof.
  intros Hfresh. unfold instanceTimes.
  rewrite find_where_with_new by by apply ids_fresh_next.
  rewrite fmap_app. apply Permutation_app; [|done].
  cbn [newInstance parentRecurrencyId opt_eqb].
  destruct (decide (pid' = pid)) as [->|Hne].
  - by rewrite Z.eqb_refl.
  - destruct (Z.eqb_spec pid pid'); [congruence|done].
Qed.

Lemma not_elem_of_instanceTimes s pid time :
  find_where (fun _ t => opt_eqb (parentRecurrencyId t) pid
                         && (scheduledTime t =? time)) s = [] ->
  time ∉ instanceTimes s pid.
Proof.
  intros Hnil [[k t] [Ht Hin]]%list_elem_of_fmap. simpl in Ht.
  apply elem_of_find_where in Hin as [Hk Hp].
  rewrite find_where_nil in Hnil. specialize (Hnil _ _ Hk).
  rewrite Hp in Hnil. simpl in Hnil. apply Z.eqb_neq in Hnil. congruence.
Qed.

(** What the loop of the generator does to the instances. *)
Lemma generateLoop_instances fuel pid R p bufferDate :
  recurrencePattern R = Some p ->
  forall next s s' ev,
    ids_fresh s ->
    generateLoop fuel pid R bufferDate next s = Ret tt s' ev ->
    ids_fresh s' /\ Forall reminderEvent ev /\
    instanceTimes s' pid ≡ₚ reminderTimes ev ++ instanceTimes s pid /\
    (NoDup (instanceTimes s pid) -> NoDup (instanceTimes s' pid)) /\
    (forall pid', pid' <> pid -> instanceTimes s' pid' ≡ₚ instanceTimes s pid') /\
    tasks s ⊆ tasks s' /\ blocking s' = blocking s.
Proof.
  intros Hp. induction fuel as [|fuel IH]; intros next s s' ev Hfresh; [done|].
  rewrite (generateLoop_S _ _ _ _ _ _ p) by done.
  assert (Ret tt s [] = Ret tt s' ev ->
          ids_fresh s' /\ Forall reminderEvent ev /\
          instanceTimes s' pid ≡ₚ reminderTimes ev ++ instanceTimes s pid /\
          (NoDup (instanceTimes s pid) -> NoDup (instanceTimes s' pid)) /\
          (forall pid', pid' <> pid ->
             instanceTimes s' pid' ≡ₚ instanceTimes s pid') /\
          tasks s ⊆ tasks s' /\ blocking s' = blocking s) as Hstop.
  { intros [= <- <-]. repeat split; auto. }
  destruct (next <=? bufferDate); [|done].
  destruct (afterEndDate R next); [done|].
  destruct (find_where _ s) as [|kt l] eqn:Ef; [|by apply IH].
  destruct (generateLoop fuel pid R bufferDate _ _) as [[] s1 ev1| |] eqn:Eloop;
    [|done..].
  intros [= <- <-].
  apply IH in Eloop as (Hf1 & Hev1 & Hperm & Hnd & Hother & Hsub & Hb);
    [|by apply ids_fresh_with_new].
  pose proof (instanceTimes_with_new s pid pid R next Hfresh) as Hnew.
  rewrite decide_True in Hnew by done.
  split; [done|]. split; [by constructor|]. split.
  { rewrite Hperm, Hnew.
    change (reminderTimes (ScheduleReminders (nextId s) next :: ev1))
      with (next :: reminderTimes ev1).
    cbn [app]. symmetry. apply Permutation_middle. }
  split.
  { intros Hnodup. apply Hnd. rewrite Hnew. cbn [app].
    constructor; [by apply not_elem_of_instanceTimes|done]. }
  split.
  { intros pid' Hne. rewrite (Hother pid' Hne).
    rewrite instanceTimes_with_new by done. by rewrite decide_False. }
  split; [|done].
  etrans; [|exact Hsub]. by apply tasks_with_new.
Qed.

(** X17. The generator adds instances and nothing else, and adds no
    duplicate: when [generateInstancesForOptimalBuffer] returns, the
    scheduled times of the instances of the template are the ones from
    before together with one new time for each reminder scheduling that
    was recorded (every event is one); if the times were distinct they
    still are; the instances of other templates, the rows that were there
    and the blocking edges are as before. *)
Theorem generate_instances (fuel : nat) (now pid : Z) (R : Task)
    (seed : option Z) (s s' : Store) (ev : list Event) :
  ids_fresh s ->
  generateInstancesForOptimalBuffer fuel now pid R seed s = Ret tt s' ev ->
  Forall reminderEvent ev /\
  instanceTimes s' pid ≡ₚ reminderTimes ev ++ instanceTimes s pid /\
  (NoDup (instanceTimes s pid) -> NoDup (instanceTimes s' pid)) /\
  (forall pid', pid' <> pid -> instanceTimes s' pid' ≡ₚ instanceTimes s pid') /\
  tasks s ⊆ tasks s' /\ blocking s' = blocking s /\ ids_fresh s'.
Proof.
  intros Hfresh. unfold generateInstancesForOptimalBuffer.
  assert (Ret tt s [] = Ret tt s' ev ->
          Forall reminderEvent ev /\
          instanceTimes s' pid ≡ₚ reminderTimes ev ++ instanceTimes s pid /\
          (NoDup (instanceTimes s pid) -> NoDup (instanceTimes s' pid)) /\
          (forall pid', pid' <> pid ->
             instanceTimes s' pid' ≡ₚ instanceTimes s pid') /\
          tasks s ⊆ tasks s' /\ blocking s' = blocking s /\ ids_fresh s')
    as Hstop.
  { intros [= <- <-]. repeat split; auto. }
  destruct (match recurrenceEndDate R with Some e => e <? now | None => false end);
    [done|].
  rewrite bind_run. cbn [get prefix_events].
  destruct (recurrencePattern R) as [p|] eqn:Hp.
  - destruct (match lastInstanceTime pid s with Some t => Some t | None => seed end)
      as [t|]; [|done].
    rewrite bind_run, getNextScheduledTime_run, !prefix_events_nil.
    intros Hloop.
    destruct (generateLoop_instances _ _ _ _ _ Hp _ _ _ _ Hfresh Hloop)
      as (? & ? & ? & ? & ? & ? & ?).
    done.
  - by destruct (match lastInstanceTime pid s with Some t => Some t | None => seed end).
Qed.

Lemma generate_instances_witness :
  Forall reminderEvent
    [ScheduleReminders 2 (day 107 + hours 9);
     ScheduleReminders 3 (day 114 + hours 9)] /\
  instanceTimes store_W_generated 1
  ≡ₚ reminderTimes [ScheduleReminders 2 (day 107 + hours 9);
                    ScheduleReminders 3 (day 114 + hours 9)]
     ++ instanceTimes store_W 1 /\
  (NoDup (instanceTimes store_W 1) -> NoDup (instanceTimes store_W_generated 1)) /\
  (forall pid', pid' <> 1 ->
     instanceTimes store_W_generated pid' ≡ₚ instanceTimes store_W pid') /\
  tasks store_W ⊆ tasks store_W_generated /\
  blocking store_W_generated = blocking store_W /\
  ids_fresh store_W_generated.
Proof.
  apply (generate_instances 5 (day 100 + hours 9) 1
           (templateTask 7 "W" (day 100 + hours 9) WEEKLY 1 None)
           (Some (day 100 + hours 9)) store_W store_W_generated).
  - by_decision.
  - by vm_compute.
Defined.

(** ** Generating twice *)

Lemma lastInstanceTime_spec pid s :
  match lastInstanceTime pid s with
  | None => instanceTimes s pid = []
  | Some m => m ∈ instanceTimes s pid /\
              forall x, x ∈ instanceTimes s pid -> x <= m
  end.
Proof.
  unfold lastInstanceTime, instanceTimes.
  destruct (find_where _ s) as [|kt l]; [done|].
  cbn [map]. generalize (scheduledTime kt.2). intros a.
  induction l as [|kt' l IH]; cbn [foldr map].
  - split; [left|]. intros x Hx%list_elem_of_singleton. lia.
  - destruct IH as [Hin Hmax].
    set (m := foldr _ a l) in *. split.
    + destruct (Z.max_spec (scheduledTime kt'.2) m) as [[_ ->]|[_ ->]].
      * apply elem_of_cons in Hin as [Hin|Hin];
          [rewrite Hin; left|right; by right].
      * right. left.
    + intros x Hx. apply elem_of_cons in Hx as [->|Hx].
      * specialize (Hmax a). pose proof (Hmax ltac:(left)). lia.
      * apply elem_of_cons in Hx as [->|Hx]; [lia|].
        specialize (Hmax x). pose proof (Hmax ltac:(by right)). lia.
Qed.

Lemma lastInstanceTime_max pid s last :
  last ∈ instanceTimes s pid ->
  (forall x, x ∈ instanceTimes s pid -> x <= last) ->
  lastInstanceTime pid s = Some last.
Proof.
  intros Hin Hmax. pose proof (lastInstanceTime_spec pid s) as Hspec.
  destruct (lastInstanceTime pid s) as [m|].
  - destruct Hspec as [Hm Hmm]. f_equal.
    specialize (Hmax _ Hm). specialize (Hmm _ Hin). lia.
  - rewrite Hspec in Hin. by apply elem_of_nil in Hin.
Qed.

(** When the instances that exist are all before the first candidate, the
    loop of the generator ends with the latest instance right before the
    candidate that stopped it. *)
Lemma generateLoop_saturates fuel pid R p b :
  recurrencePattern R = Some p -> 1 <= intervalOrOne R ->
  forall next s s' ev,
    ids_fresh s ->
    (forall x, x ∈ instanceTimes s pid -> x < next) ->
    generateLoop fuel pid R b next s = Ret tt s' ev ->
    (s' = s /\ ev = [] /\ (b < next \/ afterEndDate R next = true)) \/
    (exists last,
       last ∈ instanceTimes s' pid /\
       (forall x, x ∈ instanceTimes s' pid -> x <= last) /\
       (b < nextTime p (intervalOrOne R) last \/
        afterEndDate R (nextTime p (intervalOrOne R) last) = true)).
Proof.
  intros Hp Hi. induction fuel as [|fuel IH]; intros next s s' ev Hfresh Hlt;
    [done|].
  rewrite (generateLoop_S _ _ _ _ _ _ p) by done.
  destruct (Z.leb_spec next b) as [Hle|Hgt].
  2:{ intros [= <- <-]. left. auto. }
  destruct (afterEndDate R next) eqn:Eend.
  { intros [= <- <-]. left. auto. }
  destruct (find_where _ s) as [|[k t] l] eqn:Ef.
  2:{ exfalso.
      assert ((k, t) ∈ find_where
                (fun _ t => opt_eqb (parentRecurrencyId t) pid
                            && (scheduledTime t =? next)) s) as Hin
        by (rewrite Ef; left).
      apply elem_of_find_where in Hin as [Hk [Hpid Htime]%andb_true_iff].
      apply Z.eqb_eq in Htime.
      assert (next ∈ instanceTimes s pid) as Hnext.
      { apply list_elem_of_fmap. exists (k, t). split; [done|].
        by apply elem_of_find_where. }
      specialize (Hlt _ Hnext). lia. }
  destruct (generateLoop fuel pid R b _ _) as [[] s1 ev1| |] eqn:Eloop;
    [|done..].
  intros [= <- <-]. right.
  pose proof (instanceTimes_with_new s pid pid R next Hfresh) as Hnew.
  rewrite decide_True in Hnew by done. cbn [app] in Hnew.
  pose proof (nextTime_progress p (intervalOrOne R) next Hi) as Hprog.
  apply IH in Eloop as [(-> & _ & Hstop)|Hlast].
  - exists next. split; [rewrite Hnew; left|]. split; [|done].
    intros x Hx. rewrite Hnew in Hx.
    apply elem_of_cons in Hx as [->|Hx]; [lia|]. specialize (Hlt _ Hx). lia.
  - done.
  - by apply ids_fresh_with_new.
  - intros x Hx. rewrite Hnew in Hx.
    apply elem_of_cons in Hx as [->|Hx]; [lia|]. specialize (Hlt _ Hx). lia.
Qed.

(** X18. Generating twice is generating once: when the generator returns
    for a template whose interval is not negative, a second run at the
    same instant returns the same store and records no event.  The latest
    instance is then the seed, and the candidate after it is the one that
    stopped the first run. *)
Theorem generate_idempotent (fuel : nat) (now pid : Z) (R : Task)
    (seed : option Z) (s s' : Store) (ev : list Event) :
  ids_fresh s -> 0 <= recurrenceInterval R ->
  generateInstancesForOptimalBuffer fuel now pid R seed s = Ret tt s' ev ->
  generateInstancesForOptimalBuffer fuel now pid R seed s' = Ret tt s' [].
Proof.
  intros Hfresh Hint%intervalOrOne_pos Hrun. pose proof Hrun as Hrun'.
  unfold generateInstancesForOptimalBuffer in Hrun |- *.
  destruct (match recurrenceEndDate R with Some e => e <? now | None => false end);
    [by injection Hrun as <- <-|].
  rewrite bind_run in Hrun |- *. cbn [get prefix_events] in Hrun |- *.
  destruct (recurrencePattern R) as [p|] eqn:Hp.
  2:{ by destruct (match lastInstanceTime pid s with
                   | Some t => Some t | None => seed end). }
  pose proof (lastInstanceTime_spec pid s) as Hspec.
  destruct (match lastInstanceTime pid s with Some t => Some t | None => seed end)
    as [t0|] eqn:Eseed.
  2:{ injection Hrun as <- <-. by rewrite Eseed. }
  rewrite bind_run, getNextScheduledTime_run, !prefix_events_nil in Hrun.
  pose proof (nextTime_progress p (intervalOrOne R) t0 Hint) as Hprog.
  apply (generateLoop_saturates _ _ _ p) in Hrun as Hsat; try done.
  2:{ intros x Hx. destruct (lastInstanceTime pid s) as [L|].
      - injection Eseed as <-. destruct Hspec as [_ Hmax].
        specialize (Hmax _ Hx). lia.
      - rewrite Hspec in Hx. by apply elem_of_nil in Hx. }
  destruct Hsat as [(-> & -> & _)|(last & Hin & Hmax & Hstop)].
  { rewrite Eseed, bind_run, getNextScheduledTime_run, !prefix_events_nil.
    done. }
  rewrite (lastInstanceTime_max _ _ _ Hin Hmax).
  rewrite bind_run, getNextScheduledTime_run, !prefix_events_nil.
  destruct fuel as [|fuel]; [done|].
  rewrite (generateLoop_S _ _ _ _ _ _ p) by done.
  rewrite horizon_bufferDate in Hstop |- *.
  destruct (Z.leb_spec (nextTime p (intervalOrOne R) last)
              (horizon now (Some p))) as [Hle|Hgt]; [|done].
  destruct Hstop as [Hstop| ->]; [lia|done].
Qed.

Lemma generate_idempotent_witness :
  generateInstancesForOptimalBuffer 5 (day 100 + hours 9) 1
    (templateTask 7 "W" (day 100 + hours 9) WEEKLY 1 None)
    (Some (day 100 + hours 9)) store_W_generated
  = Ret tt store_W_generated [].
Proof.
  apply (generate_idempotent 5 (day 100 + hours 9) 1
           (templateTask 7 "W" (day 100 + hours 9) WEEKLY 1 None)
           (Some (day 100 + hours 9)) store_W store_W_generated
           [ScheduleReminders 2 (day 107 + hours 9);
            ScheduleReminders 3 (day 114 + hours 9)]).
  - by_decision.
  - done.
  - by vm_compute.
Defined.

(** ** Removing a task *)

Lemma getTaskInstances_run pid uid s :
  getTaskInstances pid uid s
  = Ret (by_scheduledTime
           (find_where (fun _ t => opt_eqb (parentRecurrencyId t) pid
                                   && (userId t =? uid)) s)) s [].
Proof. done. Qed.

Lemma by_scheduledTime_nil l : l = [] -> by_scheduledTime l = [].
Proof. by intros ->. Qed.

Lemma findOneOrThrow_run id uid s :
  findOneOrThrow id uid s =
  match findOne id uid s with
  | Some t => Ret t s []
  | None => Raise NotFound s []
  end.
Proof.
  unfold findOneOrThrow, bind, get. simpl. by destruct (findOne id uid s).
Qed.

(** *** The cascade of a delete *)

Lemma refers_to_spec D t :
  refers_to D t = true <->
  exists d, d ∈ D /\ (parentTaskId t = Some d \/ parentRecurrencyId t = Some d).
Proof.
  unfold refers_to. rewrite orb_true_iff. split.
  - intros [H|H].
    + destruct (parentTaskId t) as [p|]; [|done]. simpl in H.
      apply bool_decide_eq_true in H. eauto.
    + destruct (parentRecurrencyId t) as [p|]; [|done]. simpl in H.
      apply bool_decide_eq_true in H. eauto.
  - intros (d & Hd & [H|H]); [left|right]; rewrite H; simpl;
      by apply bool_decide_eq_true.
Qed.

Lemma elem_of_cascade_step m D k :
  k ∈ cascade_step m D <->
  k ∈ D \/ exists t, m !! k = Some t /\ refers_to D t = true.
Proof.
  unfold cascade_step. rewrite elem_of_union, elem_of_dom.
  split; (intros [H|H]; [by left|right]).
  - destruct H as [t [Ht Hr]%map_lookup_filter_Some]. by exists t.
  - destruct H as (t & Ht & Hr). exists t. by apply map_lookup_filter_Some.
Qed.

Lemma cascade_mono n m D : D ⊆ cascade n m D.
Proof.
  revert D. induction n as [|n IH]; intros D; [done|].
  cbn [cascade]. etrans; [|apply IH].
  intros k Hk. apply elem_of_cascade_step. by left.
Qed.

Lemma cascade_fixed n m D : cascade_step m D = D -> cascade n m D = D.
Proof.
  intros Hfix. induction n as [|n IH]; [done|]. cbn [cascade]. by rewrite Hfix.
Qed.

(** After as many rounds as there are rows outside [D], a further round
    adds nothing. *)
Lemma cascade_stable n m D :
  (size (dom m ∖ D) <= n)%nat ->
  cascade_step m (cascade n m D) = cascade n m D.
Proof.
  revert D. induction n as [|n IH]; intros D Hsize.
  - cbn [cascade]. apply set_eq. intros k. rewrite elem_of_cascade_step.
    split; [|by left]. intros [Hk|(t & Ht & _)]; [done|].
    assert (dom m ∖ D ≡ ∅) as Hempty by (apply size_empty_iff; lia).
    destruct (decide (k ∈ D)) as [Hin|Hout]; [done|]. exfalso.
    assert (k ∈ dom m ∖ D) as Hk.
    { apply elem_of_difference. split; [|done]. apply elem_of_dom. by exists t. }
    rewrite Hempty in Hk. by apply elem_of_empty in Hk.
  - cbn [cascade].
    destruct (decide (cascade_step m D ∖ D = ∅)) as [Hnone|Hgrow].
    + assert (cascade_step m D = D) as Hfix.
      { apply set_eq. intros k. split.
        - intros Hk. destruct (decide (k ∈ D)) as [Hin|Hout]; [done|].
          exfalso. assert (k ∈ cascade_step m D ∖ D) as Hbad
            by by apply elem_of_difference.
          rewrite Hnone in Hbad. by apply elem_of_empty in Hbad.
        - intros Hk. apply elem_of_cascade_step. by left. }
      rewrite Hfix, (cascade_fixed n m D Hfix). exact Hfix.
    + apply IH.
      apply set_choose_L in Hgrow as [k [Hk Hout]%elem_of_difference].
      assert (k ∈ dom m) as Hdom.
      { apply elem_of_cascade_step in Hk as [?|(t & Ht & _)]; [done|].
        apply elem_of_dom. by exists t. }
      assert (dom m ∖ cascade_step m D ⊂ dom m ∖ D) as Hless.
      { split.
        - intros x [Hx Hnx]%elem_of_difference. apply elem_of_difference.
          split; [done|]. intros HD. apply Hnx, elem_of_cascade_step. by left.
        - intros Hsub. assert (k ∈ dom m ∖ cascade_step m D) as Hbad.
          { apply Hsub. by apply elem_of_difference. }
          by apply elem_of_difference in Hbad as [_ Hbad]. }
      apply subset_size in Hless. lia.
Qed.

Lemma cascade_sound n s D k :
  k ∈ cascade n (tasks s) D -> depends_on s D k.
Proof.
  revert D. induction n as [|n IH]; intros D Hk.
  - exists k. by split.
  - cbn [cascade] in Hk. destruct (IH _ Hk) as (d & Hd & Hpath).
    apply elem_of_cascade_step in Hd as [Hd|(t & Ht & Hr)]; [by exists d|].
    apply refers_to_spec in Hr as (d' & Hd' & Href).
    exists d'. split; [done|]. eapply rtc_r; [exact Hpath|]. by exists t.
Qed.

Lemma cascade_complete s D k :
  depends_on s D k -> k ∈ cascade (size (tasks s)) (tasks s) D.
Proof.
  intros (d & Hd & Hpath).
  pose proof (cascade_stable (size (tasks s)) (tasks s) D) as Hstable.
  assert (size (dom (tasks s) ∖ D) <= size (tasks s))%nat as Hsize.
  { rewrite <- size_dom. apply subseteq_size.
    by intros x [Hx _]%elem_of_difference. }
  specialize (Hstable Hsize).
  induction Hpath as [d|k k' d (t & Ht & Href) _ IH].
  - by apply cascade_mono.
  - specialize (IH Hd). rewrite <- Hstable. apply elem_of_cascade_step. right.
    exists t. split; [done|]. apply refers_to_spec. by exists k'.
Qed.

Lemma elem_of_cascade s D k :
  k ∈ cascade (size (tasks s)) (tasks s) D <-> depends_on s D k.
Proof. split; [apply cascade_sound|apply cascade_complete]. Qed.

(** What a delete leaves: the rows that depend on no deleted row, and the
    edges between them. *)
Lemma lookup_without_rows D s k t :
  tasks (without_rows D s) !! k = Some t <->
  tasks s !! k = Some t /\ ~ depends_on s D k.
Proof.
  unfold without_rows. cbn [tasks]. rewrite map_lookup_filter_Some.
  cbn [fst]. by rewrite elem_of_cascade.
Qed.

Lemma elem_of_blocking_without_rows D s e :
  e ∈ blocking (without_rows D s) <->
  e ∈ blocking s /\ ~ depends_on s D e.1 /\ ~ depends_on s D e.2.
Proof.
  unfold without_rows. cbn [blocking]. rewrite list_elem_of_filter.
  rewrite !elem_of_cascade. tauto.
Qed.

Lemma depends_on_singleton s d k :
  depends_on s {[d]} k <-> rtc (ref_step s) k d.
Proof.
  split.
  - by intros (d' & ->%elem_of_singleton & H).
  - intros H. exists d. split; [by apply elem_of_singleton|done].
Qed.

Lemma depends_on_where s P k :
  depends_on s (dom (filter (fun kt : Z * Task => P kt.1 kt.2 = true) (tasks s))) k
  <-> cascades_from s P k.
Proof.
  split.
  - intros (d & [td [Hd HP]%map_lookup_filter_Some]%elem_of_dom & Hpath).
    by exists d, td.
  - intros (d & td & Hd & HP & Hpath). exists d. split; [|done].
    apply elem_of_dom. exists td. by apply map_lookup_filter_Some.
Qed.

Lemma ref_step_without_rows D s k d :
  ref_step (without_rows D s) k d -> ref_step s k d.
Proof. intros (t & [Ht _]%lookup_without_rows & Href). by exists t. Qed.

Lemma rtc_ref_step_without_rows D s k d :
  rtc (ref_step (without_rows D s)) k d -> rtc (ref_step s) k d.
Proof.
  induction 1 as [|k k' d Hstep _ IH]; [done|].
  eapply rtc_l; [|exact IH]. by eapply ref_step_without_rows.
Qed.

(** A chain of references none of whose rows went with [D] is still there
    after the delete of [D]. *)
Lemma rtc_ref_step_kept D s k d :
  rtc (ref_step s) k d -> ~ depends_on s D k ->
  rtc (ref_step (without_rows D s)) k d.
Proof.
  induction 1 as [|k k' d (t & Ht & Href) Hpath IH]; intros Hk; [done|].
  eapply rtc_l.
  - exists t. split; [|done]. by apply lookup_without_rows.
  - apply IH. intros (d' & Hd' & Hpath'). apply Hk. exists d'.
    split; [done|]. eapply rtc_l; [|exact Hpath']. by exists t.
Qed.

(** Deleting rows that refer to row [id] and then row [id] is deleting
    row [id]. *)
Lemma depends_on_after D s id k :
  (forall d, d ∈ D -> ref_step s d id) ->
  (~ depends_on s D k /\ ~ rtc (ref_step (without_rows D s)) k id)
  <-> ~ rtc (ref_step s) k id.
Proof.
  intros HD. split.
  - intros [Hk Hafter] Hpath. apply Hafter. by apply rtc_ref_step_kept.
  - intros Hk. split.
    + intros (d & Hd & Hpath). apply Hk. eapply rtc_r; [exact Hpath|].
      by apply HD.
    + intros Hpath. by apply Hk, (rtc_ref_step_without_rows D).
Qed.

Lemma remove_run id uid s t :
  findOne id uid s = Some t ->
  exists s',
    remove id uid s = Ret tt s' [] /\ nextId s' = nextId s /\
    (forall k tk, tasks s' !! k = Some tk <->
       tasks s !! k = Some tk /\ ~ rtc (ref_step s) k id) /\
    (forall e, e ∈ blocking s' <->
       e ∈ blocking s /\ ~ rtc (ref_step s) e.1 id /\ ~ rtc (ref_step s) e.2 id).
Proof.
  intros Ht. unfold remove. rewrite bind_run, findOneOrThrow_run, Ht.
  cbn [prefix_events app].
  destruct (isSome (recurrencePattern t) && negb (isSome (parentRecurrencyId t)))
    eqn:Etemplate.
  - unfold deleteRecurringTask. rewrite !bind_run. cbn [get prefix_events].
    rewrite Ht, Etemplate.
    cbn [when delete_where remove_row delete_rows prefix_events app].
    set (D := dom (filter (fun kt : Z * Task =>
                             opt_eqb (parentRecurrencyId kt.2) id = true)
                          (tasks s))).
    assert (forall d, d ∈ D -> ref_step s d id) as HD.
    { intros d [td [Hd HP]%map_lookup_filter_Some]%elem_of_dom.
      exists td. split; [done|]. right. by apply opt_eqb_true. }
    eexists. split; [reflexivity|]. split; [done|]. split.
    + intros k tk. rewrite lookup_without_rows, lookup_without_rows.
      rewrite depends_on_singleton, <- (depends_on_after D s id k HD). tauto.
    + intros e. rewrite !elem_of_blocking_without_rows.
      rewrite !depends_on_singleton.
      rewrite <- (depends_on_after D s id e.1 HD).
      rewrite <- (depends_on_after D s id e.2 HD). tauto.
  - cbn [remove_row delete_rows]. eexists. split; [reflexivity|].
    split; [done|]. split.
    + intros k tk. by rewrite lookup_without_rows, depends_on_singleton.
    + intros e. by rewrite elem_of_blocking_without_rows, !depends_on_singleton.
Qed.

(** X19. Removing a task: [remove] throws NotFound, writing nothing, for
    a task that is missing or belongs to someone else.  For a task of the
    caller it returns and the delete cascades along the two foreign keys
    of the entity: precisely the rows from which no chain of
    [parentTaskId] and [parentRecurrencyId] references leads to the task
    stay, as they were, so the task, its children and their descendants
    and, for a recurring template, its instances are gone; precisely the
    blocking edges between rows that stay are kept.  The task is then not
    found, it is in no [blockedBy] list, and it has no instances. *)
Theorem remove_spec (id uid : Z) (s : Store) :
  (findOne id uid s = None -> remove id uid s = Raise NotFound s []) /\
  (forall t, findOne id uid s = Some t ->
     exists s',
       remove id uid s = Ret tt s' [] /\
       findOneOrThrow id uid s' = Raise NotFound s' [] /\
       nextId s' = nextId s /\
       (forall k tk,
          tasks s' !! k = Some tk <->
          tasks s !! k = Some tk /\ ~ rtc (ref_step s) k id) /\
       (forall e,
          e ∈ blocking s' <->
          e ∈ blocking s /\
          ~ rtc (ref_step s) e.1 id /\ ~ rtc (ref_step s) e.2 id) /\
       (forall b k tk, (k, tk) ∈ blockedBy s' b -> k <> id /\ b <> id) /\
       getTaskInstances id uid s' = Ret [] s' []).
Proof.
  split.
  { intros Hnone. unfold remove. by rewrite bind_run, findOneOrThrow_run, Hnone. }
  intros t Ht.
  destruct (remove_run id uid s t Ht) as (s' & Hrun & Hnext & Hrows & Hedges).
  exists s'. split; [done|]. split.
  { rewrite findOneOrThrow_run. unfold findOne.
    destruct (tasks s' !! id) as [t'|] eqn:Hid; [|done].
    apply Hrows in Hid as [_ Hid]. by destruct Hid. }
  split; [done|]. split; [done|]. split; [done|]. split.
  - intros b k tk [Hin Hk]%elem_of_blockedBy.
    apply Hedges in Hin as (_ & H1 & H2). cbn [fst snd] in H1, H2.
    split; intros ->; [by apply H1|by apply H2].
  - rewrite getTaskInstances_run. f_equal.
    apply by_scheduledTime_nil, find_where_nil. intros k tk Hk.
    apply Hrows in Hk as [Hk Hnot].
    apply andb_false_iff. left. apply not_true_iff_false.
    rewrite opt_eqb_true. intros Hprid. apply Hnot.
    apply rtc_once. exists tk. by split; [|right].
Qed.

(** Removing the parent P of the store [store_PC] takes its child C with
    it. *)
Example remove_cascades :
  remove 1 7 store_PC = Ret tt (store_of [] [] 3) [].
Proof. by vm_compute. Qed.

(** ** Updating the schedule of a template *)

(** The rows the loop of the generator adds have new keys and are
    incomplete instances of the template. *)
Lemma generateLoop_new_rows fuel pid R p bufferDate :
  recurrencePattern R = Some p ->
  forall next s s' ev,
    ids_fresh s ->
    generateLoop fuel pid R bufferDate next s = Ret tt s' ev ->
    forall k t, tasks s' !! k = Some t -> tasks s !! k = None ->
      nextId s <= k /\ parentRecurrencyId t = Some pid /\
      completed t = false /\ userId t = userId R.
Proof.
  intros Hp. induction fuel as [|fuel IH]; intros next s s' ev Hfresh; [done|].
  rewrite (generateLoop_S _ _ _ _ _ _ p) by done.
  assert (Ret tt s [] = Ret tt s' ev ->
          forall k t, tasks s' !! k = Some t -> tasks s !! k = None ->
            nextId s <= k /\ parentRecurrencyId t = Some pid /\
            completed t = false /\ userId t = userId R) as Hstop.
  { intros [= <- <-] k t Hk Hn. congruence. }
  destruct (next <=? bufferDate); [|done].
  destruct (afterEndDate R next); [done|].
  destruct (find_where _ s) as [|kt l] eqn:Ef; [|by apply IH].
  destruct (generateLoop fuel pid R bufferDate _ _) as [[] s1 ev1| |] eqn:Eloop;
    [|done..].
  intros [= <- <-] k t Hk Hnone.
  pose proof (IH _ _ _ _ (ids_fresh_with_new _ _ Hfresh) Eloop k t Hk) as Hnew.
  cbn [with_new tasks nextId] in Hnew.
  destruct (decide (k = nextId s)) as [->|Hne].
  - apply (generateLoop_instances _ _ _ _ _ Hp) in Eloop
      as (_ & _ & _ & _ & _ & Hsub & _); [|by apply ids_fresh_with_new].
    assert (tasks (with_new (newInstance pid R next) s) !! nextId s
            = Some (newInstance pid R next)) as Hrow by apply lookup_insert_eq.
    eapply lookup_weaken in Hrow; [|exact Hsub].
    assert (t = newInstance pid R next) as -> by congruence.
    by repeat split.
  - rewrite lookup_insert_ne in Hnew by done.
    destruct (Hnew Hnone) as (? & ? & ? & ?). repeat split; try done. lia.
Qed.

(** The generator as a whole: the rows that were there stay, the rows it
    adds have new keys and are incomplete instances of the template. *)
Lemma generateInstancesForOptimalBuffer_rows fuel now pid R seed s s' ev :
  ids_fresh s ->
  generateInstancesForOptimalBuffer fuel now pid R seed s = Ret tt s' ev ->
  ids_fresh s' /\ tasks s ⊆ tasks s' /\ blocking s' = blocking s /\
  Forall reminderEvent ev /\
  forall k t, tasks s' !! k = Some t -> tasks s !! k = None ->
    nextId s <= k /\ parentRecurrencyId t = Some pid /\
    completed t = false /\ userId t = userId R.
Proof.
  intros Hfresh. unfold generateInstancesForOptimalBuffer.
  assert (Ret tt s [] = Ret tt s' ev ->
          ids_fresh s' /\ tasks s ⊆ tasks s' /\ blocking s' = blocking s /\
          Forall reminderEvent ev /\
          forall k t, tasks s' !! k = Some t -> tasks s !! k = None ->
            nextId s <= k /\ parentRecurrencyId t = Some pid /\
            completed t = false /\ userId t = userId R) as Hstop.
  { intros [= <- <-]. repeat split; auto; congruence. }
  destruct (match recurrenceEndDate R with Some e => e <? now | None => false end);
    [done|].
  rewrite bind_run. cbn [get prefix_events].
  destruct (recurrencePattern R) as [p|] eqn:Hp.
  - destruct (match lastInstanceTime pid s with Some t => Some t | None => seed end)
      as [t|]; [|done].
    rewrite bind_run, getNextScheduledTime_run, !prefix_events_nil.
    intros Hloop.
    destruct (generateLoop_instances _ _ _ _ _ Hp _ _ _ _ Hfresh Hloop)
      as (? & ? & _ & _ & _ & ? & ?).
    do 4 (split; [done|]).
    by apply (generateLoop_new_rows _ _ _ _ _ Hp _ _ _ _ Hfresh Hloop).
  - by destruct (match lastInstanceTime pid s with Some t => Some t | None => seed end).
Qed.

Lemma ids_fresh_without_rows D s : ids_fresh s -> ids_fresh (without_rows D s).
Proof.
  intros Hfresh k t [Hk _]%lookup_without_rows. exact (Hfresh k t Hk).
Qed.

Lemma ids_fresh_with_task id t t0 s :
  ids_fresh s -> tasks s !! id = Some t0 -> ids_fresh (with_task id t s).
Proof.
  intros Hfresh Hid k tk Hk. cbn [with_task tasks nextId] in *.
  destruct (decide (k = id)) as [->|Hne]; [exact (Hfresh id t0 Hid)|].
  rewrite lookup_insert_ne in Hk by done. exact (Hfresh k tk Hk).
Qed.

(** X20. Updating a recurring template through [updateRecurringTask]: the
    row of the template, which has no parent, takes the fields of the
    request.  When the request changes no field of the schedule, nothing
    else happens.  When it does, the incomplete instances of the template
    that are due after now are deleted and the delete cascades: precisely
    the rows that are such an instance or depend on one through
    [parentTaskId] and [parentRecurrencyId] references are gone, every
    other row stays as it was, precisely the blocking edges between rows
    that stay are kept, the rows that are new have new keys and are
    incomplete instances of the template, and the only events are reminder
    schedulings. *)
Theorem updateRecurringTask_replaces (fuel : nat) (now id uid : Z)
    (dto : UpdateTaskDto) (s s' : Store) (task r : Task) (ev : list Event) :
  ids_fresh s ->
  tasks s !! id = Some task -> userId task = uid ->
  isSome (recurrencePattern task) = true -> parentRecurrencyId task = None ->
  parentTaskId task = None ->
  updateRecurringTask fuel now id dto uid s = Ret r s' ev ->
  tasks s' !! id = Some (assign_dto dto task) /\
  if scheduleFieldsUpdated dto then
    let gone := cascades_from s (fun _ t => futureInstance now id t) in
    Forall reminderEvent ev /\
    (forall k t, tasks s !! k = Some t -> k <> id ->
       (gone k -> tasks s' !! k = None) /\
       (~ gone k -> tasks s' !! k = Some t)) /\
    (forall e, e ∈ blocking s' <-> e ∈ blocking s /\ ~ gone e.1 /\ ~ gone e.2) /\
    (forall k t, tasks s' !! k = Some t -> tasks s !! k = None ->
       nextId s <= k /\ parentRecurrencyId t = Some id /\ completed t = false)
  else s' = with_task id (assign_dto dto task) s /\ ev = [].
Proof.
  intros Hfresh Hid Hu Hpat Hprid Hpar Hrun. unfold updateRecurringTask in Hrun.
  peel_get Hrun. rewrite (proj2 (findOne_Some id uid s task)) in Hrun by done.
  cbv zeta in Hrun. fold (scheduleFieldsUpdated dto) in Hrun.
  assert (isSome (recurrencePattern
                    (set_recurrenceEndDate (u_recurrenceEndDate dto)
                       (assign_dto dto task))) = true) as Hpat'.
  { cbn [set_recurrenceEndDate assign_dto recurrencePattern].
    by destruct (u_recurrencePattern dto). }
  rewrite Hpat' in Hrun. rewrite Hpat, Hprid in Hrun.
  cbn [set_recurrenceEndDate assign_dto parentRecurrencyId] in Hrun.
  rewrite Hprid in Hrun. cbn [isSome negb andb] in Hrun.
  destruct (scheduleFieldsUpdated dto) eqn:Esched; cbn [when] in Hrun.
  - peel Hrun Hdel. unfold delete_where, delete_rows in Hdel.
    injection Hdel as <- <- <-.
    peel Hrun Hsave. injection Hsave as <- <- <-.
    peel Hrun Hgen. injection Hrun as <- <- <-.
    match type of Hgen with _ = Ret ?u _ _ => destruct u end.
    fold (futureInstance now id) in Hgen.
    set (D := dom (filter (fun kt : Z * Task =>
                             (fun _ t => futureInstance now id t) kt.1 kt.2
                             = true) (tasks s))).
    change (without_rows _ s) with (without_rows D s) in Hgen.
    set (s1 := without_rows D s) in Hgen.
    change (mkStore (<[id:=assign_dto dto task]> _) _ _)
      with (with_task id (assign_dto dto task) s1) in Hgen.
    cbv zeta.
    set (gone := cascades_from s (fun _ t => futureInstance now id t)).
    assert (forall k, depends_on s D k <-> gone k) as Hgone.
    { intros k. apply (depends_on_where s (fun _ t => futureInstance now id t)). }
    assert (ids_fresh s1) as Hf1 by by apply ids_fresh_without_rows.
    assert (forall k t, tasks s1 !! k = Some t <->
              tasks s !! k = Some t /\ ~ gone k) as Hs1.
    { intros k t. unfold s1. by rewrite lookup_without_rows, Hgone. }
    assert (tasks s1 !! id = Some task) as Hid1.
    { apply Hs1. split; [done|]. intros (d & td & Hd & Hfut & Hpath).
      inversion Hpath as [|? y ? (t' & Ht' & Href) _]; subst.
      - unfold futureInstance in Hfut.
        assert (td = task) as -> by congruence. by rewrite Hprid in Hfut.
      - assert (t' = task) as -> by congruence.
        destruct Href; congruence. }
    apply generateInstancesForOptimalBuffer_rows in Hgen
      as (_ & Hsub & Hb & Hev & Hnew).
    2:{ by apply (ids_fresh_with_task id _ task s1). }
    cbn [with_task tasks blocking nextId] in Hsub, Hb, Hnew.
    split.
    { eapply lookup_weaken; [|exact Hsub]. apply lookup_insert_eq. }
    split; [by rewrite !app_nil_r|]. split; [|split].
    + intros k t Hk Hne. split.
      * intros Hk'. destruct (tasks s0 !! k) as [t'|] eqn:Ek'; [|done]. exfalso.
        destruct (Hnew k t' Ek') as (Hge & _).
        { rewrite lookup_insert_ne by done.
          destruct (tasks s1 !! k) as [t1|] eqn:E1; [|done].
          by apply Hs1 in E1 as [_ Hnot]. }
        specialize (Hfresh _ _ Hk). unfold s1 in Hge.
        cbn [without_rows nextId] in Hge. simpl in Hfresh. lia.
      * intros Hk'. eapply lookup_weaken; [|exact Hsub].
        rewrite lookup_insert_ne by done. by apply Hs1.
    + intros e. rewrite Hb. unfold s1.
      by rewrite elem_of_blocking_without_rows, !Hgone.
    + intros k t Hk Hnone.
      destruct (Hnew k t Hk) as (? & ? & ? & _); [|done].
      rewrite lookup_insert_ne by congruence.
      destruct (tasks s1 !! k) as [t1|] eqn:E1; [|done].
      apply Hs1 in E1 as [E1 _]. congruence.
  - peel_readonly Hrun. peel Hrun Hsave. injection Hsave as <- <- <-.
    peel_readonly Hrun. injection Hrun as <- <- <-.
    split; [apply lookup_insert_eq|]. by repeat split.
Qed.

Lemma updateRecurringTask_replaces_witness :
  tasks store_W_rescheduled !! 1
  = Some (assign_dto (rescheduleUpdate (day 101 + hours 9))
            (templateTask 7 "W" (day 100 + hours 9) WEEKLY 1 None)) /\
  if scheduleFieldsUpdated (rescheduleUpdate (day 101 + hours 9)) then
    let gone :=
      cascades_from store_W_generated
        (fun _ t => futureInstance (day 100 + hours 9) 1 t) in
    Forall reminderEvent [ScheduleReminders 4 (day 108 + hours 9)] /\
    (forall k t, tasks store_W_generated !! k = Some t -> k <> 1 ->
       (gone k -> tasks store_W_rescheduled !! k = None) /\
       (~ gone k -> tasks store_W_rescheduled !! k = Some t)) /\
    (forall e, e ∈ blocking store_W_rescheduled <->
       e ∈ blocking store_W_generated /\ ~ gone e.1 /\ ~ gone e.2) /\
    (forall k t, tasks store_W_rescheduled !! k = Some t ->
       tasks store_W_generated !! k = None ->
       nextId store_W_generated <= k /\ parentRecurrencyId t = Some 1 /\
       completed t = false)
  else store_W_rescheduled
       = with_task 1 (assign_dto (rescheduleUpdate (day 101 + hours 9))
                        (templateTask 7 "W" (day 100 + hours 9) WEEKLY 1 None))
           store_W_generated /\
       [ScheduleReminders 4 (day 108 + hours 9)] = [].
Proof.
  apply (updateRecurringTask_replaces 5 (day 100 + hours 9) 1 7
           (rescheduleUpdate (day 101 + hours 9))
           store_W_generated store_W_rescheduled
           (templateTask 7 "W" (day 100 + hours 9) WEEKLY 1 None)
           (templateTask 7 "W" (day 101 + hours 9) WEEKLY 1 None)
           [ScheduleReminders 4 (day 108 + hours 9)]).
  - by_decision.
  - reflexivity.
  - reflexivity.
  - reflexivity.
  - reflexivity.
  - reflexivity.
  - by vm_compute.
Defined.

(** The delete of the future instances cascades: the task K that was
    moved under the future instance 2 of the template W, and the blocking
    edge at K, go with the instance when the template is rescheduled. *)
Example updateRecurringTask_cascades :
  let s := store_of
             [(1, templateTask 7 "W" (day 100 + hours 9) WEEKLY 1 None);
              (2, newInstance 1 (templateTask 7 "W" (day 100 + hours 9) WEEKLY 1 None)
                    (day 107 + hours 9));
              (3, plainTask 7 "K" (day 101) false (Some 2));
              (4, plainTask 7 "L" (day 101) false None)] [(3, 4)] 5 in
  TasksService_moveTask 5 3 (Some 2) 7
    (with_task 3 (plainTask 7 "K" (day 101) false None) s)
  = Ret (plainTask 7 "K" (day 101) false (Some 2)) s [] /\
  match updateRecurringTask 5 (day 100 + hours 9) 1
          (rescheduleUpdate (day 101 + hours 9)) 7 s with
  | Ret _ s' _ =>
      tasks s' !! 2 = None /\ tasks s' !! 3 = None /\
      tasks s' !! 4 = Some (plainTask 7 "L" (day 101) false None) /\
      blocking s' = []
  | _ => False
  end.
Proof. by vm_compute. Qed.

(** ** The maintenance jobs *)

Lemma find_where_frame P s s' :
  tasks s ⊆ tasks s' ->
  (forall k t, tasks s' !! k = Some t -> tasks s !! k = None -> P k t = false) ->
  find_where P s' ≡ₚ find_where P s.
Proof.
  intros Hsub Hnew. apply NoDup_Permutation; [apply NoDup_find_where..|].
  intros [k t]. rewrite !elem_of_find_where. split.
  - intros [Hk HP]. split; [|done]. destruct (tasks s !! k) as [t0|] eqn:E.
    + eapply lookup_weaken in E as E'; [|exact Hsub]. congruence.
    + by rewrite (Hnew _ _ Hk E) in HP.
  - intros [Hk HP]. split; [|done]. by eapply lookup_weaken.
Qed.

Lemma needsMoreInstances_frame now pid R s s' :
  tasks s ⊆ tasks s' ->
  (forall k t, tasks s' !! k = Some t -> tasks s !! k = None ->
               parentRecurrencyId t <> Some pid) ->
  needsMoreInstances now pid R s' = needsMoreInstances now pid R s.
Proof.
  intros Hsub Hnew. unfold needsMoreInstances, countUpcomingInstances.
  assert (find_where (fun _ t => opt_eqb (parentRecurrencyId t) pid
                                 && negb (completed t)
                                 && (now <? scheduledTime t)) s'
          ≡ₚ find_where (fun _ t => opt_eqb (parentRecurrencyId t) pid
                                    && negb (completed t)
                                    && (now <? scheduledTime t)) s) as Hperm.
  { apply find_where_frame; [done|]. intros k t Hk Hn.
    destruct (opt_eqb (parentRecurrencyId t) pid) eqn:E; [|done].
    apply opt_eqb_true in E. by destruct (Hnew _ _ Hk Hn). }
  by rewrite Hperm.
Qed.

Lemma generateLoop_nextId fuel pid R p bufferDate :
  recurrencePattern R = Some p ->
  forall next s s' ev,
    generateLoop fuel pid R bufferDate next s = Ret tt s' ev ->
    nextId s <= nextId s'.
Proof.
  intros Hp. induction fuel as [|fuel IH]; intros next s s' ev; [done|].
  rewrite (generateLoop_S _ _ _ _ _ _ p) by done.
  assert (Ret tt s [] = Ret tt s' ev -> nextId s <= nextId s') as Hstop.
  { intros [= <- <-]. lia. }
  destruct (next <=? bufferDate); [|done].
  destruct (afterEndDate R next); [done|].
  destruct (find_where _ s) as [|kt l] eqn:Ef; [|by apply IH].
  destruct (generateLoop fuel pid R bufferDate _ _) as [[] s1 ev1| |] eqn:Eloop;
    [|done..].
  intros [= <- <-]. apply IH in Eloop. cbn [with_new nextId] in Eloop. lia.
Qed.

Lemma generateInstancesForOptimalBuffer_nextId fuel now pid R seed s s' ev :
  generateInstancesForOptimalBuffer fuel now pid R seed s = Ret tt s' ev ->
  nextId s <= nextId s'.
Proof.
  unfold generateInstancesForOptimalBuffer.
  assert (Ret tt s [] = Ret tt s' ev -> nextId s <= nextId s') as Hstop.
  { intros [= <- <-]. lia. }
  destruct (match recurrenceEndDate R with Some e => e <? now | None => false end);
    [done|].
  rewrite bind_run. cbn [get prefix_events].
  destruct (recurrencePattern R) as [p|] eqn:Hp.
  - destruct (match lastInstanceTime pid s with Some t => Some t | None => seed end)
      as [t|]; [|done].
    rewrite bind_run, getNextScheduledTime_run, !prefix_events_nil.
    by apply (generateLoop_nextId _ _ _ _ _ Hp).
  - by destruct (match lastInstanceTime pid s with Some t => Some t | None => seed end).
Qed.

(** What the loop of the maintenance jobs adds: incomplete instances,
    under new keys, of templates of the list that needed more instances
    when the loop started. *)
Lemma maintainAll_rows fuel now :
  forall l s s' ev,
    ids_fresh s -> NoDup l.*1 ->
    maintainAll fuel now l s = Ret tt s' ev ->
    ids_fresh s' /\ tasks s ⊆ tasks s' /\ blocking s' = blocking s /\
    Forall reminderEvent ev /\
    forall k t, tasks s' !! k = Some t -> tasks s !! k = None ->
      nextId s <= k /\ completed t = false /\
      exists pid R, (pid, R) ∈ l /\ parentRecurrencyId t = Some pid /\
                    userId t = userId R /\
                    needsMoreInstances now pid R s = true.
Proof.
  induction l as [|[pid R] l IH]; intros s s' ev Hfresh Hnd Hrun.
  { injection Hrun as <- <-. do 4 (split; [done|]). congruence. }
  rewrite fmap_cons in Hnd. apply NoDup_cons in Hnd as [Hpid Hnd].
  cbn [maintainAll fst snd] in Hrun, Hpid.
  peel_get Hrun. peel Hrun Hgen.
  assert (ids_fresh s0 /\ tasks s ⊆ tasks s0 /\ blocking s0 = blocking s /\
          Forall reminderEvent ev /\
          forall k t, tasks s0 !! k = Some t -> tasks s !! k = None ->
            nextId s <= k /\ parentRecurrencyId t = Some pid /\
            completed t = false /\ userId t = userId R /\
            needsMoreInstances now pid R s = true)
    as (Hf0 & Hsub0 & Hb0 & Hev0 & Hnew0).
  { destruct (needsMoreInstances now pid R s) eqn:Eneeds; cbn [when] in Hgen.
    - destruct a.
      apply generateInstancesForOptimalBuffer_rows in Hgen
        as (? & ? & ? & ? & Hnew); [|done].
      do 4 (split; [assumption|]). intros k t Hk Hn.
      by destruct (Hnew k t Hk Hn) as (? & ? & ? & ?).
    - injection Hgen as <- <- <-. do 4 (split; [done|]). congruence. }
  destruct (IH _ _ _ Hf0 Hnd Hrun) as (Hf' & Hsub' & Hb' & Hev' & Hnew').
  split; [assumption|]. split; [by etrans|]. split; [congruence|].
  split; [cbn [app]; apply Forall_app; by split|].
  intros k t Hk Hn.
  destruct (tasks s0 !! k) as [t0|] eqn:E0.
  - eapply lookup_weaken in E0 as E0'; [|exact Hsub']. rewrite Hk in E0'.
    injection E0' as <-.
    destruct (Hnew0 k t E0 Hn) as (? & ? & ? & ? & ?).
    do 2 (split; [done|]). exists pid, R. split; [left|done].
  - destruct (Hnew' k t Hk E0) as (Hge & Hc & pid' & R' & Hin & Hp' & Hu' & Hneeds).
    split.
    { assert (nextId s <= nextId s0); [|lia].
      destruct (needsMoreInstances now pid R s); cbn [when] in Hgen.
      - destruct a. by apply generateInstancesForOptimalBuffer_nextId in Hgen.
      - by injection Hgen as <- <- <-. }
    split; [done|]. exists pid', R'. split; [by right|]. do 2 (split; [done|]).
    rewrite <- Hneeds. symmetry. apply needsMoreInstances_frame; [done|].
    intros k0 t1 Hk0 Hn0 Heq.
    destruct (Hnew0 k0 t1 Hk0 Hn0) as (_ & Hp0 & _).
    assert (pid' = pid) as -> by congruence.
    apply Hpid. apply list_elem_of_fmap. by exists (pid, R').
Qed.

(** A query returns no key twice. *)
Lemma NoDup_fst_find_where P s : NoDup (find_where P s).*1.
Proof.
  unfold find_where.
  pose proof (NoDup_fst_map_to_list (tasks s)) as Hnd.
  induction (map_to_list (tasks s)) as [|kt l IH]; [constructor|].
  rewrite fmap_cons in Hnd. apply NoDup_cons in Hnd as [Hkt Hnd].
  cbn [List.filter]. destruct (P kt.1 kt.2); [|by apply IH].
  rewrite fmap_cons. apply NoDup_cons. split; [|by apply IH].
  intros [[k t] [Hk Hin]]%list_elem_of_fmap. apply Hkt.
  apply list_elem_of_fmap. exists (k, t). split; [done|].
  by apply elem_of_List_filter in Hin as [Hin _].
Qed.

(** The loop of the maintenance jobs does not throw on templates that
    have a recurrence pattern. *)
Lemma never_throws_maintainAll fuel now :
  forall l, (forall pid R, (pid, R) ∈ l -> isSome (recurrencePattern R) = true) ->
            never_throws (maintainAll fuel now l).
Proof.
  induction l as [|[pid R] l IH]; intros Hl; unfold never_throws;
    cbn [maintainAll fst snd].
  { apply quiet_ret. }
  apply quiet_bind; [apply quiet_get|intros s].
  apply quiet_bind.
  - apply quiet_when.
    destruct (recurrencePattern R) as [p|] eqn:Hp.
    + by apply (never_throws_generateInstancesForOptimalBuffer _ _ _ _ p).
    + specialize (Hl pid R (list_elem_of_here _ _)). by rewrite Hp in Hl.
  - intros _. apply IH. intros pid' R' Hin. apply (Hl pid' R'). by right.
Qed.

(** X21. The maintenance jobs only add instances that were missing: when
    [dailyMaintenance] returns, the rows that were there and the blocking
    edges are as before, the only events are reminder schedulings, and
    every row that is new has a new key and is an incomplete instance of
    a template of the store it started in (a row with a recurrence
    pattern that is not completed and is no instance itself), of the same
    user, that had fewer upcoming instances than its minimum buffer when
    the job started.  The catch of the job is then not what ended it: the
    loop itself returned.  [hourlyBufferCheck] behaves as
    [dailyMaintenance] does. *)
Theorem dailyMaintenance_spec (fuel : nat) (now : Z) (s s' : Store)
    (ev : list Event) :
  ids_fresh s ->
  dailyMaintenance fuel now s = Ret tt s' ev ->
  hourlyBufferCheck fuel now s = Ret tt s' ev /\
  maintainAll fuel now (recurringTemplates s) s = Ret tt s' ev /\
  ids_fresh s' /\ tasks s ⊆ tasks s' /\ blocking s' = blocking s /\
  Forall reminderEvent ev /\
  forall k t, tasks s' !! k = Some t -> tasks s !! k = None ->
    nextId s <= k /\ completed t = false /\
    exists pid R,
      tasks s !! pid = Some R /\ isSome (recurrencePattern R) = true /\
      completed R = false /\ parentRecurrencyId R = None /\
      parentRecurrencyId t = Some pid /\ userId t = userId R /\
      needsMoreInstances now pid R s = true.
Proof.
  intros Hfresh Hrun. split; [exact Hrun|].
  unfold dailyMaintenance, try_catch in Hrun.
  rewrite bind_run in Hrun. cbn [get prefix_events] in Hrun.
  assert (forall pid R, (pid, R) ∈ recurringTemplates s ->
            tasks s !! pid = Some R /\ isSome (recurrencePattern R) = true /\
            completed R = false /\ parentRecurrencyId R = None) as Htpl.
  { intros pid R [Hk HP]%elem_of_find_where.
    apply andb_true_iff in HP as [[Hp Hc]%andb_true_iff Hi].
    apply negb_true_iff in Hc, Hi.
    repeat split; try done. by destruct (parentRecurrencyId R). }
  pose proof (never_throws_maintainAll fuel now (recurringTemplates s)
                (fun pid R Hin => proj1 (proj2 (Htpl pid R Hin))) s) as Hquiet.
  destruct (maintainAll fuel now (recurringTemplates s) s)
    as [[] s1 ev1|e s1 ev1|] eqn:Eloop; [|by destruct Hquiet|done].
  rewrite prefix_events_nil in Hrun. injection Hrun as <- <-.
  split; [done|].
  assert (NoDup (recurringTemplates s).*1) as Hnd.
  { apply NoDup_fst_find_where. }
  destruct (maintainAll_rows _ _ _ _ _ _ Hfresh Hnd Eloop)
    as (Hf' & Hsub & Hb & Hev & Hnew).
  do 4 (split; [assumption|]). intros k t Hk Hn.
  destruct (Hnew k t Hk Hn) as (? & ? & pid & R & Hin & ? & ? & ?).
  destruct (Htpl pid R Hin) as (? & ? & ? & ?).
  do 2 (split; [done|]). by exists pid, R.
Qed.

Lemma dailyMaintenance_spec_witness :
  hourlyBufferCheck 5 (day 100 + hours 9) store_W
  = Ret tt store_W_generated
      [ScheduleReminders 2 (day 107 + hours 9);
       ScheduleReminders 3 (day 114 + hours 9)] /\
  maintainAll 5 (day 100 + hours 9) (recurringTemplates store_W) store_W
  = Ret tt store_W_generated
      [ScheduleReminders 2 (day 107 + hours 9);
       ScheduleReminders 3 (day 114 + hours 9)] /\
  ids_fresh store_W_generated /\
  tasks store_W ⊆ tasks store_W_generated /\
  blocking store_W_generated = blocking store_W /\
  Forall reminderEvent
    [ScheduleReminders 2 (day 107 + hours 9);
     ScheduleReminders 3 (day 114 + hours 9)] /\
  forall k t,
    tasks store_W_generated !! k = Some t -> tasks store_W !! k = None ->
    nextId store_W <= k /\ completed t = false /\
    exists pid R,
      tasks store_W !! pid = Some R /\ isSome (recurrencePattern R) = true /\
      completed R = false /\ parentRecurrencyId R = None /\
      parentRecurrencyId t = Some pid /\ userId t = userId R /\
      needsMoreInstances (day 100 + hours 9) pid R store_W = true.
Proof.
  apply (dailyMaintenance_spec 5 (day 100 + hours 9) store_W store_W_generated).
  - by_decision.
  - by vm_compute.
Defined.

(** ** The list queries of the orchestrator *)

(** X22. The list queries read only and return each row once, by
    ascending scheduled time: [findAll] the tasks [findOne] finds for the
    user, [findByStatus] those of them with the given completion flag, so
    that the completed and the incomplete tasks together are the tasks of
    [findAll]; [getRecurringTaskInstances] the tasks of the user whose
    template is the given id. *)
Theorem list_queries_spec (pid uid : Z) (s : Store) :
  exists all done todo instances,
    findAll uid s = Ret all s [] /\
    findByStatus true uid s = Ret done s [] /\
    findByStatus false uid s = Ret todo s [] /\
    getRecurringTaskInstances pid uid s = Ret instances s [] /\
    Forall (StronglySorted earlier) [all; done; todo; instances] /\
    Forall NoDup [all; done; todo; instances] /\
    (forall k t, (k, t) ∈ all <-> findOne k uid s = Some t) /\
    (forall k t, (k, t) ∈ done <-> (k, t) ∈ all /\ completed t = true) /\
    (forall k t, (k, t) ∈ todo <-> (k, t) ∈ all /\ completed t = false) /\
    (forall k t, (k, t) ∈ instances <->
                 (k, t) ∈ all /\ parentRecurrencyId t = Some pid) /\
    all ≡ₚ done ++ todo.
Proof.
  do 4 eexists. do 4 (split; [reflexivity|]).
  split; [repeat constructor; apply by_scheduledTime_sorted|].
  assert (forall P, NoDup (by_scheduledTime (find_where P s))) as Hnd.
  { intros P. rewrite by_scheduledTime_Permutation. apply NoDup_find_where. }
  split; [repeat constructor; apply Hnd|].
  assert (forall k t,
    (k, t) ∈ by_scheduledTime (find_where (fun _ t => userId t =? uid) s)
    <-> findOne k uid s = Some t) as Hall.
  { intros k t. rewrite elem_of_by_scheduledTime, elem_of_find_where.
    rewrite findOne_Some, Z.eqb_eq. tauto. }
  assert (forall c k t,
    (k, t) ∈ by_scheduledTime
      (find_where (fun _ t => Bool.eqb (completed t) c && (userId t =? uid)) s)
    <-> (k, t) ∈ by_scheduledTime (find_where (fun _ t => userId t =? uid) s)
        /\ completed t = c) as Hst.
  { intros c k t. rewrite !elem_of_by_scheduledTime, !elem_of_find_where.
    rewrite andb_true_iff, Bool.eqb_true_iff. tauto. }
  split; [exact Hall|]. do 2 (split; [apply Hst|]).
  split.
  { intros k t. unfold getRecurringTaskInstances.
    rewrite !elem_of_by_scheduledTime, !elem_of_find_where.
    rewrite andb_true_iff, opt_eqb_true. tauto. }
  apply NoDup_Permutation; [apply Hnd|..].
  - apply NoDup_app. split; [apply Hnd|]. split; [|apply Hnd].
    intros [k t] [_ H1]%Hst [_ H2]%Hst. congruence.
  - intros [k t]. rewrite elem_of_app, !Hst.
    destruct (completed t); intuition congruence.
Qed.

(** ** The task tree *)

Lemma for_each_Ret {A B} (f : A -> M B) (s : Store) :
  forall xs,
    (forall x, x ∈ xs -> exists y, f x s = Ret y s []) ->
    exists ys, for_each f xs s = Ret ys s [].
Proof.
  induction xs as [|x xs IH]; intros Hf; cbn [for_each].
  { by exists []. }
  destruct (Hf x) as [y Hy]; [left|].
  destruct IH as [ys Hys]; [intros x' Hx'; apply Hf; by right|].
  exists (y :: ys). by rewrite bind_run, Hy, bind_run, Hys.
Qed.

Lemma for_each_inv {A B} (f : A -> M B) (Q : A -> B -> Prop) (s : Store) :
  forall xs ys s' ev,
    (forall x y s' ev, x ∈ xs -> f x s = Ret y s' ev ->
                       s' = s /\ ev = [] /\ Q x y) ->
    for_each f xs s = Ret ys s' ev ->
    s' = s /\ ev = [] /\ Forall2 Q xs ys.
Proof.
  induction xs as [|x xs IH]; intros ys s' ev Hf Hrun; cbn [for_each] in Hrun.
  { by injection Hrun as <- <- <-. }
  peel Hrun Hx. apply Hf in Hx as (-> & -> & HQ); [|left].
  peel Hrun Hxs. apply IH in Hxs as (-> & -> & HF);
    [|intros x' y' s1' ev1' Hx'; apply Hf; by right].
  injection Hrun as <- <- <-. do 2 (split; [done|]). by constructor.
Qed.

(** What [loadTaskChildren] returns is the tree of the task it was given,
    and it has read only. *)
Lemma loadTaskChildren_inv uid s fuel :
  forall task tree s' ev,
    loadTaskChildren fuel task uid s = Ret tree s' ev ->
    s' = s /\ ev = [] /\ tree_root tree = task /\ tree_of s uid tree.
Proof.
  induction fuel as [|fuel IH]; intros task tree s' ev Hrun; [done|].
  cbn [loadTaskChildren] in Hrun.
  peel Hrun Hch. injection Hch as <- <- <-.
  peel Hrun Hsub.
  apply (for_each_inv _ (fun x y => tree_root y = x /\ tree_of s uid y))
    in Hsub as (-> & -> & Hall).
  - injection Hrun as <- <- <-. do 2 (split; [done|]).
    split; [by destruct task|].
    constructor.
    + unfold getChildTasks. rewrite bind_run. cbn [get prefix_events ret app].
      do 2 f_equal. clear -Hall.
      induction Hall as [|x y xs ys [Hx _] _ IHall]; [done|].
      by rewrite fmap_cons, Hx, IHall.
    + clear -Hall. induction Hall as [|x y xs ys [_ Hy] _ IHall]; by constructor.
  - intros x y sx evx _ Hx. by apply IH in Hx as (-> & -> & ? & ?).
Qed.

(** A child task of a task of the user is one step of the ancestor walk
    away from it. *)
Lemma getChildTasks_parent_step s uid x tx c tc :
  findOne x uid s = Some tx ->
  tasks s !! c = Some tc -> parentTaskId tc = Some x -> userId tc = uid ->
  parent_step s uid c x.
Proof.
  intros [Hx _]%findOne_Some Hc Hp Hu. exists tc, tx.
  split; [by apply findOne_Some|]. unfold parentTask. by rewrite Hp, Hx.
Qed.

Lemma chain_acyclic_child s uid x c :
  parent_step s uid c x -> chain_acyclic s uid x -> chain_acyclic s uid c.
Proof.
  intros Hstep Hacyc y Hy Hcyc.
  inversion Hy as [|? z ? Hcz Hzy]; subst.
  - destruct (tc_parent_step_inv _ _ _ _ _ Hstep Hcyc) as [->|Hxc].
    + by apply (Hacyc y).
    + apply (Hacyc x); [done|]. by eapply tc_r.
  - rewrite (parent_step_fun _ _ _ _ _ Hcz Hstep) in Hzy. by apply (Hacyc y).
Qed.

(** Loading the children of a task returns once the fuel exceeds the
    number of tasks of the user that are not above the task. *)
Lemma loadTaskChildren_returns uid s fuel :
  forall (seen : gset Z) x tx,
    findOne x uid s = Some tx ->
    (forall a, a ∈ seen -> tc (parent_step s uid) x a) ->
    chain_acyclic s uid x ->
    (size (owned_ids s uid ∖ seen) < fuel)%nat ->
    exists tree, loadTaskChildren fuel (x, tx) uid s = Ret tree s [].
Proof.
  induction fuel as [|fuel IH]; intros seen x tx Hx Hseen Hacyc Hsize; [lia|].
  cbn [loadTaskChildren fst snd]. rewrite bind_run.
  unfold getChildTasks at 1. rewrite bind_run. cbn [get ret prefix_events app].
  assert (x ∉ seen) as Hnew.
  { intros Hin. apply (Hacyc x); [done|]. by apply Hseen. }
  destruct (for_each_Ret
              (fun child => loadTaskChildren fuel child uid) s
              (by_scheduledTime
                 (find_where (fun _ c => opt_eqb (parentTaskId c) x
                                         && (userId c =? uid)) s)))
    as [ys Hys].
  - intros [c tc]. rewrite elem_of_by_scheduledTime, elem_of_find_where.
    rewrite andb_true_iff, opt_eqb_true, Z.eqb_eq. intros (Hc & Hp & Hu).
    assert (parent_step s uid c x) as Hstep
      by by eapply getChildTasks_parent_step.
    apply (IH ({[x]} ∪ seen)).
    + by apply findOne_Some.
    + intros a [->%elem_of_singleton|Ha]%elem_of_union.
      * by apply tc_once.
      * eapply tc_l; [done|]. by apply Hseen.
    + by eapply chain_acyclic_child.
    + assert (owned_ids s uid ∖ ({[x]} ∪ seen) ⊂ owned_ids s uid ∖ seen) as Hsub.
      { assert (x ∈ owned_ids s uid) as Hown
          by (apply elem_of_owned_ids; rewrite Hx; eauto).
        split.
        - intros y [Hy Hn]%elem_of_difference. apply elem_of_difference.
          split; [done|]. intros ?. apply Hn, elem_of_union. by right.
        - intros Hsup. specialize (Hsup x). rewrite !elem_of_difference in Hsup.
          destruct Hsup as [_ Hn]; [done|]. apply Hn, elem_of_union. left.
          by apply elem_of_singleton. }
      apply subset_size in Hsub. lia.
  - rewrite bind_run, Hys. by eexists.
Qed.

Lemma root_no_parent_step s uid r tr y :
  findOne r uid s = Some tr -> parentTaskId tr = None ->
  ~ parent_step s uid r y.
Proof.
  intros Hr Hroot (t & p & Ht & Hp). unfold parentTask in Hp.
  assert (t = tr) as -> by congruence. by rewrite Hroot in Hp.
Qed.

Lemma chain_acyclic_root s uid r tr :
  findOne r uid s = Some tr -> parentTaskId tr = None ->
  chain_acyclic s uid r.
Proof.
  intros Hr Hroot y Hy Hcyc.
  inversion Hy as [|? z ? Hrz _]; subst.
  - inversion Hcyc as [? ? Hstep|? z ? Hstep _]; subst;
      by eapply root_no_parent_step.
  - by eapply root_no_parent_step.
Qed.

Lemma Forall2_fmap_eq {A B C} (f : A -> C) (g : B -> C) xs ys :
  Forall2 (fun x y => g y = f x) xs ys -> g <$> ys = f <$> xs.
Proof. induction 1 as [|x y xs ys Hxy _ IH]; [done|]. by rewrite !fmap_cons, Hxy, IH. Qed.

(** The run of [getTaskTree] that returns: it has read only, the roots of
    the forest are the root tasks, each tree is the tree of its root. *)
Lemma getTaskTree_inv fuel uid s forest s' ev :
  getTaskTree fuel uid s = Ret forest s' ev ->
  s' = s /\ ev = [] /\
  tree_root <$> forest
  = by_scheduledTime
      (find_where (fun _ t => (userId t =? uid)
                              && negb (isSome (parentTaskId t))) s) /\
  Forall (tree_of s uid) forest.
Proof.
  unfold getTaskTree. intros Hrun. peel Hrun Hroots.
  injection Hroots as <- <- <-.
  apply (for_each_inv _ (fun x y => tree_root y = x.1 /\ tree_of s uid y))
    in Hrun as (-> & -> & Hall).
  - do 2 (split; [done|]). split.
    + set (rows := by_scheduledTime _) in *.
      transitivity (((fun kt : Z * Task => (kt, children s kt.1)) <$> rows).*1).
      * apply Forall2_fmap_eq. eapply Forall2_impl; [exact Hall|].
        by intros x y [? _].
      * rewrite <- list_fmap_compose. apply list_fmap_id.
    + clear -Hall. induction Hall as [|x y xs ys [_ Hy] _ IH]; by constructor.
  - intros x y sx evx _ Hx.
    by apply loadTaskChildren_inv in Hx as (-> & -> & ? & ?).
Qed.

(** X23. The task tree is built in finitely many steps on every store,
    whatever cycles the parent references contain: with fuel for one call
    more than the user has tasks, [getTaskTree] returns and has read
    only.  Its roots are the tasks [getRootTasks] returns, the tasks of
    the user without a parent by ascending scheduled time, and under
    every task of the forest are the child tasks that [getChildTasks]
    returns for it, in that order. *)
Theorem getTaskTree_returns (fuel : nat) (uid : Z) (s : Store) :
  (size (owned_ids s uid) < fuel)%nat ->
  exists forest roots,
    getTaskTree fuel uid s = Ret forest s [] /\
    getRootTasks uid s = Ret roots s [] /\
    tree_root <$> forest = roots.*1 /\
    StronglySorted earlier roots.*1 /\ NoDup roots.*1 /\
    (forall k t, (k, t) ∈ roots.*1 <->
                 findOne k uid s = Some t /\ parentTaskId t = None) /\
    Forall (tree_of s uid) forest.
Proof.
  intros Hfuel.
  set (rows := by_scheduledTime
                 (find_where (fun _ t => (userId t =? uid)
                                         && negb (isSome (parentTaskId t))) s)).
  assert (forall k t, (k, t) ∈ rows <->
            findOne k uid s = Some t /\ parentTaskId t = None) as Hrows.
  { intros k t. unfold rows.
    rewrite elem_of_by_scheduledTime, elem_of_find_where, findOne_Some.
    rewrite andb_true_iff, Z.eqb_eq, negb_true_iff.
    destruct (parentTaskId t); cbn [isSome]; intuition congruence. }
  assert (((fun kt : Z * Task => (kt, children s kt.1)) <$> rows).*1 = rows)
    as Hfst.
  { rewrite <- list_fmap_compose. apply list_fmap_id. }
  destruct (for_each_Ret
              (fun rootTask : Z * Task * list (Z * Task) =>
                 loadTaskChildren fuel rootTask.1 uid) s
              ((fun kt : Z * Task => (kt, children s kt.1)) <$> rows))
    as [forest Hforest].
  { intros x [[k t] [-> [Hk Hroot]%Hrows]]%list_elem_of_fmap. cbn [fst].
    apply (loadTaskChildren_returns uid s fuel ∅); [done| |..].
    - intros a Ha. by apply elem_of_empty in Ha.
    - by eapply chain_acyclic_root.
    - by rewrite difference_empty_L. }
  assert (getTaskTree fuel uid s = Ret forest s []) as Hrun.
  { unfold getTaskTree. rewrite bind_run.
    change (getRootTasks uid s)
      with (Ret ((fun kt : Z * Task => (kt, children s kt.1)) <$> rows) s []).
    cbv iota beta. by rewrite Hforest. }
  exists forest, ((fun kt : Z * Task => (kt, children s kt.1)) <$> rows).
  split; [done|]. split; [done|]. rewrite Hfst.
  destruct (getTaskTree_inv _ _ _ _ _ _ Hrun) as (_ & _ & Hroots & Htrees).
  split; [done|]. split; [apply by_scheduledTime_sorted|].
  split; [unfold rows; rewrite by_scheduledTime_Permutation;
          apply NoDup_find_where|].
  by split.
Qed.

Lemma getTaskTree_returns_witness :
  exists forest roots,
    getTaskTree 3 7 store_selfParent = Ret forest store_selfParent [] /\
    getRootTasks 7 store_selfParent = Ret roots store_selfParent [] /\
    tree_root <$> forest = roots.*1 /\
    StronglySorted earlier roots.*1 /\ NoDup roots.*1 /\
    (forall k t, (k, t) ∈ roots.*1 <->
                 findOne k 7 store_selfParent = Some t /\ parentTaskId t = None) /\
    Forall (tree_of store_selfParent 7) forest.
Proof.
  apply (getTaskTree_returns 3 7 store_selfParent). vm_compute. lia.
Defined.

(** ** The tasks of the task tree *)

Lemma TaskTree_induction (P : TaskTree -> Prop) :
  (forall id task subtasks,
     Forall P subtasks -> P (TaskNode id task subtasks)) ->
  forall t, P t.
Proof.
  intros H. fix IH 1. intros [id task subtasks]. apply H.
  induction subtasks as [|t ts IHts]; constructor; [apply IH|apply IHts].
Qed.

Lemma getChildTasks_run id uid s :
  getChildTasks id uid s
  = Ret (by_scheduledTime
           (find_where (fun _ c => opt_eqb (parentTaskId c) id
                                   && (userId c =? uid)) s)) s [].
Proof. done. Qed.

(** The subtrees of a task of a tree are the trees of its child tasks. *)
Lemma tree_of_children s uid id task subtasks :
  tree_of s uid (TaskNode id task subtasks) ->
  Forall (tree_of s uid) subtasks /\
  forall c tc, (c, tc) ∈ tree_root <$> subtasks <->
    tasks s !! c = Some tc /\ parentTaskId tc = Some id /\ userId tc = uid.
Proof.
  inversion 1 as [? ? ? Hch Hsub]; subst. split; [done|].
  rewrite getChildTasks_run in Hch. injection Hch as Hch.
  intros c tc. rewrite <- Hch, elem_of_by_scheduledTime, elem_of_find_where.
  rewrite andb_true_iff, opt_eqb_true, Z.eqb_eq. tauto.
Qed.

Lemma elem_of_tree_nodes k t id task subtasks :
  (k, t) ∈ tree_nodes (TaskNode id task subtasks) <->
  (k, t) = (id, task) \/
  exists sub, sub ∈ subtasks /\ (k, t) ∈ tree_nodes sub.
Proof.
  cbn [tree_nodes]. rewrite elem_of_cons, list_elem_of_bind.
  split; (intros [?|(sub & ? & ?)]; [by left|right; by exists sub]).
Qed.

Lemma tree_root_nodes tree : tree_root tree ∈ tree_nodes tree.
Proof. destruct tree. cbn [tree_root tree_nodes]. left. Qed.

(** Every task of the tree of a task of the user is a task of the user
    whose parent chain leads to the root of the tree. *)
Lemma tree_nodes_sound s uid :
  forall tree, tree_of s uid tree ->
    findOne (tree_root tree).1 uid s = Some (tree_root tree).2 ->
    forall k t, (k, t) ∈ tree_nodes tree ->
      findOne k uid s = Some t /\
      rtc (parent_step s uid) k (tree_root tree).1.
Proof.
  induction tree as [x tx subs IH] using TaskTree_induction.
  intros [Hsubs Hch]%tree_of_children Hx k t. cbn [tree_root fst snd] in *.
  rewrite elem_of_tree_nodes. intros [[= -> ->]|(sub & Hsub & Hk)]; [done|].
  rewrite Forall_forall in IH, Hsubs.
  destruct (tree_root sub) as [c tc] eqn:Hroot.
  assert ((c, tc) ∈ tree_root <$> subs) as Hc.
  { apply list_elem_of_fmap. by exists sub. }
  apply Hch in Hc as (Hc & Hp & Hu).
  destruct (IH sub Hsub (Hsubs sub Hsub)) with (k := k) (t := t) as [Hkt Hrtc];
    [rewrite Hroot; by apply findOne_Some|done|].
  split; [done|]. rewrite Hroot in Hrtc. cbn [fst] in Hrtc.
  eapply rtc_r; [done|]. by eapply getChildTasks_parent_step.
Qed.

(** A tree holds the child tasks of each of its tasks. *)
Lemma tree_nodes_closed s uid :
  forall tree, tree_of s uid tree ->
    forall y ty, (y, ty) ∈ tree_nodes tree ->
    forall k t, tasks s !! k = Some t -> parentTaskId t = Some y ->
                userId t = uid ->
                (k, t) ∈ tree_nodes tree.
Proof.
  induction tree as [x tx subs IH] using TaskTree_induction.
  intros [Hsubs Hch]%tree_of_children y ty Hy k t Hk Hp Hu.
  rewrite Forall_forall in IH, Hsubs.
  apply elem_of_tree_nodes in Hy as [[= -> ->]|(sub & Hsub & Hy)];
    apply elem_of_tree_nodes; right.
  - assert ((k, t) ∈ tree_root <$> subs) as Hin by by apply Hch.
    apply list_elem_of_fmap in Hin as (sub & Hroot & Hsub).
    exists sub. split; [done|]. rewrite Hroot. apply tree_root_nodes.
  - exists sub. split; [done|]. by eapply (IH sub Hsub (Hsubs sub Hsub)).
Qed.

(** Two child tasks of one task, or two root tasks, that have a task
    below both of them are the same task. *)
Lemma siblings_disjoint s uid (c1 c2 k : Z) :
  (forall c, c = c1 \/ c = c2 -> chain_acyclic s uid c) ->
  (forall y1 y2, parent_step s uid c1 y1 -> parent_step s uid c2 y2 -> y1 = y2) ->
  ((exists y, parent_step s uid c1 y) <-> (exists y, parent_step s uid c2 y)) ->
  rtc (parent_step s uid) k c1 -> rtc (parent_step s uid) k c2 ->
  c1 = c2.
Proof.
  assert (forall a b : Z,
    chain_acyclic s uid a ->
    (forall y1 y2, parent_step s uid a y1 -> parent_step s uid b y2 -> y1 = y2) ->
    ((exists y, parent_step s uid a y) -> (exists y, parent_step s uid b y)) ->
    rtc (parent_step s uid) a b -> a = b) as Hdir.
  { intros a b Hacyc Hsame Hstep Hab.
    inversion Hab as [|? y ? Hay Hyb]; subst; [done|].
    destruct Hstep as [y' Hby']; [by exists y|].
    rewrite (Hsame _ _ Hay Hby') in Hyb. exfalso.
    apply (Hacyc b); [exact Hab|].
    eapply tc_rtc_r; [apply tc_once; exact Hby'|exact Hyb]. }
  intros Hacyc Hsame Hstep H1 H2.
  destruct (rtc_parent_step_linear _ _ _ _ _ H1 H2) as [H12|H21].
  - apply Hdir; [apply Hacyc; by left|done|apply Hstep|done].
  - symmetry. apply Hdir; [apply Hacyc; by right| |apply Hstep|done].
    intros y1 y2 ? ?. symmetry. by apply Hsame.
Qed.

Lemma fmap_bind_tree_nodes (subs : list TaskTree) :
  (subs ≫= tree_nodes).*1 = subs ≫= (fun sub => (tree_nodes sub).*1).
Proof. induction subs as [|sub subs IH]; [done|]. by rewrite !bind_cons, fmap_app, IH. Qed.

Lemma NoDup_fmap_eq {A B} (g : A -> B) (l : list A) x y :
  NoDup (g <$> l) -> x ∈ l -> y ∈ l -> g x = g y -> x = y.
Proof.
  induction l as [|a l IH]; intros Hnd Hx Hy Hg; [by apply elem_of_nil in Hx|].
  rewrite fmap_cons in Hnd. apply NoDup_cons in Hnd as [Ha Hnd].
  apply elem_of_cons in Hx as [->|Hx], Hy as [->|Hy]; [done|..|by apply IH].
  - destruct Ha. rewrite Hg. by apply list_elem_of_fmap_2.
  - destruct Ha. rewrite <- Hg. by apply list_elem_of_fmap_2.
Qed.

Lemma NoDup_by_scheduledTime_keys P s :
  NoDup (by_scheduledTime (find_where P s)).*1.
Proof. rewrite by_scheduledTime_Permutation. apply NoDup_fst_find_where. Qed.

Lemma tree_of_children_keys s uid id task subtasks :
  tree_of s uid (TaskNode id task subtasks) ->
  NoDup (tree_root <$> subtasks).*1.
Proof.
  inversion 1 as [? ? ? Hch Hsub]; subst.
  rewrite getChildTasks_run in Hch. injection Hch as Hch.
  rewrite <- Hch. apply NoDup_by_scheduledTime_keys.
Qed.

(** Trees that have distinct roots, no task twice, and no task in
    common unless their roots are the same, have no task twice
    together. *)
Lemma NoDup_subtrees s uid (subs : list TaskTree) :
  NoDup (tree_root <$> subs).*1 ->
  Forall (fun sub => NoDup (tree_nodes sub).*1) subs ->
  Forall (fun sub => tree_of s uid sub /\
                     findOne (tree_root sub).1 uid s = Some (tree_root sub).2)
         subs ->
  (forall sub1 sub2 k, sub1 ∈ subs -> sub2 ∈ subs ->
     rtc (parent_step s uid) k (tree_root sub1).1 ->
     rtc (parent_step s uid) k (tree_root sub2).1 ->
     (tree_root sub1).1 = (tree_root sub2).1) ->
  NoDup (subs ≫= tree_nodes).*1.
Proof.
  intros Hroots Hnd Hsubs Hdisj. rewrite Forall_forall in Hnd, Hsubs.
  rewrite <- list_fmap_compose in Hroots.
  rewrite fmap_bind_tree_nodes. apply NoDup_bind.
  - intros sub1 sub2 k H1 H2 [[k1 t1] [-> Hk1]]%list_elem_of_fmap
      [[k2 t2] [Hk Hk2]]%list_elem_of_fmap.
    cbn [fst] in Hk. subst k2.
    destruct (Hsubs _ H1) as [Htree1 Hfind1], (Hsubs _ H2) as [Htree2 Hfind2].
    apply (tree_nodes_sound _ _ _ Htree1 Hfind1) in Hk1 as [_ Hk1].
    apply (tree_nodes_sound _ _ _ Htree2 Hfind2) in Hk2 as [_ Hk2].
    eapply (NoDup_fmap_eq (fst ∘ tree_root)); [done..|].
    by apply (Hdisj sub1 sub2 k1).
  - done.
  - by eapply NoDup_fmap_1.
Qed.

(** No task is twice in the tree of a task whose parent chain has no
    cycle. *)
Lemma NoDup_tree_nodes s uid :
  forall tree, tree_of s uid tree ->
    findOne (tree_root tree).1 uid s = Some (tree_root tree).2 ->
    chain_acyclic s uid (tree_root tree).1 ->
    NoDup (tree_nodes tree).*1.
Proof.
  induction tree as [x tx subs IH] using TaskTree_induction.
  intros Htree Hx Hacyc. cbn [tree_root fst snd] in Hx, Hacyc.
  pose proof (tree_of_children_keys _ _ _ _ _ Htree) as Hkeys.
  destruct (tree_of_children _ _ _ _ _ Htree) as [Hsubs Hch].
  rewrite Forall_forall in IH, Hsubs.
  assert (forall sub, sub ∈ subs ->
            findOne (tree_root sub).1 uid s = Some (tree_root sub).2 /\
            parent_step s uid (tree_root sub).1 x) as Hchild.
  { intros sub Hsub. destruct (tree_root sub) as [c tc] eqn:Hroot.
    assert ((c, tc) ∈ tree_root <$> subs) as Hc.
    { apply list_elem_of_fmap. by exists sub. }
    apply Hch in Hc as (Hc & Hp & Hu). cbn [fst snd]. split.
    - by apply findOne_Some.
    - by eapply getChildTasks_parent_step. }
  cbn [tree_nodes]. rewrite fmap_cons. apply NoDup_cons. split.
  - intros [[k t] [Hk Hin]]%list_elem_of_fmap. cbn [fst] in Hk. subst k.
    apply list_elem_of_bind in Hin as (sub & Hin & Hsub).
    destruct (Hchild sub Hsub) as [Hfind Hstep].
    apply (tree_nodes_sound _ _ _ (Hsubs sub Hsub) Hfind) in Hin as [_ Hrtc].
    apply (Hacyc x); [done|]. by eapply tc_rtc_l; [|apply tc_once].
  - apply (NoDup_subtrees s uid); [done|..].
    + apply Forall_forall. intros sub Hsub.
      destruct (Hchild sub Hsub) as [Hfind Hstep].
      apply IH; [done|by apply Hsubs|done|]. by eapply chain_acyclic_child.
    + apply Forall_forall. intros sub Hsub. split; [by apply Hsubs|].
      by apply Hchild.
    + intros sub1 sub2 k H1 H2.
      destruct (Hchild sub1 H1) as [_ Hstep1], (Hchild sub2 H2) as [_ Hstep2].
      apply siblings_disjoint.
      * intros c [->| ->]; by eapply chain_acyclic_child.
      * intros y1 y2 Hy1 Hy2.
        rewrite (parent_step_fun _ _ _ _ _ Hy1 Hstep1).
        by rewrite (parent_step_fun _ _ _ _ _ Hy2 Hstep2).
      * split; intros _; by exists x.
Qed.

Lemma parentTask_Some_inv s t y p :
  parentTask s t = Some (y, p) ->
  parentTaskId t = Some y /\ tasks s !! y = Some p.
Proof.
  unfold parentTask. destruct (parentTaskId t) as [pid|]; [|done].
  destruct (tasks s !! pid) as [p'|] eqn:Hp; [|done]. by intros [= <- <-].
Qed.

(** A forest of trees that has every root task has every task whose
    parent chain ends in a root task. *)
Lemma forest_nodes_complete s uid forest :
  Forall (tree_of s uid) forest ->
  (forall r tr, findOne r uid s = Some tr -> parentTaskId tr = None ->
                (r, tr) ∈ tree_root <$> forest) ->
  forall k r, rtc (parent_step s uid) k r ->
    forall tr t, findOne r uid s = Some tr -> parentTaskId tr = None ->
                 findOne k uid s = Some t ->
                 (k, t) ∈ forest_nodes forest.
Proof.
  intros Htrees Hroots k r Hrtc. rewrite Forall_forall in Htrees.
  induction Hrtc as [r|k y r Hky Hyr IH]; intros tr t Hr Hroot Hk.
  - assert (t = tr) as -> by congruence.
    apply Hroots in Hr; [|done].
    apply list_elem_of_fmap in Hr as (tree & Htree & Hin).
    apply list_elem_of_bind. exists tree. split; [|done].
    rewrite Htree. apply tree_root_nodes.
  - destruct Hky as (t' & p & Hk' & Hp).
    assert (t' = t) as -> by congruence.
    apply parentTask_Some_inv in Hp as [Hp Hy].
    assert (findOne y uid s = Some p) as Hfy.
    { inversion Hyr as [|? z ? (ty & pz & Hty & _) _]; subst.
      - apply findOne_Some in Hr as [Hr Hu]. apply findOne_Some.
        split; congruence.
      - apply findOne_Some in Hty as [Hty Hu]. apply findOne_Some.
        split; congruence. }
    specialize (IH tr p Hr Hroot Hfy).
    apply list_elem_of_bind in IH as (tree & Hin & Htree).
    apply list_elem_of_bind. exists tree. split; [|done].
    apply findOne_Some in Hk as [Hk Hu].
    by eapply (tree_nodes_closed _ _ _ (Htrees tree Htree)).
Qed.

(** In a hierarchy without cycles in which the parent of a task is a
    task of the same owner, the parent chain of every task ends in a root
    task. *)
Lemma rooted_of_hierarchy_ok s uid :
  hierarchy_ok s -> hierarchy_forest s ->
  forall n (seen : gset Z) k t,
    findOne k uid s = Some t ->
    (forall a, a ∈ seen -> tc (parent_step s uid) a k) ->
    (size (owned_ids s uid ∖ seen) < n)%nat ->
    rooted s uid k.
Proof.
  intros Hok Hforest. induction n as [|n IH]; intros seen k t Hk Hseen Hsize; [lia|].
  destruct (parentTaskId t) as [p|] eqn:Hp; [|by exists k, t].
  assert (k ∉ seen) as Hnew.
  { intros Hin. apply (Hforest uid k). by apply Hseen. }
  pose proof Hk as [Hkt Hu]%findOne_Some.
  pose proof (Hok k t Hkt) as Hpar. cbn beta in Hpar. rewrite Hp in Hpar.
  destruct (tasks s !! p) as [pt|] eqn:Hpt; [|done]. destruct Hpar as [Hpu _].
  assert (findOne p uid s = Some pt) as Hfp.
  { apply findOne_Some. split; congruence. }
  assert (parent_step s uid k p) as Hstep.
  { exists t, pt. split; [done|]. unfold parentTask. by rewrite Hp, Hpt. }
  destruct (IH ({[k]} ∪ seen) p pt Hfp) as (r & tr & Hrtc & Hr & Hroot).
  - intros a [->%elem_of_singleton|Ha]%elem_of_union.
    + by apply tc_once.
    + eapply tc_r; [by apply Hseen|done].
  - assert (owned_ids s uid ∖ ({[k]} ∪ seen) ⊂ owned_ids s uid ∖ seen) as Hsub.
    { assert (k ∈ owned_ids s uid) as Hown
        by (apply elem_of_owned_ids; rewrite Hk; eauto).
      split.
      - intros y [Hy Hn]%elem_of_difference. apply elem_of_difference.
        split; [done|]. intros ?. apply Hn, elem_of_union. by right.
      - intros Hsup. specialize (Hsup k). rewrite !elem_of_difference in Hsup.
        destruct Hsup as [_ Hn]; [done|]. apply Hn, elem_of_union. left.
        by apply elem_of_singleton. }
    apply subset_size in Hsub. lia.
  - exists r, tr. split; [by eapply rtc_l|done].
Qed.

(** X24. The tasks of the task tree: when [getTaskTree] returns, no task
    is twice in the forest, and the tasks in it are the tasks of the user
    whose parent chain ends in a root task of the user.  In a store whose
    hierarchy is well formed (every parent is a task of the same owner
    and no task is its own ancestor) the forest holds every task of the
    user; a task on a cycle of parents, or below a task of somebody else
    or a parent that does not exist, is in no tree. *)
Theorem getTaskTree_nodes (fuel : nat) (uid : Z) (s s' : Store)
    (forest : list TaskTree) (ev : list Event) :
  getTaskTree fuel uid s = Ret forest s' ev ->
  NoDup (forest_nodes forest).*1 /\
  (forall k t, (k, t) ∈ forest_nodes forest <->
               findOne k uid s = Some t /\ rooted s uid k) /\
  (hierarchy_ok s -> hierarchy_forest s ->
   forall k t, (k, t) ∈ forest_nodes forest <-> findOne k uid s = Some t).
Proof.
  intros (_ & _ & Hroots & Htrees)%getTaskTree_inv.
  assert (forall r tr, (r, tr) ∈ tree_root <$> forest <->
            findOne r uid s = Some tr /\ parentTaskId tr = None) as Hroot.
  { intros r tr. rewrite Hroots.
    rewrite elem_of_by_scheduledTime, elem_of_find_where, findOne_Some.
    rewrite andb_true_iff, Z.eqb_eq, negb_true_iff.
    destruct (parentTaskId tr); cbn [isSome]; intuition congruence. }
  assert (forall tree, tree ∈ forest ->
            findOne (tree_root tree).1 uid s = Some (tree_root tree).2 /\
            parentTaskId (tree_root tree).2 = None) as Htree.
  { intros tree Hin. destruct (tree_root tree) as [r tr] eqn:Hr.
    apply Hroot, list_elem_of_fmap. by exists tree. }
  assert (forall k t, (k, t) ∈ forest_nodes forest <->
            findOne k uid s = Some t /\ rooted s uid k) as Hnodes.
  { intros k t. split.
    - intros (tree & Hk & Hin)%list_elem_of_bind.
      destruct (Htree tree Hin) as [Hfind Hnone].
      rewrite Forall_forall in Htrees.
      apply (tree_nodes_sound _ _ _ (Htrees tree Hin) Hfind) in Hk as [Hk Hrtc].
      split; [done|]. by exists (tree_root tree).1, (tree_root tree).2.
    - intros [Hk (r & tr & Hrtc & Hr & Hnone)].
      eapply forest_nodes_complete; [done| |done..].
      intros r' tr' ? ?. by apply Hroot. }
  split; [|split; [exact Hnodes|]].
  - apply (NoDup_subtrees s uid).
    + rewrite Hroots. apply NoDup_by_scheduledTime_keys.
    + apply Forall_forall. intros tree Hin.
      destruct (Htree tree Hin) as [Hfind Hnone].
      rewrite Forall_forall in Htrees.
      apply (NoDup_tree_nodes s uid); [by apply Htrees|done|].
      by eapply chain_acyclic_root.
    + apply Forall_forall. intros tree Hin. rewrite Forall_forall in Htrees.
      split; [by apply Htrees|]. by apply Htree.
    + intros tree1 tree2 k H1 H2.
      destruct (Htree tree1 H1) as [Hfind1 Hnone1].
      destruct (Htree tree2 H2) as [Hfind2 Hnone2].
      apply siblings_disjoint.
      * intros c [->| ->]; by eapply chain_acyclic_root.
      * intros y1 y2 Hy1 _. by eapply root_no_parent_step in Hy1.
      * split; intros [y Hy]; by eapply root_no_parent_step in Hy.
  - intros Hok Hforest k t. rewrite Hnodes. split; [by intros [? _]|].
    intros Hk. split; [done|].
    apply (rooted_of_hierarchy_ok s uid Hok Hforest
             (S (size (owned_ids s uid))) ∅ k t Hk).
    + intros a Ha. by apply elem_of_empty in Ha.
    + rewrite difference_empty_L. lia.
Qed.

Lemma getTaskTree_nodes_witness :
  NoDup (forest_nodes
           [TaskNode 1 (plainTask 7 "P" (day 2) false None)
              [TaskNode 2 (plainTask 7 "T" (day 1) false (Some 1)) []]]).*1 /\
  (forall k t,
     (k, t) ∈ forest_nodes
                [TaskNode 1 (plainTask 7 "P" (day 2) false None)
                   [TaskNode 2 (plainTask 7 "T" (day 1) false (Some 1)) []]] <->
     findOne k 7 store_T = Some t /\ rooted store_T 7 k) /\
  (hierarchy_ok store_T -> hierarchy_forest store_T ->
   forall k t,
     (k, t) ∈ forest_nodes
                [TaskNode 1 (plainTask 7 "P" (day 2) false None)
                   [TaskNode 2 (plainTask 7 "T" (day 1) false (Some 1)) []]] <->
     findOne k 7 store_T = Some t).
Proof.
  apply (getTaskTree_nodes 3 7 store_T store_T _ []). by vm_compute.
Defined.

(** ** The hierarchy of one task *)

Lemma for_each_Raise_inv {A B} (f : A -> M B) (s : Store) :
  forall xs e s' ev,
    (forall x y s1 ev1, x ∈ xs -> f x s = Ret y s1 ev1 -> s1 = s /\ ev1 = []) ->
    for_each f xs s = Raise e s' ev ->
    exists x, x ∈ xs /\ f x s = Raise e s' ev.
Proof.
  induction xs as [|x xs IH]; intros e s' ev Hro; cbn [for_each]; [done|].
  rewrite bind_run. destruct (f x s) as [y s1 ev1|e1 s1 ev1|] eqn:Hx; [| |done].
  - destruct (Hro x y s1 ev1) as [-> ->]; [left|done|].
    rewrite prefix_events_nil, bind_run.
    destruct (for_each f xs s) as [ys s2 ev2|e2 s2 ev2|] eqn:Hxs; [done| |done].
    intros [= <- <- <-].
    destruct (IH e2 s2 ev2) as (x' & Hin & Hx'); [|done|].
    + intros x' y' sx evx Hin. apply Hro. by right.
    + exists x'. split; [by right|done].
  - intros [= <- <- <-]. exists x. split; [left|done].
Qed.

Lemma for_each_answers {A B} (f : A -> M B) (s : Store) :
  forall xs,
    (forall x y s1 ev1, x ∈ xs -> f x s = Ret y s1 ev1 -> s1 = s /\ ev1 = []) ->
    (forall x, x ∈ xs -> f x s <> OutOfFuel) ->
    for_each f xs s <> OutOfFuel.
Proof.
  induction xs as [|x xs IH]; intros Hro Hans; cbn [for_each]; [done|].
  rewrite bind_run. destruct (f x s) as [y s1 ev1|e1 s1 ev1|] eqn:Hx; [|done|].
  - destruct (Hro x y s1 ev1) as [-> ->]; [left|done|].
    rewrite prefix_events_nil, bind_run.
    destruct (for_each f xs s) as [ys s2 ev2|e2 s2 ev2|] eqn:Hxs; [done..|].
    destruct IH; [| |done].
    + intros x' y' sx evx Hin. apply Hro. by right.
    + intros x' Hin. apply Hans. by right.
  - destruct (Hans x); [left|done].
Qed.

Lemma hierarchy_of_root s uid tree :
  hierarchy_of s uid tree ->
  findOne (tree_root tree).1 uid s = Some (tree_root tree).2.
Proof. by inversion 1. Qed.

Lemma elem_of_children s x c tc :
  (c, tc) ∈ children s x <-> tasks s !! c = Some tc /\ parentTaskId tc = Some x.
Proof. unfold children. by rewrite elem_of_find_where, opt_eqb_true. Qed.

(** What [getTaskHierarchy] returns is the hierarchy of the task it was
    given, and it has read only. *)
Lemma getTaskHierarchy_Ret_inv uid s fuel :
  forall x tree s' ev,
    getTaskHierarchy fuel x uid s = Ret tree s' ev ->
    s' = s /\ ev = [] /\ (tree_root tree).1 = x /\ hierarchy_of s uid tree.
Proof.
  induction fuel as [|fuel IH]; intros x tree s' ev Hrun; [done|].
  cbn [getTaskHierarchy] in Hrun. peel_get Hrun.
  destruct (findOne x uid s) as [tx|] eqn:Hx; [|done].
  peel Hrun Hsub.
  apply (for_each_inv _ (fun c y => tree_root y = c /\ hierarchy_of s uid y))
    in Hsub as (-> & -> & Hall).
  - injection Hrun as <- <- <-. do 3 (split; [done|]).
    constructor; [done|..].
    + clear -Hall. induction Hall as [|c y cs ys [Hc _] _ IHall]; [done|].
      by rewrite fmap_cons, Hc, IHall.
    + clear -Hall. induction Hall as [|c y cs ys [_ Hy] _ IHall]; by constructor.
  - intros [c tc] y sx evx [Hc _]%elem_of_children Hy.
    apply IH in Hy as (-> & -> & Hroot & Hy). do 2 (split; [done|]).
    split; [|done]. apply hierarchy_of_root in Hy.
    destruct (tree_root y) as [c' tc']. cbn [fst snd] in *. subst c'.
    apply findOne_Some in Hy as [Hy _]. congruence.
Qed.

(** [getTaskHierarchy] throws only NotFound, having read only, and then
    a task at or below the given one is not a task of the user. *)
Lemma getTaskHierarchy_Raise_inv uid s fuel :
  forall x e s' ev,
    getTaskHierarchy fuel x uid s = Raise e s' ev ->
    e = NotFound /\ s' = s /\ ev = [] /\
    exists d, below s x d /\ findOne d uid s = None.
Proof.
  induction fuel as [|fuel IH]; intros x e s' ev; [done|].
  cbn [getTaskHierarchy]. rewrite bind_run. cbn [get prefix_events app].
  destruct (findOne x uid s) as [tx|] eqn:Hx.
  - rewrite bind_run.
    destruct (for_each _ (children s x) s) as [ys s1 ev1|e1 s1 ev1|] eqn:Hsub;
      [by destruct ev1|..|done].
    intros [= <- <- <-].
    apply for_each_Raise_inv in Hsub as ([c tc] & Hin & Hc).
    + apply IH in Hc as (-> & -> & -> & d & Hd & Hnone).
      do 3 (split; [done|]). exists d. split; [|done].
      eapply rtc_l; [|exact Hd]. apply list_elem_of_fmap. by exists (c, tc).
    + intros c y sx evx _ Hy.
      by apply getTaskHierarchy_Ret_inv in Hy as (-> & -> & _).
  - intros [= <- <- <-]. do 3 (split; [done|]). exists x.
    split; [apply rtc_refl|done].
Qed.

(** [getTaskHierarchy] answers once the fuel exceeds the number of tasks
    of the user that are not above the task, when the parent chain of the
    task has no cycle. *)
Lemma getTaskHierarchy_answers uid s fuel :
  forall (seen : gset Z) x,
    (forall a, a ∈ seen -> tc (parent_step s uid) x a) ->
    chain_acyclic s uid x ->
    (size (owned_ids s uid ∖ seen) < fuel)%nat ->
    getTaskHierarchy fuel x uid s <> OutOfFuel.
Proof.
  induction fuel as [|fuel IH]; intros seen x Hseen Hacyc Hsize; [lia|].
  cbn [getTaskHierarchy]. rewrite bind_run. cbn [get prefix_events app].
  destruct (findOne x uid s) as [tx|] eqn:Hx; [|done].
  assert (x ∉ seen) as Hnew.
  { intros Hin. apply (Hacyc x); [done|]. by apply Hseen. }
  assert (size (owned_ids s uid ∖ ({[x]} ∪ seen)) < fuel)%nat as Hless.
  { assert (owned_ids s uid ∖ ({[x]} ∪ seen) ⊂ owned_ids s uid ∖ seen) as Hsub.
    { assert (x ∈ owned_ids s uid) as Hown
        by (apply elem_of_owned_ids; rewrite Hx; eauto).
      split.
      - intros y [Hy Hn]%elem_of_difference. apply elem_of_difference.
        split; [done|]. intros ?. apply Hn, elem_of_union. by right.
      - intros Hsup. specialize (Hsup x). rewrite !elem_of_difference in Hsup.
        destruct Hsup as [_ Hn]; [done|]. apply Hn, elem_of_union. left.
        by apply elem_of_singleton. }
    apply subset_size in Hsub. lia. }
  rewrite bind_run.
  destruct (for_each _ (children s x) s) as [ys s1 ev1|e1 s1 ev1|] eqn:Hsub;
    [by destruct ev1|done|].
  exfalso. revert Hsub. apply for_each_answers.
  - intros c y sx evx _ Hy.
    by apply getTaskHierarchy_Ret_inv in Hy as (-> & -> & _).
  - intros [c tc] [Hc Hp]%elem_of_children. cbn [fst].
    destruct (findOne c uid s) as [tc'|] eqn:Hfc.
    + apply (IH ({[x]} ∪ seen)); [| |done].
      * assert (parent_step s uid c x) as Hstep.
        { apply findOne_Some in Hfc as [Hfc Hu].
          assert (tc' = tc) as -> by congruence.
          by eapply getChildTasks_parent_step. }
        intros a [->%elem_of_singleton|Ha]%elem_of_union.
        -- by apply tc_once.
        -- eapply tc_l; [done|]. by apply Hseen.
      * apply findOne_Some in Hfc as [Hfc Hu].
        assert (tc' = tc) as -> by congruence.
        eapply chain_acyclic_child; [|done].
        by eapply getChildTasks_parent_step.
    + destruct fuel as [|fuel']; [lia|].
      cbn [getTaskHierarchy]. rewrite bind_run. cbn [get prefix_events app].
      by rewrite Hfc.
Qed.

(** A hierarchy has the tasks of the user only, all the way down. *)
Lemma hierarchy_of_below s uid :
  forall x d, below s x d ->
    forall tree, (tree_root tree).1 = x -> hierarchy_of s uid tree ->
                 is_Some (findOne d uid s).
Proof.
  intros x d Hb. unfold below in Hb.
  induction Hb as [x|x c d Hxc Hcd IH]; intros tree Hroot Htree.
  - apply hierarchy_of_root in Htree. rewrite Hroot in Htree. eauto.
  - inversion Htree as [id task subs Hfind Hch Hsubs]; subst.
    cbn [tree_root fst] in Hxc. rewrite <- Hch in Hxc.
    apply list_elem_of_fmap in Hxc as ([c' tc] & -> & Hin).
    apply list_elem_of_fmap in Hin as (sub & Hsub & Hin).
    rewrite Forall_forall in Hsubs.
    apply (IH sub); [by rewrite <- Hsub|by apply Hsubs].
Qed.

Lemma tc_last {A} (R : relation A) x y :
  tc R x y -> exists q, rtc R x q /\ R q y.
Proof.
  induction 1 as [x y H|x z y H _ (q & Hq & Hqy)].
  - exists x. split; [apply rtc_refl|done].
  - exists q. split; [by eapply rtc_l|done].
Qed.

(** A task that is its own ancestor has no hierarchy: the tree would
    hold itself. *)
Lemma hierarchy_of_acyclic s uid :
  forall tree, hierarchy_of s uid tree ->
    ~ tc (parent_step s uid) (tree_root tree).1 (tree_root tree).1.
Proof.
  induction tree as [x tx subs IH] using TaskTree_induction.
  intros Htree Hcyc. cbn [tree_root fst] in Hcyc.
  inversion Htree as [? ? ? Hfind Hch Hsubs]; subst.
  apply tc_last in Hcyc as (q & Hxq & Hqx).
  pose proof Hqx as (tq & p & Hq & Hp).
  apply parentTask_Some_inv in Hp as [Hp Hx].
  assert ((q, tq) ∈ tree_root <$> subs) as Hin.
  { rewrite Hch. apply elem_of_children.
    split; [by apply findOne_Some in Hq as [? _]|done]. }
  apply list_elem_of_fmap in Hin as (sub & Hroot & Hsub).
  rewrite Forall_forall in IH, Hsubs.
  apply (IH sub Hsub (Hsubs sub Hsub)). rewrite <- Hroot. cbn [fst].
  eapply tc_rtc_r; [apply tc_once; exact Hqx|exact Hxq].
Qed.

(** X25. The hierarchy of one task.  [getTaskHierarchy] reads only.  When
    it returns, the tree is the hierarchy of the task: every task of the
    tree is a task of the user and under it are all the rows whose parent
    it is; then every task at or below the given one is a task of the
    user, and the given task is not its own ancestor.  It throws nothing
    but NotFound, and does so only when a task at or below the given one
    is missing or belongs to somebody else.  When the parent chain of the
    task has no cycle it answers with fuel for one call more than the
    user has tasks. *)
Theorem getTaskHierarchy_spec (fuel : nat) (id uid : Z) (s : Store) :
  (forall tree s' ev,
     getTaskHierarchy fuel id uid s = Ret tree s' ev ->
     s' = s /\ ev = [] /\ (tree_root tree).1 = id /\
     hierarchy_of s uid tree /\
     (forall d, below s id d -> is_Some (findOne d uid s)) /\
     ~ tc (parent_step s uid) id id) /\
  (forall e s' ev,
     getTaskHierarchy fuel id uid s = Raise e s' ev ->
     e = NotFound /\ s' = s /\ ev = [] /\
     exists d, below s id d /\ findOne d uid s = None) /\
  (chain_acyclic s uid id -> (size (owned_ids s uid) < fuel)%nat ->
   getTaskHierarchy fuel id uid s <> OutOfFuel).
Proof.
  split; [|split].
  - intros tree s' ev (-> & -> & Hroot & Htree)%getTaskHierarchy_Ret_inv.
    do 4 (split; [done|]). split.
    + intros d Hd. by eapply hierarchy_of_below.
    + rewrite <- Hroot. by apply hierarchy_of_acyclic.
  - intros e s' ev. apply getTaskHierarchy_Raise_inv.
  - intros Hacyc Hfuel. apply (getTaskHierarchy_answers uid s fuel ∅).
    + intros a Ha. by apply elem_of_empty in Ha.
    + done.
    + by rewrite difference_empty_L.
Qed.

(** The hierarchy of a task that is its own parent is never returned,
    whatever the fuel. *)
Example getTaskHierarchy_selfParent (fuel : nat) :
  getTaskHierarchy fuel 1 7 store_selfParent = OutOfFuel.
Proof.
  induction fuel as [|fuel IH]; [done|].
  cbn [getTaskHierarchy]. rewrite bind_run. cbn [get prefix_events app].
  replace (findOne 1 7 store_selfParent)
    with (Some (plainTask 7 "A" (day 1) false (Some 1))) by by vm_compute.
  replace (children store_selfParent 1)
    with [(1, plainTask 7 "A" (day 1) false (Some 1))] by by vm_compute.
  cbn [for_each fst]. by rewrite !bind_run, IH.
Qed.

(** The hierarchy of a task with one child, and of a task that does not
    exist. *)
Example getTaskHierarchy_store_T :
  getTaskHierarchy 3 1 7 store_T
  = Ret (TaskNode 1 (plainTask 7 "P" (day 2) false None)
           [TaskNode 2 (plainTask 7 "T" (day 1) false (Some 1)) []])
        store_T [] /\
  getTaskHierarchy 3 5 7 store_T = Raise NotFound store_T [].
Proof. by vm_compute. Qed.

(** * The notification services *)

(** ** Queries and writes of the notification table *)

Lemma elem_of_select_where P ns k n :
  (k, n) ∈ select_where P ns <-> notifications ns !! k = Some n /\ P k n = true.
Proof.
  unfold select_where. rewrite elem_of_List_filter, elem_of_map_to_list. done.
Qed.

Lemma NoDup_select_where P ns : NoDup (select_where P ns).
Proof. apply NoDup_List_filter, NoDup_map_to_list. Qed.

Lemma lookup_update_where P f ns k :
  notifications (update_where P f ns) !! k
  = (fun n => if P k n then f n else n) <$> notifications ns !! k.
Proof.
  unfold update_where. cbn [notifications]. rewrite map_lookup_imap.
  by destruct (notifications ns !! k).
Qed.

Lemma lookup_delete_where_n P ns k n :
  notifications (delete_where_n P ns) !! k = Some n <->
  notifications ns !! k = Some n /\ P k n = false.
Proof. unfold delete_where_n. cbn [notifications]. apply map_lookup_filter_Some. Qed.

Lemma nkeys_fresh_create dto uid ns :
  nkeys_fresh ns -> nkeys_fresh (NotificationsService.create dto uid ns).2.
Proof.
  intros Hfresh k n. cbn [NotificationsService.create snd notifications
                          nextNotificationId].
  destruct (decide (k = nextNotificationId ns)) as [->|Hne].
  - intros _. lia.
  - rewrite lookup_insert_ne by done. intros Hk.
    pose proof (Hfresh k n Hk) as Hlt. cbn beta in Hlt. lia.
Qed.

Lemma lookup_create dto uid ns k :
  nkeys_fresh ns -> k < nextNotificationId ns ->
  notifications (NotificationsService.create dto uid ns).2 !! k
  = notifications ns !! k.
Proof.
  intros _ Hk. cbn [NotificationsService.create snd notifications].
  apply lookup_insert_ne. lia.
Qed.

(** ** Scheduling the reminders of a task *)

Lemma unsentReminder_reminderRow id uid time :
  unsentReminder id (reminderRow id uid time) = true.
Proof.
  unfold unsentReminder, reminderRow. cbn [Notification.taskId Notification.type
    Notification.isSent opt_eqb]. rewrite Z.eqb_refl. done.
Qed.

(** The loop of [scheduleRemindersForTask]: one new row for every
    reminder time that is still to come, in the order of the minutes. *)
Lemma scheduleReminders_loop now id t :
  forall minutes ns1,
    nkeys_fresh ns1 ->
    let ns' :=
      foldl (fun ns' minutes =>
               let reminderTime := scheduledTime t - minutes * 60 * 1000 in
               if now <? reminderTime
               then scheduleTaskReminder id (userId t) reminderTime ns'
               else ns')
            ns1 minutes in
    nkeys_fresh ns' /\
    nextNotificationId ns'
    = nextNotificationId ns1
      + Z.of_nat (length (reminderTimesAfter now t minutes)) /\
    (forall k, k < nextNotificationId ns1 ->
       notifications ns' !! k = notifications ns1 !! k) /\
    (forall (i : nat) time,
       reminderTimesAfter now t minutes !! i = Some time ->
       notifications ns' !! (nextNotificationId ns1 + Z.of_nat i)
       = Some (reminderRow id (userId t) time)).
Proof.
  induction minutes as [|m minutes IH]; intros ns1 Hfresh; cbv zeta.
  { cbn [foldl reminderTimesAfter fmap list_fmap List.filter length].
    split; [done|]. split; [lia|]. split; [done|]. by intros i time. }
  cbn [foldl]. unfold reminderTimesAfter. rewrite fmap_cons.
  cbn [List.filter]. fold (reminderTimesAfter now t minutes).
  destruct (now <? scheduledTime t - m * 60 * 1000) eqn:Hdue.
  - set (ns2 := scheduleTaskReminder id (userId t)
                  (scheduledTime t - m * 60 * 1000) ns1).
    assert (nkeys_fresh ns2) as Hfresh2 by by apply nkeys_fresh_create.
    assert (nextNotificationId ns2 = nextNotificationId ns1 + 1) as Hnext by done.
    destruct (IH ns2 Hfresh2) as (Hf' & Hn' & Hold & Hnew).
    cbv zeta in Hf', Hn', Hold, Hnew.
    split; [done|]. split; [rewrite Hn', Hnext; cbn [length]; lia|]. split.
    + intros k Hk. rewrite Hold by lia. by apply lookup_create.
    + intros [|i] time Hi.
      * injection Hi as <-. rewrite Z.add_0_r, Hold by lia.
        apply lookup_insert_eq.
      * cbn [lookup list_lookup] in Hi. apply Hnew in Hi.
        rewrite <- Hi. f_equal. lia.
  - by apply IH.
Qed.

(** X26. Scheduling the reminders of a task replaces its unsent
    reminders: after [scheduleRemindersForTask] the rows that were there
    are the ones from before without the unsent reminders of the task,
    unchanged; the rows that are new are one unsent, unread reminder of
    the task for its user for every number of minutes whose reminder time
    is after now, in the order of the minutes; and these are all the
    unsent reminders the task then has.  A task that is due within the
    smallest number of minutes is left without an unsent reminder. *)
Theorem scheduleRemindersForTask_spec (now id : Z) (t : Task)
    (minutes : list Z) (ns : NStore) :
  nkeys_fresh ns ->
  let ns' := scheduleRemindersForTask now (id, t) minutes ns in
  let times := reminderTimesAfter now t minutes in
  nkeys_fresh ns' /\
  nextNotificationId ns' = nextNotificationId ns + Z.of_nat (length times) /\
  (forall k n, k < nextNotificationId ns ->
     (notifications ns' !! k = Some n <->
      notifications ns !! k = Some n /\ unsentReminder id n = false)) /\
  (forall (i : nat) time, times !! i = Some time ->
     notifications ns' !! (nextNotificationId ns + Z.of_nat i)
     = Some (reminderRow id (userId t) time)) /\
  (forall k n,
     (k, n) ∈ select_where (fun _ n => unsentReminder id n) ns' <->
     exists (i : nat) time,
       times !! i = Some time /\ k = nextNotificationId ns + Z.of_nat i /\
       n = reminderRow id (userId t) time).
Proof.
  intros Hfresh ns' times.
  set (ns1 := NotificationsService.removeUnsentTaskReminders id ns).
  assert (nkeys_fresh ns1) as Hfresh1.
  { intros k n [Hk _]%lookup_delete_where_n. exact (Hfresh k n Hk). }
  destruct (scheduleReminders_loop now id t minutes ns1 Hfresh1)
    as (Hf' & Hn' & Hold & Hnew).
  cbv zeta in Hf', Hn', Hold, Hnew.
  change (foldl _ ns1 minutes) with ns' in Hf', Hn', Hold, Hnew.
  change (nextNotificationId ns1) with (nextNotificationId ns) in *.
  fold times in Hn', Hnew.
  assert (forall k n, k < nextNotificationId ns ->
            (notifications ns' !! k = Some n <->
             notifications ns !! k = Some n /\ unsentReminder id n = false))
    as Hkept.
  { intros k n Hk. rewrite Hold by done.
    exact (lookup_delete_where_n (fun _ n => unsentReminder id n) ns k n). }
  do 2 (split; [done|]). split; [exact Hkept|]. split; [exact Hnew|].
  intros k n. rewrite elem_of_select_where. split.
  - intros [Hk Hunsent].
    destruct (Z.lt_ge_cases k (nextNotificationId ns)) as [Hlt|Hge].
    { apply Hkept in Hk as [_ Hk]; [congruence|done]. }
    pose proof (Hf' k n Hk) as Hlt. cbn beta in Hlt.
    destruct (lookup_lt_is_Some_2 times (Z.to_nat (k - nextNotificationId ns)))
      as [time Htime]; [lia|].
    exists (Z.to_nat (k - nextNotificationId ns)), time.
    split; [done|]. split; [lia|].
    apply Hnew in Htime.
    replace (nextNotificationId ns
             + Z.of_nat (Z.to_nat (k - nextNotificationId ns)))
      with k in Htime by lia.
    congruence.
  - intros (i & time & Hi & -> & ->). split; [by apply Hnew|].
    apply unsentReminder_reminderRow.
Qed.

Lemma scheduleRemindersForTask_spec_witness :
  nkeys_fresh
    (scheduleRemindersForTask (day 1 - 20 * 60 * 1000) (5, task_R)
       defaultReminderMinutes nstore_R) /\
  nextNotificationId
    (scheduleRemindersForTask (day 1 - 20 * 60 * 1000) (5, task_R)
       defaultReminderMinutes nstore_R)
  = nextNotificationId nstore_R
    + Z.of_nat (length (reminderTimesAfter (day 1 - 20 * 60 * 1000) task_R
                          defaultReminderMinutes)) /\
  (forall k n, k < nextNotificationId nstore_R ->
     (notifications
        (scheduleRemindersForTask (day 1 - 20 * 60 * 1000) (5, task_R)
           defaultReminderMinutes nstore_R) !! k = Some n <->
      notifications nstore_R !! k = Some n /\ unsentReminder 5 n = false)) /\
  (forall (i : nat) time,
     reminderTimesAfter (day 1 - 20 * 60 * 1000) task_R
       defaultReminderMinutes !! i = Some time ->
     notifications
       (scheduleRemindersForTask (day 1 - 20 * 60 * 1000) (5, task_R)
          defaultReminderMinutes nstore_R)
       !! (nextNotificationId nstore_R + Z.of_nat i)
     = Some (reminderRow 5 (userId task_R) time)) /\
  (forall k n,
     (k, n) ∈ select_where (fun _ n => unsentReminder 5 n)
                (scheduleRemindersForTask (day 1 - 20 * 60 * 1000) (5, task_R)
                   defaultReminderMinutes nstore_R) <->
     exists (i : nat) time,
       reminderTimesAfter (day 1 - 20 * 60 * 1000) task_R
         defaultReminderMinutes !! i = Some time /\
       k = nextNotificationId nstore_R + Z.of_nat i /\
       n = reminderRow 5 (userId task_R) time).
Proof.
  apply (scheduleRemindersForTask_spec (day 1 - 20 * 60 * 1000) 5 task_R
           defaultReminderMinutes nstore_R).
  by_decision.
Defined.

(** The reminders of the task of the example: the one for half an hour
    before is not scheduled again, the one that was sent stays. *)
Example scheduleRemindersForTask_nstore_R :
  (fun ns' => ((fun k => notifications ns' !! k) <$> [1; 2; 3; 4; 5; 6],
               nextNotificationId ns'))
    (scheduleRemindersForTask (day 1 - 20 * 60 * 1000) (5, task_R)
       defaultReminderMinutes nstore_R)
  = ([None;
      Some (set_isSent true (reminderRow 5 7 (day 1 - 30 * 60 * 1000)));
      Some (reminderRow 6 7 (day 2));
      Some (reminderRow 5 7 (day 1 - 10 * 60 * 1000));
      Some (reminderRow 5 7 (day 1 - 5 * 60 * 1000));
      None], 6).
Proof. by vm_compute. Qed.

(** ** Sending the notifications that are due *)

Lemma select_where_nil P ns :
  select_where P ns = [] <->
  forall k n, notifications ns !! k = Some n -> P k n = false.
Proof.
  split.
  - intros E k n Hk. destruct (P k n) eqn:HP; [|done].
    assert ((k, n) ∈ select_where P ns) as Hin by by apply elem_of_select_where.
    rewrite E in Hin. by apply elem_of_nil in Hin.
  - intros H. destruct (select_where P ns) as [|[k n] l] eqn:E; [done|].
    assert ((k, n) ∈ select_where P ns) as Hin by (rewrite E; left).
    apply elem_of_select_where in Hin as [Hk HP]. rewrite (H _ _ Hk) in HP. done.
Qed.

Lemma set_isSent_idemp b n : set_isSent b (set_isSent b n) = set_isSent b n.
Proof. done. Qed.

(** Marking the notifications of a list as sent, one after the other. *)
Lemma foldl_markAsSent (l : list (Z * Notification.t)) :
  forall ns,
    nextNotificationId
      (foldl (fun ns' notification =>
                NotificationsService.markAsSent notification.1 ns') ns l)
    = nextNotificationId ns /\
    forall k,
      notifications
        (foldl (fun ns' notification =>
                  NotificationsService.markAsSent notification.1 ns') ns l) !! k
      = (fun n => if bool_decide (k ∈ l.*1) then set_isSent true n else n)
        <$> notifications ns !! k.
Proof.
  induction l as [|[a na] l IH]; intros ns; cbn [foldl fst].
  { split; [done|]. intros k. by destruct (notifications ns !! k). }
  destruct (IH (NotificationsService.markAsSent a ns)) as [Hnext Hrows].
  split; [by rewrite Hnext|]. intros k. rewrite Hrows.
  unfold NotificationsService.markAsSent. rewrite lookup_update_where.
  destruct (notifications ns !! k) as [n|]; [|done]. cbn [fmap option_fmap option_map].
  f_equal. rewrite fmap_cons. cbn [fst].
  destruct (Z.eqb_spec k a) as [->|Hne].
  - rewrite (bool_decide_eq_true_2 (a ∈ a :: l.*1)) by left.
    by destruct (bool_decide (a ∈ l.*1)).
  - destruct (decide (k ∈ l.*1)) as [Hin|Hout].
    + rewrite !bool_decide_eq_true_2; [done|by right|done].
    + rewrite !bool_decide_eq_false_2; [done| |done].
      by intros [?|?]%elem_of_cons.
Qed.

(** X27. Sending what is due: [handlePendingNotifications] marks as sent
    exactly the notifications that [getPendingScheduledNotifications]
    returns, the unsent ones that are scheduled for now or earlier, and
    changes nothing else; afterwards nothing is pending for now or any
    earlier instant, so that a second run at once changes nothing and no
    notification is handled twice. *)
Theorem handlePendingNotifications_spec (now : Z) (ns : NStore) :
  (forall k n,
     (k, n) ∈ NotificationsService.getPendingScheduledNotifications now ns <->
     notifications ns !! k = Some n /\ Notification.isSent n = false /\
     exists d, Notification.scheduledFor n = Some d /\ d <= now) /\
  nextNotificationId (handlePendingNotifications now ns)
  = nextNotificationId ns /\
  (forall k,
     notifications (handlePendingNotifications now ns) !! k
     = (fun n => if pending now n then set_isSent true n else n)
       <$> notifications ns !! k) /\
  (forall now', now' <= now ->
     NotificationsService.getPendingScheduledNotifications now'
       (handlePendingNotifications now ns) = []) /\
  handlePendingNotifications now (handlePendingNotifications now ns)
  = handlePendingNotifications now ns.
Proof.
  assert (forall k n,
    (k, n) ∈ NotificationsService.getPendingScheduledNotifications now ns <->
    notifications ns !! k = Some n /\ pending now n = true) as Hpending.
  { intros k n. exact (elem_of_select_where (fun _ n => pending now n) ns k n). }
  destruct (foldl_markAsSent
              (NotificationsService.getPendingScheduledNotifications now ns) ns)
    as [Hnext Hrows].
  fold (handlePendingNotifications now ns) in Hnext, Hrows.
  assert (forall k,
    notifications (handlePendingNotifications now ns) !! k
    = (fun n => if pending now n then set_isSent true n else n)
      <$> notifications ns !! k) as Hrows'.
  { intros k. rewrite Hrows.
    destruct (notifications ns !! k) as [n|] eqn:Hk; [|done].
    cbn [fmap option_fmap option_map]. f_equal.
    destruct (pending now n) eqn:Hp.
    - rewrite bool_decide_eq_true_2; [done|].
      apply list_elem_of_fmap. exists (k, n). split; [done|]. by apply Hpending.
    - rewrite bool_decide_eq_false_2; [done|].
      intros [[k' n'] [-> [Hk' Hp']%Hpending]]%list_elem_of_fmap.
      cbn [fst] in Hk. congruence. }
  assert (forall now', now' <= now ->
    NotificationsService.getPendingScheduledNotifications now'
      (handlePendingNotifications now ns) = []) as Hnone.
  { intros now' Hle.
    apply (select_where_nil (fun _ n => pending now' n)).
    intros k n'. rewrite Hrows'.
    destruct (notifications ns !! k) as [n|]; [|done].
    cbn [fmap option_fmap option_map]. intros [= <-].
    destruct (pending now n) eqn:Hp; [done|].
    revert Hp. unfold pending. destruct (Notification.isSent n); [done|].
    destruct (Notification.scheduledFor n) as [d|]; [|done]. cbn [negb andb].
    intros Hd%Z.leb_gt. apply Z.leb_gt. lia. }
  split.
  { intros k n. rewrite Hpending. unfold pending.
    destruct (Notification.isSent n), (Notification.scheduledFor n) as [d|];
      cbn [negb andb]; rewrite ?Z.leb_le; split;
      try (intros (? & ? & ? & ? & ?)); try (intros [? ?]); try done.
    - split; [done|]. split; [done|]. by exists d.
    - split; [done|]. congruence. }
  do 2 (split; [done|]). split; [exact Hnone|].
  unfold handlePendingNotifications at 1. by rewrite (Hnone now).
Qed.

(** ** Overdue notifications *)

Lemma checkOverdueTasks_foldl now s ns :
  checkOverdueTasks now s ns
  = foldl overdueStep ns (find_where (fun _ t => overdue now t) s).
Proof. done. Qed.

Lemma newest_first_Permutation l : newest_first l ≡ₚ l.
Proof. apply merge_sort_Permutation. Qed.

Lemma select_where_ext P Q ns :
  (forall k n, P k n = Q k n) -> select_where P ns = select_where Q ns.
Proof. intros H. unfold select_where. apply List.filter_ext. intros [k n]. apply H. Qed.

Lemma matches_overdue uid n :
  NotificationsService.matches uid
    (NotificationFilterDto.mk None (Some TASK_OVERDUE) None None None) n
  = overdueOf uid n.
Proof.
  unfold NotificationsService.matches, overdueOf.
  cbn [NotificationFilterDto.isRead NotificationFilterDto.type
       NotificationFilterDto.priority].
  by rewrite !andb_true_r.
Qed.

(** The page that [checkOverdueTasks] looks at: the ten newest overdue
    notifications of the user. *)
Lemma findAll_overdue uid ns :
  (NotificationsService.findAll uid
     (NotificationFilterDto.mk None (Some TASK_OVERDUE) None None None) ns).1
  = take 10 (newest_first (select_where (fun _ n => overdueOf uid n) ns)).
Proof.
  unfold NotificationsService.findAll.
  cbn [fst NotificationFilterDto.page NotificationFilterDto.limit default].
  change (Pos.to_nat 10) with 10%nat.
  change ((Pos.to_nat 1 - 1) * 10)%nat with 0%nat. rewrite drop_0.
  do 2 f_equal. apply select_where_ext. intros _ n. apply matches_overdue.
Qed.

Lemma existsb_elem_of {A} (f : A -> bool) (l : list A) :
  existsb f l = true <-> exists x, x ∈ l /\ f x = true.
Proof.
  rewrite existsb_exists. split; intros (x & Hx & Hf); exists x;
    (split; [by apply list_elem_of_In|done]).
Qed.

Lemma overdueFor_overdueRow id t :
  overdueFor id (userId t) (overdueRow id t) = true.
Proof.
  unfold overdueFor, overdueOf, overdueRow.
  cbn [Notification.userId Notification.type Notification.taskId opt_eqb].
  by rewrite !Z.eqb_refl.
Qed.

(** One turn of the loop: the store stays as it is when the page has an
    overdue notification of the task; otherwise one is added, and if the
    user has at most ten overdue notifications there was none. *)
Lemma overdueStep_spec ns id t :
  (overdueStep ns (id, t) = ns /\
   exists k n, notifications ns !! k = Some n /\
               overdueFor id (userId t) n = true) \/
  (notifications (overdueStep ns (id, t))
   = <[nextNotificationId ns := overdueRow id t]> (notifications ns) /\
   nextNotificationId (overdueStep ns (id, t)) = nextNotificationId ns + 1 /\
   ((length (select_where (fun _ n => overdueOf (userId t) n) ns) <= 10)%nat ->
    forall k n, notifications ns !! k = Some n ->
                overdueFor id (userId t) n = false)).
Proof.
  unfold overdueStep. cbn [fst snd]. rewrite findAll_overdue.
  set (page := take 10 _).
  destruct (existsb _ page) eqn:Hhas; cbn [negb].
  - left. split; [done|].
    apply existsb_elem_of in Hhas as ([k n] & Hin & Htask). exists k, n.
    apply elem_of_take in Hin as (i & Hi & _).
    apply list_elem_of_lookup_2 in Hi.
    rewrite newest_first_Permutation in Hi.
    apply elem_of_select_where in Hi as [Hk Hov].
    split; [done|]. unfold overdueFor. by rewrite Hov.
  - right. split; [done|]. split; [done|].
    intros Hcount k n Hk. unfold overdueFor.
    destruct (overdueOf (userId t) n) eqn:Hov; [|done]. cbn [andb].
    destruct (opt_eqb (Notification.taskId n) id) eqn:Htask; [|done].
    assert (existsb (fun notification : Z * Notification.t =>
                       opt_eqb (Notification.taskId notification.2) id) page
            = true) as Hyes; [|congruence].
    apply existsb_elem_of. exists (k, n). split; [|done].
    unfold page. rewrite take_ge.
    + rewrite newest_first_Permutation. by apply elem_of_select_where.
    + by rewrite newest_first_Permutation.
Qed.

Lemma select_where_length_mono P ns ns' :
  (forall k n, notifications ns !! k = Some n -> notifications ns' !! k = Some n) ->
  (length (select_where P ns) <= length (select_where P ns'))%nat.
Proof.
  intros Hsub. apply submseteq_length, NoDup_submseteq; [apply NoDup_select_where|].
  intros [k n] [Hk HP]%elem_of_select_where. apply elem_of_select_where.
  split; [by apply Hsub|done].
Qed.

(** The loop of [checkOverdueTasks]. *)
Lemma overdue_loop :
  forall (L : list (Z * Task)) ns,
    nkeys_fresh ns -> NoDup L.*1 ->
    nkeys_fresh (foldl overdueStep ns L) /\
    (forall k, k < nextNotificationId ns ->
       notifications (foldl overdueStep ns L) !! k = notifications ns !! k) /\
    (forall k n, notifications (foldl overdueStep ns L) !! k = Some n ->
       nextNotificationId ns <= k ->
       exists id t, (id, t) ∈ L /\ n = overdueRow id t) /\
    (forall id t, (id, t) ∈ L ->
       exists k n, notifications (foldl overdueStep ns L) !! k = Some n /\
                   overdueFor id (userId t) n = true) /\
    ((forall uid,
        (length (select_where (fun _ n => overdueOf uid n)
                   (foldl overdueStep ns L)) <= 10)%nat) ->
     forall k n, notifications (foldl overdueStep ns L) !! k = Some n ->
       nextNotificationId ns <= k ->
       forall k0 n0, notifications (foldl overdueStep ns L) !! k0 = Some n0 ->
                     sameSubject n n0 -> k0 = k).
Proof.
  induction L as [|[id t] L IH]; intros ns Hfresh Hnd; cbn [foldl].
  { split; [done|]. split; [done|]. split.
    { intros k n Hk Hge. pose proof (Hfresh k n Hk) as Hlt. cbn beta in Hlt. lia. }
    split; [by intros id t Hin%elem_of_nil|].
    intros _ k n Hk Hge. pose proof (Hfresh k n Hk) as Hlt. cbn beta in Hlt. lia. }
  rewrite fmap_cons in Hnd. apply NoDup_cons in Hnd as [Hid Hnd]. cbn [fst] in Hid.
  set (ns1 := overdueStep ns (id, t)) in *.
  assert (nkeys_fresh ns1 /\
          nextNotificationId ns <= nextNotificationId ns1 /\
          (forall k, k < nextNotificationId ns ->
                     notifications ns1 !! k = notifications ns !! k) /\
          (forall k n, notifications ns1 !! k = Some n ->
                       nextNotificationId ns <= k ->
                       k = nextNotificationId ns /\ n = overdueRow id t /\
                       ((length (select_where
                                   (fun _ n => overdueOf (userId t) n) ns)
                         <= 10)%nat ->
                        forall k0 n0, notifications ns !! k0 = Some n0 ->
                                      overdueFor id (userId t) n0 = false)) /\
          exists k n, notifications ns1 !! k = Some n /\
                      overdueFor id (userId t) n = true)
    as (Hfresh1 & Hnext1 & Hold1 & Hnew1 & Hhas1).
  { destruct (overdueStep_spec ns id t) as [[Hsame Hhas]|(Hrows & Hnext & Hnone)];
      fold ns1 in Hsame || fold ns1 in Hrows, Hnext.
    - rewrite Hsame. split; [done|]. split; [lia|]. split; [done|].
      split; [|done]. intros k n Hk Hge.
      pose proof (Hfresh k n Hk) as Hlt. cbn beta in Hlt. lia.
    - split.
      { intros k n. rewrite Hrows, Hnext.
        destruct (decide (k = nextNotificationId ns)) as [->|Hne]; [lia|].
        rewrite lookup_insert_ne by done. intros Hk.
        pose proof (Hfresh k n Hk) as Hlt. cbn beta in Hlt. lia. }
      split; [lia|]. split.
      { intros k Hk. rewrite Hrows. apply lookup_insert_ne. lia. }
      split.
      { intros k n. rewrite Hrows.
        destruct (decide (k = nextNotificationId ns)) as [->|Hne].
        - rewrite lookup_insert_eq. by intros [= <-] _.
        - rewrite lookup_insert_ne by done. intros Hk Hge.
          pose proof (Hfresh k n Hk) as Hlt. cbn beta in Hlt. lia. }
      exists (nextNotificationId ns), (overdueRow id t).
      split; [by rewrite Hrows, lookup_insert_eq|apply overdueFor_overdueRow]. }
  destruct (IH ns1 Hfresh1 Hnd) as (Hfresh' & Hold' & Hnew' & Hhas' & Huniq').
  split; [done|]. split.
  { intros k Hk. rewrite Hold' by lia. by apply Hold1. }
  split.
  { intros k n Hk Hge.
    destruct (Z.lt_ge_cases k (nextNotificationId ns1)) as [Hlt|Hge1].
    - rewrite Hold' in Hk by done.
      destruct (Hnew1 k n Hk Hge) as (_ & -> & _). exists id, t. split; [left|done].
    - destruct (Hnew' k n Hk Hge1) as (id' & t' & Hin & ->).
      exists id', t'. split; [by right|done]. }
  split.
  { intros id' t' [[= -> ->]|Hin]%elem_of_cons; [|by apply Hhas'].
    destruct Hhas1 as (k & n & Hk & Hov). exists k, n. split; [|done].
    rewrite Hold'; [done|]. exact (Hfresh1 k n Hk). }
  intros Hbound k n Hk Hge k0 n0 Hk0 Hsame.
  destruct (Z.lt_ge_cases k (nextNotificationId ns1)) as [Hlt|Hge1];
    [|by apply (Huniq' Hbound k n Hk Hge1 k0 n0)].
  rewrite Hold' in Hk by done.
  destruct (Hnew1 k n Hk Hge) as (-> & -> & Hnone).
  destruct Hsame as (Hty & Hu & Htask).
  cbn [overdueRow Notification.type Notification.userId Notification.taskId]
    in Hty, Hu, Htask.
  destruct (Z.lt_ge_cases k0 (nextNotificationId ns1)) as [Hlt0|Hge0].
  - rewrite Hold' in Hk0 by done.
    destruct (Z.lt_ge_cases k0 (nextNotificationId ns)) as [Hlt1|Hge2].
    + exfalso. rewrite Hold1 in Hk0 by done.
      assert (overdueFor id (userId t) n0 = false) as Hnot.
      { apply (Hnone) with (k0 := k0); [|done].
        etrans; [|apply (Hbound (userId t))].
        apply select_where_length_mono. intros k1 n1 Hk1.
        pose proof (Hfresh k1 n1 Hk1) as Hlt2. cbn beta in Hlt2.
        rewrite Hold' by lia. by rewrite Hold1. }
      revert Hnot. unfold overdueFor, overdueOf.
      rewrite Hty, Hu, Htask, Z.eqb_refl. cbn [opt_eqb].
      by rewrite Z.eqb_refl.
    + by destruct (Hnew1 k0 n0 Hk0 Hge2) as (-> & _).
  - exfalso. destruct (Hnew' k0 n0 Hk0 Hge0) as (id' & t' & Hin & ->).
    cbn [overdueRow Notification.taskId] in Htask. injection Htask as ->.
    apply Hid. apply list_elem_of_fmap. by exists (id, t').
Qed.

Lemma foldl_fixed {A B} (f : A -> B -> A) (a : A) (l : list B) :
  (forall x, x ∈ l -> f a x = a) -> foldl f a l = a.
Proof.
  induction l as [|x l IH]; intros Hf; cbn [foldl]; [done|].
  rewrite (Hf x) by left. apply IH. intros y Hy. apply Hf. by right.
Qed.

(** X28. Overdue notifications: [checkOverdueTasks] only adds rows, and
    every row it adds is the overdue notification (high priority, unread,
    unsent) of a task that is due and not completed, for its owner.
    Afterwards every such task has an overdue notification.  As long as
    no user has more than ten overdue notifications, a notification that
    was added is the only overdue notification of its task, and a second
    run at once adds nothing. *)
Theorem checkOverdueTasks_spec (now : Z) (s : Store) (ns : NStore) :
  nkeys_fresh ns ->
  nkeys_fresh (checkOverdueTasks now s ns) /\
  (forall k, k < nextNotificationId ns ->
     notifications (checkOverdueTasks now s ns) !! k = notifications ns !! k) /\
  (forall k n,
     notifications (checkOverdueTasks now s ns) !! k = Some n ->
     nextNotificationId ns <= k ->
     exists id t, tasks s !! id = Some t /\ overdue now t = true /\
                  n = overdueRow id t) /\
  (forall id t, tasks s !! id = Some t -> overdue now t = true ->
     exists k n, notifications (checkOverdueTasks now s ns) !! k = Some n /\
                 overdueFor id (userId t) n = true) /\
  ((forall uid,
      (length (select_where (fun _ n => overdueOf uid n)
                 (checkOverdueTasks now s ns)) <= 10)%nat) ->
   (forall k n,
      notifications (checkOverdueTasks now s ns) !! k = Some n ->
      nextNotificationId ns <= k ->
      forall k0 n0,
        notifications (checkOverdueTasks now s ns) !! k0 = Some n0 ->
        sameSubject n n0 -> k0 = k) /\
   checkOverdueTasks now s (checkOverdueTasks now s ns)
   = checkOverdueTasks now s ns).
Proof.
  intros Hfresh. rewrite !checkOverdueTasks_foldl.
  set (L := find_where (fun _ t => overdue now t) s).
  assert (forall id t, (id, t) ∈ L <->
            tasks s !! id = Some t /\ overdue now t = true) as HL.
  { intros id t.
    exact (elem_of_find_where (fun _ t => overdue now t) s id t). }
  destruct (overdue_loop L ns Hfresh (NoDup_fst_find_where _ s))
    as (Hfresh' & Hold & Hnew & Hhas & Huniq).
  split; [done|]. split; [done|]. split.
  { intros k n Hk Hge. destruct (Hnew k n Hk Hge) as (id & t & Hin & ->).
    apply HL in Hin as [? ?]. by exists id, t. }
  split.
  { intros id t Hid Hov. apply Hhas. by apply HL. }
  intros Hbound. split; [by apply Huniq|].
  apply foldl_fixed.
  intros [id t] Hin.
  destruct (overdueStep_spec (foldl overdueStep ns L) id t)
    as [[Hsame _]|(_ & _ & Hnone)]; [done|].
  exfalso. destruct (Hhas id t Hin) as (k & n & Hk & Hov).
  rewrite (Hnone (Hbound (userId t)) k n Hk) in Hov. done.
Qed.

Lemma checkOverdueTasks_spec_witness :
  nkeys_fresh (checkOverdueTasks (day 3) store_T (mkNStore ∅ 1)) /\
  (forall k, k < nextNotificationId (mkNStore ∅ 1) ->
     notifications (checkOverdueTasks (day 3) store_T (mkNStore ∅ 1)) !! k
     = notifications (mkNStore ∅ 1) !! k) /\
  (forall k n,
     notifications (checkOverdueTasks (day 3) store_T (mkNStore ∅ 1)) !! k
     = Some n ->
     nextNotificationId (mkNStore ∅ 1) <= k ->
     exists id t, tasks store_T !! id = Some t /\ overdue (day 3) t = true /\
                  n = overdueRow id t) /\
  (forall id t, tasks store_T !! id = Some t -> overdue (day 3) t = true ->
     exists k n,
       notifications (checkOverdueTasks (day 3) store_T (mkNStore ∅ 1)) !! k
       = Some n /\
       overdueFor id (userId t) n = true) /\
  ((forall uid,
      (length (select_where (fun _ n => overdueOf uid n)
                 (checkOverdueTasks (day 3) store_T (mkNStore ∅ 1))) <= 10)%nat) ->
   (forall k n,
      notifications (checkOverdueTasks (day 3) store_T (mkNStore ∅ 1)) !! k
      = Some n ->
      nextNotificationId (mkNStore ∅ 1) <= k ->
      forall k0 n0,
        notifications (checkOverdueTasks (day 3) store_T (mkNStore ∅ 1)) !! k0
        = Some n0 ->
        sameSubject n n0 -> k0 = k) /\
   checkOverdueTasks (day 3) store_T
     (checkOverdueTasks (day 3) store_T (mkNStore ∅ 1))
   = checkOverdueTasks (day 3) store_T (mkNStore ∅ 1)).
Proof.
  apply (checkOverdueTasks_spec (day 3) store_T (mkNStore ∅ 1)). by_decision.
Defined.

(** ** Overdue notifications beyond the first page *)

Lemma newer_total : Total newer.
Proof. intros x y. unfold newer. lia. Qed.

Lemma newer_trans : Transitive newer.
Proof. intros x y z. unfold newer. lia. Qed.

Lemma newest_first_sorted l : StronglySorted newer (newest_first l).
Proof.
  pose proof newer_total. pose proof newer_trans.
  apply StronglySorted_merge_sort; apply _.
Qed.

(** In a list by descending keys, the rows with a larger key than the
    row at a position are fewer than the position. *)
Lemma newer_before (l : list (Z * Notification.t)) :
  StronglySorted newer l ->
  forall (i : nat) k n, l !! i = Some (k, n) ->
    (length (List.filter (fun x : Z * Notification.t => (k <? x.1)%Z) l) <= i)%nat.
Proof.
  induction 1 as [|x l Hsorted IH Hall]; intros i k n Hi; [done|].
  destruct i as [|i]; cbn [lookup list_lookup] in Hi.
  - injection Hi as ->. cbn [List.filter fst]. rewrite Z.ltb_irrefl.
    assert (List.filter (fun x : Z * Notification.t => (k <? x.1)%Z) l = []) as ->;
      [|done].
    clear -Hall. induction Hall as [|y l Hy _ IHl]; [done|].
    cbn [List.filter]. unfold newer in Hy. cbn [fst] in Hy.
    destruct (Z.ltb_spec k y.1); [lia|done].
  - cbn [List.filter]. specialize (IH i k n Hi).
    destruct (k <? x.1); cbn [length]; lia.
Qed.

Lemma overdue_loop_next (L : list (Z * Task)) :
  forall ns, nextNotificationId ns <= nextNotificationId (foldl overdueStep ns L).
Proof.
  induction L as [|[id t] L IH]; intros ns; cbn [foldl]; [lia|].
  etrans; [|apply IH].
  destruct (overdueStep_spec ns id t) as [[-> _]|(_ & -> & _)]; lia.
Qed.

(** X29. Beyond the first page: [checkOverdueTasks] looks for the overdue
    notification of a task among the ten newest overdue notifications of
    its owner only.  When every overdue notification that a task has is
    older than ten other overdue notifications of the owner, the task,
    as long as it is due and not completed, gets one more overdue
    notification at every run. *)
Theorem checkOverdueTasks_duplicates (now : Z) (s : Store) (ns : NStore)
    (id : Z) (t : Task) :
  nkeys_fresh ns ->
  tasks s !! id = Some t -> overdue now t = true ->
  (forall k n, notifications ns !! k = Some n ->
     overdueFor id (userId t) n = true ->
     (10 <= length (select_where
                      (fun k' n' => overdueOf (userId t) n' && (k <? k')%Z) ns))%nat) ->
  exists k, nextNotificationId ns <= k /\
            notifications (checkOverdueTasks now s ns) !! k
            = Some (overdueRow id t).
Proof.
  intros Hfresh Hid Hov Hoff. rewrite checkOverdueTasks_foldl.
  pose proof (NoDup_fst_find_where (fun _ t => overdue now t) s) as Hnd.
  assert ((id, t) ∈ find_where (fun _ t => overdue now t) s) as Hin
    by by apply elem_of_find_where.
  apply list_elem_of_split in Hin as (l1 & l2 & HL). rewrite HL in Hnd |- *.
  rewrite fmap_app, fmap_cons in Hnd.
  apply NoDup_app in Hnd as (Hnd1 & Hdisj & Hnd2). cbn [fst] in Hdisj.
  apply NoDup_cons in Hnd2 as [_ Hnd2].
  rewrite foldl_app. cbn [foldl].
  destruct (overdue_loop l1 ns Hfresh Hnd1) as (Hfresha & Holda & Hnewa & _ & _).
  pose proof (overdue_loop_next l1 ns) as Hnexta.
  set (nsa := foldl overdueStep ns l1) in *.
  assert (notifications (overdueStep nsa (id, t))
          = <[nextNotificationId nsa := overdueRow id t]> (notifications nsa) /\
          nextNotificationId (overdueStep nsa (id, t))
          = nextNotificationId nsa + 1) as [Hrows Hnext].
  { unfold overdueStep. cbn [fst snd]. rewrite findAll_overdue.
    destruct (existsb _ (take 10 _)) eqn:Hhas; cbn [negb]; [exfalso|done].
    apply existsb_elem_of in Hhas as ([k n] & Hpage & Htask).
    cbn [snd] in Htask. apply opt_eqb_true in Htask.
    apply elem_of_take in Hpage as (i & Hi & Hlt).
    pose proof (newer_before _ (newest_first_sorted _) i k n Hi) as Hfew.
    apply list_elem_of_lookup_2 in Hi. rewrite newest_first_Permutation in Hi.
    apply elem_of_select_where in Hi as [Hk Hown].
    destruct (Z.lt_ge_cases k (nextNotificationId ns)) as [Hold|Hnew].
    - rewrite Holda in Hk by done.
      assert (overdueFor id (userId t) n = true) as Hfor.
      { unfold overdueFor. rewrite Hown, Htask. cbn [opt_eqb andb].
        apply Z.eqb_refl. }
      specialize (Hoff k n Hk Hfor).
      assert (length (select_where
                        (fun k' n' => overdueOf (userId t) n' && (k <? k')%Z) ns)
              <= length (List.filter
                           (fun x : Z * Notification.t => (k <? x.1)%Z)
                           (newest_first
                              (select_where
                                 (fun _ n => overdueOf (userId t) n) nsa))))%nat
        as Hle; [|lia].
      apply submseteq_length, NoDup_submseteq; [apply NoDup_select_where|].
      intros [k' n'] [Hk' [Hown' Hnewer]%andb_true_iff]%elem_of_select_where.
      apply elem_of_List_filter. split; [|done].
      rewrite newest_first_Permutation. apply elem_of_select_where.
      split; [|done]. rewrite Holda; [done|]. exact (Hfresh k' n' Hk').
    - destruct (Hnewa k n Hk Hnew) as (id' & t' & Hin' & ->).
      cbn [overdueRow Notification.taskId] in Htask. injection Htask as ->.
      apply (Hdisj id); [|left].
      apply list_elem_of_fmap. by exists (id, t'). }
  assert (nkeys_fresh (overdueStep nsa (id, t))) as Hfreshb.
  { intros k n. rewrite Hrows, Hnext.
    destruct (decide (k = nextNotificationId nsa)) as [->|Hne]; [lia|].
    rewrite lookup_insert_ne by done. intros Hk.
    pose proof (Hfresha k n Hk) as Hlt. cbn beta in Hlt. lia. }
  destruct (overdue_loop l2 _ Hfreshb Hnd2) as (_ & Holdb & _).
  exists (nextNotificationId nsa). split; [done|].
  rewrite Holdb by lia. by rewrite Hrows, lookup_insert_eq.
Qed.

Lemma checkOverdueTasks_duplicates_witness :
  exists k, nextNotificationId nstore_O <= k /\
            notifications (checkOverdueTasks (day 3) store_T nstore_O) !! k
            = Some (overdueRow 2 (plainTask 7 "T" (day 1) false (Some 1))).
Proof.
  apply (checkOverdueTasks_duplicates (day 3) store_T nstore_O 2
           (plainTask 7 "T" (day 1) false (Some 1))).
  - by_decision.
  - by vm_compute.
  - by vm_compute.
  - change (map_Forall
              (fun k n =>
                 overdueFor 2 (userId (plainTask 7 "T" (day 1) false (Some 1))) n
                 = true ->
                 le 10%nat
                    (length
                       (select_where
                          (fun k' n' =>
                             overdueOf
                               (userId (plainTask 7 "T" (day 1) false (Some 1)))
                               n'
                             && (k <? k')) nstore_O)))
              (notifications nstore_O)).
    by_decision.
Defined.

(** ** Reading notifications *)

Lemma List_filter_fmap {A B} (f : B -> bool) (g : A -> B) (l : list A) :
  List.filter f (g <$> l) = g <$> List.filter (fun x => f (g x)) l.
Proof.
  induction l as [|x l IH]; [done|]. rewrite fmap_cons. cbn [List.filter].
  destruct (f (g x)); [rewrite fmap_cons|]; by rewrite IH.
Qed.

(** The number of rows that satisfy a condition, after every row went
    through [g]. *)
Lemma select_where_fmap_length (P : Notification.t -> bool)
    (g : Notification.t -> Notification.t) ns ns' :
  notifications ns' = g <$> notifications ns ->
  length (select_where (fun _ n => P n) ns')
  = length (select_where (fun _ n => P (g n)) ns).
Proof.
  intros Hrows. unfold select_where.
  rewrite Hrows, map_to_list_fmap, List_filter_fmap.
  by rewrite length_fmap.
Qed.

(** The number of rows that satisfy a condition, after one row was
    written. *)
Lemma select_where_insert_length (P : Notification.t -> bool) ns ns' id n n' :
  notifications ns !! id = Some n ->
  notifications ns' = <[id := n']> (notifications ns) ->
  (length (select_where (fun _ n => P n) ns) + (if P n' then 1 else 0)
   = length (select_where (fun _ n => P n) ns') + (if P n then 1 else 0))%nat.
Proof.
  intros Hid Hrows. unfold select_where. rewrite Hrows.
  rewrite <- (filter_Permutation _ _ _ (map_to_list_delete _ _ _ Hid)).
  rewrite <- insert_delete_eq.
  rewrite (filter_Permutation _ _ _
             (map_to_list_insert (delete id (notifications ns)) id n'
                (lookup_delete_eq _ _))).
  cbn [List.filter snd]. destruct (P n), (P n'); cbn [length]; lia.
Qed.

Lemma set_isRead_read n :
  Notification.isRead n = true -> set_isRead true n = n.
Proof. destruct n. cbn [Notification.isRead set_isRead]. by intros ->. Qed.

(** X30. Reading notifications.  A notification that is missing or
    belongs to somebody else is not found, and cannot be marked as read,
    updated or removed.  [markAsRead] of a notification of the user sets
    its read flag and nothing else, and the unread count of the user
    falls by one if it was unread.  [markAllAsRead] sets the read flag of
    the notifications of the user and of no others: the unread count of
    the user is then zero and that of every other user as before.  The
    unread count is the total that [findAll] reports for the unread
    notifications. *)
Theorem notifications_read_state (id uid : Z) (ns : NStore) :
  (NotificationsService.findOne id uid ns = inl NotFound <->
   ~ exists n, notifications ns !! id = Some n /\ Notification.userId n = uid) /\
  (NotificationsService.findOne id uid ns = inl NotFound ->
   NotificationsService.markAsRead id uid ns = inl NotFound /\
   NotificationsService.remove id uid ns = inl NotFound /\
   forall dto, NotificationsService.update id uid dto ns = inl NotFound) /\
  (forall n, NotificationsService.findOne id uid ns = inr n ->
     exists ns',
       NotificationsService.markAsRead id uid ns = inr (set_isRead true n, ns') /\
       notifications ns' = <[id := set_isRead true n]> (notifications ns) /\
       nextNotificationId ns' = nextNotificationId ns /\
       NotificationsService.findOne id uid ns' = inr (set_isRead true n) /\
       NotificationsService.getUnreadCount uid ns
       = (NotificationsService.getUnreadCount uid ns'
          + if Notification.isRead n then 0 else 1)%nat) /\
  NotificationsService.getUnreadCount uid
    (NotificationsService.markAllAsRead uid ns) = 0%nat /\
  (forall k,
     notifications (NotificationsService.markAllAsRead uid ns) !! k
     = (fun n => if Notification.userId n =? uid then set_isRead true n else n)
       <$> notifications ns !! k) /\
  (forall uid', uid' <> uid ->
     NotificationsService.getUnreadCount uid'
       (NotificationsService.markAllAsRead uid ns)
     = NotificationsService.getUnreadCount uid' ns) /\
  (NotificationsService.findAll uid
     (NotificationFilterDto.mk (Some false) None None None None) ns).2
  = NotificationsService.getUnreadCount uid ns.
Proof.
  assert (forall k,
    notifications (NotificationsService.markAllAsRead uid ns) !! k
    = (fun n => if Notification.userId n =? uid then set_isRead true n else n)
      <$> notifications ns !! k) as Hall.
  { intros k. unfold NotificationsService.markAllAsRead.
    rewrite lookup_update_where.
    destruct (notifications ns !! k) as [n|]; [|done].
    cbn [fmap option_fmap option_map]. f_equal.
    destruct (Notification.userId n =? uid); [|done].
    destruct (Notification.isRead n) eqn:Hread; [|done].
    cbn [negb andb]. by rewrite set_isRead_read. }
  assert (notifications (NotificationsService.markAllAsRead uid ns)
          = (fun n => if Notification.userId n =? uid
                      then set_isRead true n else n)
            <$> notifications ns) as Hmap.
  { apply map_eq. intros k. by rewrite Hall, lookup_fmap. }
  split.
  { unfold NotificationsService.findOne.
    destruct (notifications ns !! id) as [n|]; [|split; [by intros _ (? & ? & ?)|done]].
    destruct (Z.eqb_spec (Notification.userId n) uid) as [Hu|Hu].
    - split; [done|]. intros []. by exists n.
    - split; [|done]. intros _ (n' & [= <-] & ?). done. }
  split.
  { intros Hnone.
    unfold NotificationsService.markAsRead, NotificationsService.update,
      NotificationsService.remove.
    by rewrite Hnone. }
  split.
  { intros n Hn. eexists.
    unfold NotificationsService.markAsRead, NotificationsService.update.
    rewrite Hn.
    assert (assign_notification
              (UpdateNotificationDto.mk None None None None None None None
                 (Some true) None) n = set_isRead true n) as ->.
    { unfold assign_notification, set_isRead.
      cbn [UpdateNotificationDto.type UpdateNotificationDto.title
           UpdateNotificationDto.message UpdateNotificationDto.priority
           UpdateNotificationDto.isRead UpdateNotificationDto.scheduledFor
           UpdateNotificationDto.isSent UpdateNotificationDto.taskId
           UpdateNotificationDto.metadata default].
      done. }
    split; [reflexivity|]. cbn [notifications nextNotificationId].
    do 2 (split; [done|]).
    assert (notifications ns !! id = Some n /\ Notification.userId n = uid)
      as [Hid Hu].
    { revert Hn. unfold NotificationsService.findOne.
      destruct (notifications ns !! id) as [n'|]; [|done].
      destruct (Z.eqb_spec (Notification.userId n') uid); [|done].
      by intros [= ->]. }
    split.
    { unfold NotificationsService.findOne. cbn [notifications].
      rewrite lookup_insert_eq. cbn [set_isRead Notification.userId].
      rewrite Hu, Z.eqb_refl. done. }
    unfold NotificationsService.getUnreadCount.
    pose proof (select_where_insert_length
                  (fun n => (Notification.userId n =? uid)
                            && negb (Notification.isRead n))
                  ns (mkNStore (<[id := set_isRead true n]> (notifications ns))
                               (nextNotificationId ns))
                  id n (set_isRead true n) Hid eq_refl) as Hcount.
    cbn [set_isRead Notification.userId Notification.isRead negb] in Hcount.
    rewrite andb_false_r, Hu, Z.eqb_refl in Hcount. cbn [andb] in Hcount.
    destruct (Notification.isRead n); cbn [negb] in Hcount; lia. }
  split.
  { unfold NotificationsService.getUnreadCount.
    rewrite (select_where_fmap_length
               (fun n => (Notification.userId n =? uid)
                         && negb (Notification.isRead n)) _ ns _ Hmap).
    assert (select_where
              (fun _ n =>
                 (Notification.userId
                    (if Notification.userId n =? uid
                     then set_isRead true n else n) =? uid)
                 && negb (Notification.isRead
                            (if Notification.userId n =? uid
                             then set_isRead true n else n))) ns = []) as ->;
      [|done].
    apply select_where_nil. intros k n _.
    destruct (Notification.userId n =? uid) eqn:Hu; [|by rewrite Hu].
    cbn [set_isRead Notification.isRead negb]. apply andb_false_r. }
  split; [exact Hall|]. split.
  { intros uid' Hne. unfold NotificationsService.getUnreadCount.
    rewrite (select_where_fmap_length
               (fun n => (Notification.userId n =? uid')
                         && negb (Notification.isRead n)) _ ns _ Hmap).
    f_equal. apply select_where_ext. intros _ n.
    destruct (Z.eqb_spec (Notification.userId n) uid) as [Hu|Hu]; [|done].
    cbn [set_isRead Notification.userId Notification.isRead].
    destruct (Z.eqb_spec (Notification.userId n) uid'); [congruence|done]. }
  unfold NotificationsService.findAll, NotificationsService.getUnreadCount.
  cbn [snd]. rewrite newest_first_Permutation. f_equal.
  apply select_where_ext. intros _ n. unfold NotificationsService.matches.
  cbn [NotificationFilterDto.isRead NotificationFilterDto.type
       NotificationFilterDto.priority].
  rewrite !andb_true_r. by destruct (Notification.isRead n).
Qed.
